(** * Hotspice energy engine: a shallow embedding of [hotspice/energies.py]

    The development follows the Python source class by class:
    - [xnum]: the array element type (IEEE-style numbers without rounding);
    - [Np]: the handful of numpy / scipy.signal array primitives the source uses;
    - [Magnets]: the host lattice object read by every energy contribution;
    - [Energy], [Zeeman], [Dipolar], [Exchange]: the classes of the source;
    - the theorems about them.

    Numbers.  The source computes with binary64 floats.  Here every finite float
    is an exact rational ([Qc], canonical rationals with Leibniz equality), and
    the special values [inf], [-inf] and [nan] are kept as constructors with the
    IEEE rules for them.  Rounding, overflow and signed zeros are not modelled:
    "equal within floating tolerance" is read as equality of the exact values.
    The transcendental functions ([**] with a float exponent, [cos], [sin]) are
    supplied by a [libm] record, as the C library supplies them to numpy. *)

From Stdlib Require Import List ZArith QArith Qcanon Qround Qpower Lia Bool Arith PeanoNat.
Import ListNotations.

Set Implicit Arguments.
Close Scope Q_scope.
Close Scope Qc_scope.
Open Scope nat_scope.

(** ** Scalars *)

Inductive xnum : Type :=
| Fin (q : Qc)
| PInf
| NInf
| NaN.

Definition q0 : Qc := Q2Qc 0.
Definition q1 : Qc := Q2Qc 1.
Definition q2 : Qc := Q2Qc 2.
Definition q3 : Qc := Q2Qc 3.
(** [1e-7], the value of mu_0/4Pi used by the dipolar kernels. *)
Definition q1e_7 : Qc := Q2Qc (1 # 10000000).

Definition xzero : xnum := Fin q0.
Definition xone : xnum := Fin q1.
Definition xtwo : xnum := Fin q2.
Definition xthree : xnum := Fin q3.
Definition xm1 : xnum := Fin (- q1)%Qc.
Definition xm2 : xnum := Fin (- q2)%Qc.

Definition is_fin (a : xnum) : Prop :=
  match a with Fin _ => True | _ => False end.

Definition is_finb (a : xnum) : bool :=
  match a with Fin _ => true | _ => false end.

(** The rational value of a finite number (0 for the special values). *)
Definition fval (a : xnum) : Qc :=
  match a with Fin q => q | _ => q0 end.

(** Python's [a == b] on floats: [nan] equals nothing. *)
Definition xeq (a b : xnum) : bool :=
  match a, b with
  | Fin p, Fin q => Qc_eq_bool p q
  | PInf, PInf | NInf, NInf => true
  | _, _ => false
  end.

(** Structural equality test, used to compare computed arrays. *)
Definition xnum_eqb (a b : xnum) : bool :=
  match a, b with
  | Fin p, Fin q => Qc_eq_bool p q
  | PInf, PInf | NInf, NInf | NaN, NaN => true
  | _, _ => false
  end.

Definition xneg (a : xnum) : xnum :=
  match a with
  | Fin q => Fin (- q)%Qc
  | PInf => NInf
  | NInf => PInf
  | NaN => NaN
  end.

Definition xadd (a b : xnum) : xnum :=
  match a, b with
  | Fin p, Fin q => Fin (p + q)%Qc
  | NaN, _ | _, NaN => NaN
  | PInf, NInf | NInf, PInf => NaN
  | PInf, _ | _, PInf => PInf
  | NInf, _ | _, NInf => NInf
  end.

Definition xsub (a b : xnum) : xnum := xadd a (xneg b).

(** Sign of an infinite product: [s] is the sign of the infinite operand
    ([true] for positive), [c] the comparison of the finite one with 0. *)
Definition inf_times (s : bool) (c : comparison) : xnum :=
  match c with
  | Eq => NaN
  | Gt => if s then PInf else NInf
  | Lt => if s then NInf else PInf
  end.

Definition xmul (a b : xnum) : xnum :=
  match a, b with
  | Fin p, Fin q => Fin (p * q)%Qc
  | NaN, _ | _, NaN => NaN
  | PInf, PInf | NInf, NInf => PInf
  | PInf, NInf | NInf, PInf => NInf
  | PInf, Fin q | Fin q, PInf => inf_times true (q ?= q0)%Qc
  | NInf, Fin q | Fin q, NInf => inf_times false (q ?= q0)%Qc
  end.

Definition xdiv (a b : xnum) : xnum :=
  match a, b with
  | NaN, _ | _, NaN => NaN
  | Fin p, Fin q =>
      match (q ?= q0)%Qc with
      | Eq => inf_times true (p ?= q0)%Qc
      | _ => Fin (p / q)%Qc
      end
  | Fin _, _ => xzero
  | PInf, Fin q => match (q ?= q0)%Qc with Lt => NInf | _ => PInf end
  | NInf, Fin q => match (q ?= q0)%Qc with Lt => PInf | _ => NInf end
  | _, _ => NaN
  end.

(** [a**2] on an array is an elementwise square. *)
Definition xsq (a : xnum) : xnum := xmul a a.

(** The part of the C math library the source reaches through numpy.
    [rpow b e] is [b**e] for a finite base [b > 0]; the only fact about it
    that the kernels rely on is that it is positive. *)
Record libm : Type := {
  rpow : Qc -> Qc -> Qc;
  rcos : Qc -> Qc;
  rsin : Qc -> Qc;
  rpow_pos : forall b e : Qc, (q0 < b)%Qc -> (q0 < rpow b e)%Qc
}.

Definition is_integer (e : Qc) : bool := Pos.eqb (Qden e) 1.
Definition is_odd_integer (e : Qc) : bool := is_integer e && Z.odd (Qnum e).

Section Pow.
Variable L : libm.

(** [b ** e] for a float exponent [e], after C's [pow]. *)
Definition xpow (b : xnum) (e : Qc) : xnum :=
  match (e ?= q0)%Qc with
  | Eq => xone
  | ce =>
      match b with
      | NaN => NaN
      | PInf => match ce with Lt => xzero | _ => PInf end
      | NInf => match ce with
                | Lt => xzero
                | _ => if is_odd_integer e then NInf else PInf
                end
      | Fin q =>
          match (q ?= q0)%Qc with
          | Eq => match ce with Lt => PInf | _ => xzero end
          | Gt => Fin (rpow L q e)
          | Lt => if is_integer e
                  then (if is_odd_integer e
                        then Fin (- rpow L (- q) e)%Qc
                        else Fin (rpow L (- q) e))
                  else NaN
          end
      end
  end.

Definition xcos (a : xnum) : xnum :=
  match a with Fin q => Fin (rcos L q) | _ => NaN end.
Definition xsin (a : xnum) : xnum :=
  match a with Fin q => Fin (rsin L q) | _ => NaN end.
End Pow.

(** ** Exceptions *)

Inductive exn : Type := IndexError.

Inductive result (A : Type) : Type :=
| Ok (a : A)
| Raise (e : exn).
Arguments Ok {A} a.
Arguments Raise {A} e.

Definition bind {A B} (m : result A) (k : A -> result B) : result B :=
  match m with
  | Ok a => k a
  | Raise e => Raise e
  end.

Notation "x <- m ;; k" := (bind m (fun x => k))
  (at level 61, m at next level, right associativity).

(** ** Arrays *)

Module Np.

(** A 2D array is the list of its rows. *)
Definition grid (A : Type) : Type := list (list A).

Section Generic.
Context {A : Type}.
Variable d : A.

Definition get (g : grid A) (i j : nat) : A := nth j (nth i g []) d.

Definition nrows (g : grid A) : nat := length g.
Definition ncols (g : grid A) : nat :=
  match g with [] => 0 | r :: _ => length r end.

Definition shaped (ny nx : nat) (g : grid A) : Prop :=
  length g = ny /\ Forall (fun r => length r = nx) g.

Definition tabulate (ny nx : nat) (f : nat -> nat -> A) : grid A :=
  map (fun i => map (fun j => f i j) (seq 0 nx)) (seq 0 ny).

Definition in_shape (g : grid A) (i j : nat) : bool :=
  (i <? nrows g) && (j <? ncols g).
End Generic.

(** [g[y, x] = v] *)
Definition put {A} (d : A) (g : grid A) (y x : nat) (v : A) : grid A :=
  tabulate (nrows g) (ncols g)
    (fun i j => if (i =? y) && (j =? x) then v else get d g i j).

(** Positions of a 2 x N integer index array, one pair [(y, x)] per column. *)
Definition indices := list (nat * nat).

Definition pos_eqb (p q : nat * nat) : bool :=
  (fst p =? fst q) && (snd p =? snd q).

Definition mem_pos (p : nat * nat) (l : indices) : bool := existsb (pos_eqb p) l.

Definition xget := get xzero.

Definition zeros (ny nx : nat) : grid xnum := tabulate ny nx (fun _ _ => xzero).
Definition zeros_like {A} (g : grid A) : grid xnum := zeros (nrows g) (ncols g).

(** Elementwise operations on arrays of one shape. *)
Definition map2 (f : xnum -> xnum -> xnum) (a b : grid xnum) : grid xnum :=
  tabulate (nrows a) (ncols a) (fun i j => f (xget a i j) (xget b i j)).
Definition map1 (f : xnum -> xnum) (a : grid xnum) : grid xnum :=
  tabulate (nrows a) (ncols a) (fun i j => f (xget a i j)).

Definition add := map2 xadd.
Definition sub := map2 xsub.
Definition multiply := map2 xmul.
Definition neg := map1 xneg.
(** A scalar broadcast against an array, scalar on the left. *)
Definition scale (c : xnum) := map1 (xmul c).
(** An array minus a scalar. *)
Definition sub_scalar (a : grid xnum) (c : xnum) := map1 (fun v => xsub v c) a.

(** [xp.sum(a)]: all entries, row by row. *)
Definition sum_list (l : list xnum) : xnum := fold_right xadd xzero l.
Definition sum (a : grid xnum) : xnum := sum_list (concat a).

(** [a[ys, xs]] with integer index arrays: the selected entries in order;
    an index outside the array raises. *)
Definition take_at (a : grid xnum) (idx : indices) : result (list xnum) :=
  if forallb (fun p => in_shape a (fst p) (snd p)) idx
  then Ok (map (fun p => xget a (fst p) (snd p)) idx)
  else Raise IndexError.

(** [a[y, x]] with scalar indices. *)
Definition item (a : grid xnum) (y x : nat) : result xnum :=
  if in_shape a y x then Ok (xget a y x) else Raise IndexError.

(** [a[ys, xs] *= -1]: every selected entry is negated once, however often
    it is listed. *)
Definition negate_at (a : grid xnum) (idx : indices) : result (grid xnum) :=
  if forallb (fun p => in_shape a (fst p) (snd p)) idx
  then Ok (tabulate (nrows a) (ncols a)
             (fun i j => if mem_pos (i, j) idx
                         then xmul (xget a i j) xm1
                         else xget a i j))
  else Raise IndexError.

(** [a[y, x] *= -1] with scalar indices. *)
Definition negate_item (a : grid xnum) (y x : nat) : result (grid xnum) :=
  negate_at a [(y, x)].

(** [a[ys, xs] = b[ys, xs]] on an array [a] of the shape of [b]. *)
Definition scatter (a b : grid xnum) (idx : indices) : grid xnum :=
  tabulate (nrows a) (ncols a)
    (fun i j => if mem_pos (i, j) idx then xget b i j else xget a i j).

(** *** Basic slices

    [Fwd lo (Some hi)] is [lo:hi], [Fwd lo None] is [lo:], and [Rev s] is
    [s::-1]; all bounds are non-negative and are clipped to the axis. *)
Inductive slc : Type :=
| Fwd (lo : nat) (hi : option nat)
| Rev (s : nat).

Definition all : slc := Fwd 0 None.

Definition slc_len (n : nat) (s : slc) : nat :=
  match s with
  | Fwd lo None => n - lo
  | Fwd lo (Some hi) => Nat.min hi n - lo
  | Rev s => Nat.min (S s) n
  end.

(** Source position of the [k]-th element of the slice. *)
Definition slc_ix (n : nat) (s : slc) (k : nat) : nat :=
  match s with
  | Fwd lo _ => lo + k
  | Rev s => Nat.min s (n - 1) - k
  end.

(** Rank within the slice of position [i] of the axis, if selected. *)
Definition slc_find (n : nat) (s : slc) (i : nat) : option nat :=
  match s with
  | Fwd lo _ => if (lo <=? i) && (i <? lo + slc_len n s) then Some (i - lo) else None
  | Rev s => if (i <? slc_len n (Rev s)) then Some (Nat.min s (n - 1) - i) else None
  end.

(** [a[sy, sx]] *)
Definition slice (a : grid xnum) (sy sx : slc) : grid xnum :=
  tabulate (slc_len (nrows a) sy) (slc_len (ncols a) sx)
    (fun k l => xget a (slc_ix (nrows a) sy k) (slc_ix (ncols a) sx l)).

(** [a[sy, sx] = b] and [a[sy, sx] += b], for [b] of the shape of the slice. *)
Definition assign_with (op : xnum -> xnum -> xnum)
    (a : grid xnum) (sy sx : slc) (b : grid xnum) : grid xnum :=
  tabulate (nrows a) (ncols a)
    (fun i j =>
       match slc_find (nrows a) sy i, slc_find (ncols a) sx j with
       | Some k, Some l => op (xget a i j) (xget b k l)
       | _, _ => xget a i j
       end).
Definition assign := assign_with (fun _ v => v).
Definition add_assign := assign_with xadd.

(** [a[::-1, ::-1]] *)
Definition flip (a : grid xnum) : grid xnum :=
  tabulate (nrows a) (ncols a)
    (fun i j => xget a (nrows a - 1 - i) (ncols a - 1 - j)).

(** [a[y::sy, x::sx] = b[y::sy, x::sx]] on an array [a] of the shape of [b]. *)
Definition on_stride (o s i : nat) : bool := (o <=? i) && ((i - o) mod s =? 0).
Definition assign_strided (a b : grid xnum) (y sy x sx : nat) : grid xnum :=
  tabulate (nrows a) (ncols a)
    (fun i j => if on_stride y sy i && on_stride x sx j
                then xget b i j else xget a i j).

(** [xp.tile(a, (ry, rx))] *)
Definition tile (a : grid xnum) (ry rx : nat) : grid xnum :=
  tabulate (ry * nrows a) (rx * ncols a)
    (fun i j => xget a (i mod nrows a) (j mod ncols a)).

(** *** scipy.signal.convolve2d *)

Definition sum_upto (n : nat) (f : nat -> xnum) : xnum :=
  sum_list (map f (seq 0 n)).
Definition sum2_upto (ny nx : nat) (f : nat -> nat -> xnum) : xnum :=
  sum_upto ny (fun a => sum_upto nx (fun b => f a b)).

(** [mode='valid'], for [in1] at least as large as [in2] along both axes:
    the entries of the full convolution that need no padding. *)
Definition convolve2d_valid (in1 in2 : grid xnum) : grid xnum :=
  tabulate (nrows in1 - nrows in2 + 1) (ncols in1 - ncols in2 + 1)
    (fun i j =>
       sum2_upto (nrows in2) (ncols in2)
         (fun a b => xmul (xget in1 (i + (nrows in2 - 1) - a) (j + (ncols in2 - 1) - b))
                          (xget in2 a b))).

(** Entry [(i, j)] of [in1] padded with zeros ([boundary='fill']) or
    periodically ([boundary='wrap']); [i] and [j] may lie outside. *)
Definition padded (wrap : bool) (in1 : grid xnum) (i j : Z) : xnum :=
  let r := Z.of_nat (nrows in1) in
  let c := Z.of_nat (ncols in1) in
  if wrap
  then xget in1 (Z.to_nat (i mod r)) (Z.to_nat (j mod c))
  else if ((0 <=? i) && (i <? r) && (0 <=? j) && (j <? c))%Z
       then xget in1 (Z.to_nat i) (Z.to_nat j)
       else xzero.

(** [mode='same']: the part of the full convolution of the size of [in1],
    centred; [in2] has odd side lengths everywhere in the source. *)
Definition convolve2d_same (wrap : bool) (in1 in2 : grid xnum) : grid xnum :=
  tabulate (nrows in1) (ncols in1)
    (fun i j =>
       sum2_upto (nrows in2) (ncols in2)
         (fun a b =>
            xmul (padded wrap in1
                    (Z.of_nat (i + (nrows in2 - 1) / 2) - Z.of_nat a)
                    (Z.of_nat (j + (ncols in2 - 1) / 2) - Z.of_nat b))
                 (xget in2 a b))).

(** Comparison of computed arrays. *)
Definition row_eqb (r s : list xnum) : bool :=
  (length r =? length s) && forallb (fun p => xnum_eqb (fst p) (snd p)) (combine r s).
Definition grid_eqb (a b : grid xnum) : bool :=
  (length a =? length b) && forallb (fun p => row_eqb (fst p) (snd p)) (combine a b).

End Np.

Import Np.

(** ** utils.mirror4 *)

(** [mirror4(arr, negativex, negativey)]: the array is mirrored along its first
    row and column so that [arr[0,0]] lands in the middle of the result. *)
Definition mirror4 (arr : grid xnum) (negativex negativey : bool) : grid xnum :=
  let ny := nrows arr in
  let nx := ncols arr in
  let arr4 := zeros (2 * ny - 1) (2 * nx - 1) in
  let xp := if negativex then xm1 else xone in
  let yp := if negativey then xm1 else xone in
  let arr4 := assign arr4 (Fwd (ny - 1) None) (Fwd (nx - 1) None) arr in
  let arr4 := assign arr4 (Fwd (ny - 1) None) (Rev (nx - 1)) (scale xp arr) in
  let arr4 := assign arr4 (Rev (ny - 1)) (Fwd (nx - 1) None) (scale yp arr) in
  let arr4 := assign arr4 (Rev (ny - 1)) (Rev (nx - 1)) (scale (xmul xp yp) arr) in
  arr4.

(** ** The host lattice *)

Module Unitcell.
Record t : Type := { x : nat; y : nat }.
End Unitcell.

(** Modelled from the spec: the lattice object [Magnets] of [hotspice/core.py],
    which the energy classes read through [self.mm] and which is not part of the
    sources at hand.  Only the attributes that [energies.py] reads are kept:
    the sign grid [m], the per-site [moment], the coordinate grids [xx] and
    [yy], the two components of [orientation], the [occupation] mask, the
    repeating [unitcell], the flags [in_plane], [PBC] and [USE_PERP_ENERGY],
    the two tunables of [params], and the stencil that
    [_get_nearest_neighbors()] returns. *)
Module Magnets.
Record t : Type := {
  nx : nat;
  ny : nat;
  m : grid xnum;
  moment : grid xnum;
  xx : grid xnum;
  yy : grid xnum;
  in_plane : bool;
  orientation_x : grid xnum;
  orientation_y : grid xnum;
  occupation : grid xnum;
  unitcell : Unitcell.t;
  PBC : bool;
  USE_PERP_ENERGY : bool;
  SIMULTANEOUS_SWITCHES_CONVOLUTION_OR_SUM_CUTOFF : nat;
  REDUCED_KERNEL_SIZE : nat;
  nearest_neighbors : grid xnum
}.
End Magnets.
Import Magnets.

(** The lattice with another sign grid. *)
Definition with_m (mm : Magnets.t) (m' : grid xnum) : Magnets.t :=
  {| nx := nx mm; ny := ny mm; m := m'; moment := moment mm;
     xx := xx mm; yy := yy mm; in_plane := in_plane mm;
     orientation_x := orientation_x mm; orientation_y := orientation_y mm;
     occupation := occupation mm; unitcell := unitcell mm; PBC := PBC mm;
     USE_PERP_ENERGY := USE_PERP_ENERGY mm;
     SIMULTANEOUS_SWITCHES_CONVOLUTION_OR_SUM_CUTOFF :=
       SIMULTANEOUS_SWITCHES_CONVOLUTION_OR_SUM_CUTOFF mm;
     REDUCED_KERNEL_SIZE := REDUCED_KERNEL_SIZE mm;
     nearest_neighbors := nearest_neighbors mm |}.

(** The lattice with other values of the two tunables of [params]. *)
Definition with_params (mm : Magnets.t) (cutoff reduced : nat) : Magnets.t :=
  {| nx := nx mm; ny := ny mm; m := m mm; moment := moment mm;
     xx := xx mm; yy := yy mm; in_plane := in_plane mm;
     orientation_x := orientation_x mm; orientation_y := orientation_y mm;
     occupation := occupation mm; unitcell := unitcell mm; PBC := PBC mm;
     USE_PERP_ENERGY := USE_PERP_ENERGY mm;
     SIMULTANEOUS_SWITCHES_CONVOLUTION_OR_SUM_CUTOFF := cutoff;
     REDUCED_KERNEL_SIZE := reduced;
     nearest_neighbors := nearest_neighbors mm |}.

(** What the switching scheduler does to the lattice before it calls an
    update: [mm.m[ys, xs] *= -1]. *)
Definition switch (idx : indices) (mm : Magnets.t) : result Magnets.t :=
  m' <- negate_at (m mm) idx ;; Ok (with_m mm m').

(** First column [(index2D[0,0], index2D[1,0])] of an index array. *)
Definition first_column (index2D : indices) : result (nat * nat) :=
  match index2D with
  | [] => Raise IndexError
  | p :: _ => Ok p
  end.

(** ** class ZeemanEnergy *)

Module Zeeman.

Record t : Type := {
  mm : Magnets.t;
  E : grid xnum;
  E_perp : grid xnum;
  magnitude : grid xnum;
  angle : grid xnum;
  E_factor : grid xnum;
  E_factor_perp : grid xnum
}.

Definition update (s : t) : t :=
  {| mm := mm s;
     E := multiply (m (mm s)) (E_factor s);
     E_perp := if USE_PERP_ENERGY (mm s)
               then multiply (m (mm s)) (E_factor_perp s)
               else E_perp s;
     magnitude := magnitude s; angle := angle s;
     E_factor := E_factor s; E_factor_perp := E_factor_perp s |}.

Section WithLibm.
Variable L : libm.

Definition set_field (magnitude' angle' : option (grid xnum)) (s : t) : t :=
  let magnitude := match magnitude' with Some v => v | None => magnitude s end in
  let angle := match angle' with Some v => v | None => angle s end in
  let mm := mm s in
  let s' :=
    if in_plane mm then
      let B_ext0 := multiply magnitude (map1 (xcos L) angle) in
      let B_ext1 := multiply magnitude (map1 (xsin L) angle) in
      {| mm := mm; E := E s; E_perp := E_perp s;
         magnitude := magnitude; angle := angle;
         E_factor :=
           multiply (neg (moment mm))
             (add (multiply B_ext0 (orientation_x mm))
                  (multiply B_ext1 (orientation_y mm)));
         E_factor_perp :=
           multiply (neg (moment mm))
             (sub (multiply B_ext1 (orientation_x mm))
                  (multiply B_ext0 (orientation_y mm))) |}
    else
      let B_ext := magnitude in
      {| mm := mm; E := E s; E_perp := E_perp s;
         magnitude := magnitude; angle := angle;
         E_factor := multiply (neg (moment mm)) B_ext;
         E_factor_perp := zeros_like (m mm) |}
  in update s'.

Definition _initialize (s : t) : t :=
  set_field (Some (magnitude s)) (Some (angle s)) s.

(** [ZeemanEnergy(magnitude, angle)] followed by [initialize(mm)]. *)
Definition initialize (magnitude angle : grid xnum) (mm : Magnets.t) : t :=
  let s := {| mm := mm; E := zeros_like (m mm); E_perp := zeros_like (m mm);
              magnitude := magnitude; angle := angle;
              E_factor := []; E_factor_perp := [] |} in
  update (_initialize s).
End WithLibm.

Definition with_E (s : t) (E' E_perp' : grid xnum) : t :=
  {| mm := mm s; E := E'; E_perp := E_perp';
     magnitude := magnitude s; angle := angle s;
     E_factor := E_factor s; E_factor_perp := E_factor_perp s |}.

Definition with_mm (mm' : Magnets.t) (s : t) : t :=
  {| mm := mm'; E := E s; E_perp := E_perp s;
     magnitude := magnitude s; angle := angle s;
     E_factor := E_factor s; E_factor_perp := E_factor_perp s |}.

Definition update_multiple (indices2D : indices) (s : t) : result t :=
  E' <- negate_at (E s) indices2D ;;
  E_perp' <- (if USE_PERP_ENERGY (mm s)
              then negate_at (E_perp s) indices2D
              else Ok (E_perp s)) ;;
  Ok (with_E s E' E_perp').

Definition update_single (index2D : indices) (s : t) : result t :=
  p <- first_column index2D ;;
  E' <- negate_item (E s) (fst p) (snd p) ;;
  E_perp' <- (if USE_PERP_ENERGY (mm s)
              then negate_item (E_perp s) (fst p) (snd p)
              else Ok (E_perp s)) ;;
  Ok (with_E s E' E_perp').

Definition E_tot (s : t) : xnum := sum (E s).

End Zeeman.

(** ** class DipolarEnergy *)

Module Dipolar.

Record t : Type := {
  mm : Magnets.t;
  E : grid xnum;
  E_perp : grid xnum;
  prefactor : xnum;
  decay_exponent : Qc;
  unitcell : Unitcell.t;
  (** unitcell (y,x) -> kernel (i); -1 where the unit cell holds no magnet *)
  kernel_unitcell_indices : grid Z;
  kernel_unitcell : list (grid xnum);
  kernel_perpself_unitcell : list (grid xnum);
  kernel_perpother_unitcell : list (grid xnum)
}.

Definition with_E (s : t) (E' E_perp' : grid xnum) : t :=
  {| mm := mm s; E := E'; E_perp := E_perp';
     prefactor := prefactor s; decay_exponent := decay_exponent s;
     unitcell := unitcell s;
     kernel_unitcell_indices := kernel_unitcell_indices s;
     kernel_unitcell := kernel_unitcell s;
     kernel_perpself_unitcell := kernel_perpself_unitcell s;
     kernel_perpother_unitcell := kernel_perpother_unitcell s |}.

Definition with_mm (mm' : Magnets.t) (s : t) : t :=
  {| mm := mm'; E := E s; E_perp := E_perp s;
     prefactor := prefactor s; decay_exponent := decay_exponent s;
     unitcell := unitcell s;
     kernel_unitcell_indices := kernel_unitcell_indices s;
     kernel_unitcell := kernel_unitcell s;
     kernel_perpself_unitcell := kernel_perpself_unitcell s;
     kernel_perpother_unitcell := kernel_perpother_unitcell s |}.

(** The cells [(y, x)] of the unit cell in the order of the two nested
    [for] loops. *)
Definition unitcell_positions (u : Unitcell.t) : list (nat * nat) :=
  list_prod (seq 0 (Unitcell.y u)) (seq 0 (Unitcell.x u)).

Definition kernel_index (s : t) (y x : nat) : Z :=
  get (-1)%Z (kernel_unitcell_indices s) y x.

(** The dipole-dipole formula that [_initialize] writes out three times,
    for the orientations [(ox1, oy1)] of the central magnet and
    [(ox2, oy2)] of all others. *)
Definition dd_kernel (ox1 oy1 : xnum) (ox2 oy2 ux uy rinv3 : grid xnum)
  : grid xnum :=
  let kernel1 :=
    multiply (scale ox1 ox2) (sub_scalar (scale xthree (map1 xsq ux)) xone) in
  let kernel2 :=
    multiply (scale oy1 oy2) (sub_scalar (scale xthree (map1 xsq uy)) xone) in
  let kernel3 :=
    multiply (scale xthree (multiply ux uy))
             (add (scale ox1 oy2) (scale oy1 ox2)) in
  multiply (neg (add (add kernel1 kernel2) kernel3)) rinv3.

(** [apply_PBC(k)]: the eight neighbouring copies of the simulation are
    folded onto the kernel. *)
Definition apply_PBC (mm : Magnets.t) (k : grid xnum) : grid xnum :=
  let nx := nx mm in
  let ny := ny mm in
  let kopy := k in
  let k := add_assign k all (Fwd nx None)
             (slice kopy all (Fwd 0 (Some (nx - 1)))) in
  let k := add_assign k (Fwd ny None) (Fwd nx None)
             (slice kopy (Fwd 0 (Some (ny - 1))) (Fwd 0 (Some (nx - 1)))) in
  let k := add_assign k (Fwd ny None) all
             (slice kopy (Fwd 0 (Some (ny - 1))) all) in
  let k := add_assign k (Fwd ny None) (Fwd 0 (Some (nx - 1)))
             (slice kopy (Fwd 0 (Some (ny - 1))) (Fwd nx None)) in
  let k := add_assign k all (Fwd 0 (Some (nx - 1)))
             (slice kopy all (Fwd nx None)) in
  let k := add_assign k (Fwd 0 (Some (ny - 1))) (Fwd 0 (Some (nx - 1)))
             (slice kopy (Fwd ny None) (Fwd nx None)) in
  let k := add_assign k (Fwd 0 (Some (ny - 1))) all
             (slice kopy (Fwd ny None) all) in
  let k := add_assign k (Fwd 0 (Some (ny - 1))) (Fwd nx None)
             (slice kopy (Fwd ny None) (Fwd 0 (Some (nx - 1)))) in
  k.

(** [math.ceil(a/b)] for positive integers. *)
Definition ceil_div (a b : nat) : nat := (a + b - 1) / b.

Section WithLibm.
Variable L : libm.

(** The four-mirrored distance matrix and the normalised directions. *)
Definition rr_inv (mm : Magnets.t) : grid xnum :=
  let rrx := sub_scalar (xx mm) (xget (xx mm) 0 0) in
  let rry := sub_scalar (yy mm) (xget (yy mm) 0 0) in
  let rr_sq := add (map1 xsq rrx) (map1 xsq rry) in
  let rr_sq := assign rr_sq (Fwd 0 (Some 1)) (Fwd 0 (Some 1)) [[PInf]] in
  map1 (fun a => xpow L a (Q2Qc (-1 # 2))) rr_sq.

Definition rinv3 (mm : Magnets.t) (decay_exponent : Qc) : grid xnum :=
  let rr_inv3 := map1 (fun a => xpow L a (- decay_exponent)%Qc) (rr_inv mm) in
  mirror4 rr_inv3 false false.

Definition ux (mm : Magnets.t) : grid xnum :=
  let rrx := sub_scalar (xx mm) (xget (xx mm) 0 0) in
  mirror4 (multiply rrx (rr_inv mm)) true false.

Definition uy (mm : Magnets.t) : grid xnum :=
  let rry := sub_scalar (yy mm) (xget (yy mm) 0 0) in
  mirror4 (multiply rry (rr_inv mm)) false true.

(** The three kernels of the unit-cell position [(y, x)], or [None] where
    the loop body hits [continue] because the cell is empty. *)
Definition cell_kernels (mm : Magnets.t) (decay_exponent : Qc) (y x : nat)
  : option (grid xnum * grid xnum * grid xnum) :=
  let u := Magnets.unitcell mm in
  let nx := nx mm in
  let ny := ny mm in
  let rinv3 := rinv3 mm decay_exponent in
  let ux := ux mm in
  let uy := uy mm in
  let num_unitcells_x := 2 * ceil_div nx (Unitcell.x u) + 1 in
  let num_unitcells_y := 2 * ceil_div ny (Unitcell.y u) + 1 in
  let slice_startx :=
    (Unitcell.x u - ((nx - 1) mod Unitcell.x u) + x) mod Unitcell.x u in
  let slice_starty :=
    (Unitcell.y u - ((ny - 1) mod Unitcell.y u) + y) mod Unitcell.y u in
  let window (a : grid xnum) :=
    slice a (Fwd slice_starty (Some (slice_starty + 2 * ny - 1)))
            (Fwd slice_startx (Some (slice_startx + 2 * nx - 1))) in
  let fold (k : grid xnum) := if PBC mm then apply_PBC mm k else k in
  let finish (k : grid xnum) := map1 (fun a => xmul a (Fin q1e_7)) (fold k) in
  if in_plane mm then
    let unitcell_ox :=
      slice (orientation_x mm) (Fwd 0 (Some (Unitcell.y u)))
            (Fwd 0 (Some (Unitcell.x u))) in
    let unitcell_oy :=
      slice (orientation_y mm) (Fwd 0 (Some (Unitcell.y u)))
            (Fwd 0 (Some (Unitcell.x u))) in
    let toolargematrix_ox := tile unitcell_ox num_unitcells_y num_unitcells_x in
    let toolargematrix_oy := tile unitcell_oy num_unitcells_y num_unitcells_x in
    let ox1 := xget unitcell_ox y x in
    let oy1 := xget unitcell_oy y x in
    if xeq ox1 oy1 && xeq oy1 xzero then None
    else
      let ox2 := window toolargematrix_ox in
      let oy2 := window toolargematrix_oy in
      let kernel := dd_kernel ox1 oy1 ox2 oy2 ux uy rinv3 in
      let ox1_perp := xneg oy1 in
      let oy1_perp := ox1 in
      let kernel_perpself := dd_kernel ox1_perp oy1_perp ox2 oy2 ux uy rinv3 in
      let ox2_perp := neg oy2 in
      let oy2_perp := ox2 in
      let kernel_perpother := dd_kernel ox1 oy1 ox2_perp oy2_perp ux uy rinv3 in
      Some (finish kernel, finish kernel_perpself, finish kernel_perpother)
  else
    let unitcell_o :=
      slice (occupation mm) (Fwd 0 (Some (Unitcell.y u)))
            (Fwd 0 (Some (Unitcell.x u))) in
    let toolargematrix_o := tile unitcell_o num_unitcells_y num_unitcells_x in
    let o1 := xget unitcell_o y x in
    if xeq o1 xzero then None
    else
      let o2 := window toolargematrix_o in
      let kernel := multiply o2 rinv3 in
      let kernel_perpself := zeros_like kernel in
      let kernel_perpother := zeros_like kernel in
      Some (finish kernel, finish kernel_perpself, finish kernel_perpother).

(** One pass of the body of the two nested loops of [_initialize]. *)
Definition _initialize_step (s : t) (p : nat * nat) : t :=
  match cell_kernels (mm s) (decay_exponent s) (fst p) (snd p) with
  | None => s
  | Some (kernel, kernel_perpself, kernel_perpother) =>
      {| mm := mm s; E := E s; E_perp := E_perp s;
         prefactor := prefactor s; decay_exponent := decay_exponent s;
         unitcell := unitcell s;
         kernel_unitcell_indices :=
           put (-1)%Z (kernel_unitcell_indices s) (fst p) (snd p)
               (Z.of_nat (length (kernel_unitcell s)));
         kernel_unitcell := kernel_unitcell s ++ [kernel];
         kernel_perpself_unitcell :=
           kernel_perpself_unitcell s ++ [kernel_perpself];
         kernel_perpother_unitcell :=
           kernel_perpother_unitcell s ++ [kernel_perpother] |}
  end.

Definition _initialize (s : t) : t :=
  let u := Magnets.unitcell (mm s) in
  let s0 :=
    {| mm := mm s; E := E s; E_perp := E_perp s;
       prefactor := prefactor s; decay_exponent := decay_exponent s;
       unitcell := u;
       kernel_unitcell_indices :=
         tabulate (Unitcell.y u) (Unitcell.x u) (fun _ _ => (-1)%Z);
       kernel_unitcell := [];
       kernel_perpself_unitcell := [];
       kernel_perpother_unitcell := [] |} in
  fold_left _initialize_step (unitcell_positions u) s0.
End WithLibm.

(** One pass of the body of the two nested loops of [update], on the pair
    [(total_energy, total_energy_perp)]. *)
Definition update_step (s : t) (acc : grid xnum * grid xnum) (p : nat * nat)
  : grid xnum * grid xnum :=
  let n := kernel_index s (fst p) (snd p) in
  if (n <? 0)%Z then acc
  else
    let mm := mm s in
    let mmoment := multiply (m mm) (moment mm) in
    let partial_m :=
      assign_strided (zeros_like (m mm)) (m mm)
        (fst p) (Unitcell.y (unitcell s)) (snd p) (Unitcell.x (unitcell s)) in
    let kernel := flip (nth (Z.to_nat n) (kernel_unitcell s) []) in
    let total_energy :=
      add (fst acc) (multiply partial_m (convolve2d_valid kernel mmoment)) in
    let total_energy_perp :=
      if USE_PERP_ENERGY mm then
        let kernel_perpself :=
          flip (nth (Z.to_nat n) (kernel_perpself_unitcell s) []) in
        add (snd acc) (multiply partial_m (convolve2d_valid kernel_perpself mmoment))
      else snd acc in
    (total_energy, total_energy_perp).

Definition update (s : t) : t :=
  let mm := mm s in
  let totals :=
    fold_left (update_step s) (unitcell_positions (unitcell s))
              (zeros_like (m mm), zeros_like (m mm)) in
  with_E s
    (multiply (scale (prefactor s) (moment mm)) (fst totals))
    (if USE_PERP_ENERGY mm
     then multiply (scale (prefactor s) (moment mm)) (snd totals)
     else E_perp s).

(** [kernel[ny-1-y:2*ny-1-y, nx-1-x:2*nx-1-x]]: the window of a kernel whose
    centre lies on the magnet at [(y, x)]. *)
Definition window_at (mm : Magnets.t) (kernel : grid xnum) (y x : nat) : grid xnum :=
  slice kernel (Fwd (ny mm - 1 - y) (Some (2 * ny mm - 1 - y)))
               (Fwd (nx mm - 1 - x) (Some (2 * nx mm - 1 - x))).

Definition update_single (index2D : indices) (s : t) : result t :=
  p <- first_column index2D ;;
  let y := fst p in
  let x := snd p in
  let x_unitcell := x mod Unitcell.x (unitcell s) in
  let y_unitcell := y mod Unitcell.y (unitcell s) in
  let n := kernel_index s y_unitcell x_unitcell in
  if (n <? 0)%Z then Ok s
  else
    let mm := mm s in
    let usefulkernel :=
      window_at mm (nth (Z.to_nat n) (kernel_unitcell s) []) y x in
    let mmoment := multiply (m mm) (moment mm) in
    c <- item mmoment y x ;;
    let interaction :=
      scale (xmul (prefactor s) c) (multiply mmoment usefulkernel) in
    E' <- negate_item (add (E s) (scale xtwo interaction)) y x ;;
    if USE_PERP_ENERGY mm then
      let usefulkernel_perp :=
        window_at mm (nth (Z.to_nat n) (kernel_perpother_unitcell s) []) y x in
      let interaction_perp :=
        scale (xmul (prefactor s) c) (multiply mmoment usefulkernel_perp) in
      E_perp' <- negate_item (add (E_perp s) (scale xtwo interaction_perp)) y x ;;
      Ok (with_E s E' E_perp')
    else Ok (with_E s E' (E_perp s)).

(** Position of [(y, x)] in the raveled unit cell. *)
Definition ravel_unitcell (u : Unitcell.t) (p : nat * nat) : nat :=
  snd p mod Unitcell.x u + (fst p mod Unitcell.y u) * Unitcell.x u.

(** The [convolvedkernel] of the branch that convolves once. *)
Definition convolved_by_convolution (mm : Magnets.t) (kernel : grid xnum)
    (indices2D_here : indices) : grid xnum :=
  let switched_field := scatter (zeros_like (m mm)) (m mm) indices2D_here in
  let k := REDUCED_KERNEL_SIZE mm in
  let kx := Nat.min k (nx mm - 1) in
  let ky := Nat.min k (ny mm - 1) in
  let usefulkernel :=
    if k =? 0 then kernel
    else slice kernel (Fwd (ny mm - 1 - ky) (Some (ny mm + ky)))
                      (Fwd (nx mm - 1 - kx) (Some (nx mm + kx))) in
  convolve2d_same (PBC mm) switched_field usefulkernel.

(** The [convolvedkernel] of the branch that sums the windows one by one. *)
Definition convolved_by_sum (mm : Magnets.t) (kernel : grid xnum)
    (indices2D_here : indices) : grid xnum :=
  let mmoment := multiply (m mm) (moment mm) in
  fold_left
    (fun convolvedkernel p =>
       add convolvedkernel
           (scale (xget mmoment (fst p) (snd p))
                  (window_at mm kernel (fst p) (snd p))))
    indices2D_here (zeros_like (m mm)).

Definition convolved (mm : Magnets.t) (kernel : grid xnum)
    (indices2D_here : indices) : grid xnum :=
  if SIMULTANEOUS_SWITCHES_CONVOLUTION_OR_SUM_CUTOFF mm <? length indices2D_here
  then convolved_by_convolution mm kernel indices2D_here
  else convolved_by_sum mm kernel indices2D_here.

(** One pass of the loop of [update_multiple] over the unit-cell indices
    present in [indices2D], on the pair [(E, E_perp)]. *)
Definition update_multiple_step (s : t) (indices2D : indices)
    (acc : grid xnum * grid xnum) (i : nat) : grid xnum * grid xnum :=
  let u := unitcell s in
  let mm := mm s in
  let y_unitcell := i / Unitcell.x u in
  let x_unitcell := i mod Unitcell.x u in
  let n := kernel_index s y_unitcell x_unitcell in
  if (n <? 0)%Z then acc
  else
    let mmoment := multiply (m mm) (moment mm) in
    let kernel := nth (Z.to_nat n) (kernel_unitcell s) [] in
    let indices2D_here :=
      filter (fun p => ravel_unitcell u p =? i) indices2D in
    let interaction :=
      scale (prefactor s) (multiply mmoment (convolved mm kernel indices2D_here)) in
    let E' := add (fst acc) (scale xtwo interaction) in
    let E_perp' :=
      if USE_PERP_ENERGY mm then
        let kernel_perp := nth (Z.to_nat n) (kernel_perpother_unitcell s) [] in
        let interaction_perp :=
          scale (prefactor s)
                (multiply mmoment (convolved mm kernel_perp indices2D_here)) in
        add (snd acc) (scale xtwo interaction_perp)
      else snd acc in
    (E', E_perp').

(** [xp.bincount(a).nonzero()[0]]: the values present in [a], ascending. *)
Definition present (a : list nat) : list nat :=
  filter (fun i => existsb (Nat.eqb i) a) (seq 0 (S (list_max a))).

Definition update_multiple (indices2D : indices) (s : t) : result t :=
  E' <- negate_at (E s) indices2D ;;
  E_perp' <- (if USE_PERP_ENERGY (mm s)
              then negate_at (E_perp s) indices2D
              else Ok (E_perp s)) ;;
  let indices2D_unitcell_raveled := map (ravel_unitcell (unitcell s)) indices2D in
  let totals :=
    fold_left (update_multiple_step s indices2D)
              (present indices2D_unitcell_raveled) (E', E_perp') in
  Ok (with_E s (fst totals) (snd totals)).

Definition E_tot (s : t) : xnum := xdiv (sum (E s)) xtwo.

(** [DipolarEnergy(prefactor, decay_exponent)] followed by [initialize(mm)]. *)
Definition initialize (L : libm) (prefactor : xnum) (decay_exponent : Qc)
    (mm : Magnets.t) : t :=
  let s := {| mm := mm; E := zeros_like (m mm); E_perp := zeros_like (m mm);
              prefactor := prefactor; decay_exponent := decay_exponent;
              unitcell := Magnets.unitcell mm;
              kernel_unitcell_indices := [];
              kernel_unitcell := [];
              kernel_perpself_unitcell := [];
              kernel_perpother_unitcell := [] |} in
  update (_initialize L s).

End Dipolar.

(** ** class ExchangeEnergy *)

Module Exchange.

Record t : Type := {
  mm : Magnets.t;
  E : grid xnum;
  E_perp : grid xnum;
  J : xnum;
  local_interaction : grid xnum
}.

Definition with_mm (mm' : Magnets.t) (s : t) : t :=
  {| mm := mm'; E := E s; E_perp := E_perp s; J := J s;
     local_interaction := local_interaction s |}.

Definition _initialize (s : t) : t :=
  {| mm := mm s; E := E s; E_perp := E_perp s; J := J s;
     local_interaction := nearest_neighbors (mm s) |}.

Definition update (s : t) : t :=
  let mm := mm s in
  let conv a := convolve2d_same (PBC mm) a (local_interaction s) in
  if in_plane mm then
    let mx := multiply (orientation_x mm) (m mm) in
    let my := multiply (orientation_y mm) (m mm) in
    let sum_mx := conv mx in
    let sum_my := conv my in
    {| mm := mm;
       E := scale (xneg (J s)) (add (multiply sum_mx mx) (multiply sum_my my));
       E_perp := if USE_PERP_ENERGY mm
                 then scale (xneg (J s))
                        (sub (multiply sum_my mx) (multiply sum_mx my))
                 else E_perp s;
       J := J s; local_interaction := local_interaction s |}
  else
    {| mm := mm;
       E := scale (xneg (J s)) (multiply (conv (m mm)) (m mm));
       E_perp := if USE_PERP_ENERGY mm then zeros_like (m mm) else E_perp s;
       J := J s; local_interaction := local_interaction s |}.

Definition update_single (index2D : indices) (s : t) : result t := Ok (update s).

Definition update_multiple (indices2D : indices) (s : t) : result t := Ok (update s).

Definition E_tot (s : t) : xnum := xdiv (sum (E s)) xtwo.

(** [ExchangeEnergy(J)] followed by [initialize(mm)]. *)
Definition initialize (J : xnum) (mm : Magnets.t) : t :=
  let s := {| mm := mm; E := zeros_like (m mm); E_perp := zeros_like (m mm);
              J := J; local_interaction := [] |} in
  update (_initialize s).

End Exchange.

(** ** class Energy

    The abstract base class: what every contribution provides, and the one
    method, [energy_switch], that the base class implements for all of them. *)

Module Energy.

Class t (S : Type) : Type := {
  mm : S -> Magnets.t;
  with_mm : Magnets.t -> S -> S;
  E : S -> grid xnum;
  E_perp : S -> grid xnum;
  update : S -> S;
  update_single : indices -> S -> result S;
  update_multiple : indices -> S -> result S;
  E_tot : S -> xnum
}.

(** What a method hands back: a 2D array or a 1D array. *)
Inductive ndarray : Type :=
| Arr2 (a : grid xnum)
| Arr1 (a : list xnum).

(** Methods act on [self]; a method is a function from the object before the
    call to its return value and the object after the call. *)
Definition energy_switch {S} `{t S} (indices2D : option indices) (self : S)
  : result (ndarray * S) :=
  match indices2D with
  | None => Ok (Arr2 (scale xm2 (E self)), self)
  | Some idx =>
      picked <- take_at (E self) idx ;;
      Ok (Arr1 (map (xmul xm2) picked), self)
  end.

End Energy.

#[export] Instance Zeeman_Energy : Energy.t Zeeman.t := {|
  Energy.mm := Zeeman.mm;
  Energy.with_mm := Zeeman.with_mm;
  Energy.E := Zeeman.E;
  Energy.E_perp := Zeeman.E_perp;
  Energy.update := Zeeman.update;
  Energy.update_single := Zeeman.update_single;
  Energy.update_multiple := Zeeman.update_multiple;
  Energy.E_tot := Zeeman.E_tot
|}.

#[export] Instance Dipolar_Energy : Energy.t Dipolar.t := {|
  Energy.mm := Dipolar.mm;
  Energy.with_mm := Dipolar.with_mm;
  Energy.E := Dipolar.E;
  Energy.E_perp := Dipolar.E_perp;
  Energy.update := Dipolar.update;
  Energy.update_single := Dipolar.update_single;
  Energy.update_multiple := Dipolar.update_multiple;
  Energy.E_tot := Dipolar.E_tot
|}.

#[export] Instance Exchange_Energy : Energy.t Exchange.t := {|
  Energy.mm := Exchange.mm;
  Energy.with_mm := Exchange.with_mm;
  Energy.E := Exchange.E;
  Energy.E_perp := Exchange.E_perp;
  Energy.update := Exchange.update;
  Energy.update_single := Exchange.update_single;
  Energy.update_multiple := Exchange.update_multiple;
  Energy.E_tot := Exchange.E_tot
|}.

(** ** Switching histories

    What a simulation does to a contribution: the scheduler flips one magnet
    or a batch of magnets in the lattice, then asks the contribution to
    follow. *)

Inductive switching : Type :=
| Single (index2D : indices)
| Multiple (indices2D : indices).

Definition follow {S} `{Energy.t S} (sw : switching) (self : S) : result S :=
  match sw with
  | Single index2D =>
      p <- first_column index2D ;;
      mm' <- switch [p] (Energy.mm self) ;;
      Energy.update_single index2D (Energy.with_mm mm' self)
  | Multiple indices2D =>
      mm' <- switch indices2D (Energy.mm self) ;;
      Energy.update_multiple indices2D (Energy.with_mm mm' self)
  end.

Fixpoint follow_all {S} `{Energy.t S} (history : list switching) (self : S)
  : result S :=
  match history with
  | [] => Ok self
  | sw :: rest => self' <- follow sw self ;; follow_all rest self'
  end.

(** ** Vocabulary of the statements *)

(** The rational value of an entry, and arrays without [inf] or [nan]. *)
Definition qget (g : grid xnum) (i j : nat) : Qc := fval (xget g i j).
Definition finite (g : grid xnum) : Prop := forall i j, is_fin (xget g i j).

(** An array of the given shape whose entries are all finite. *)
Definition fin_shaped (ny nx : nat) (g : grid xnum) : Prop :=
  shaped ny nx g /\ finite g.

(** Sums of rationals over index ranges. *)
Definition qsum_upto (n : nat) (f : nat -> Qc) : Qc :=
  fold_right Qcplus q0 (map f (seq 0 n)).
Definition qsum2_upto (ny nx : nat) (f : nat -> nat -> Qc) : Qc :=
  qsum_upto ny (fun a => qsum_upto nx (fun b => f a b)).

(** Distance of position [k] from the centre [n - 1] of an axis of length
    [2 * n - 1], and the sign that [mirror4] gives to that side of the axis. *)
Definition dist (n k : nat) : nat := if k <? n - 1 then n - 1 - k else k - (n - 1).
Definition qsgn (negative : bool) (n k : nat) : Qc :=
  if negative && (k <=? n - 1) then (- q1)%Qc else q1.

(** *** Well-formed lattices

    The conditions are decidable, so they are written as tests that can be
    run on a given lattice. *)

Definition fin_shapedb (ny nx : nat) (g : grid xnum) : bool :=
  (length g =? ny)
  && forallb (fun r => (length r =? nx) && forallb is_finb r) g.

Definition all_below (n : nat) (P : nat -> bool) : bool := forallb P (seq 0 n).

Definition qX (mm : Magnets.t) (a b : nat) : Qc :=
  (qget (xx mm) a b - qget (xx mm) 0 0)%Qc.
Definition qY (mm : Magnets.t) (a b : nat) : Qc :=
  (qget (yy mm) a b - qget (yy mm) 0 0)%Qc.
Definition qrr_sq (mm : Magnets.t) (a b : nat) : Qc :=
  (qX mm a b * qX mm a b + qY mm a b * qY mm a b)%Qc.

Definition is_gt (c : comparison) : bool :=
  match c with Gt => true | _ => false end.

(** The lattice has at least one site, all its arrays have the shape of the
    lattice and hold finite numbers, the unit cell is not empty and fits in
    the lattice, and no site lies on top of the site at the origin. *)
Definition lattice_okb (mm : Magnets.t) : bool :=
  let u := Magnets.unitcell mm in
  (0 <? ny mm) && (0 <? nx mm)
  && fin_shapedb (ny mm) (nx mm) (m mm)
  && fin_shapedb (ny mm) (nx mm) (moment mm)
  && fin_shapedb (ny mm) (nx mm) (xx mm)
  && fin_shapedb (ny mm) (nx mm) (yy mm)
  && fin_shapedb (ny mm) (nx mm) (orientation_x mm)
  && fin_shapedb (ny mm) (nx mm) (orientation_y mm)
  && fin_shapedb (ny mm) (nx mm) (occupation mm)
  && (0 <? Unitcell.y u) && (Unitcell.y u <=? ny mm)
  && (0 <? Unitcell.x u) && (Unitcell.x u <=? nx mm)
  && all_below (ny mm) (fun a =>
       all_below (nx mm) (fun b =>
         ((a =? 0) && (b =? 0)) || is_gt (qrr_sq mm a b ?= q0)%Qc)).

(** The coordinates come from a rectangular mesh (the first column of [xx]
    and the first row of [yy] are constant), an occupation mask holds zeros
    and ones, and a periodic lattice is a whole number of unit cells. *)
Definition regular_okb (mm : Magnets.t) : bool :=
  let u := Magnets.unitcell mm in
  all_below (ny mm) (fun a => Qc_eq_bool (qget (xx mm) a 0) (qget (xx mm) 0 0))
  && all_below (nx mm) (fun b => Qc_eq_bool (qget (yy mm) 0 b) (qget (yy mm) 0 0))
  && (in_plane mm
      || all_below (Unitcell.y u) (fun y =>
           all_below (Unitcell.x u) (fun x =>
             Qc_eq_bool (qget (occupation mm) y x) q0
             || Qc_eq_bool (qget (occupation mm) y x) q1)))
  && (negb (PBC mm)
      || ((ny mm mod Unitcell.y u =? 0) && (nx mm mod Unitcell.x u =? 0))).

(** The same conditions as propositions. *)
Record lattice_ok (mm : Magnets.t) : Prop := {
  ok_ny : 0 < ny mm;
  ok_nx : 0 < nx mm;
  ok_m : fin_shaped (ny mm) (nx mm) (m mm);
  ok_moment : fin_shaped (ny mm) (nx mm) (moment mm);
  ok_xx : fin_shaped (ny mm) (nx mm) (xx mm);
  ok_yy : fin_shaped (ny mm) (nx mm) (yy mm);
  ok_ox : fin_shaped (ny mm) (nx mm) (orientation_x mm);
  ok_oy : fin_shaped (ny mm) (nx mm) (orientation_y mm);
  ok_occ : fin_shaped (ny mm) (nx mm) (occupation mm);
  ok_cy : 0 < Unitcell.y (Magnets.unitcell mm);
  ok_cy_le : Unitcell.y (Magnets.unitcell mm) <= ny mm;
  ok_cx : 0 < Unitcell.x (Magnets.unitcell mm);
  ok_cx_le : Unitcell.x (Magnets.unitcell mm) <= nx mm;
  ok_apart : forall a b, a < ny mm -> b < nx mm -> a <> 0 \/ b <> 0 ->
                         (q0 < qrr_sq mm a b)%Qc
}.

Record regular (mm : Magnets.t) : Prop := {
  reg_xx : forall a, a < ny mm -> qget (xx mm) a 0 = qget (xx mm) 0 0;
  reg_yy : forall b, b < nx mm -> qget (yy mm) 0 b = qget (yy mm) 0 0;
  reg_occ : in_plane mm = false ->
            forall y x, y < Unitcell.y (Magnets.unitcell mm) ->
                        x < Unitcell.x (Magnets.unitcell mm) ->
                        qget (occupation mm) y x = q0 \/ qget (occupation mm) y x = q1;
  reg_pbc : PBC mm = true ->
            ny mm mod Unitcell.y (Magnets.unitcell mm) = 0
            /\ nx mm mod Unitcell.x (Magnets.unitcell mm) = 0
}.

(** *** The kernels in closed form *)

Section ClosedForm.
Variable L : libm.
Variable mm : Magnets.t.
(** minus the decay exponent: the power to which 1/r is raised *)
Variable e : Qc.

Definition q_rr_inv (a b : nat) : Qc :=
  if (a =? 0) && (b =? 0) then q0 else rpow L (qrr_sq mm a b) (Q2Qc (-1 # 2)).

Definition q_rr_inv3 (a b : nat) : Qc :=
  if (a =? 0) && (b =? 0) then q0 else rpow L (q_rr_inv a b) e.

Definition q_rinv3 (i j : nat) : Qc :=
  q_rr_inv3 (dist (ny mm) i) (dist (nx mm) j).

Definition q_ux (i j : nat) : Qc :=
  (qsgn true (nx mm) j
   * (qX mm (dist (ny mm) i) (dist (nx mm) j)
      * q_rr_inv (dist (ny mm) i) (dist (nx mm) j)))%Qc.

Definition q_uy (i j : nat) : Qc :=
  (qsgn true (ny mm) i
   * (qY mm (dist (ny mm) i) (dist (nx mm) j)
      * q_rr_inv (dist (ny mm) i) (dist (nx mm) j)))%Qc.

(** The dipole-dipole formula on rationals. *)
Definition qdd (o1x o1y o2x o2y ux uy r : Qc) : Qc :=
  (- (o1x * o2x * (q3 * (ux * ux) - q1)
      + o1y * o2y * (q3 * (uy * uy) - q1)
      + q3 * (ux * uy) * (o1x * o2y + o1y * o2x)) * r)%Qc.

(** Unit-cell position of the magnet that entry [i] of the kernel of the
    cell position [y] speaks about, along an axis of [n] sites with a unit
    cell of length [c]. *)
Definition cell_seen (c n y i : nat) : nat :=
  ((c - (n - 1) mod c + y) mod c + i) mod c.

Inductive kind : Type := Normal | PerpSelf | PerpOther.

(** A kernel before the periodic copies are folded in. *)
Definition q_kernel0 (k : kind) (y x i j : nat) : Qc :=
  let u := Magnets.unitcell mm in
  let y2 := cell_seen (Unitcell.y u) (ny mm) y i in
  let x2 := cell_seen (Unitcell.x u) (nx mm) x j in
  if in_plane mm then
    let o1x := qget (orientation_x mm) y x in
    let o1y := qget (orientation_y mm) y x in
    let o2x := qget (orientation_x mm) y2 x2 in
    let o2y := qget (orientation_y mm) y2 x2 in
    match k with
    | Normal => qdd o1x o1y o2x o2y (q_ux i j) (q_uy i j) (q_rinv3 i j)
    | PerpSelf => qdd (- o1y)%Qc o1x o2x o2y (q_ux i j) (q_uy i j) (q_rinv3 i j)
    | PerpOther => qdd o1x o1y (- o2y)%Qc o2x (q_ux i j) (q_uy i j) (q_rinv3 i j)
    end
  else
    match k with
    | Normal => (qget (occupation mm) y2 x2 * q_rinv3 i j)%Qc
    | _ => q0
    end.

(** Entries of a kernel that the periodic fold adds up at entry [i]. *)
Definition images (n i : nat) : list nat :=
  if n <=? i then [i; i - n]
  else if i + 1 <? n then [i; i + n]
  else [i].

Definition qsum_list (l : list Qc) : Qc := fold_right Qcplus q0 l.

Definition q_folded (K : nat -> nat -> Qc) (i j : nat) : Qc :=
  qsum_list (map (fun a => qsum_list (map (fun b => K a b) (images (nx mm) j)))
                 (images (ny mm) i)).

Definition q_kernel (k : kind) (y x i j : nat) : Qc :=
  ((if PBC mm then q_folded (q_kernel0 k y x) i j else q_kernel0 k y x i j)
   * q1e_7)%Qc.

(** The unit-cell position holds a magnet. *)
Definition occupied (y x : nat) : bool :=
  if in_plane mm
  then negb (xeq (xget (orientation_x mm) y x) (xget (orientation_y mm) y x)
             && xeq (xget (orientation_y mm) y x) xzero)
  else negb (xeq (xget (occupation mm) y x) xzero).

Definition kernel_grid (k : kind) (y x : nat) : grid xnum :=
  tabulate (2 * ny mm - 1) (2 * nx mm - 1) (fun i j => Fin (q_kernel k y x i j)).
End ClosedForm.

(** *** What [_initialize] leaves in a dipolar contribution

    [kernels_upto L s done]: the positions of the unit cell in [done] that hold
    a magnet have their three kernels cached in [s], in closed form, under the
    kernel index recorded for the position; every other position has kernel
    index -1. *)
Definition kernels_upto (L : libm) (s : Dipolar.t) (done : list (nat * nat)) : Prop :=
  let mm := Dipolar.mm s in
  let e := (- Dipolar.decay_exponent s)%Qc in
  Dipolar.unitcell s = Magnets.unitcell mm
  /\ shaped (Unitcell.y (Magnets.unitcell mm)) (Unitcell.x (Magnets.unitcell mm))
            (Dipolar.kernel_unitcell_indices s)
  /\ length (Dipolar.kernel_perpself_unitcell s) = length (Dipolar.kernel_unitcell s)
  /\ length (Dipolar.kernel_perpother_unitcell s) = length (Dipolar.kernel_unitcell s)
  /\ Forall (fun k => exists y x, k = kernel_grid L mm e Normal y x)
            (Dipolar.kernel_unitcell s)
  /\ Forall (fun k => exists y x, k = kernel_grid L mm e PerpSelf y x)
            (Dipolar.kernel_perpself_unitcell s)
  /\ Forall (fun k => exists y x, k = kernel_grid L mm e PerpOther y x)
            (Dipolar.kernel_perpother_unitcell s)
  /\ forall y x,
       y < Unitcell.y (Magnets.unitcell mm) -> x < Unitcell.x (Magnets.unitcell mm) ->
       (In (y, x) done -> occupied mm y x = true ->
        exists n,
          n < length (Dipolar.kernel_unitcell s)
          /\ Dipolar.kernel_index s y x = Z.of_nat n
          /\ nth n (Dipolar.kernel_unitcell s) [] = kernel_grid L mm e Normal y x
          /\ nth n (Dipolar.kernel_perpself_unitcell s) []
             = kernel_grid L mm e PerpSelf y x
          /\ nth n (Dipolar.kernel_perpother_unitcell s) []
             = kernel_grid L mm e PerpOther y x)
       /\ (~ In (y, x) done \/ occupied mm y x = false ->
           Dipolar.kernel_index s y x = (-1)%Z).

Definition kernels_built (L : libm) (s : Dipolar.t) : Prop :=
  kernels_upto L s (Dipolar.unitcell_positions (Dipolar.unitcell s)).

(** *** The energies in closed form *)

Definition qsum_over {A} (l : list A) (f : A -> Qc) : Qc := qsum_list (map f l).

Section Energies.
Variable L : libm.
Variable mm : Magnets.t.
Variable e : Qc.
Variable pref : Qc.

(** Magnetic moment of a site, sign included. *)
Definition q_mm (a b : nat) : Qc := (qget (m mm) a b * qget (moment mm) a b)%Qc.

(** Entry of the kernel of the cell position [(y, x)] that a magnet at
    [(i, j)] uses for the magnet at [(a, b)]. *)
Definition q_pair (k : kind) (y x i j a b : nat) : Qc :=
  q_kernel L mm e k y x (ny mm - 1 + a - i) (nx mm - 1 + b - j).

(** What [convolve2d(kernel[::-1,::-1], mmoment, mode='valid')] holds at
    [(i, j)] for the kernel of the cell position [(y, x)]. *)
Definition q_conv (k : kind) (y x i j : nat) : Qc :=
  qsum2_upto (ny mm) (nx mm) (fun a b => q_pair k y x i j a b * q_mm a b)%Qc.

(** What one pass of the loop of [update] adds to [total_energy]. *)
Definition q_contrib (k : kind) (p : nat * nat) (i j : nat) : Qc :=
  let u := Magnets.unitcell mm in
  if occupied mm (fst p) (snd p)
  then ((if on_stride (fst p) (Unitcell.y u) i && on_stride (snd p) (Unitcell.x u) j
         then qget (m mm) i j else q0)
        * q_conv k (fst p) (snd p) i j)%Qc
  else q0.

(** The energy of the magnet at [(i, j)] that a full recomputation finds. *)
Definition q_energy (k : kind) (i j : nat) : Qc :=
  let u := Magnets.unitcell mm in
  let y := i mod Unitcell.y u in
  let x := j mod Unitcell.x u in
  if occupied mm y x
  then (pref * qget (moment mm) i j * (qget (m mm) i j * q_conv k y x i j))%Qc
  else q0.
End Energies.

(** A dipolar contribution that [initialize] can have produced for its
    lattice, whatever its energies are at the moment. *)
Definition dipolar_ok (L : libm) (s : Dipolar.t) : Prop :=
  lattice_ok (Dipolar.mm s)
  /\ (Dipolar.decay_exponent s < q0)%Qc
  /\ is_fin (Dipolar.prefactor s)
  /\ kernels_built L s.

(** The kernel that speaks about a pair of magnets from the other side: the
    central magnet of one is the other magnet of the other. *)
Definition mate (k : kind) : kind :=
  match k with
  | Normal => Normal
  | PerpSelf => PerpOther
  | PerpOther => PerpSelf
  end.

(** The sign grid after the magnets at [idx] have switched. *)
Definition switched (m : grid xnum) (idx : indices) : grid xnum :=
  tabulate (nrows m) (ncols m)
    (fun i j => if mem_pos (i, j) idx then xmul (xget m i j) xm1 else xget m i j).

(** The sites of an index array lie in the lattice. *)
Definition in_lattice (mm : Magnets.t) (idx : indices) : Prop :=
  Forall (fun p => fst p < ny mm /\ snd p < nx mm) idx.

Definition in_latticeb (mm : Magnets.t) (idx : indices) : bool :=
  forallb (fun p => (fst p <? ny mm) && (snd p <? nx mm)) idx.

(** The unit-cell position of a site holds a magnet. *)
Definition occupied_site (mm : Magnets.t) (p : nat * nat) : bool :=
  occupied mm (fst p mod Unitcell.y (Magnets.unitcell mm))
              (snd p mod Unitcell.x (Magnets.unitcell mm)).

(** The energies that the contribution holds are the ones that a full
    recomputation finds for the lattice as it is. *)
Definition consistent {S} `{Energy.t S} (self : S) : Prop :=
  Energy.E self = Energy.E (Energy.update self)
  /\ Energy.E_perp self = Energy.E_perp (Energy.update self).

(** Twice the interaction of the site [(i', j')] with the switched magnet
    at [p], read from the kernel of [p]: what a switch of [p] adds to the
    energy of [(i', j')]. *)
Definition q_gain (L : libm) (s : Dipolar.t) (k : kind) (i' j' : nat)
    (p : nat * nat) : Qc :=
  let mm := Dipolar.mm s in
  let u := unitcell mm in
  if occupied_site mm p
  then (q2 * (fval (Dipolar.prefactor s)
              * (q_mm mm i' j'
                 * (q_mm mm (fst p) (snd p)
                    * q_pair L mm (- Dipolar.decay_exponent s) k
                        (fst p mod Unitcell.y u) (snd p mod Unitcell.x u)
                        (fst p) (snd p) i' j'))))%Qc
  else q0.

(** *** Histories of switches *)

(** No site is listed twice. *)
Fixpoint nodupb (idx : indices) : bool :=
  match idx with
  | [] => true
  | p :: rest => negb (mem_pos p rest) && nodupb rest
  end.

(** The sites of a batch that sit at position [i] of the unit cell: the
    [indices2D_here] of [update_multiple]. *)
Definition group (mm : Magnets.t) (idx : indices) (i : nat) : indices :=
  filter (fun p => Dipolar.ravel_unitcell (unitcell mm) p =? i) idx.

Definition unit_moments (mm : Magnets.t) (here : indices) : bool :=
  forallb (fun p => Qc_eq_bool (qget (moment mm) (fst p) (snd p)) q1) here.

(** A group whose contribution [update_multiple] computes without loss:
    either it is small enough to be summed window by window, or it is
    convolved with the whole kernel, on open boundaries, and its magnets have
    unit moment. *)
Definition summed_exactly (mm : Magnets.t) (here : indices) : bool :=
  (length here <=? SIMULTANEOUS_SWITCHES_CONVOLUTION_OR_SUM_CUTOFF mm)
  || ((REDUCED_KERNEL_SIZE mm =? 0) && negb (PBC mm) && unit_moments mm here).

Definition exact_batch (mm : Magnets.t) (idx : indices) : bool :=
  forallb (fun i => summed_exactly mm (group mm idx i))
          (Dipolar.present (map (Dipolar.ravel_unitcell (unitcell mm)) idx)).

(** The magnets that a step of the scheduler switches. *)
Definition sites (sw : switching) : indices :=
  match sw with
  | Single [] => []
  | Single (p :: _) => [p]
  | Multiple idx => idx
  end.

(** A step that the scheduler may dispatch: its sites lie in the lattice. *)
Definition dispatchable (mm : Magnets.t) (sw : switching) : bool :=
  match sw with
  | Single [] => false
  | _ => in_latticeb mm (sites sw)
  end.

(** A step that a dipolar contribution follows without loss. *)
Definition admissible (mm : Magnets.t) (sw : switching) : bool :=
  dispatchable mm sw
  && match sw with
     | Single _ => true
     | Multiple idx => nodupb idx && exact_batch mm idx
     end.

(** The sign grid after a history of switches. *)
Fixpoint after (history : list switching) (m : grid xnum) : grid xnum :=
  match history with
  | [] => m
  | sw :: rest => after rest (switched m (sites sw))
  end.

(** *** Cached kernels *)

(** What a cached kernel should be: of the shape [(2*ny-1, 2*nx-1)], without
    [inf] or [nan], and zero at its centre, where a magnet would meet
    itself. *)
Definition kernel_sound (mm : Magnets.t) (K : grid xnum) : Prop :=
  fin_shaped (2 * ny mm - 1) (2 * nx mm - 1) K
  /\ xget K (ny mm - 1) (nx mm - 1) = xzero.

(** The site sits at a position of the unit cell for which the contribution
    holds no kernel: its kernel index is -1. *)
Definition unoccupied (s : Dipolar.t) (p : nat * nat) : bool :=
  (Dipolar.kernel_index s (fst p mod Unitcell.y (Dipolar.unitcell s))
                          (snd p mod Unitcell.x (Dipolar.unitcell s)) <? 0)%Z.

(** *** Contributions in use *)

(** The kernels that the contribution caches are the ones that
    [_initialize] computes for its lattice. *)
Definition initialized (L : libm) (s : Dipolar.t) : Prop :=
  let s' := Dipolar._initialize L s in
  Dipolar.unitcell s = Dipolar.unitcell s'
  /\ Dipolar.kernel_unitcell_indices s = Dipolar.kernel_unitcell_indices s'
  /\ Dipolar.kernel_unitcell s = Dipolar.kernel_unitcell s'
  /\ Dipolar.kernel_perpself_unitcell s = Dipolar.kernel_perpself_unitcell s'
  /\ Dipolar.kernel_perpother_unitcell s = Dipolar.kernel_perpother_unitcell s'.

(** The contribution after
    [mm.params.SIMULTANEOUS_SWITCHES_CONVOLUTION_OR_SUM_CUTOFF = cutoff]. *)
Definition with_cutoff (cutoff : nat) (s : Dipolar.t) : Dipolar.t :=
  Dipolar.with_mm
    (with_params (Dipolar.mm s) cutoff (REDUCED_KERNEL_SIZE (Dipolar.mm s))) s.

(** The scheduler switches the magnets of a batch one at a time. *)
Definition one_by_one (idx : indices) : list switching :=
  map (fun p => Single [p]) idx.

(** *** Calls on a contribution

    What can happen to a contribution after [initialize]: one of its three
    update methods is called, or the scheduler flips magnets in the lattice
    ([mm.m[ys, xs] *= -1]) that the contribution reads.  Here the calls come
    in any order, whether or not they report what the scheduler did. *)
Inductive call : Type :=
| Update
| UpdateSingle (index2D : indices)
| UpdateMultiple (indices2D : indices)
| Switch (idx : indices).

Definition perform {S} `{Energy.t S} (c : call) (self : S) : result S :=
  match c with
  | Update => Ok (Energy.update self)
  | UpdateSingle index2D => Energy.update_single index2D self
  | UpdateMultiple indices2D => Energy.update_multiple indices2D self
  | Switch idx =>
      mm' <- switch idx (Energy.mm self) ;; Ok (Energy.with_mm mm' self)
  end.

Fixpoint perform_all {S} `{Energy.t S} (calls : list call) (self : S) : result S :=
  match calls with
  | [] => Ok self
  | c :: rest => self' <- perform c self ;; perform_all rest self'
  end.

(** The sites that a call names lie in the lattice. *)
Definition in_range (mm : Magnets.t) (c : call) : bool :=
  match c with
  | Update => true
  | UpdateSingle [] => false
  | UpdateSingle (p :: _) => in_latticeb mm [p]
  | UpdateMultiple idx | Switch idx => in_latticeb mm idx
  end.

(** What holds of a contribution on an out-of-plane lattice all along: its
    arrays keep the shape of the lattice and its perpendicular energy is
    zero everywhere. *)
Definition zeeman_perp_zero (z : Zeeman.t) : Prop :=
  let mm := Zeeman.mm z in
  lattice_ok mm /\ in_plane mm = false
  /\ shaped (ny mm) (nx mm) (Zeeman.E z)
  /\ Zeeman.E_factor_perp z = zeros (ny mm) (nx mm)
  /\ Zeeman.E_perp z = zeros (ny mm) (nx mm).

Definition dipolar_perp_zero (L : libm) (d : Dipolar.t) : Prop :=
  let mm := Dipolar.mm d in
  dipolar_ok L d /\ in_plane mm = false
  /\ shaped (ny mm) (nx mm) (Dipolar.E d)
  /\ Dipolar.E_perp d = zeros (ny mm) (nx mm).

Definition exchange_perp_zero (e : Exchange.t) : Prop :=
  let mm := Exchange.mm e in
  lattice_ok mm /\ in_plane mm = false
  /\ Exchange.E_perp e = zeros (ny mm) (nx mm).

(** *** Cyclic shifts

    The array seen from the origin [(dy, dx)] of a periodic lattice:
    [xp.roll(a, (-dy, -dx), axis=(0, 1))]. *)
Definition shift (dy dx : nat) (g : grid xnum) : grid xnum :=
  tabulate (nrows g) (ncols g)
    (fun i j => xget g ((i + dy) mod nrows g) ((j + dx) mod ncols g)).

(** The lattice whose magnets, signs and moments, are seen from the origin
    [(dy, dx)]. *)
Definition shifted (mm : Magnets.t) (dy dx : nat) : Magnets.t :=
  {| nx := nx mm; ny := ny mm;
     m := shift dy dx (m mm); moment := shift dy dx (moment mm);
     xx := xx mm; yy := yy mm; in_plane := in_plane mm;
     orientation_x := orientation_x mm; orientation_y := orientation_y mm;
     occupation := occupation mm; unitcell := unitcell mm; PBC := PBC mm;
     USE_PERP_ENERGY := USE_PERP_ENERGY mm;
     SIMULTANEOUS_SWITCHES_CONVOLUTION_OR_SUM_CUTOFF :=
       SIMULTANEOUS_SWITCHES_CONVOLUTION_OR_SUM_CUTOFF mm;
     REDUCED_KERNEL_SIZE := REDUCED_KERNEL_SIZE mm;
     nearest_neighbors := nearest_neighbors mm |}.

(** *** The lattice seen from another origin *)

(** The lattice seen from the origin [(dy, dx)]: every array that holds one
    entry per site is shifted; the coordinate grids stay those of the mesh. *)
Definition translated (mm : Magnets.t) (dy dx : nat) : Magnets.t :=
  {| nx := nx mm; ny := ny mm;
     m := shift dy dx (m mm); moment := shift dy dx (moment mm);
     xx := xx mm; yy := yy mm; in_plane := in_plane mm;
     orientation_x := shift dy dx (orientation_x mm);
     orientation_y := shift dy dx (orientation_y mm);
     occupation := shift dy dx (occupation mm);
     unitcell := unitcell mm; PBC := PBC mm;
     USE_PERP_ENERGY := USE_PERP_ENERGY mm;
     SIMULTANEOUS_SWITCHES_CONVOLUTION_OR_SUM_CUTOFF :=
       SIMULTANEOUS_SWITCHES_CONVOLUTION_OR_SUM_CUTOFF mm;
     REDUCED_KERNEL_SIZE := REDUCED_KERNEL_SIZE mm;
     nearest_neighbors := nearest_neighbors mm |}.

(** The orientations and the occupation of the lattice repeat with the unit
    cell. *)
Definition cell_periodicb (mm : Magnets.t) : bool :=
  let u := unitcell mm in
  let same (g : grid xnum) (i j : nat) :=
    Qc_eq_bool (qget g i j) (qget g (i mod Unitcell.y u) (j mod Unitcell.x u)) in
  all_below (ny mm) (fun i =>
    all_below (nx mm) (fun j =>
      same (orientation_x mm) i j && same (orientation_y mm) i j
      && same (occupation mm) i j)).

Definition repeats (mm : Magnets.t) (g : grid xnum) : Prop :=
  forall i j, i < ny mm -> j < nx mm ->
    qget g i j = qget g (i mod Unitcell.y (unitcell mm)) (j mod Unitcell.x (unitcell mm)).

Record cell_periodic (mm : Magnets.t) : Prop := {
  per_ox : repeats mm (orientation_x mm);
  per_oy : repeats mm (orientation_y mm);
  per_occ : repeats mm (occupation mm)
}.

(** *** Looking up kernels *)

(** The kernel that [update_single] picks from one of the three lists of
    cached kernels for the site [p]: the one under the kernel index of the
    position of [p] in the unit cell. *)
Definition kernel_of (d : Dipolar.t) (kernels : list (grid xnum)) (p : nat * nat)
  : grid xnum :=
  nth (Z.to_nat (Dipolar.kernel_index d
                   (fst p mod Unitcell.y (Dipolar.unitcell d))
                   (snd p mod Unitcell.x (Dipolar.unitcell d))))
      kernels [].

(** The contribution with another prefactor and other energies, its kernels
    kept. *)
Definition with_prefactor (d : Dipolar.t) (prefactor' : xnum)
    (E' E_perp' : grid xnum) : Dipolar.t :=
  {| Dipolar.mm := Dipolar.mm d; Dipolar.E := E'; Dipolar.E_perp := E_perp';
     Dipolar.prefactor := prefactor';
     Dipolar.decay_exponent := Dipolar.decay_exponent d;
     Dipolar.unitcell := Dipolar.unitcell d;
     Dipolar.kernel_unitcell_indices := Dipolar.kernel_unitcell_indices d;
     Dipolar.kernel_unitcell := Dipolar.kernel_unitcell d;
     Dipolar.kernel_perpself_unitcell := Dipolar.kernel_perpself_unitcell d;
     Dipolar.kernel_perpother_unitcell := Dipolar.kernel_perpother_unitcell d |}.

(** *** The prefactor setter *)


(** *** Reversal *)

(** The lattice with every magnet switched. *)
Definition all_switched (mm : Magnets.t) : Magnets.t := with_m mm (neg (m mm)).

(** ** Sample inputs

    A small math library and a few small lattices on which the definitions
    above can be run. *)

Module Sample.

(** Square root, exact on squares of integers and their quotients. *)
Definition qsqrt (q : Q) : Q :=
  Z.max 1 (Z.sqrt (Qnum q)) # Pos.sqrt (Qden q).

(** [b ** e], exact for an integer [e]; through [qsqrt] otherwise. *)
Definition pow (b e : Qc) : Qc :=
  if is_integer e then Q2Qc (Qpower b (Qnum e))
  else Q2Qc (Qpower (qsqrt b) (Qfloor (2 * e))).

Definition cos (a : Qc) : Qc := (q1 - a * a / q2)%Qc.
Definition sin (a : Qc) : Qc := a.

Lemma pow_pos (b e : Qc) : (q0 < b)%Qc -> (q0 < pow b e)%Qc.
Proof.
  intros Hb. unfold pow, Qclt, q0.
  destruct (is_integer e); unfold Q2Qc, this; rewrite !Qred_correct;
    apply Qpower_0_lt.
  - exact Hb.
  - unfold qsqrt, Qlt. simpl. lia.
Qed.

Definition math : libm :=
  {| rpow := pow; rcos := cos; rsin := sin; rpow_pos := pow_pos |}.

Definition of_Z (z : Z) : xnum := Fin (Q2Qc (inject_Z z)).
Definition of_Zs (g : list (list Z)) : grid xnum := map (map of_Z) g.

(** A 2 x 3 out-of-plane lattice with open boundaries and unit spacing. *)
Definition oop_2x3 : Magnets.t := {|
  nx := 3; ny := 2;
  m := of_Zs [[1; -1; 1]; [1; 1; -1]]%Z;
  moment := of_Zs [[1; 2; 1]; [1; 1; 3]]%Z;
  xx := of_Zs [[0; 1; 2]; [0; 1; 2]]%Z;
  yy := of_Zs [[0; 0; 0]; [1; 1; 1]]%Z;
  in_plane := false;
  orientation_x := zeros 2 3;
  orientation_y := zeros 2 3;
  occupation := of_Zs [[1; 1; 1]; [1; 1; 1]]%Z;
  Magnets.unitcell := {| Unitcell.x := 1; Unitcell.y := 1 |};
  PBC := false;
  USE_PERP_ENERGY := true;
  SIMULTANEOUS_SWITCHES_CONVOLUTION_OR_SUM_CUTOFF := 20;
  REDUCED_KERNEL_SIZE := 0;
  nearest_neighbors := of_Zs [[0; 1; 0]; [1; 0; 1]; [0; 1; 0]]%Z
|}.

(** A 2 x 4 in-plane lattice with a 2 x 2 unit cell: horizontal magnets on
    one diagonal of the cell, vertical ones on the other. *)
Definition ip_2x4 (periodic : bool) : Magnets.t := {|
  nx := 4; ny := 2;
  m := of_Zs [[1; -1; 1; 1]; [1; 1; -1; 1]]%Z;
  moment := of_Zs [[1; 2; 1; 1]; [1; 1; 3; 1]]%Z;
  xx := of_Zs [[0; 1; 2; 3]; [0; 1; 2; 3]]%Z;
  yy := of_Zs [[0; 0; 0; 0]; [1; 1; 1; 1]]%Z;
  in_plane := true;
  orientation_x := of_Zs [[1; 0; 1; 0]; [0; 1; 0; 1]]%Z;
  orientation_y := of_Zs [[0; 1; 0; 1]; [1; 0; 1; 0]]%Z;
  occupation := of_Zs [[1; 1; 1; 1]; [1; 1; 1; 1]]%Z;
  Magnets.unitcell := {| Unitcell.x := 2; Unitcell.y := 2 |};
  PBC := periodic;
  USE_PERP_ENERGY := true;
  SIMULTANEOUS_SWITCHES_CONVOLUTION_OR_SUM_CUTOFF := 20;
  REDUCED_KERNEL_SIZE := 0;
  nearest_neighbors := of_Zs [[0; 1; 0]; [1; 0; 1]; [0; 1; 0]]%Z
|}.

(** A row of four out-of-plane magnets of unit moment, one per unit cell. *)
Definition oop_1x4 (periodic : bool) : Magnets.t := {|
  nx := 4; ny := 1;
  m := of_Zs [[1; 1; 1; 1]]%Z;
  moment := of_Zs [[1; 1; 1; 1]]%Z;
  xx := of_Zs [[0; 1; 2; 3]]%Z;
  yy := of_Zs [[0; 0; 0; 0]]%Z;
  in_plane := false;
  orientation_x := zeros 1 4;
  orientation_y := zeros 1 4;
  occupation := of_Zs [[1; 1; 1; 1]]%Z;
  Magnets.unitcell := {| Unitcell.x := 1; Unitcell.y := 1 |};
  PBC := periodic;
  USE_PERP_ENERGY := true;
  SIMULTANEOUS_SWITCHES_CONVOLUTION_OR_SUM_CUTOFF := 20;
  REDUCED_KERNEL_SIZE := 0;
  nearest_neighbors := of_Zs [[0; 1; 0]; [1; 0; 1]; [0; 1; 0]]%Z
|}.

(** A 2 x 4 out-of-plane checkerboard: a 2 x 2 unit cell that holds magnets
    on one diagonal only. *)
Definition oop_checker : Magnets.t := {|
  nx := 4; ny := 2;
  m := of_Zs [[1; 0; -1; 0]; [0; 1; 0; 1]]%Z;
  moment := of_Zs [[1; 1; 1; 1]; [1; 1; 1; 1]]%Z;
  xx := of_Zs [[0; 1; 2; 3]; [0; 1; 2; 3]]%Z;
  yy := of_Zs [[0; 0; 0; 0]; [1; 1; 1; 1]]%Z;
  in_plane := false;
  orientation_x := zeros 2 4;
  orientation_y := zeros 2 4;
  occupation := of_Zs [[1; 0; 1; 0]; [0; 1; 0; 1]]%Z;
  Magnets.unitcell := {| Unitcell.x := 2; Unitcell.y := 2 |};
  PBC := false;
  USE_PERP_ENERGY := true;
  SIMULTANEOUS_SWITCHES_CONVOLUTION_OR_SUM_CUTOFF := 20;
  REDUCED_KERNEL_SIZE := 0;
  nearest_neighbors := of_Zs [[0; 1; 0]; [1; 0; 1]; [0; 1; 0]]%Z
|}.

End Sample.

(** * Properties *)

(** ** Scalars *)

Lemma Qc_eq_bool_refl (q : Qc) : Qc_eq_bool q q = true.
Proof.
  unfold Qc_eq_bool. destruct (Qc_eq_dec q q); [reflexivity | congruence].
Qed.

Lemma Qc_eq_bool_iff (p q : Qc) : Qc_eq_bool p q = true <-> p = q.
Proof.
  split; [apply Qc_eq_bool_correct | intros ->; apply Qc_eq_bool_refl].
Qed.

Lemma xnum_eqb_eq (a b : xnum) : xnum_eqb a b = true <-> a = b.
Proof.
  destruct a, b; simpl; try (split; [discriminate | congruence]);
    try (split; reflexivity).
  rewrite Qc_eq_bool_iff. split; congruence.
Qed.

Lemma is_fin_fval (a : xnum) : is_fin a -> a = Fin (fval a).
Proof. destruct a; simpl; intros H; [reflexivity | contradiction ..]. Qed.

Lemma xadd_zero_l (a : xnum) : xadd xzero a = a.
Proof.
  destruct a; simpl; try reflexivity. f_equal. unfold q0. ring.
Qed.

Lemma xadd_zero_r (a : xnum) : xadd a xzero = a.
Proof.
  destruct a; simpl; try reflexivity. f_equal. unfold q0. ring.
Qed.

Lemma xadd_assoc (a b c : xnum) : xadd a (xadd b c) = xadd (xadd a b) c.
Proof.
  destruct a, b, c; simpl; try reflexivity. f_equal. ring.
Qed.

Lemma xadd_comm (a b : xnum) : xadd a b = xadd b a.
Proof.
  destruct a, b; simpl; try reflexivity. f_equal. ring.
Qed.

Lemma xmul_comm (a b : xnum) : xmul a b = xmul b a.
Proof.
  destruct a, b; simpl; try reflexivity. f_equal. ring.
Qed.

(** ** Arrays *)

Section GridFacts.
Context {A : Type}.
Variable d : A.

Lemma nrows_tabulate ny nx (f : nat -> nat -> A) : nrows (tabulate ny nx f) = ny.
Proof. unfold nrows, tabulate. now rewrite length_map, length_seq. Qed.

Lemma ncols_tabulate ny nx (f : nat -> nat -> A) :
  0 < ny -> ncols (tabulate ny nx f) = nx.
Proof.
  unfold ncols, tabulate. destruct ny as [|ny]; [lia|]. intros _.
  simpl. now rewrite length_map, length_seq.
Qed.

Lemma shaped_tabulate ny nx (f : nat -> nat -> A) : shaped ny nx (tabulate ny nx f).
Proof.
  split; [apply nrows_tabulate|].
  unfold tabulate. apply Forall_forall. intros r Hr.
  apply in_map_iff in Hr. destruct Hr as (i & <- & _).
  now rewrite length_map, length_seq.
Qed.

Lemma get_tabulate ny nx (f : nat -> nat -> A) i j :
  i < ny -> j < nx -> get d (tabulate ny nx f) i j = f i j.
Proof.
  intros Hi Hj. unfold get, tabulate.
  rewrite (nth_indep _ [] (map (fun j => f 0 j) (seq 0 nx)))
    by (now rewrite length_map, length_seq).
  rewrite (map_nth (fun i => map (fun j => f i j) (seq 0 nx)) (seq 0 ny) 0 i).
  rewrite seq_nth by assumption. simpl.
  rewrite (nth_indep _ d (f i 0)) by (now rewrite length_map, length_seq).
  rewrite (map_nth (fun j => f i j) (seq 0 nx) 0 j).
  now rewrite seq_nth.
Qed.

Lemma get_tabulate_outside ny nx (f : nat -> nat -> A) i j :
  ny <= i \/ nx <= j -> get d (tabulate ny nx f) i j = d.
Proof.
  intros H. unfold get, tabulate.
  destruct (Nat.lt_ge_cases i ny) as [Hi|Hi].
  - rewrite (nth_indep _ [] (map (fun j => f 0 j) (seq 0 nx)))
      by (now rewrite length_map, length_seq).
    rewrite (map_nth (fun i => map (fun j => f i j) (seq 0 nx)) (seq 0 ny) 0 i).
    apply nth_overflow. rewrite length_map, length_seq. lia.
  - rewrite (nth_overflow _ []) by (now rewrite length_map, length_seq).
    now destruct j.
Qed.

Lemma tabulate_ext ny nx (f g : nat -> nat -> A) :
  (forall i j, i < ny -> j < nx -> f i j = g i j) ->
  tabulate ny nx f = tabulate ny nx g.
Proof.
  intros H. unfold tabulate. apply map_ext_in. intros i Hi.
  apply map_ext_in. intros j Hj. apply in_seq in Hi, Hj. apply H; lia.
Qed.

Lemma shaped_nrows ny nx (g : grid A) : shaped ny nx g -> nrows g = ny.
Proof. now intros [H _]. Qed.

Lemma shaped_ncols ny nx (g : grid A) : shaped ny nx g -> 0 < ny -> ncols g = nx.
Proof.
  intros [Hl Hr] Hpos. destruct g as [|r g]; simpl in *; [lia|].
  now inversion Hr.
Qed.

Lemma tabulate_get ny nx (g : grid A) :
  shaped ny nx g -> tabulate ny nx (get d g) = g.
Proof.
  intros [Hl Hr]. unfold tabulate, get.
  apply (nth_ext _ _ [] []).
  - now rewrite length_map, length_seq.
  - intros i Hi. rewrite length_map, length_seq in Hi.
    rewrite (nth_indep _ [] (map (fun j => nth j (nth 0 g []) d) (seq 0 nx)))
      by (now rewrite length_map, length_seq).
    rewrite (map_nth (fun i => map (fun j => nth j (nth i g []) d) (seq 0 nx))
               (seq 0 ny) 0 i).
    rewrite seq_nth by assumption. simpl.
    assert (Hlen : length (nth i g []) = nx).
    { rewrite Forall_forall in Hr. apply Hr. apply nth_In. lia. }
    apply (nth_ext _ _ d d).
    + now rewrite length_map, length_seq.
    + intros j Hj. rewrite length_map, length_seq in Hj.
      rewrite (nth_indep _ d (nth 0 (nth i g []) d))
        by (now rewrite length_map, length_seq).
      rewrite (map_nth (fun j => nth j (nth i g []) d) (seq 0 nx) 0 j).
      now rewrite seq_nth.
Qed.

Lemma grid_ext ny nx (a b : grid A) :
  shaped ny nx a -> shaped ny nx b ->
  (forall i j, i < ny -> j < nx -> get d a i j = get d b i j) ->
  a = b.
Proof.
  intros Ha Hb H.
  rewrite <- (tabulate_get Ha), <- (tabulate_get Hb).
  now apply tabulate_ext.
Qed.
End GridFacts.
(** ** Sums *)

Lemma sum_list_app (l l' : list xnum) :
  sum_list (l ++ l') = xadd (sum_list l) (sum_list l').
Proof.
  unfold sum_list. induction l as [|a l IH]; cbn [app fold_right].
  - now rewrite xadd_zero_l.
  - now rewrite IH, xadd_assoc.
Qed.

Lemma map_nth_seq {A} (d : A) (l : list A) :
  map (fun j => nth j l d) (seq 0 (length l)) = l.
Proof.
  apply (nth_ext _ _ d d).
  - now rewrite length_map, length_seq.
  - intros j Hj. rewrite length_map, length_seq in Hj.
    rewrite (nth_indep _ d (nth 0 l d)) by (now rewrite length_map, length_seq).
    rewrite (map_nth (fun j => nth j l d) (seq 0 (length l)) 0 j).
    now rewrite seq_nth.
Qed.

Lemma sum_upto_ext n (f g : nat -> xnum) :
  (forall i, i < n -> f i = g i) -> sum_upto n f = sum_upto n g.
Proof.
  intros H. unfold sum_upto. f_equal. apply map_ext_in.
  intros i Hi. apply in_seq in Hi. apply H. lia.
Qed.

(** [xp.sum] adds up every entry of the array. *)
Lemma sum_entries ny nx (a : grid xnum) :
  shaped ny nx a -> sum a = sum2_upto ny nx (xget a).
Proof.
  intros [Hl Hr]. unfold sum, sum2_upto, sum_upto.
  rewrite <- (tabulate_get xzero (conj Hl Hr)) at 1. fold xget.
  unfold tabulate. clear Hl Hr.
  induction (seq 0 ny) as [|i l IH]; cbn [map concat]; [reflexivity|].
  rewrite sum_list_app, IH. reflexivity.
Qed.

Lemma xdiv_two (v : Qc) : xdiv (Fin v) xtwo = Fin (v / q2)%Qc.
Proof. reflexivity. Qed.

(** ** Total energy *)

(** C5.  For grids [E] of any content, [DipolarEnergy.E_tot] and
    [ExchangeEnergy.E_tot] are the sum of all entries of [E] divided by two
    (half its value when the sum is finite), and [ZeemanEnergy.E_tot] is the
    sum of all entries of [E] itself. *)
Theorem E_tot_counting (z : Zeeman.t) (d : Dipolar.t) (e : Exchange.t) (ny nx : nat) :
  shaped ny nx (Zeeman.E z) ->
  shaped ny nx (Dipolar.E d) ->
  shaped ny nx (Exchange.E e) ->
  Zeeman.E_tot z = sum2_upto ny nx (xget (Zeeman.E z)) /\
  Dipolar.E_tot d = xdiv (sum2_upto ny nx (xget (Dipolar.E d))) xtwo /\
  Exchange.E_tot e = xdiv (sum2_upto ny nx (xget (Exchange.E e))) xtwo /\
  (forall v, sum2_upto ny nx (xget (Dipolar.E d)) = Fin v ->
             Dipolar.E_tot d = Fin (v / q2)%Qc) /\
  (forall v, sum2_upto ny nx (xget (Exchange.E e)) = Fin v ->
             Exchange.E_tot e = Fin (v / q2)%Qc).
Proof.
  intros Hz Hd He.
  unfold Zeeman.E_tot, Dipolar.E_tot, Exchange.E_tot.
  rewrite (sum_entries Hz), (sum_entries Hd), (sum_entries He).
  repeat split; try reflexivity; intros v ->; apply xdiv_two.
Qed.

Lemma E_tot_counting_witness :
  let mm := Sample.oop_2x3 in
  let z := Zeeman.initialize Sample.math (zeros 2 3) (zeros 2 3) mm in
  let d := Dipolar.initialize Sample.math xone (Q2Qc (-3)) mm in
  let e := Exchange.initialize xone mm in
  Zeeman.E_tot z = sum2_upto 2 3 (xget (Zeeman.E z)) /\
  Dipolar.E_tot d = xdiv (sum2_upto 2 3 (xget (Dipolar.E d))) xtwo /\
  Exchange.E_tot e = xdiv (sum2_upto 2 3 (xget (Exchange.E e))) xtwo /\
  (forall v, sum2_upto 2 3 (xget (Dipolar.E d)) = Fin v ->
             Dipolar.E_tot d = Fin (v / q2)%Qc) /\
  (forall v, sum2_upto 2 3 (xget (Exchange.E e)) = Fin v ->
             Exchange.E_tot e = Fin (v / q2)%Qc).
Proof.
  intros mm z d e.
  apply (@E_tot_counting z d e 2 3);
    (split; [vm_compute; reflexivity | vm_compute; repeat constructor]).
Defined.

(** ** Energy.energy_switch *)

Lemma take_at_in_shape (a : grid xnum) (idx : indices) :
  Forall (fun p => fst p < nrows a /\ snd p < ncols a) idx ->
  take_at a idx = Ok (map (fun p => xget a (fst p) (snd p)) idx).
Proof.
  intros H. unfold take_at.
  replace (forallb (fun p => in_shape a (fst p) (snd p)) idx) with true; [reflexivity|].
  symmetry. apply forallb_forall. intros p Hp.
  rewrite Forall_forall in H. destruct (H p Hp) as [Hy Hx].
  unfold in_shape. apply andb_true_iff. split; now apply Nat.ltb_lt.
Qed.

(** C9.  For every contribution and every list of sites of the lattice,
    [energy_switch(indices2D)] returns, site by site and in the order of the
    input, -2 times the entry of [E] at that site, and leaves the
    contribution as it was. *)
Theorem energy_switch_sites (S : Type) (C : Energy.t S) (self : S) (idx : indices) :
  Forall (fun p => fst p < nrows (Energy.E self) /\ snd p < ncols (Energy.E self)) idx ->
  Energy.energy_switch (Some idx) self
  = Ok (Energy.Arr1 (map (fun p => xmul xm2 (xget (Energy.E self) (fst p) (snd p))) idx),
        self).
Proof.
  intros H. unfold Energy.energy_switch.
  rewrite (take_at_in_shape _ H). cbn [bind].
  now rewrite map_map.
Qed.

Lemma energy_switch_sites_witness :
  let self := Exchange.initialize xone Sample.oop_2x3 in
  let idx := [(1, 2); (0, 0); (1, 2)] in
  Energy.energy_switch (Some idx) self
  = Ok (Energy.Arr1 (map (fun p => xmul xm2 (xget (Energy.E self) (fst p) (snd p))) idx),
        self).
Proof.
  intros self idx. apply energy_switch_sites.
  repeat constructor; vm_compute; reflexivity.
Defined.

(** C10.  With [indices2D] omitted, [energy_switch] returns an array of the
    shape of [E] holding -2 times every entry of [E], and leaves the
    contribution as it was. *)
Theorem energy_switch_everywhere (S : Type) (C : Energy.t S) (self : S) :
  exists a : grid xnum,
    Energy.energy_switch None self = Ok (Energy.Arr2 a, self) /\
    nrows a = nrows (Energy.E self) /\
    Forall (fun r => length r = ncols (Energy.E self)) a /\
    forall i j, i < nrows (Energy.E self) -> j < ncols (Energy.E self) ->
                xget a i j = xmul xm2 (xget (Energy.E self) i j).
Proof.
  exists (scale xm2 (Energy.E self)). split; [reflexivity|].
  unfold scale, map1.
  split; [apply nrows_tabulate|]. split; [apply shaped_tabulate|].
  intros i j Hi Hj. unfold xget. now rewrite get_tabulate.
Qed.
(** ** Entries of the array primitives *)

Lemma xget_tabulate ny nx (f : nat -> nat -> xnum) i j :
  i < ny -> j < nx -> xget (tabulate ny nx f) i j = f i j.
Proof. apply get_tabulate. Qed.

Lemma xget_outside ny nx (g : grid xnum) i j :
  shaped ny nx g -> ny <= i \/ nx <= j -> xget g i j = xzero.
Proof.
  intros Hg H. rewrite <- (tabulate_get xzero Hg).
  now apply get_tabulate_outside.
Qed.

Lemma finite_tabulate ny nx (f : nat -> nat -> xnum) :
  (forall i j, i < ny -> j < nx -> is_fin (f i j)) -> finite (tabulate ny nx f).
Proof.
  intros H i j.
  destruct (Nat.lt_ge_cases i ny) as [Hi|Hi]; [destruct (Nat.lt_ge_cases j nx) as [Hj|Hj]|].
  - rewrite xget_tabulate by assumption. now apply H.
  - unfold xget. rewrite get_tabulate_outside by now right. exact I.
  - unfold xget. rewrite get_tabulate_outside by now left. exact I.
Qed.

Lemma xget_fin (g : grid xnum) i j : finite g -> xget g i j = Fin (qget g i j).
Proof. intros H. apply is_fin_fval, H. Qed.

Lemma fin_shaped_tabulate ny nx (f : nat -> nat -> xnum) :
  (forall i j, i < ny -> j < nx -> is_fin (f i j)) -> fin_shaped ny nx (tabulate ny nx f).
Proof. intros H. split; [apply shaped_tabulate | now apply finite_tabulate]. Qed.

Lemma zeros_like_shaped {A} ny nx (g : grid A) :
  shaped ny nx g -> 0 < ny -> zeros_like g = zeros ny nx.
Proof.
  intros Hg Hpos. unfold zeros_like.
  now rewrite (shaped_nrows Hg), (shaped_ncols Hg Hpos).
Qed.

Lemma xget_zeros ny nx i j : xget (zeros ny nx) i j = xzero.
Proof.
  unfold zeros.
  destruct (Nat.lt_ge_cases i ny) as [Hi|Hi]; [destruct (Nat.lt_ge_cases j nx) as [Hj|Hj]|].
  - now rewrite xget_tabulate.
  - unfold xget. now rewrite get_tabulate_outside by now right.
  - unfold xget. now rewrite get_tabulate_outside by now left.
Qed.

Lemma map2_shaped f ny nx (a b : grid xnum) :
  shaped ny nx a -> 0 < ny ->
  map2 f a b = tabulate ny nx (fun i j => f (xget a i j) (xget b i j)).
Proof.
  intros Ha Hpos. unfold map2.
  now rewrite (shaped_nrows Ha), (shaped_ncols Ha Hpos).
Qed.

Lemma map1_shaped f ny nx (a : grid xnum) :
  shaped ny nx a -> 0 < ny ->
  map1 f a = tabulate ny nx (fun i j => f (xget a i j)).
Proof.
  intros Ha Hpos. unfold map1.
  now rewrite (shaped_nrows Ha), (shaped_ncols Ha Hpos).
Qed.

Lemma slc_find_some n s i k :
  slc_find n s i = Some k -> k < slc_len n s /\ slc_ix n s k = i.
Proof.
  destruct s as [lo hi|s]; cbn [slc_find slc_ix].
  - destruct (Nat.leb_spec lo i) as [H1|H1]; [|discriminate].
    destruct (Nat.ltb_spec i (lo + slc_len n (Fwd lo hi))) as [H2|H2]; [|discriminate].
    cbn [andb]. intros [= <-]. lia.
  - destruct (Nat.ltb_spec i (slc_len n (Rev s))) as [H|H]; [|discriminate].
    intros [= <-]. cbn [slc_len] in *. lia.
Qed.

Lemma slc_find_ix n s k :
  k < slc_len n s -> slc_find n s (slc_ix n s k) = Some k.
Proof.
  destruct s as [lo hi|s]; cbn [slc_find slc_ix]; intros Hk.
  - replace (lo <=? lo + k) with true by (symmetry; apply Nat.leb_le; lia).
    replace (lo + k <? lo + slc_len n (Fwd lo hi)) with true
      by (symmetry; apply Nat.ltb_lt; lia).
    cbn [andb]. f_equal. lia.
  - cbn [slc_len] in *.
    replace (Nat.min s (n - 1) - k <? Nat.min (S s) n) with true
      by (symmetry; apply Nat.ltb_lt; lia).
    f_equal. lia.
Qed.

Lemma slice_shaped ny nx (a : grid xnum) sy sx :
  shaped ny nx a -> 0 < ny ->
  slice a sy sx
  = tabulate (slc_len ny sy) (slc_len nx sx)
      (fun k l => xget a (slc_ix ny sy k) (slc_ix nx sx l)).
Proof.
  intros Ha Hpos. unfold slice.
  now rewrite (shaped_nrows Ha), (shaped_ncols Ha Hpos).
Qed.

Lemma assign_with_shaped op ny nx (a b : grid xnum) sy sx :
  shaped ny nx a -> 0 < ny ->
  assign_with op a sy sx b
  = tabulate ny nx
      (fun i j =>
         match slc_find ny sy i, slc_find nx sx j with
         | Some k, Some l => op (xget a i j) (xget b k l)
         | _, _ => xget a i j
         end).
Proof.
  intros Ha Hpos. unfold assign_with.
  now rewrite (shaped_nrows Ha), (shaped_ncols Ha Hpos).
Qed.

Lemma assign_with_shape op ny nx (a b : grid xnum) sy sx :
  shaped ny nx a -> 0 < ny -> shaped ny nx (assign_with op a sy sx b).
Proof.
  intros Ha Hpos. unfold assign_with.
  rewrite (shaped_nrows Ha), (shaped_ncols Ha Hpos). apply shaped_tabulate.
Qed.

Lemma assign_with_get op ny nx (a b : grid xnum) sy sx i j :
  shaped ny nx a -> 0 < ny -> i < ny -> j < nx ->
  xget (assign_with op a sy sx b) i j
  = match slc_find ny sy i, slc_find nx sx j with
    | Some k, Some l => op (xget a i j) (xget b k l)
    | _, _ => xget a i j
    end.
Proof.
  intros Ha Hpos Hi Hj. unfold assign_with.
  rewrite (shaped_nrows Ha), (shaped_ncols Ha Hpos).
  now rewrite xget_tabulate.
Qed.

Lemma zeros_shaped ny nx : shaped ny nx (zeros ny nx).
Proof. apply shaped_tabulate. Qed.

Lemma map2_shape f ny nx (a b : grid xnum) :
  shaped ny nx a -> 0 < ny -> shaped ny nx (map2 f a b).
Proof. intros Ha Hpos. rewrite (map2_shaped _ _ Ha Hpos). apply shaped_tabulate. Qed.

Lemma map2_get f ny nx (a b : grid xnum) i j :
  shaped ny nx a -> 0 < ny -> i < ny -> j < nx ->
  xget (map2 f a b) i j = f (xget a i j) (xget b i j).
Proof.
  intros Ha Hpos Hi Hj. rewrite (map2_shaped _ _ Ha Hpos). now rewrite xget_tabulate.
Qed.

Lemma map1_shape f ny nx (a : grid xnum) :
  shaped ny nx a -> 0 < ny -> shaped ny nx (map1 f a).
Proof. intros Ha Hpos. rewrite (map1_shaped _ Ha Hpos). apply shaped_tabulate. Qed.

Lemma map1_get f ny nx (a : grid xnum) i j :
  shaped ny nx a -> 0 < ny -> i < ny -> j < nx ->
  xget (map1 f a) i j = f (xget a i j).
Proof.
  intros Ha Hpos Hi Hj. rewrite (map1_shaped _ Ha Hpos). now rewrite xget_tabulate.
Qed.

Lemma slice_shape ny nx (a : grid xnum) sy sx :
  shaped ny nx a -> 0 < ny ->
  shaped (slc_len ny sy) (slc_len nx sx) (slice a sy sx).
Proof. intros Ha Hpos. rewrite (slice_shaped _ _ Ha Hpos). apply shaped_tabulate. Qed.

Lemma slice_get ny nx (a : grid xnum) sy sx k l :
  shaped ny nx a -> 0 < ny -> k < slc_len ny sy -> l < slc_len nx sx ->
  xget (slice a sy sx) k l = xget a (slc_ix ny sy k) (slc_ix nx sx l).
Proof.
  intros Ha Hpos Hk Hl. rewrite (slice_shaped _ _ Ha Hpos). now rewrite xget_tabulate.
Qed.

Lemma flip_shape ny nx (a : grid xnum) :
  shaped ny nx a -> 0 < ny -> shaped ny nx (flip a).
Proof.
  intros Ha Hpos. unfold flip.
  rewrite (shaped_nrows Ha), (shaped_ncols Ha Hpos). apply shaped_tabulate.
Qed.

Lemma flip_get ny nx (a : grid xnum) i j :
  shaped ny nx a -> 0 < ny -> i < ny -> j < nx ->
  xget (flip a) i j = xget a (ny - 1 - i) (nx - 1 - j).
Proof.
  intros Ha Hpos Hi Hj. unfold flip.
  rewrite (shaped_nrows Ha), (shaped_ncols Ha Hpos). now rewrite xget_tabulate.
Qed.

Lemma tile_shape ny nx (a : grid xnum) ry rx :
  shaped ny nx a -> 0 < ny -> shaped (ry * ny) (rx * nx) (tile a ry rx).
Proof.
  intros Ha Hpos. unfold tile.
  rewrite (shaped_nrows Ha), (shaped_ncols Ha Hpos). apply shaped_tabulate.
Qed.

Lemma tile_get ny nx (a : grid xnum) ry rx i j :
  shaped ny nx a -> 0 < ny -> i < ry * ny -> j < rx * nx ->
  xget (tile a ry rx) i j = xget a (i mod ny) (j mod nx).
Proof.
  intros Ha Hpos Hi Hj. unfold tile.
  rewrite (shaped_nrows Ha), (shaped_ncols Ha Hpos). now rewrite xget_tabulate.
Qed.

Lemma assign_strided_shape ny nx (a b : grid xnum) y sy x sx :
  shaped ny nx a -> 0 < ny -> shaped ny nx (assign_strided a b y sy x sx).
Proof.
  intros Ha Hpos. unfold assign_strided.
  rewrite (shaped_nrows Ha), (shaped_ncols Ha Hpos). apply shaped_tabulate.
Qed.

Lemma assign_strided_get ny nx (a b : grid xnum) y sy x sx i j :
  shaped ny nx a -> 0 < ny -> i < ny -> j < nx ->
  xget (assign_strided a b y sy x sx) i j
  = if on_stride y sy i && on_stride x sx j then xget b i j else xget a i j.
Proof.
  intros Ha Hpos Hi Hj. unfold assign_strided.
  rewrite (shaped_nrows Ha), (shaped_ncols Ha Hpos). now rewrite xget_tabulate.
Qed.

Lemma scatter_shape ny nx (a b : grid xnum) idx :
  shaped ny nx a -> 0 < ny -> shaped ny nx (scatter a b idx).
Proof.
  intros Ha Hpos. unfold scatter.
  rewrite (shaped_nrows Ha), (shaped_ncols Ha Hpos). apply shaped_tabulate.
Qed.

Lemma scatter_get ny nx (a b : grid xnum) idx i j :
  shaped ny nx a -> 0 < ny -> i < ny -> j < nx ->
  xget (scatter a b idx) i j = if mem_pos (i, j) idx then xget b i j else xget a i j.
Proof.
  intros Ha Hpos Hi Hj. unfold scatter.
  rewrite (shaped_nrows Ha), (shaped_ncols Ha Hpos). now rewrite xget_tabulate.
Qed.

Lemma convolve2d_valid_shape ny1 nx1 ny2 nx2 (in1 in2 : grid xnum) :
  shaped ny1 nx1 in1 -> shaped ny2 nx2 in2 -> 0 < ny1 -> 0 < ny2 ->
  shaped (ny1 - ny2 + 1) (nx1 - nx2 + 1) (convolve2d_valid in1 in2).
Proof.
  intros H1 H2 P1 P2. unfold convolve2d_valid.
  rewrite (shaped_nrows H1), (shaped_ncols H1 P1), (shaped_nrows H2), (shaped_ncols H2 P2).
  apply shaped_tabulate.
Qed.

Lemma convolve2d_valid_get ny1 nx1 ny2 nx2 (in1 in2 : grid xnum) i j :
  shaped ny1 nx1 in1 -> shaped ny2 nx2 in2 -> 0 < ny1 -> 0 < ny2 ->
  i < ny1 - ny2 + 1 -> j < nx1 - nx2 + 1 ->
  xget (convolve2d_valid in1 in2) i j
  = sum2_upto ny2 nx2
      (fun a b => xmul (xget in1 (i + (ny2 - 1) - a) (j + (nx2 - 1) - b)) (xget in2 a b)).
Proof.
  intros H1 H2 P1 P2 Hi Hj. unfold convolve2d_valid.
  rewrite (shaped_nrows H1), (shaped_ncols H1 P1), (shaped_nrows H2), (shaped_ncols H2 P2).
  now rewrite xget_tabulate.
Qed.

Lemma convolve2d_same_shape ny1 nx1 wrap (in1 in2 : grid xnum) :
  shaped ny1 nx1 in1 -> 0 < ny1 -> shaped ny1 nx1 (convolve2d_same wrap in1 in2).
Proof.
  intros H1 P1. unfold convolve2d_same.
  rewrite (shaped_nrows H1), (shaped_ncols H1 P1). apply shaped_tabulate.
Qed.

Lemma convolve2d_same_get ny1 nx1 ny2 nx2 wrap (in1 in2 : grid xnum) i j :
  shaped ny1 nx1 in1 -> shaped ny2 nx2 in2 -> 0 < ny1 -> 0 < ny2 ->
  i < ny1 -> j < nx1 ->
  xget (convolve2d_same wrap in1 in2) i j
  = sum2_upto ny2 nx2
      (fun a b =>
         xmul (padded wrap in1 (Z.of_nat (i + (ny2 - 1) / 2) - Z.of_nat a)
                      (Z.of_nat (j + (nx2 - 1) / 2) - Z.of_nat b))
              (xget in2 a b)).
Proof.
  intros H1 H2 P1 P2 Hi Hj. unfold convolve2d_same.
  rewrite (shaped_nrows H1), (shaped_ncols H1 P1), (shaped_nrows H2), (shaped_ncols H2 P2).
  now rewrite xget_tabulate.
Qed.

Lemma negate_at_ok ny nx (a : grid xnum) idx :
  shaped ny nx a -> 0 < ny ->
  Forall (fun p => fst p < ny /\ snd p < nx) idx ->
  negate_at a idx
  = Ok (tabulate ny nx
          (fun i j => if mem_pos (i, j) idx then xmul (xget a i j) xm1 else xget a i j)).
Proof.
  intros Ha Hpos H. unfold negate_at.
  replace (forallb (fun p => in_shape a (fst p) (snd p)) idx) with true.
  - now rewrite (shaped_nrows Ha), (shaped_ncols Ha Hpos).
  - symmetry. apply forallb_forall. intros p Hp.
    rewrite Forall_forall in H. destruct (H p Hp) as [Hy Hx].
    unfold in_shape. rewrite (shaped_nrows Ha), (shaped_ncols Ha Hpos).
    apply andb_true_iff. split; now apply Nat.ltb_lt.
Qed.


Ltac shape :=
  repeat first
    [ assumption
    | apply shaped_tabulate
    | apply zeros_shaped
    | apply assign_with_shape; [|lia]
    | apply map2_shape; [|lia]
    | apply map1_shape; [|lia]
    | apply flip_shape; [|lia]
    | apply assign_strided_shape; [|lia]
    | apply scatter_shape; [|lia]
    | apply convolve2d_same_shape; [|lia] ].

Lemma slc_find_fwd_in n lo i :
  lo <= i -> i < n -> slc_find n (Fwd lo None) i = Some (i - lo).
Proof.
  intros H1 H2. cbn [slc_find slc_len].
  replace (lo <=? i) with true by (symmetry; apply Nat.leb_le; lia).
  replace (i <? lo + (n - lo)) with true by (symmetry; apply Nat.ltb_lt; lia).
  reflexivity.
Qed.

Lemma slc_find_fwd_below n lo hi i : i < lo -> slc_find n (Fwd lo hi) i = None.
Proof.
  intros H. cbn [slc_find].
  replace (lo <=? i) with false by (symmetry; apply Nat.leb_gt; lia).
  reflexivity.
Qed.

Lemma slc_find_fwd_above n lo i : n <= i -> slc_find n (Fwd lo None) i = None.
Proof.
  intros H. cbn [slc_find slc_len].
  destruct (Nat.leb_spec lo i) as [H1|H1]; [|reflexivity].
  replace (i <? lo + (n - lo)) with false by (symmetry; apply Nat.ltb_ge; lia).
  reflexivity.
Qed.

Lemma slc_find_upto_in n lo hi i :
  lo <= i -> i < hi -> i < n -> slc_find n (Fwd lo (Some hi)) i = Some (i - lo).
Proof.
  intros H1 H2 H3. cbn [slc_find slc_len].
  replace (lo <=? i) with true by (symmetry; apply Nat.leb_le; lia).
  replace (i <? lo + (Nat.min hi n - lo)) with true by (symmetry; apply Nat.ltb_lt; lia).
  reflexivity.
Qed.

Lemma slc_find_upto_above n lo hi i :
  hi <= i -> slc_find n (Fwd lo (Some hi)) i = None.
Proof.
  intros H. cbn [slc_find slc_len].
  destruct (Nat.leb_spec lo i) as [H1|H1]; [|reflexivity].
  replace (i <? lo + (Nat.min hi n - lo)) with false by (symmetry; apply Nat.ltb_ge; lia).
  reflexivity.
Qed.

Lemma slc_find_rev_in n s i :
  i <= s -> s < n -> slc_find n (Rev s) i = Some (s - i).
Proof.
  intros H1 H2. cbn [slc_find slc_len].
  replace (i <? Nat.min (S s) n) with true by (symmetry; apply Nat.ltb_lt; lia).
  f_equal. lia.
Qed.

Lemma slc_find_rev_out n s i : s < i -> slc_find n (Rev s) i = None.
Proof.
  intros H. cbn [slc_find slc_len].
  replace (i <? Nat.min (S s) n) with false by (symmetry; apply Nat.ltb_ge; lia).
  reflexivity.
Qed.

Lemma xmul_fin (p q : Qc) : xmul (Fin p) (Fin q) = Fin (p * q)%Qc.
Proof. reflexivity. Qed.

(** ** mirror4 *)

Lemma mirror4_shaped ny nx (arr : grid xnum) xn yn :
  shaped ny nx arr -> 0 < ny -> 0 < nx ->
  shaped (2 * ny - 1) (2 * nx - 1) (mirror4 arr xn yn).
Proof.
  intros Ha Hy Hx. unfold mirror4, assign.
  rewrite (shaped_nrows Ha), (shaped_ncols Ha Hy). shape.
Qed.

Lemma mirror4_get ny nx (arr : grid xnum) xn yn i j :
  fin_shaped ny nx arr -> 0 < ny -> 0 < nx ->
  i < 2 * ny - 1 -> j < 2 * nx - 1 ->
  xget (mirror4 arr xn yn) i j
  = Fin (qsgn xn nx j * qsgn yn ny i * qget arr (dist ny i) (dist nx j))%Qc.
Proof.
  intros [Ha Hf] Hy Hx Hi Hj. unfold mirror4, assign.
  rewrite (shaped_nrows Ha), (shaped_ncols Ha Hy).
  rewrite !(@assign_with_get _ (2 * ny - 1) (2 * nx - 1)) by (try lia; shape).
  rewrite xget_zeros.
  unfold scale. rewrite !(map1_shaped _ Ha Hy).
  unfold qsgn, dist.
  destruct (Nat.ltb_spec i (ny - 1)) as [Hi1|Hi1];
    destruct (Nat.ltb_spec j (nx - 1)) as [Hj1|Hj1];
    destruct (Nat.leb_spec i (ny - 1)) as [Hi2|Hi2]; try lia;
    destruct (Nat.leb_spec j (nx - 1)) as [Hj2|Hj2]; try lia;
    repeat first
      [ rewrite slc_find_fwd_in by lia
      | rewrite slc_find_fwd_below by lia
      | rewrite slc_find_rev_in by lia
      | rewrite slc_find_rev_out by lia ];
    rewrite ?xget_tabulate by lia;
    rewrite (xget_fin _ _ Hf);
    try (replace (i - (ny - 1)) with 0 by lia);
    try (replace (j - (nx - 1)) with 0 by lia);
    try (replace (ny - 1 - i) with 0 by lia);
    try (replace (nx - 1 - j) with 0 by lia);
    destruct xn, yn; cbn [andb xmul xm1 xone]; f_equal; unfold q1; ring.
Qed.

(** ** Well-formed lattices *)

Lemma all_below_spec n P : all_below n P = true <-> forall i, i < n -> P i = true.
Proof.
  unfold all_below. rewrite forallb_forall. split.
  - intros H i Hi. apply H, in_seq. lia.
  - intros H i Hi. apply in_seq in Hi. apply H. lia.
Qed.

Lemma fin_shapedb_ok ny nx (g : grid xnum) :
  fin_shapedb ny nx g = true -> fin_shaped ny nx g.
Proof.
  unfold fin_shapedb. intros H. apply andb_true_iff in H. destruct H as [Hl Hr].
  apply Nat.eqb_eq in Hl. rewrite forallb_forall in Hr.
  split; [split; [exact Hl|]|].
  - apply Forall_forall. intros r Hin. specialize (Hr r Hin).
    apply andb_true_iff in Hr. now apply Nat.eqb_eq.
  - intros i j. unfold xget, get.
    destruct (Nat.lt_ge_cases i (length g)) as [Hi|Hi].
    + assert (Hin : In (nth i g []) g) by now apply nth_In.
      specialize (Hr _ Hin). apply andb_true_iff in Hr. destruct Hr as [_ Hf].
      rewrite forallb_forall in Hf.
      destruct (Nat.lt_ge_cases j (length (nth i g []))) as [Hj|Hj].
      * specialize (Hf _ (nth_In _ xzero Hj)).
        now destruct (nth j (nth i g []) xzero).
      * now rewrite nth_overflow.
    + rewrite (nth_overflow g) by assumption. now destruct j.
Qed.

Lemma is_gt_spec (a b : Qc) : is_gt (a ?= b)%Qc = true -> (b < a)%Qc.
Proof.
  intros H. apply Qcgt_alt. now destruct (a ?= b)%Qc.
Qed.

Lemma lattice_okb_ok mm : lattice_okb mm = true -> lattice_ok mm.
Proof.
  unfold lattice_okb. intros H.
  repeat (apply andb_true_iff in H; let H' := fresh "H" in destruct H as [H H']).
  repeat match goal with
         | H : (_ <? _) = true |- _ => apply Nat.ltb_lt in H
         | H : (_ <=? _) = true |- _ => apply Nat.leb_le in H
         | H : fin_shapedb _ _ _ = true |- _ => apply fin_shapedb_ok in H
         end.
  constructor; try assumption.
  intros a b Ha Hb Hab.
  match goal with H : all_below _ _ = true |- _ => rename H into Hall end.
  rewrite all_below_spec in Hall. specialize (Hall a Ha).
  rewrite all_below_spec in Hall. specialize (Hall b Hb).
  apply orb_true_iff in Hall. destruct Hall as [Hc|Hc].
  - apply andb_true_iff in Hc. destruct Hc as [E1 E2].
    apply Nat.eqb_eq in E1, E2. lia.
  - now apply is_gt_spec.
Qed.

Lemma regular_okb_ok mm : regular_okb mm = true -> regular mm.
Proof.
  unfold regular_okb. intros H.
  apply andb_true_iff in H. destruct H as [H Hpbc].
  apply andb_true_iff in H. destruct H as [H Hocc].
  apply andb_true_iff in H. destruct H as [Hxx Hyy].
  constructor.
  - intros a Ha. rewrite all_below_spec in Hxx. now apply Qc_eq_bool_correct, Hxx.
  - intros b Hb. rewrite all_below_spec in Hyy. now apply Qc_eq_bool_correct, Hyy.
  - intros Hip y x Hy Hx. rewrite Hip in Hocc. cbn [orb] in Hocc.
    rewrite all_below_spec in Hocc. specialize (Hocc y Hy).
    rewrite all_below_spec in Hocc. specialize (Hocc x Hx).
    apply orb_true_iff in Hocc.
    destruct Hocc as [E|E]; [left|right]; now apply Qc_eq_bool_correct.
  - intros Hp. rewrite Hp in Hpbc. cbn [negb orb] in Hpbc.
    apply andb_true_iff in Hpbc. destruct Hpbc as [A B].
    now apply Nat.eqb_eq in A, B.
Qed.

(** ** Powers *)

Lemma Qccompare_lt (a b : Qc) : (a < b)%Qc -> Qccompare a b = Lt.
Proof. intros H. now apply Qclt_alt. Qed.

Lemma Qccompare_gt (a b : Qc) : (b < a)%Qc -> Qccompare a b = Gt.
Proof. intros H. now apply Qcgt_alt. Qed.

Lemma Qccompare_eq (a : Qc) : Qccompare a a = Eq.
Proof. now apply Qceq_alt. Qed.

Lemma xpow_inf_neg L (e : Qc) : (e < q0)%Qc -> xpow L PInf e = xzero.
Proof. intros H. unfold xpow. now rewrite (Qccompare_lt H). Qed.

Lemma xpow_pos_base L (b e : Qc) :
  (q0 < b)%Qc -> e <> q0 -> xpow L (Fin b) e = Fin (rpow L b e).
Proof.
  intros Hb He. unfold xpow. rewrite (Qccompare_gt Hb).
  destruct (Qccompare e q0) eqn:E; try reflexivity.
  now apply Qceq_alt in E.
Qed.

Lemma xpow_zero_pos L (e : Qc) : (q0 < e)%Qc -> xpow L (Fin q0) e = xzero.
Proof.
  intros H. unfold xpow. now rewrite (Qccompare_gt H), Qccompare_eq.
Qed.

Lemma minus_half_neg : (Q2Qc (-1 # 2) < q0)%Qc.
Proof. reflexivity. Qed.

Lemma minus_half_nonzero : Q2Qc (-1 # 2) <> q0.
Proof. intros H. discriminate (f_equal this H). Qed.

Lemma Qclt_not_eq (a b : Qc) : (a < b)%Qc -> b <> a.
Proof. intros H E. subst. exact (Qlt_irrefl _ H). Qed.

(** ** The distance matrix *)

Section Distances.
Variable L : libm.
Variable mm : Magnets.t.
Hypothesis Hok : lattice_ok mm.

Lemma rr_inv_closed :
  Dipolar.rr_inv L mm
  = tabulate (ny mm) (nx mm) (fun a b => Fin (q_rr_inv L mm a b)).
Proof.
  destruct Hok as [Hy Hx _ _ [Sxx Fxx] [Syy Fyy] _ _ _ _ _ _ _ Hapart].
  unfold Dipolar.rr_inv, sub_scalar, add, assign.
  apply (@grid_ext _ xzero (ny mm) (nx mm)); [shape | shape |].
  intros a b Ha Hb. fold xget.
  rewrite xget_tabulate by assumption.
  rewrite (@map1_get _ (ny mm) (nx mm)) by (try lia; shape).
  rewrite (@assign_with_get _ (ny mm) (nx mm)) by (try lia; shape).
  rewrite (@map2_get _ (ny mm) (nx mm)) by (try lia; shape).
  rewrite !(@map1_get _ (ny mm) (nx mm)) by (try lia; shape).
  rewrite !(xget_fin _ _ Fxx), !(xget_fin _ _ Fyy).
  unfold q_rr_inv.
  destruct a as [|a], b as [|b]; cbn [Nat.eqb andb].
  - rewrite !slc_find_upto_in by lia. cbn [Nat.sub].
    change (xget [[PInf]] 0 0) with PInf.
    apply (xpow_inf_neg L minus_half_neg).
  - rewrite (@slc_find_upto_above _ 0 1 (S b)) by lia.
    rewrite slc_find_upto_in by lia.
    cbn [xsub xneg xadd xsq xmul].
    rewrite xpow_pos_base; [reflexivity | | apply minus_half_nonzero].
    specialize (Hapart 0 (S b) Hy Hb). unfold qrr_sq, qX, qY in Hapart.
    unfold Qcminus. apply Hapart. now right.
  - rewrite (@slc_find_upto_above _ 0 1 (S a)) by lia.
    cbn [xsub xneg xadd xsq xmul].
    rewrite xpow_pos_base; [reflexivity | | apply minus_half_nonzero].
    specialize (Hapart (S a) 0 Ha Hx). unfold qrr_sq, qX, qY in Hapart.
    unfold Qcminus. apply Hapart. now left.
  - rewrite (@slc_find_upto_above _ 0 1 (S a)) by lia.
    cbn [xsub xneg xadd xsq xmul].
    rewrite xpow_pos_base; [reflexivity | | apply minus_half_nonzero].
    specialize (Hapart (S a) (S b) Ha Hb). unfold qrr_sq, qX, qY in Hapart.
    unfold Qcminus. apply Hapart. now left.
Qed.

Lemma dist_lt n k : 0 < n -> k < 2 * n - 1 -> dist n k < n.
Proof. intros Hn Hk. unfold dist. destruct (Nat.ltb_spec k (n - 1)); lia. Qed.

Lemma q_rr_inv_pos a b :
  a < ny mm -> b < nx mm -> a <> 0 \/ b <> 0 -> (q0 < q_rr_inv L mm a b)%Qc.
Proof.
  intros Ha Hb Hab. unfold q_rr_inv.
  replace ((a =? 0) && (b =? 0)) with false.
  - apply rpow_pos. now apply (ok_apart Hok).
  - symmetry. apply andb_false_iff.
    destruct Hab as [H|H]; [left|right]; now apply Nat.eqb_neq.
Qed.

Variable decay_exponent : Qc.
Hypothesis Hdecay : (decay_exponent < q0)%Qc.

Lemma minus_decay_pos : (q0 < - decay_exponent)%Qc.
Proof.
  apply Qclt_minus_iff in Hdecay.
  replace (- decay_exponent)%Qc with (q0 + - decay_exponent)%Qc by (unfold q0; ring).
  exact Hdecay.
Qed.

Lemma rr_inv3_closed :
  map1 (fun a => xpow L a (- decay_exponent)%Qc) (Dipolar.rr_inv L mm)
  = tabulate (ny mm) (nx mm) (fun a b => Fin (q_rr_inv3 L mm (- decay_exponent) a b)).
Proof.
  pose proof (ok_ny Hok) as Hy.
  rewrite rr_inv_closed.
  rewrite (@map1_shaped _ (ny mm) (nx mm)) by (try lia; shape).
  apply tabulate_ext. intros a b Ha Hb.
  rewrite xget_tabulate by assumption.
  unfold q_rr_inv3.
  destruct ((a =? 0) && (b =? 0)) eqn:E.
  - unfold q_rr_inv. rewrite E. apply xpow_zero_pos, minus_decay_pos.
  - apply xpow_pos_base.
    + apply q_rr_inv_pos; try assumption.
      apply andb_false_iff in E.
      destruct E as [E|E]; [left|right]; now apply Nat.eqb_neq.
    + apply Qclt_not_eq, minus_decay_pos.
Qed.

Lemma qget_tabulate_fin ny nx (f : nat -> nat -> Qc) i j :
  i < ny -> j < nx -> qget (tabulate ny nx (fun a b => Fin (f a b))) i j = f i j.
Proof. intros Hi Hj. unfold qget. now rewrite xget_tabulate. Qed.

Lemma rinv3_shaped :
  shaped (2 * ny mm - 1) (2 * nx mm - 1) (Dipolar.rinv3 L mm decay_exponent).
Proof.
  unfold Dipolar.rinv3. rewrite rr_inv3_closed.
  apply mirror4_shaped; [shape | apply (ok_ny Hok) | apply (ok_nx Hok)].
Qed.

Lemma rinv3_get i j :
  i < 2 * ny mm - 1 -> j < 2 * nx mm - 1 ->
  xget (Dipolar.rinv3 L mm decay_exponent) i j
  = Fin (q_rinv3 L mm (- decay_exponent) i j).
Proof.
  intros Hi Hj. pose proof (ok_ny Hok) as Hy. pose proof (ok_nx Hok) as Hx.
  unfold Dipolar.rinv3. rewrite rr_inv3_closed.
  rewrite (@mirror4_get (ny mm) (nx mm)); try assumption.
  - rewrite qget_tabulate_fin by (apply dist_lt; assumption).
    unfold q_rinv3, qsgn. cbn [andb]. f_equal. unfold q1. ring.
  - apply fin_shaped_tabulate. intros; exact I.
Qed.

Lemma rrx_rr_inv_closed :
  multiply (sub_scalar (xx mm) (xget (xx mm) 0 0)) (Dipolar.rr_inv L mm)
  = tabulate (ny mm) (nx mm) (fun a b => Fin (qX mm a b * q_rr_inv L mm a b)%Qc).
Proof.
  pose proof (ok_ny Hok) as Hy. destruct (ok_xx Hok) as [Sxx Fxx].
  rewrite rr_inv_closed. unfold multiply, sub_scalar.
  apply (@grid_ext _ xzero (ny mm) (nx mm)); [shape | shape |].
  intros a b Ha Hb. fold xget.
  rewrite (@map2_get _ (ny mm) (nx mm)) by (try lia; shape).
  rewrite (@map1_get _ (ny mm) (nx mm)) by (try lia; shape).
  rewrite !xget_tabulate by assumption.
  now rewrite !(xget_fin _ _ Fxx).
Qed.

Lemma rry_rr_inv_closed :
  multiply (sub_scalar (yy mm) (xget (yy mm) 0 0)) (Dipolar.rr_inv L mm)
  = tabulate (ny mm) (nx mm) (fun a b => Fin (qY mm a b * q_rr_inv L mm a b)%Qc).
Proof.
  pose proof (ok_ny Hok) as Hy. destruct (ok_yy Hok) as [Syy Fyy].
  rewrite rr_inv_closed. unfold multiply, sub_scalar.
  apply (@grid_ext _ xzero (ny mm) (nx mm)); [shape | shape |].
  intros a b Ha Hb. fold xget.
  rewrite (@map2_get _ (ny mm) (nx mm)) by (try lia; shape).
  rewrite (@map1_get _ (ny mm) (nx mm)) by (try lia; shape).
  rewrite !xget_tabulate by assumption.
  now rewrite !(xget_fin _ _ Fyy).
Qed.

Lemma ux_shaped : shaped (2 * ny mm - 1) (2 * nx mm - 1) (Dipolar.ux L mm).
Proof.
  unfold Dipolar.ux. rewrite rrx_rr_inv_closed.
  apply mirror4_shaped; [shape | apply (ok_ny Hok) | apply (ok_nx Hok)].
Qed.

Lemma uy_shaped : shaped (2 * ny mm - 1) (2 * nx mm - 1) (Dipolar.uy L mm).
Proof.
  unfold Dipolar.uy. rewrite rry_rr_inv_closed.
  apply mirror4_shaped; [shape | apply (ok_ny Hok) | apply (ok_nx Hok)].
Qed.

Lemma ux_get i j :
  i < 2 * ny mm - 1 -> j < 2 * nx mm - 1 ->
  xget (Dipolar.ux L mm) i j = Fin (q_ux L mm i j).
Proof.
  intros Hi Hj. pose proof (ok_ny Hok) as Hy. pose proof (ok_nx Hok) as Hx.
  unfold Dipolar.ux. rewrite rrx_rr_inv_closed.
  rewrite (@mirror4_get (ny mm) (nx mm)); try assumption.
  - rewrite qget_tabulate_fin by (apply dist_lt; assumption).
    unfold q_ux. unfold qsgn at 2. cbn [andb]. f_equal. unfold q1. ring.
  - apply fin_shaped_tabulate. intros; exact I.
Qed.

Lemma uy_get i j :
  i < 2 * ny mm - 1 -> j < 2 * nx mm - 1 ->
  xget (Dipolar.uy L mm) i j = Fin (q_uy L mm i j).
Proof.
  intros Hi Hj. pose proof (ok_ny Hok) as Hy. pose proof (ok_nx Hok) as Hx.
  unfold Dipolar.uy. rewrite rry_rr_inv_closed.
  rewrite (@mirror4_get (ny mm) (nx mm)); try assumption.
  - rewrite qget_tabulate_fin by (apply dist_lt; assumption).
    unfold q_uy. unfold qsgn at 1. cbn [andb]. f_equal. unfold q1. ring.
  - apply fin_shaped_tabulate. intros; exact I.
Qed.
End Distances.

(** ** Periodic folding *)

Lemma slc_find_all n i : i < n -> slc_find n all i = Some i.
Proof. intros H. unfold all. rewrite slc_find_fwd_in by lia. f_equal. lia. Qed.

Lemma images_cases n i :
  0 < n -> i < 2 * n - 1 ->
  (n <= i /\ images n i = [i; i - n])
  \/ (i + 1 < n /\ images n i = [i; i + n])
  \/ (i = n - 1 /\ images n i = [i]).
Proof.
  intros Hn Hi. unfold images.
  destruct (Nat.leb_spec n i); [now left|].
  destruct (Nat.ltb_spec (i + 1) n); [right; now left|].
  right; right. split; [lia | reflexivity].
Qed.

Lemma apply_PBC_closed mm (K : nat -> nat -> Qc) :
  0 < ny mm -> 0 < nx mm ->
  Dipolar.apply_PBC mm
    (tabulate (2 * ny mm - 1) (2 * nx mm - 1) (fun i j => Fin (K i j)))
  = tabulate (2 * ny mm - 1) (2 * nx mm - 1) (fun i j => Fin (q_folded mm K i j)).
Proof.
  intros Hy Hx. unfold Dipolar.apply_PBC, add_assign.
  set (N := 2 * ny mm - 1). set (M := 2 * nx mm - 1).
  set (kopy := tabulate N M (fun i j => Fin (K i j))).
  assert (Sk : shaped N M kopy) by apply shaped_tabulate.
  assert (HN : 0 < N) by (unfold N; lia).
  apply (@grid_ext _ xzero N M); [shape | shape |].
  intros i j Hi Hj. fold xget.
  rewrite xget_tabulate by assumption.
  rewrite !(@assign_with_get _ N M) by (try lia; shape).
  unfold q_folded.
  destruct (@images_cases (ny mm) i Hy Hi) as [[Ci ->]|[[Ci ->]|[Ci ->]]];
    destruct (@images_cases (nx mm) j Hx Hj) as [[Cj ->]|[[Cj ->]|[Cj ->]]];
    rewrite ?slc_find_all by lia;
    repeat first
      [ rewrite slc_find_fwd_in by (unfold N, M; lia)
      | rewrite slc_find_fwd_below by lia
      | rewrite slc_find_upto_in by (unfold N, M; lia)
      | rewrite slc_find_upto_above by lia ];
    rewrite ?(@slice_get N M) by (try assumption; cbn [slc_len all]; unfold N, M; lia);
    cbn [slc_ix all];
    unfold kopy; rewrite ?xget_tabulate by (unfold N, M; lia);
    cbn [xadd map qsum_list fold_right]; f_equal;
    rewrite ?Nat.add_0_l, ?Nat.sub_0_r, ?(Nat.add_comm (nx mm)), ?(Nat.add_comm (ny mm));
    unfold q0; ring.
Qed.

(** ** The kernels of one unit-cell position *)

Lemma ceil_div_covers a b : 0 < b -> a <= Dipolar.ceil_div a b * b.
Proof.
  intros Hb. unfold Dipolar.ceil_div.
  pose proof (Nat.div_mod (a + b - 1) b ltac:(lia)) as E.
  pose proof (Nat.mod_upper_bound (a + b - 1) b ltac:(lia)) as U.
  nia.
Qed.

Lemma window_closed (g : grid xnum) ny nx cy cx y x :
  fin_shaped ny nx g -> 0 < ny -> 0 < nx ->
  0 < cy -> cy <= ny -> 0 < cx -> cx <= nx -> y < cy -> x < cx ->
  let unitcell_o := slice g (Fwd 0 (Some cy)) (Fwd 0 (Some cx)) in
  let toolarge :=
    tile unitcell_o (2 * Dipolar.ceil_div ny cy + 1) (2 * Dipolar.ceil_div nx cx + 1) in
  let slice_startx := (cx - ((nx - 1) mod cx) + x) mod cx in
  let slice_starty := (cy - ((ny - 1) mod cy) + y) mod cy in
  slice toolarge (Fwd slice_starty (Some (slice_starty + 2 * ny - 1)))
                 (Fwd slice_startx (Some (slice_startx + 2 * nx - 1)))
  = tabulate (2 * ny - 1) (2 * nx - 1)
      (fun i j => Fin (qget g (cell_seen cy ny y i) (cell_seen cx nx x j))).
Proof.
  intros [Sg Fg] Hy Hx Hcy Hcy' Hcx Hcx' Hyc Hxc u t sx sy.
  assert (Su : shaped cy cx u).
  { unfold u. replace cy with (slc_len ny (Fwd 0 (Some cy))) at 1 by (cbn; lia).
    replace cx with (slc_len nx (Fwd 0 (Some cx))) at 1 by (cbn; lia).
    now apply slice_shape. }
  set (ry := 2 * Dipolar.ceil_div ny cy + 1) in *.
  set (rx := 2 * Dipolar.ceil_div nx cx + 1) in *.
  assert (St : shaped (ry * cy) (rx * cx) t) by (now apply tile_shape).
  pose proof (ceil_div_covers ny Hcy) as Cy.
  pose proof (ceil_div_covers nx Hcx) as Cx.
  assert (Hsy : sy < cy) by (apply Nat.mod_upper_bound; lia).
  assert (Hsx : sx < cx) by (apply Nat.mod_upper_bound; lia).
  assert (Ly : slc_len (ry * cy) (Fwd sy (Some (sy + 2 * ny - 1))) = 2 * ny - 1)
    by (cbn [slc_len]; unfold ry; nia).
  assert (Lx : slc_len (rx * cx) (Fwd sx (Some (sx + 2 * nx - 1))) = 2 * nx - 1)
    by (cbn [slc_len]; unfold rx; nia).
  assert (Hry : 0 < ry * cy) by (unfold ry; nia).
  rewrite (slice_shaped _ _ St Hry), Ly, Lx.
  apply tabulate_ext. intros i j Hi Hj. cbn [slc_ix]. unfold t.
  rewrite (@tile_get cy cx) by (try assumption; unfold ry, rx; nia).
  unfold u.
  pose proof (Nat.mod_upper_bound (sy + i) cy ltac:(lia)).
  pose proof (Nat.mod_upper_bound (sx + j) cx ltac:(lia)).
  rewrite (@slice_get ny nx) by (try assumption; cbn [slc_len]; lia).
  cbn [slc_ix]. rewrite !Nat.add_0_l.
  rewrite (xget_fin _ _ Fg). reflexivity.
Qed.

Lemma dd_kernel_closed N M (a1 b1 : Qc) (ox2 oy2 ux uy r : grid xnum)
    (A2 B2 U V R : nat -> nat -> Qc) :
  0 < N ->
  shaped N M ox2 -> shaped N M oy2 -> shaped N M ux -> shaped N M uy -> shaped N M r ->
  (forall i j, i < N -> j < M -> xget ox2 i j = Fin (A2 i j)) ->
  (forall i j, i < N -> j < M -> xget oy2 i j = Fin (B2 i j)) ->
  (forall i j, i < N -> j < M -> xget ux i j = Fin (U i j)) ->
  (forall i j, i < N -> j < M -> xget uy i j = Fin (V i j)) ->
  (forall i j, i < N -> j < M -> xget r i j = Fin (R i j)) ->
  Dipolar.dd_kernel (Fin a1) (Fin b1) ox2 oy2 ux uy r
  = tabulate N M
      (fun i j => Fin (qdd a1 b1 (A2 i j) (B2 i j) (U i j) (V i j) (R i j))).
Proof.
  intros HN S1 S2 S3 S4 S5 G1 G2 G3 G4 G5.
  unfold Dipolar.dd_kernel, multiply, add, neg, scale, sub_scalar.
  apply (@grid_ext _ xzero N M); [shape | shape |].
  intros i j Hi Hj. fold xget.
  rewrite xget_tabulate by assumption.
  repeat first
    [ rewrite (@map2_get _ N M) by (try lia; shape)
    | rewrite (@map1_get _ N M) by (try lia; shape) ].
  rewrite G1, G2, G3, G4, G5 by assumption.
  reflexivity.
Qed.

Lemma map1_tabulate_fin (f : xnum -> xnum) (g : Qc -> Qc) N M (K : nat -> nat -> Qc) :
  0 < N -> (forall q, f (Fin q) = Fin (g q)) ->
  map1 f (tabulate N M (fun i j => Fin (K i j)))
  = tabulate N M (fun i j => Fin (g (K i j))).
Proof.
  intros HN Hf.
  rewrite (@map1_shaped _ N M) by (try lia; shape).
  apply tabulate_ext. intros i j Hi Hj.
  now rewrite xget_tabulate, Hf.
Qed.

Section CellKernels.
Variable L : libm.
Variable mm : Magnets.t.
Hypothesis Hok : lattice_ok mm.
Variable decay_exponent : Qc.
Hypothesis Hdecay : (decay_exponent < q0)%Qc.

Let N := 2 * ny mm - 1.
Let M := 2 * nx mm - 1.

Lemma finish_closed (K : nat -> nat -> Qc) :
  map1 (fun a => xmul a (Fin q1e_7))
    (if PBC mm then Dipolar.apply_PBC mm (tabulate N M (fun i j => Fin (K i j)))
     else tabulate N M (fun i j => Fin (K i j)))
  = tabulate N M
      (fun i j => Fin ((if PBC mm then q_folded mm K i j else K i j) * q1e_7)%Qc).
Proof.
  pose proof (ok_ny Hok) as Hy. pose proof (ok_nx Hok) as Hx.
  assert (HN : 0 < N) by (unfold N; lia).
  destruct (PBC mm).
  - unfold N, M. rewrite apply_PBC_closed by assumption.
    now apply (@map1_tabulate_fin _ (fun q => (q * q1e_7)%Qc)).
  - now apply (@map1_tabulate_fin _ (fun q => (q * q1e_7)%Qc)).
Qed.

Lemma cell_kernels_closed y x :
  y < Unitcell.y (unitcell mm) -> x < Unitcell.x (unitcell mm) ->
  Dipolar.cell_kernels L mm decay_exponent y x
  = if occupied mm y x
    then Some (kernel_grid L mm (- decay_exponent) Normal y x,
               kernel_grid L mm (- decay_exponent) PerpSelf y x,
               kernel_grid L mm (- decay_exponent) PerpOther y x)
    else None.
Proof.
  intros Hyc Hxc.
  pose proof (ok_ny Hok) as Hy. pose proof (ok_nx Hok) as Hx.
  pose proof (ok_cy Hok) as Hcy. pose proof (ok_cx Hok) as Hcx.
  pose proof (ok_cy_le Hok) as Hcy'. pose proof (ok_cx_le Hok) as Hcx'.
  assert (HN : 0 < N) by (unfold N; lia).
  unfold Dipolar.cell_kernels, occupied, kernel_grid, q_kernel. fold N M.
  destruct (in_plane mm) eqn:Hip.
  - (* in-plane *)
    destruct (ok_ox Hok) as [Sox Fox]. destruct (ok_oy Hok) as [Soy Foy].
    rewrite !(@slice_get (ny mm) (nx mm)) by (try assumption; cbn [slc_len]; lia).
    cbn [slc_ix]. rewrite !Nat.add_0_l.
    destruct (xeq (xget (orientation_x mm) y x) (xget (orientation_y mm) y x)
              && xeq (xget (orientation_y mm) y x) xzero); [reflexivity|].
    cbn [negb].
    rewrite (window_closed (ok_ox Hok)) by assumption.
    rewrite (window_closed (ok_oy Hok)) by assumption.
    fold N M.
    rewrite (xget_fin _ _ Fox), (xget_fin _ _ Foy).
    unfold neg. rewrite (@map1_tabulate_fin xneg Qcopp) by (try assumption; reflexivity).
    cbn [xneg].
    set (A2 := fun i j => qget (orientation_x mm)
                  (cell_seen (Unitcell.y (unitcell mm)) (ny mm) y i)
                  (cell_seen (Unitcell.x (unitcell mm)) (nx mm) x j)).
    set (B2 := fun i j => qget (orientation_y mm)
                  (cell_seen (Unitcell.y (unitcell mm)) (ny mm) y i)
                  (cell_seen (Unitcell.x (unitcell mm)) (nx mm) x j)).
    assert (Hdd : forall a1 b1 (A B : nat -> nat -> Qc),
               Dipolar.dd_kernel (Fin a1) (Fin b1)
                 (tabulate N M (fun i j => Fin (A i j)))
                 (tabulate N M (fun i j => Fin (B i j)))
                 (Dipolar.ux L mm) (Dipolar.uy L mm)
                 (Dipolar.rinv3 L mm decay_exponent)
               = tabulate N M
                   (fun i j => Fin (qdd a1 b1 (A i j) (B i j) (q_ux L mm i j)
                                      (q_uy L mm i j)
                                      (q_rinv3 L mm (- decay_exponent) i j)))).
    { intros a1 b1 A B.
      apply (@dd_kernel_closed N M a1 b1 _ _ _ _ _ A B
               (q_ux L mm) (q_uy L mm) (q_rinv3 L mm (- decay_exponent)));
        try assumption;
        try (intros; now rewrite xget_tabulate);
        try apply shaped_tabulate.
      - apply (ux_shaped L Hok).
      - apply (uy_shaped L Hok).
      - apply (rinv3_shaped L Hok Hdecay).
      - intros; apply (ux_get L Hok); assumption.
      - intros; apply (uy_get L Hok); assumption.
      - intros; apply (rinv3_get L Hok Hdecay); assumption. }
    rewrite !Hdd.
    rewrite !finish_closed.
    unfold q_kernel0. rewrite Hip. reflexivity.
  - (* out-of-plane *)
    destruct (ok_occ Hok) as [Socc Focc].
    rewrite !(@slice_get (ny mm) (nx mm)) by (try assumption; cbn [slc_len]; lia).
    cbn [slc_ix]. rewrite !Nat.add_0_l.
    destruct (xeq (xget (occupation mm) y x) xzero); [reflexivity|].
    cbn [negb].
    rewrite (window_closed (ok_occ Hok)) by assumption.
    fold N M.
    assert (Ek : multiply
                   (tabulate N M
                      (fun i j =>
                         Fin (qget (occupation mm)
                                (cell_seen (Unitcell.y (unitcell mm)) (ny mm) y i)
                                (cell_seen (Unitcell.x (unitcell mm)) (nx mm) x j))))
                   (Dipolar.rinv3 L mm decay_exponent)
                 = tabulate N M (fun i j => Fin (q_kernel0 L mm (- decay_exponent) Normal y x i j))).
    { unfold multiply. rewrite (@map2_shaped _ N M) by (try assumption; shape).
      apply tabulate_ext. intros i j Hi Hj.
      rewrite xget_tabulate by assumption.
      rewrite (rinv3_get L Hok Hdecay) by assumption.
      unfold q_kernel0. rewrite Hip. reflexivity. }
    rewrite Ek.
    rewrite (@zeros_like_shaped _ N M) by (try assumption; shape).
    change (zeros N M) with (tabulate N M (fun _ _ => Fin q0)).
    rewrite !finish_closed.
    unfold q_folded, q_kernel0. rewrite Hip. reflexivity.
Qed.
End CellKernels.

(** ** The loop of [_initialize] *)

Lemma put_shape {A} (d : A) ny nx (g : grid A) y x v :
  shaped ny nx g -> 0 < ny -> shaped ny nx (put d g y x v).
Proof.
  intros Hg Hpos. unfold put.
  rewrite (shaped_nrows Hg), (shaped_ncols Hg Hpos). apply shaped_tabulate.
Qed.

Lemma put_get {A} (d : A) ny nx (g : grid A) y x v i j :
  shaped ny nx g -> 0 < ny -> i < ny -> j < nx ->
  get d (put d g y x v) i j = if (i =? y) && (j =? x) then v else get d g i j.
Proof.
  intros Hg Hpos Hi Hj. unfold put.
  rewrite (shaped_nrows Hg), (shaped_ncols Hg Hpos). now rewrite get_tabulate.
Qed.

Section InitializeLoop.
Variable L : libm.

Lemma _initialize_step_static s p :
  let s' := Dipolar._initialize_step L s p in
  Dipolar.mm s' = Dipolar.mm s /\ Dipolar.E s' = Dipolar.E s
  /\ Dipolar.E_perp s' = Dipolar.E_perp s
  /\ Dipolar.prefactor s' = Dipolar.prefactor s
  /\ Dipolar.decay_exponent s' = Dipolar.decay_exponent s
  /\ Dipolar.unitcell s' = Dipolar.unitcell s.
Proof.
  unfold Dipolar._initialize_step.
  destruct (Dipolar.cell_kernels L (Dipolar.mm s) (Dipolar.decay_exponent s) (fst p) (snd p))
    as [[[k ks] ko]|]; cbn; repeat split.
Qed.

Lemma _initialize_step_upto s done p :
  lattice_ok (Dipolar.mm s) ->
  (Dipolar.decay_exponent s < q0)%Qc ->
  fst p < Unitcell.y (unitcell (Dipolar.mm s)) ->
  snd p < Unitcell.x (unitcell (Dipolar.mm s)) ->
  kernels_upto L s done ->
  kernels_upto L (Dipolar._initialize_step L s p) (done ++ [p]).
Proof.
  intros Hok Hdec Hpy Hpx (Hu & Hsh & Hl1 & Hl2 & F1 & F2 & F3 & Hall).
  pose proof (ok_cy Hok) as Hcy.
  unfold Dipolar._initialize_step.
  rewrite (cell_kernels_closed L Hok Hdec) by assumption.
  destruct p as [py px]. cbn [fst snd] in *.
  destruct (occupied (Dipolar.mm s) py px) eqn:Hocc.
  - (* a magnet at this position: three kernels are appended *)
    unfold kernels_upto. cbn [Dipolar.mm Dipolar.decay_exponent Dipolar.unitcell
      Dipolar.kernel_unitcell_indices Dipolar.kernel_unitcell
      Dipolar.kernel_perpself_unitcell Dipolar.kernel_perpother_unitcell].
    split; [exact Hu|]. split; [now apply put_shape|].
    rewrite !length_app. cbn [length].
    split; [lia|]. split; [lia|].
    split; [apply Forall_app; split; [exact F1 | repeat constructor; eauto]|].
    split; [apply Forall_app; split; [exact F2 | repeat constructor; eauto]|].
    split; [apply Forall_app; split; [exact F3 | repeat constructor; eauto]|].
    intros y x Hy Hx. unfold Dipolar.kernel_index.
    cbn [Dipolar.kernel_unitcell_indices].
    rewrite (put_get _ _ _ _ Hsh) by assumption.
    destruct (Hall y x Hy Hx) as [Hin Hout].
    destruct (Nat.eqb_spec y py) as [->|Ny]; [destruct (Nat.eqb_spec x px) as [->|Nx]|];
      cbn [andb].
    + split.
      * intros _ _. exists (length (Dipolar.kernel_unitcell s)).
        split; [lia|]. split; [reflexivity|].
        split; [apply nth_middle|].
        split; [rewrite <- Hl1 | rewrite <- Hl2]; apply nth_middle.
      * intros [Hn|Hn]; [|congruence].
        exfalso. apply Hn, in_or_app. right. now left.
    + split.
      * intros Hi Ho. apply in_app_or in Hi.
        destruct Hi as [Hi|[Hi|[]]]; [|congruence].
        destruct (Hin Hi Ho) as (n & Hn & Hk & H1 & H2 & H3).
        exists n. split; [lia|]. split; [exact Hk|].
        rewrite !app_nth1 by lia. now repeat split.
      * intros Hn. apply Hout. destruct Hn as [Hn|Hn]; [left|now right].
        intros Hi. apply Hn, in_or_app. now left.
    + split.
      * intros Hi Ho. apply in_app_or in Hi.
        destruct Hi as [Hi|[Hi|[]]]; [|congruence].
        destruct (Hin Hi Ho) as (n & Hn & Hk & H1 & H2 & H3).
        exists n. split; [lia|]. split; [exact Hk|].
        rewrite !app_nth1 by lia. now repeat split.
      * intros Hn. apply Hout. destruct Hn as [Hn|Hn]; [left|now right].
        intros Hi. apply Hn, in_or_app. now left.
  - (* an empty position: [continue] *)
    split; [exact Hu|]. split; [exact Hsh|]. split; [exact Hl1|]. split; [exact Hl2|].
    split; [exact F1|]. split; [exact F2|]. split; [exact F3|].
    intros y x Hy Hx. destruct (Hall y x Hy Hx) as [Hin Hout]. split.
    + intros Hi Ho. apply in_app_or in Hi.
      destruct Hi as [Hi|[Hi|[]]]; [now apply Hin|].
      injection Hi as <- <-. congruence.
    + intros Hn. apply Hout. destruct Hn as [Hn|Hn]; [|now right].
      destruct (occupied (Dipolar.mm s) y x) eqn:Ho; [|now right].
      left. intros Hi. apply Hn, in_or_app. now left.
Qed.

Lemma _initialize_loop_upto l : forall s done,
  lattice_ok (Dipolar.mm s) ->
  (Dipolar.decay_exponent s < q0)%Qc ->
  Forall (fun p => fst p < Unitcell.y (unitcell (Dipolar.mm s))
                   /\ snd p < Unitcell.x (unitcell (Dipolar.mm s))) l ->
  kernels_upto L s done ->
  kernels_upto L (fold_left (Dipolar._initialize_step L) l s) (done ++ l).
Proof.
  induction l as [|p l IH]; intros s done Hok Hdec Hl Hinv; cbn [fold_left].
  - now rewrite app_nil_r.
  - inversion Hl as [|? ? [Hpy Hpx] Hl']; subst.
    replace (done ++ p :: l) with ((done ++ [p]) ++ l) by (now rewrite <- app_assoc).
    destruct (_initialize_step_static s p) as (Em & _ & _ & _ & Ed & _).
    apply IH.
    + now rewrite Em.
    + now rewrite Ed.
    + now rewrite Em.
    + now apply _initialize_step_upto.
Qed.

Lemma fold_initialize_static l : forall s,
  let s' := fold_left (Dipolar._initialize_step L) l s in
  Dipolar.mm s' = Dipolar.mm s /\ Dipolar.E s' = Dipolar.E s
  /\ Dipolar.E_perp s' = Dipolar.E_perp s
  /\ Dipolar.prefactor s' = Dipolar.prefactor s
  /\ Dipolar.decay_exponent s' = Dipolar.decay_exponent s
  /\ Dipolar.unitcell s' = Dipolar.unitcell s.
Proof.
  induction l as [|p l IH]; intros s; cbn [fold_left].
  - repeat split.
  - destruct (IH (Dipolar._initialize_step L s p)) as (A & B & C & D & E & F).
    destruct (_initialize_step_static s p) as (A' & B' & C' & D' & E' & F').
    cbv zeta. repeat split; congruence.
Qed.

Lemma _initialize_static s :
  let s' := Dipolar._initialize L s in
  Dipolar.mm s' = Dipolar.mm s /\ Dipolar.E s' = Dipolar.E s
  /\ Dipolar.E_perp s' = Dipolar.E_perp s
  /\ Dipolar.prefactor s' = Dipolar.prefactor s
  /\ Dipolar.decay_exponent s' = Dipolar.decay_exponent s
  /\ Dipolar.unitcell s' = unitcell (Dipolar.mm s).
Proof.
  unfold Dipolar._initialize.
  match goal with
  | |- context [fold_left _ ?l ?s0] =>
      destruct (fold_initialize_static l s0) as (A & B & C & D & E & F)
  end.
  cbv zeta. cbn in A, B, C, D, E, F. now repeat split.
Qed.

(** [_initialize] caches the kernels of every occupied position of the
    unit cell. *)
Lemma _initialize_builds s :
  lattice_ok (Dipolar.mm s) ->
  (Dipolar.decay_exponent s < q0)%Qc ->
  kernels_built L (Dipolar._initialize L s).
Proof.
  intros Hok Hdec. unfold kernels_built.
  destruct (_initialize_static s) as (_ & _ & _ & _ & _ & Eu). rewrite Eu.
  unfold Dipolar._initialize.
  set (u := unitcell (Dipolar.mm s)).
  set (s0 := {| Dipolar.mm := Dipolar.mm s; Dipolar.E := Dipolar.E s;
                Dipolar.E_perp := Dipolar.E_perp s;
                Dipolar.prefactor := Dipolar.prefactor s;
                Dipolar.decay_exponent := Dipolar.decay_exponent s;
                Dipolar.unitcell := u;
                Dipolar.kernel_unitcell_indices :=
                  tabulate (Unitcell.y u) (Unitcell.x u) (fun _ _ => (-1)%Z);
                Dipolar.kernel_unitcell := [];
                Dipolar.kernel_perpself_unitcell := [];
                Dipolar.kernel_perpother_unitcell := [] |}).
  change (Dipolar.unitcell_positions u) with ([] ++ Dipolar.unitcell_positions u) at 2.
  apply (@_initialize_loop_upto (Dipolar.unitcell_positions u) s0 []); try assumption.
  - apply Forall_forall. intros [y x] Hin.
    unfold Dipolar.unitcell_positions in Hin. apply in_prod_iff in Hin.
    destruct Hin as [Hy Hx]. apply in_seq in Hy, Hx. cbn; fold u; lia.
  - repeat split; try reflexivity; try apply shaped_tabulate; try apply Forall_nil.
    + intros [].
    + intros _. unfold Dipolar.kernel_index, s0.
      cbn [Dipolar.kernel_unitcell_indices Dipolar.mm] in *.
      now rewrite get_tabulate.
Qed.
End InitializeLoop.

(** ** Arithmetic on rationals *)

Lemma q2_eq : q2 = (Q2Qc 1 + Q2Qc 1)%Qc.
Proof. apply Qc_is_canon. reflexivity. Qed.

Lemma q3_eq : q3 = (Q2Qc 1 + Q2Qc 1 + Q2Qc 1)%Qc.
Proof. apply Qc_is_canon. reflexivity. Qed.

Ltac qring := rewrite ?q2_eq, ?q3_eq; unfold q0, q1; ring.

(** ** Sums of finite numbers *)

Lemma sum_list_fin (l : list xnum) (q : list Qc) :
  l = map Fin q -> sum_list l = Fin (qsum_list q).
Proof.
  intros ->. unfold sum_list, qsum_list.
  induction q as [|a q IH]; cbn [map fold_right]; [reflexivity|].
  now rewrite IH.
Qed.

Lemma sum_upto_fin n (F : nat -> xnum) (f : nat -> Qc) :
  (forall i, i < n -> F i = Fin (f i)) -> sum_upto n F = Fin (qsum_upto n f).
Proof.
  intros H. unfold sum_upto, qsum_upto. apply sum_list_fin.
  rewrite map_map. apply map_ext_in. intros i Hi. apply in_seq in Hi. apply H. lia.
Qed.

Lemma sum2_upto_fin ny nx (F : nat -> nat -> xnum) (f : nat -> nat -> Qc) :
  (forall a b, a < ny -> b < nx -> F a b = Fin (f a b)) ->
  sum2_upto ny nx F = Fin (qsum2_upto ny nx f).
Proof.
  intros H. unfold sum2_upto, qsum2_upto. apply sum_upto_fin.
  intros a Ha. apply sum_upto_fin. intros b Hb. now apply H.
Qed.

Lemma qsum_upto_ext n (f g : nat -> Qc) :
  (forall i, i < n -> f i = g i) -> qsum_upto n f = qsum_upto n g.
Proof.
  intros H. unfold qsum_upto. f_equal. apply map_ext_in.
  intros i Hi. apply in_seq in Hi. apply H. lia.
Qed.

Lemma qsum2_upto_ext ny nx (f g : nat -> nat -> Qc) :
  (forall a b, a < ny -> b < nx -> f a b = g a b) ->
  qsum2_upto ny nx f = qsum2_upto ny nx g.
Proof.
  intros H. unfold qsum2_upto. apply qsum_upto_ext. intros a Ha.
  apply qsum_upto_ext. intros b Hb. now apply H.
Qed.

Lemma qsum_over_ext {A} (l : list A) (f g : A -> Qc) :
  (forall a, In a l -> f a = g a) -> qsum_over l f = qsum_over l g.
Proof. intros H. unfold qsum_over. f_equal. now apply map_ext_in. Qed.

Lemma qsum_over_nil {A} (f : A -> Qc) : qsum_over [] f = q0.
Proof. reflexivity. Qed.

Lemma qsum_over_cons {A} (a : A) l (f : A -> Qc) :
  qsum_over (a :: l) f = (f a + qsum_over l f)%Qc.
Proof. reflexivity. Qed.

Lemma qsum_over_app {A} (l l' : list A) (f : A -> Qc) :
  qsum_over (l ++ l') f = (qsum_over l f + qsum_over l' f)%Qc.
Proof.
  induction l as [|a l IH]; rewrite ?app_nil_l, <- ?app_comm_cons,
    ?qsum_over_nil, ?qsum_over_cons.
  - unfold q0. ring.
  - rewrite IH. ring.
Qed.

Lemma qsum_over_zero {A} (l : list A) (f : A -> Qc) :
  (forall a, In a l -> f a = q0) -> qsum_over l f = q0.
Proof.
  induction l as [|a l IH]; intros H; rewrite ?qsum_over_nil, ?qsum_over_cons.
  - reflexivity.
  - rewrite H by now left. rewrite IH by (intros; apply H; now right).
    unfold q0. ring.
Qed.

Lemma qsum_over_add {A} (l : list A) (f g : A -> Qc) :
  qsum_over l (fun a => f a + g a)%Qc = (qsum_over l f + qsum_over l g)%Qc.
Proof.
  induction l as [|a l IH]; rewrite ?qsum_over_nil, ?qsum_over_cons.
  - unfold q0. ring.
  - rewrite IH. ring.
Qed.

Lemma qsum_over_scale {A} (l : list A) (c : Qc) (f : A -> Qc) :
  qsum_over l (fun a => c * f a)%Qc = (c * qsum_over l f)%Qc.
Proof.
  induction l as [|a l IH]; rewrite ?qsum_over_nil, ?qsum_over_cons.
  - unfold q0. ring.
  - rewrite IH. ring.
Qed.

(** A sum in which a single term can differ from zero. *)
Lemma qsum_over_single {A} (l : list A) (a0 : A) (f : A -> Qc) :
  NoDup l -> In a0 l -> (forall a, In a l -> a <> a0 -> f a = q0) ->
  qsum_over l f = f a0.
Proof.
  induction l as [|a l IH]; intros Hnd Hin Hz; [destruct Hin|].
  inversion Hnd as [|? ? Hnotin Hnd']; subst.
  rewrite qsum_over_cons. destruct Hin as [->|Hin].
  - rewrite qsum_over_zero.
    + unfold q0. ring.
    + intros b Hb. apply Hz; [now right|]. intros ->. contradiction.
  - rewrite IH; try assumption.
    + rewrite Hz; [unfold q0; ring | now left |]. intros ->. contradiction.
    + intros b Hb Hne. apply Hz; [now right | assumption].
Qed.

Lemma qsum_upto_over n (f : nat -> Qc) : qsum_upto n f = qsum_over (seq 0 n) f.
Proof. reflexivity. Qed.

Lemma qsum_over_prod {A B} (l : list A) (l' : list B) (f : A * B -> Qc) :
  qsum_over (list_prod l l') f
  = qsum_over l (fun a => qsum_over l' (fun b => f (a, b))).
Proof.
  induction l as [|a l IH]; cbn [list_prod]; [reflexivity|].
  rewrite qsum_over_app, qsum_over_cons, IH. f_equal.
  unfold qsum_over. now rewrite map_map.
Qed.

Lemma qsum_upto_single n i0 (f : nat -> Qc) :
  i0 < n -> (forall i, i < n -> i <> i0 -> f i = q0) -> qsum_upto n f = f i0.
Proof.
  intros Hi Hz. rewrite qsum_upto_over. apply qsum_over_single.
  - apply seq_NoDup.
  - apply in_seq. lia.
  - intros i Hin. apply in_seq in Hin. apply Hz. lia.
Qed.

Lemma fold_left_qplus {A} (l : list A) (f : A -> Qc) (a : Qc) :
  fold_left (fun acc p => acc + f p)%Qc l a = (a + qsum_over l f)%Qc.
Proof.
  revert a. induction l as [|p l IH]; intros a; cbn [fold_left].
  - rewrite qsum_over_nil. unfold q0. ring.
  - rewrite IH, qsum_over_cons. ring.
Qed.

(** ** Strides *)

Lemma on_stride_spec o s i :
  0 < s -> o < s -> on_stride o s i = (i mod s =? o).
Proof.
  intros Hs Ho. unfold on_stride.
  destruct (Nat.eqb_spec (i mod s) o) as [E|E].
  - pose proof (Nat.div_mod i s ltac:(lia)) as D.
    replace (o <=? i) with true by (symmetry; apply Nat.leb_le; lia).
    cbn [andb]. apply Nat.eqb_eq.
    replace (i - o) with (i / s * s) by lia.
    apply Nat.Div0.mod_mul.
  - destruct (Nat.leb_spec o i) as [Hle|Hle]; [|reflexivity].
    cbn [andb]. apply Nat.eqb_neq. intros Hm. apply E.
    replace i with (o + (i - o)) by lia.
    rewrite Nat.Div0.add_mod, Hm, Nat.add_0_r, Nat.Div0.mod_mod.
    now apply Nat.mod_small.
Qed.

(** ** The full recomputation in closed form *)

Section Update.
Variable L : libm.
Variable mm : Magnets.t.
Hypothesis Hok : lattice_ok mm.
Variable e : Qc.

Lemma mmoment_closed :
  multiply (m mm) (moment mm)
  = tabulate (ny mm) (nx mm) (fun a b => Fin (q_mm mm a b)).
Proof.
  destruct (ok_m Hok) as [Sm Fm]. destruct (ok_moment Hok) as [So Fo].
  pose proof (ok_ny Hok) as Hy.
  unfold multiply. rewrite (map2_shaped _ _ Sm Hy).
  apply tabulate_ext. intros a b Ha Hb.
  now rewrite (xget_fin _ _ Fm), (xget_fin _ _ Fo).
Qed.

Lemma kernel_grid_shaped k y x :
  shaped (2 * ny mm - 1) (2 * nx mm - 1) (kernel_grid L mm e k y x).
Proof. apply shaped_tabulate. Qed.

Lemma conv_closed k y x :
  convolve2d_valid (flip (kernel_grid L mm e k y x)) (multiply (m mm) (moment mm))
  = tabulate (ny mm) (nx mm) (fun i j => Fin (q_conv L mm e k y x i j)).
Proof.
  pose proof (ok_ny Hok) as Hy. pose proof (ok_nx Hok) as Hx.
  rewrite mmoment_closed.
  apply (@grid_ext _ xzero (ny mm) (nx mm)).
  - replace (ny mm) with (2 * ny mm - 1 - ny mm + 1) at 1 by lia.
    replace (nx mm) with (2 * nx mm - 1 - nx mm + 1) at 1 by lia.
    apply convolve2d_valid_shape; try lia; shape.
  - shape.
  - intros i j Hi Hj. fold xget.
    rewrite (@convolve2d_valid_get (2 * ny mm - 1) (2 * nx mm - 1) (ny mm) (nx mm));
      try lia; [| apply flip_shape; [apply kernel_grid_shaped | lia] | shape].
    rewrite xget_tabulate by assumption.
    unfold q_conv. apply sum2_upto_fin. intros a b Ha Hb.
    rewrite (@flip_get (2 * ny mm - 1) (2 * nx mm - 1))
      by (try lia; apply kernel_grid_shaped).
    unfold kernel_grid. rewrite !xget_tabulate by lia.
    cbn [xmul]. unfold q_pair. do 3 f_equal; lia.
Qed.
End Update.

Section UpdateLoop.
Variable L : libm.
Variable s : Dipolar.t.
Hypothesis Hs : dipolar_ok L s.

Local Abbreviation mm := (Dipolar.mm s).
Local Abbreviation e := (- Dipolar.decay_exponent s)%Qc.
Local Abbreviation u := (unitcell (Dipolar.mm s)).

Lemma dipolar_unitcell : Dipolar.unitcell s = u.
Proof. destruct Hs as (_ & _ & _ & Hu & _). exact Hu. Qed.

Lemma in_unitcell_positions y x :
  y < Unitcell.y u -> x < Unitcell.x u ->
  In (y, x) (Dipolar.unitcell_positions (Dipolar.unitcell s)).
Proof.
  intros Hy Hx. rewrite dipolar_unitcell. unfold Dipolar.unitcell_positions.
  apply in_prod; apply in_seq; lia.
Qed.

Lemma kernel_of_occupied y x :
  y < Unitcell.y u -> x < Unitcell.x u -> occupied mm y x = true ->
  exists n,
    Dipolar.kernel_index s y x = Z.of_nat n
    /\ nth n (Dipolar.kernel_unitcell s) [] = kernel_grid L mm e Normal y x
    /\ nth n (Dipolar.kernel_perpself_unitcell s) [] = kernel_grid L mm e PerpSelf y x
    /\ nth n (Dipolar.kernel_perpother_unitcell s) [] = kernel_grid L mm e PerpOther y x.
Proof.
  intros Hy Hx Ho. destruct Hs as (_ & _ & _ & Hb).
  destruct Hb as (_ & _ & _ & _ & _ & _ & _ & Hall).
  destruct (Hall y x Hy Hx) as [Hin _].
  destruct (Hin (in_unitcell_positions Hy Hx) Ho) as (n & _ & H).
  now exists n.
Qed.

Lemma kernel_of_empty y x :
  y < Unitcell.y u -> x < Unitcell.x u -> occupied mm y x = false ->
  Dipolar.kernel_index s y x = (-1)%Z.
Proof.
  intros Hy Hx Ho. destruct Hs as (_ & _ & _ & Hb).
  destruct Hb as (_ & _ & _ & _ & _ & _ & _ & Hall).
  destruct (Hall y x Hy Hx) as [_ Hout]. apply Hout. now right.
Qed.

Lemma update_step_closed (T1 T2 : nat -> nat -> Qc) p :
  fst p < Unitcell.y u -> snd p < Unitcell.x u ->
  Dipolar.update_step s
    (tabulate (ny mm) (nx mm) (fun i j => Fin (T1 i j)),
     tabulate (ny mm) (nx mm) (fun i j => Fin (T2 i j))) p
  = (tabulate (ny mm) (nx mm)
       (fun i j => Fin (T1 i j + q_contrib L mm e Normal p i j)%Qc),
     tabulate (ny mm) (nx mm)
       (fun i j => Fin (T2 i j + (if USE_PERP_ENERGY mm
                                  then q_contrib L mm e PerpSelf p i j
                                  else q0))%Qc)).
Proof.
  intros Hpy Hpx. destruct Hs as (Hok & _).
  pose proof (ok_ny Hok) as Hy. destruct (ok_m Hok) as [Sm Fm].
  unfold Dipolar.update_step.
  destruct (occupied mm (fst p) (snd p)) eqn:Ho.
  - destruct (kernel_of_occupied Hpy Hpx Ho) as (n & -> & K1 & K2 & _).
    replace (Z.of_nat n <? 0)%Z with false by (symmetry; apply Z.ltb_ge; lia).
    rewrite Nat2Z.id, K1, K2, dipolar_unitcell. cbn [fst snd].
    rewrite !(conv_closed L Hok).
    rewrite (@zeros_like_shaped _ (ny mm) (nx mm)) by assumption.
    f_equal.
    + unfold add, multiply.
      apply (@grid_ext _ xzero (ny mm) (nx mm)); [shape | shape |].
      intros i j Hi Hj. fold xget.
      rewrite !(@map2_get _ (ny mm) (nx mm)) by (try lia; shape).
      rewrite (@assign_strided_get (ny mm) (nx mm)) by (try lia; shape).
      rewrite !xget_tabulate by assumption.
      unfold q_contrib. rewrite Ho.
      rewrite xget_zeros, (xget_fin _ _ Fm).
      now destruct (on_stride (fst p) (Unitcell.y u) i
                    && on_stride (snd p) (Unitcell.x u) j).
    + destruct (USE_PERP_ENERGY mm).
      * unfold add, multiply.
        apply (@grid_ext _ xzero (ny mm) (nx mm)); [shape | shape |].
        intros i j Hi Hj. fold xget.
        rewrite !(@map2_get _ (ny mm) (nx mm)) by (try lia; shape).
        rewrite (@assign_strided_get (ny mm) (nx mm)) by (try lia; shape).
        rewrite !xget_tabulate by assumption.
        unfold q_contrib. rewrite Ho.
        rewrite xget_zeros, (xget_fin _ _ Fm).
        now destruct (on_stride (fst p) (Unitcell.y u) i
                      && on_stride (snd p) (Unitcell.x u) j).
      * apply tabulate_ext. intros i j _ _. f_equal. unfold q0. ring.
  - rewrite (kernel_of_empty Hpy Hpx Ho). cbn [Z.ltb Z.compare fst snd].
    f_equal; apply tabulate_ext; intros i j _ _; f_equal;
      unfold q_contrib; rewrite Ho; destruct (USE_PERP_ENERGY mm); unfold q0; ring.
Qed.

Lemma update_loop_closed l : forall (T1 T2 : nat -> nat -> Qc),
  Forall (fun p => fst p < Unitcell.y u /\ snd p < Unitcell.x u) l ->
  fold_left (Dipolar.update_step s) l
    (tabulate (ny mm) (nx mm) (fun i j => Fin (T1 i j)),
     tabulate (ny mm) (nx mm) (fun i j => Fin (T2 i j)))
  = (tabulate (ny mm) (nx mm)
       (fun i j => Fin (T1 i j
                        + qsum_over l (fun p => q_contrib L mm e Normal p i j))%Qc),
     tabulate (ny mm) (nx mm)
       (fun i j => Fin (T2 i j
                        + (if USE_PERP_ENERGY mm
                           then qsum_over l (fun p => q_contrib L mm e PerpSelf p i j)
                           else q0))%Qc)).
Proof.
  induction l as [|p l IH]; intros T1 T2 Hl; cbn [fold_left].
  - f_equal; apply tabulate_ext; intros i j _ _; f_equal;
      rewrite ?qsum_over_nil; destruct (USE_PERP_ENERGY mm); unfold q0; ring.
  - inversion Hl as [|? ? [Hpy Hpx] Hl']; subst.
    rewrite update_step_closed by assumption.
    rewrite IH by assumption.
    f_equal; apply tabulate_ext; intros i j _ _; f_equal;
      rewrite ?qsum_over_cons; destruct (USE_PERP_ENERGY mm); unfold q0; ring.
Qed.

(** Of all positions of the unit cell, only the one that the site belongs
    to contributes to the energy of the site. *)
Lemma contrib_sum k i j :
  i < ny mm -> j < nx mm ->
  qsum_over (Dipolar.unitcell_positions u) (fun p => q_contrib L mm e k p i j)
  = if occupied mm (i mod Unitcell.y u) (j mod Unitcell.x u)
    then (qget (m mm) i j
          * q_conv L mm e k (i mod Unitcell.y u) (j mod Unitcell.x u) i j)%Qc
    else q0.
Proof.
  intros Hi Hj. destruct Hs as (Hok & _).
  pose proof (ok_cy Hok) as Hcy. pose proof (ok_cx Hok) as Hcx.
  unfold Dipolar.unitcell_positions. rewrite qsum_over_prod.
  pose proof (Nat.mod_upper_bound i (Unitcell.y u) ltac:(lia)) as By.
  pose proof (Nat.mod_upper_bound j (Unitcell.x u) ltac:(lia)) as Bx.
  rewrite <- qsum_upto_over.
  rewrite (@qsum_upto_single _ (i mod Unitcell.y u)); [|assumption|].
  - rewrite <- qsum_upto_over.
    rewrite (@qsum_upto_single _ (j mod Unitcell.x u)); [|assumption|].
    + unfold q_contrib. cbn [fst snd].
      rewrite !on_stride_spec by assumption. rewrite !Nat.eqb_refl. reflexivity.
    + intros x Hx Hne. unfold q_contrib. cbn [fst snd].
      rewrite !on_stride_spec by assumption.
      replace (j mod Unitcell.x u =? x) with false
        by (symmetry; apply Nat.eqb_neq; congruence).
      rewrite andb_false_r.
      destruct (occupied mm (i mod Unitcell.y u) x); unfold q0; ring.
  - intros y Hy Hne. apply qsum_over_zero. intros x Hx. apply in_seq in Hx.
    unfold q_contrib. cbn [fst snd].
    rewrite !on_stride_spec by lia.
    replace (i mod Unitcell.y u =? y) with false
      by (symmetry; apply Nat.eqb_neq; congruence).
    cbn [andb]. destruct (occupied mm y x); unfold q0; ring.
Qed.

(** [update] recomputes the energies in closed form. *)
Lemma update_closed :
  Dipolar.E (Dipolar.update s)
  = tabulate (ny mm) (nx mm)
      (fun i j => Fin (q_energy L mm e (fval (Dipolar.prefactor s)) Normal i j))
  /\ Dipolar.E_perp (Dipolar.update s)
     = if USE_PERP_ENERGY mm
       then tabulate (ny mm) (nx mm)
              (fun i j => Fin (q_energy L mm e (fval (Dipolar.prefactor s)) PerpSelf i j))
       else Dipolar.E_perp s.
Proof.
  destruct Hs as (Hok & _ & Hpref & _).
  pose proof (ok_ny Hok) as Hy. destruct (ok_m Hok) as [Sm Fm].
  destruct (ok_moment Hok) as [So Fo].
  unfold Dipolar.update. cbn [Dipolar.E Dipolar.E_perp Dipolar.with_E].
  rewrite (@zeros_like_shaped _ (ny mm) (nx mm)) by assumption.
  change (zeros (ny mm) (nx mm)) with (tabulate (ny mm) (nx mm) (fun _ _ => Fin q0)).
  rewrite update_loop_closed.
  2:{ apply Forall_forall. intros [y x] Hin. rewrite dipolar_unitcell in Hin.
      unfold Dipolar.unitcell_positions in Hin. apply in_prod_iff in Hin.
      destruct Hin as [Hy' Hx']. apply in_seq in Hy', Hx'. cbn; lia. }
  cbn [fst snd]. rewrite dipolar_unitcell.
  rewrite (is_fin_fval _ Hpref).
  split.
  - unfold multiply, scale.
    apply (@grid_ext _ xzero (ny mm) (nx mm)); [shape | shape |].
    intros i j Hi Hj. fold xget.
    rewrite (@map2_get _ (ny mm) (nx mm)) by (try lia; shape).
    rewrite (@map1_get _ (ny mm) (nx mm)) by (try lia; shape).
    rewrite !xget_tabulate by assumption.
    rewrite (xget_fin _ _ Fo). cbn [xmul fval]. f_equal.
    rewrite contrib_sum by assumption. unfold q_energy.
    destruct (occupied mm (i mod Unitcell.y u) (j mod Unitcell.x u));
      unfold q0; ring.
  - destruct (USE_PERP_ENERGY mm); [|reflexivity].
    unfold multiply, scale.
    apply (@grid_ext _ xzero (ny mm) (nx mm)); [shape | shape |].
    intros i j Hi Hj. fold xget.
    rewrite (@map2_get _ (ny mm) (nx mm)) by (try lia; shape).
    rewrite (@map1_get _ (ny mm) (nx mm)) by (try lia; shape).
    rewrite !xget_tabulate by assumption.
    rewrite (xget_fin _ _ Fo). cbn [xmul fval]. f_equal.
    rewrite contrib_sum by assumption. unfold q_energy.
    destruct (occupied mm (i mod Unitcell.y u) (j mod Unitcell.x u));
      unfold q0; ring.
Qed.
End UpdateLoop.

(** ** Which magnet a kernel entry speaks about *)

Lemma cell_seen_flat c n y i :
  0 < c -> cell_seen c n y i = (c - (n - 1) mod c + y + i) mod c.
Proof. intros Hc. unfold cell_seen. now rewrite Nat.Div0.add_mod_idemp_l. Qed.

Lemma mod_eq_of_multiple c a b k l :
  a + k * c = b + l * c -> a mod c = b mod c.
Proof.
  intros H.
  rewrite <- (Nat.Div0.mod_add a k c), <- (Nat.Div0.mod_add b l c).
  now rewrite H.
Qed.

(** The entry for the offset from the site [i0] to the site [a] speaks about
    the unit-cell position of [a]. *)
Lemma cell_seen_site c n i0 a :
  0 < c -> i0 < n -> a < n ->
  cell_seen c n (i0 mod c) (n - 1 + a - i0) = a mod c.
Proof.
  intros Hc Hi Ha. rewrite cell_seen_flat by assumption.
  pose proof (Nat.div_mod (n - 1) c ltac:(lia)) as D1.
  pose proof (Nat.mod_upper_bound (n - 1) c ltac:(lia)) as U1.
  pose proof (Nat.div_mod i0 c ltac:(lia)) as D2.
  pose proof (Nat.mod_upper_bound i0 c ltac:(lia)) as U2.
  assert (Hq : i0 / c <= (n - 1) / c) by (apply Nat.Div0.div_le_mono; lia).
  apply (@mod_eq_of_multiple c _ _ 0 (1 + (n - 1) / c - i0 / c)).
  nia.
Qed.

Lemma cell_seen_image_up c n y i :
  0 < c -> n mod c = 0 -> cell_seen c n y (i + n) = cell_seen c n y i.
Proof.
  intros Hc Hn. rewrite !cell_seen_flat by assumption.
  pose proof (Nat.div_mod n c ltac:(lia)) as D.
  apply (@mod_eq_of_multiple c _ _ 0 (n / c)). nia.
Qed.

Lemma cell_seen_image_down c n y i :
  0 < c -> n mod c = 0 -> n <= i -> cell_seen c n y (i - n) = cell_seen c n y i.
Proof.
  intros Hc Hn Hi.
  rewrite <- (@cell_seen_image_up c n y (i - n)) by assumption.
  f_equal. lia.
Qed.

(** ** Mirror symmetry of distances and directions *)

Lemma dist_reflect n k : k < 2 * n - 1 -> dist n (2 * n - 1 - 1 - k) = dist n k.
Proof.
  intros Hk. unfold dist.
  destruct (Nat.ltb_spec (2 * n - 1 - 1 - k) (n - 1));
    destruct (Nat.ltb_spec k (n - 1)); lia.
Qed.

Lemma dist_centre n : dist n (n - 1) = 0.
Proof. unfold dist. rewrite Nat.ltb_irrefl. lia. Qed.

Section Mirror.
Variable L : libm.
Variable mm : Magnets.t.
Hypothesis Hok : lattice_ok mm.
Hypothesis Hreg : regular mm.
Variable e : Qc.

Local Abbreviation N := (2 * ny mm - 1).
Local Abbreviation M := (2 * nx mm - 1).

Lemma q_rinv3_reflect i j :
  i < N -> j < M -> q_rinv3 L mm e (N - 1 - i) (M - 1 - j) = q_rinv3 L mm e i j.
Proof.
  intros Hi Hj. unfold q_rinv3. now rewrite !dist_reflect.
Qed.

Lemma q_rinv3_centre : q_rinv3 L mm e (ny mm - 1) (nx mm - 1) = q0.
Proof. unfold q_rinv3. now rewrite !dist_centre. Qed.

Lemma q_ux_reflect i j :
  i < N -> j < M -> q_ux L mm (N - 1 - i) (M - 1 - j) = (- q_ux L mm i j)%Qc.
Proof.
  intros Hi Hj. pose proof (ok_ny Hok) as Hy. pose proof (ok_nx Hok) as Hx.
  unfold q_ux. rewrite !dist_reflect by assumption.
  destruct (Nat.eq_dec j (nx mm - 1)) as [->|Hne].
  - rewrite dist_centre. unfold qX.
    rewrite (reg_xx Hreg) by (apply dist_lt; assumption). ring.
  - unfold qsgn. cbn [andb].
    destruct (Nat.leb_spec (M - 1 - j) (nx mm - 1));
      destruct (Nat.leb_spec j (nx mm - 1)); try lia; unfold q1; ring.
Qed.

Lemma q_uy_reflect i j :
  i < N -> j < M -> q_uy L mm (N - 1 - i) (M - 1 - j) = (- q_uy L mm i j)%Qc.
Proof.
  intros Hi Hj. pose proof (ok_ny Hok) as Hy. pose proof (ok_nx Hok) as Hx.
  unfold q_uy. rewrite !dist_reflect by assumption.
  destruct (Nat.eq_dec i (ny mm - 1)) as [->|Hne].
  - rewrite dist_centre. unfold qY.
    rewrite (reg_yy Hreg) by (apply dist_lt; assumption). ring.
  - unfold qsgn. cbn [andb].
    destruct (Nat.leb_spec (N - 1 - i) (ny mm - 1));
      destruct (Nat.leb_spec i (ny mm - 1)); try lia; unfold q1; ring.
Qed.
End Mirror.

Lemma qdd_swap (a b c d u v r : Qc) :
  qdd c d a b (- u)%Qc (- v)%Qc r = qdd a b c d u v r.
Proof. unfold qdd. ring. Qed.

Lemma qdd_no_other (a b u v r : Qc) : qdd a b q0 q0 u v r = q0.
Proof. unfold qdd, q0. ring. Qed.

Lemma qdd_no_self (c d u v r : Qc) : qdd q0 q0 c d u v r = q0.
Proof. unfold qdd, q0. ring. Qed.

Lemma qdd_no_distance (a b c d u v : Qc) : qdd a b c d u v q0 = q0.
Proof. unfold qdd, q0. ring. Qed.

(** ** Occupied and empty positions *)

Lemma xeq_fin (a b : Qc) : xeq (Fin a) (Fin b) = Qc_eq_bool a b.
Proof. reflexivity. Qed.

Section Occupation.
Variable mm : Magnets.t.
Hypothesis Hok : lattice_ok mm.

Lemma empty_in_plane y x :
  in_plane mm = true -> occupied mm y x = false ->
  qget (orientation_x mm) y x = q0 /\ qget (orientation_y mm) y x = q0.
Proof.
  intros Hip Ho. unfold occupied in Ho. rewrite Hip in Ho.
  destruct (ok_ox Hok) as [_ Fox]. destruct (ok_oy Hok) as [_ Foy].
  rewrite (xget_fin y x Fox), (xget_fin y x Foy) in Ho.
  unfold xzero in Ho. rewrite !xeq_fin in Ho.
  apply negb_false_iff, andb_true_iff in Ho. destruct Ho as [E1 E2].
  apply Qc_eq_bool_correct in E1, E2. split; congruence.
Qed.

Lemma empty_out_of_plane y x :
  in_plane mm = false -> occupied mm y x = false -> qget (occupation mm) y x = q0.
Proof.
  intros Hip Ho. unfold occupied in Ho. rewrite Hip in Ho.
  destruct (ok_occ Hok) as [_ Focc].
  rewrite (xget_fin y x Focc) in Ho. unfold xzero in Ho. rewrite xeq_fin in Ho.
  apply negb_false_iff in Ho. now apply Qc_eq_bool_correct in Ho.
Qed.

Lemma occupied_out_of_plane y x :
  regular mm -> in_plane mm = false ->
  y < Unitcell.y (unitcell mm) -> x < Unitcell.x (unitcell mm) ->
  occupied mm y x = true -> qget (occupation mm) y x = q1.
Proof.
  intros Hreg Hip Hy Hx Ho. unfold occupied in Ho. rewrite Hip in Ho.
  destruct (ok_occ Hok) as [_ Focc].
  rewrite (xget_fin y x Focc) in Ho. unfold xzero in Ho. rewrite xeq_fin in Ho.
  destruct (reg_occ Hreg Hip Hy Hx) as [E|E]; [|exact E].
  rewrite E, Qc_eq_bool_refl in Ho. discriminate.
Qed.
End Occupation.

(** ** Reciprocity of the kernels *)

Lemma images_in_range n i a :
  0 < n -> i < 2 * n - 1 -> In a (images n i) -> a < 2 * n - 1.
Proof.
  intros Hn Hi Ha.
  destruct (images_cases Hn Hi) as [[C E]|[[C E]|[C E]]]; rewrite E in Ha;
    cbn in Ha; intuition lia.
Qed.

Lemma images_reflect n i :
  0 < n -> i < 2 * n - 1 ->
  images n (2 * n - 1 - 1 - i) = map (fun a => 2 * n - 1 - 1 - a) (images n i).
Proof.
  intros Hn Hi.
  assert (Hi' : 2 * n - 1 - 1 - i < 2 * n - 1) by lia.
  destruct (images_cases Hn Hi) as [[C E]|[[C E]|[C E]]];
    destruct (images_cases Hn Hi') as [[C' E']|[[C' E']|[C' E']]];
    try lia; rewrite E, E'; cbn [map];
    repeat (apply f_equal2; [lia|]); reflexivity.
Qed.

Lemma cell_seen_images c n y i a :
  0 < c -> 0 < n -> n mod c = 0 -> i < 2 * n - 1 -> In a (images n i) ->
  cell_seen c n y a = cell_seen c n y i.
Proof.
  intros Hc Hn Hm Hi Ha.
  destruct (images_cases Hn Hi) as [[C E]|[[C E]|[C E]]]; rewrite E in Ha;
    cbn in Ha.
  - destruct Ha as [<-|[<-|[]]]; [reflexivity|]. now apply cell_seen_image_down.
  - destruct Ha as [<-|[<-|[]]]; [reflexivity|]. now apply cell_seen_image_up.
  - destruct Ha as [<-|[]]. reflexivity.
Qed.

Section Reciprocity.
Variable L : libm.
Variable mm : Magnets.t.
Hypothesis Hok : lattice_ok mm.
Hypothesis Hreg : regular mm.
Variable e : Qc.

Local Abbreviation N := (2 * ny mm - 1).
Local Abbreviation M := (2 * nx mm - 1).
Local Abbreviation cy := (Unitcell.y (unitcell mm)).
Local Abbreviation cx := (Unitcell.x (unitcell mm)).

Lemma q_kernel0_reflect k y x y2 x2 I J :
  y < cy -> x < cx -> y2 < cy -> x2 < cx -> I < N -> J < M ->
  cell_seen cy (ny mm) y I = y2 -> cell_seen cx (nx mm) x J = x2 ->
  cell_seen cy (ny mm) y2 (N - 1 - I) = y -> cell_seen cx (nx mm) x2 (M - 1 - J) = x ->
  (in_plane mm = false -> occupied mm y x = true /\ occupied mm y2 x2 = true) ->
  q_kernel0 L mm e k y x I J = q_kernel0 L mm e (mate k) y2 x2 (N - 1 - I) (M - 1 - J).
Proof.
  intros Hy Hx Hy2 Hx2 HI HJ E1 E2 E3 E4 Hocc.
  unfold q_kernel0. rewrite E1, E2, E3, E4.
  rewrite (q_rinv3_reflect L mm e HI HJ).
  rewrite (q_ux_reflect L Hok Hreg HI HJ), (q_uy_reflect L Hok Hreg HI HJ).
  destruct (in_plane mm) eqn:Hip.
  - destruct k; cbn [mate]; now rewrite qdd_swap.
  - destruct (Hocc eq_refl) as [O1 O2].
    destruct k; cbn [mate]; try reflexivity.
    now rewrite (occupied_out_of_plane Hok Hreg Hip Hy Hx O1),
      (occupied_out_of_plane Hok Hreg Hip Hy2 Hx2 O2).
Qed.

(** The kernel entry that the magnet at [(i, j)] uses for the magnet at
    [(a, b)] is the entry that [(a, b)] uses for [(i, j)]. *)
Lemma q_pair_reciprocal k i j a b :
  i < ny mm -> j < nx mm -> a < ny mm -> b < nx mm ->
  (in_plane mm = false ->
   occupied mm (i mod cy) (j mod cx) = true /\ occupied mm (a mod cy) (b mod cx) = true) ->
  q_pair L mm e k (i mod cy) (j mod cx) i j a b
  = q_pair L mm e (mate k) (a mod cy) (b mod cx) a b i j.
Proof.
  intros Hi Hj Ha Hb Hocc.
  pose proof (ok_ny Hok) as Hy. pose proof (ok_nx Hok) as Hx.
  pose proof (ok_cy Hok) as Hcy. pose proof (ok_cx Hok) as Hcx.
  pose proof (Nat.mod_upper_bound i cy ltac:(lia)) as Bi.
  pose proof (Nat.mod_upper_bound j cx ltac:(lia)) as Bj.
  pose proof (Nat.mod_upper_bound a cy ltac:(lia)) as Ba.
  pose proof (Nat.mod_upper_bound b cx ltac:(lia)) as Bb.
  unfold q_pair, q_kernel.
  set (I := ny mm - 1 + a - i). set (J := nx mm - 1 + b - j).
  replace (ny mm - 1 + i - a) with (N - 1 - I) by (unfold I; lia).
  replace (nx mm - 1 + j - b) with (M - 1 - J) by (unfold J; lia).
  assert (HI : I < N) by (unfold I; lia).
  assert (HJ : J < M) by (unfold J; lia).
  assert (E1 : cell_seen cy (ny mm) (i mod cy) I = a mod cy)
    by (apply cell_seen_site; lia).
  assert (E2 : cell_seen cx (nx mm) (j mod cx) J = b mod cx)
    by (apply cell_seen_site; lia).
  assert (E3 : cell_seen cy (ny mm) (a mod cy) (N - 1 - I) = i mod cy).
  { replace (N - 1 - I) with (ny mm - 1 + i - a) by (unfold I; lia).
    apply cell_seen_site; lia. }
  assert (E4 : cell_seen cx (nx mm) (b mod cx) (M - 1 - J) = j mod cx).
  { replace (M - 1 - J) with (nx mm - 1 + j - b) by (unfold J; lia).
    apply cell_seen_site; lia. }
  f_equal. destruct (PBC mm) eqn:Hpbc.
  - destruct (reg_pbc Hreg Hpbc) as [My Mx].
    unfold q_folded.
    rewrite (images_reflect Hy HI), (images_reflect Hx HJ), map_map.
    unfold qsum_list. f_equal. apply map_ext_in. intros a' Ha'. f_equal.
    rewrite map_map. apply map_ext_in. intros b' Hb'.
    pose proof (@images_in_range _ _ a' Hy HI Ha') as Ra.
    pose proof (@images_in_range _ _ b' Hx HJ Hb') as Rb.
    apply q_kernel0_reflect; try assumption.
    + now rewrite (@cell_seen_images _ _ _ _ a' Hcy Hy My HI Ha').
    + now rewrite (@cell_seen_images _ _ _ _ b' Hcx Hx Mx HJ Hb').
    + rewrite <- E3. apply cell_seen_images; try assumption; try lia.
      rewrite (images_reflect Hy HI). now apply in_map.
    + rewrite <- E4. apply cell_seen_images; try assumption; try lia.
      rewrite (images_reflect Hx HJ). now apply in_map.
  - now apply q_kernel0_reflect.
Qed.

(** A magnet does not interact with itself. *)
Lemma q_pair_self k y x i j :
  i < ny mm -> j < nx mm -> q_pair L mm e k y x i j i j = q0.
Proof.
  intros Hi Hj. pose proof (ok_ny Hok) as Hy. pose proof (ok_nx Hok) as Hx.
  unfold q_pair, q_kernel.
  replace (ny mm - 1 + i - i) with (ny mm - 1) by lia.
  replace (nx mm - 1 + j - j) with (nx mm - 1) by lia.
  assert (K0 : q_kernel0 L mm e k y x (ny mm - 1) (nx mm - 1) = q0).
  { unfold q_kernel0. rewrite q_rinv3_centre.
    destruct (in_plane mm), k; rewrite ?qdd_no_distance; unfold q0; try ring. }
  destruct (PBC mm).
  - unfold q_folded, images.
    replace (ny mm <=? ny mm - 1) with false by (symmetry; apply Nat.leb_gt; lia).
    replace (nx mm <=? nx mm - 1) with false by (symmetry; apply Nat.leb_gt; lia).
    replace (ny mm - 1 + 1 <? ny mm) with false by (symmetry; apply Nat.ltb_ge; lia).
    replace (nx mm - 1 + 1 <? nx mm) with false by (symmetry; apply Nat.ltb_ge; lia).
    cbn [map qsum_list fold_right]. rewrite K0. unfold q0. ring.
  - rewrite K0. unfold q0. ring.
Qed.

(** No kernel has an entry for an empty position. *)
Lemma q_pair_empty k i j a b :
  i < ny mm -> j < nx mm -> a < ny mm -> b < nx mm ->
  occupied mm (a mod cy) (b mod cx) = false ->
  q_pair L mm e k (i mod cy) (j mod cx) i j a b = q0.
Proof.
  intros Hi Hj Ha Hb Ho.
  pose proof (ok_ny Hok) as Hy. pose proof (ok_nx Hok) as Hx.
  pose proof (ok_cy Hok) as Hcy. pose proof (ok_cx Hok) as Hcx.
  unfold q_pair, q_kernel.
  set (I := ny mm - 1 + a - i). set (J := nx mm - 1 + b - j).
  assert (HI : I < N) by (unfold I; lia).
  assert (HJ : J < M) by (unfold J; lia).
  assert (E1 : cell_seen cy (ny mm) (i mod cy) I = a mod cy)
    by (apply cell_seen_site; lia).
  assert (E2 : cell_seen cx (nx mm) (j mod cx) J = b mod cx)
    by (apply cell_seen_site; lia).
  assert (K0 : forall I' J',
             cell_seen cy (ny mm) (i mod cy) I' = a mod cy ->
             cell_seen cx (nx mm) (j mod cx) J' = b mod cx ->
             q_kernel0 L mm e k (i mod cy) (j mod cx) I' J' = q0).
  { intros I' J' C1 C2. unfold q_kernel0. rewrite C1, C2.
    destruct (in_plane mm) eqn:Hip.
    - destruct (empty_in_plane Hok _ _ Hip Ho) as [-> ->].
      replace (- q0)%Qc with q0 by (unfold q0; ring).
      destruct k; now rewrite ?qdd_no_other.
    - rewrite (empty_out_of_plane Hok _ _ Hip Ho).
      destruct k; unfold q0; try ring. }
  destruct (PBC mm) eqn:Hpbc.
  - destruct (reg_pbc Hreg Hpbc) as [My Mx].
    unfold q_folded.
    assert (Z : qsum_list
                  (map (fun a' => qsum_list
                          (map (fun b' => q_kernel0 L mm e k (i mod cy) (j mod cx) a' b')
                               (images (nx mm) J)))
                       (images (ny mm) I)) = q0).
    { apply (@qsum_over_zero _ (images (ny mm) I)
               (fun a' => qsum_list
                  (map (fun b' => q_kernel0 L mm e k (i mod cy) (j mod cx) a' b')
                       (images (nx mm) J)))).
      intros a' Ha'.
      apply (@qsum_over_zero _ (images (nx mm) J)
               (fun b' => q_kernel0 L mm e k (i mod cy) (j mod cx) a' b')).
      intros b' Hb'. apply K0.
      - now rewrite (@cell_seen_images _ _ _ _ a' Hcy Hy My HI Ha').
      - now rewrite (@cell_seen_images _ _ _ _ b' Hcx Hx Mx HJ Hb'). }
    rewrite Z. unfold q0. ring.
  - rewrite K0 by assumption. unfold q0. ring.
Qed.
End Reciprocity.

(** ** Switching magnets *)

Lemma pos_eqb_spec (p q : nat * nat) : reflect (p = q) (pos_eqb p q).
Proof.
  destruct p as [a b], q as [c d]. unfold pos_eqb. cbn [fst snd].
  destruct (Nat.eqb_spec a c) as [->|N1]; destruct (Nat.eqb_spec b d) as [->|N2];
    cbn [andb]; constructor; congruence.
Qed.

Lemma mem_pos_spec (p : nat * nat) (l : indices) : mem_pos p l = true <-> In p l.
Proof.
  unfold mem_pos. rewrite existsb_exists. split.
  - intros (q & Hin & E). destruct (pos_eqb_spec p q); [now subst | discriminate].
  - intros Hin. exists p. split; [assumption|].
    now destruct (pos_eqb_spec p p).
Qed.

Lemma mem_pos_cons (p q : nat * nat) (l : indices) :
  mem_pos p (q :: l) = pos_eqb p q || mem_pos p l.
Proof. reflexivity. Qed.

Lemma in_latticeb_ok mm idx : in_latticeb mm idx = true -> in_lattice mm idx.
Proof.
  unfold in_latticeb, in_lattice. rewrite forallb_forall, Forall_forall.
  intros H p Hp. specialize (H p Hp). apply andb_true_iff in H.
  destruct H as [A B]. now apply Nat.ltb_lt in A, B.
Qed.

Section Switched.
Variable mm : Magnets.t.
Hypothesis Hok : lattice_ok mm.
Variable idx : indices.

Local Abbreviation mm' := (with_m mm (switched (m mm) idx)).

Lemma switched_shaped : fin_shaped (ny mm) (nx mm) (switched (m mm) idx).
Proof.
  destruct (ok_m Hok) as [Sm Fm]. pose proof (ok_ny Hok) as Hy.
  unfold switched. rewrite (shaped_nrows Sm), (shaped_ncols Sm Hy).
  apply fin_shaped_tabulate. intros i j _ _.
  rewrite (xget_fin i j Fm). now destruct (mem_pos (i, j) idx).
Qed.

Lemma switched_get i j :
  i < ny mm -> j < nx mm ->
  qget (switched (m mm) idx) i j
  = if mem_pos (i, j) idx then (- qget (m mm) i j)%Qc else qget (m mm) i j.
Proof.
  intros Hi Hj. destruct (ok_m Hok) as [Sm Fm]. pose proof (ok_ny Hok) as Hy.
  unfold qget at 1, switched. rewrite (shaped_nrows Sm), (shaped_ncols Sm Hy).
  rewrite xget_tabulate by assumption. rewrite (xget_fin i j Fm).
  destruct (mem_pos (i, j) idx); cbn [xmul xm1 fval]; [|reflexivity].
  unfold q1. ring.
Qed.

Lemma switch_ok :
  in_lattice mm idx -> switch idx mm = Ok mm'.
Proof.
  intros Hin. destruct (ok_m Hok) as [Sm Fm]. pose proof (ok_ny Hok) as Hy.
  unfold switch. rewrite (negate_at_ok Sm Hy Hin). cbn [bind].
  unfold switched. now rewrite (shaped_nrows Sm), (shaped_ncols Sm Hy).
Qed.

Lemma switched_lattice_ok : lattice_ok mm'.
Proof.
  destruct Hok. constructor; try assumption. apply switched_shaped.
Qed.

Lemma switched_regular : regular mm -> regular mm'.
Proof. intros []. now constructor. Qed.

Lemma q_mm_switched i j :
  i < ny mm -> j < nx mm ->
  q_mm mm' i j = if mem_pos (i, j) idx then (- q_mm mm i j)%Qc else q_mm mm i j.
Proof.
  intros Hi Hj. unfold q_mm. cbn [m moment with_m].
  rewrite switched_get by assumption.
  destruct (mem_pos (i, j) idx); ring.
Qed.
End Switched.

(** ** Sums over the switched sites *)

Lemma qsum2_upto_add ny nx (f g : nat -> nat -> Qc) :
  qsum2_upto ny nx (fun a b => f a b + g a b)%Qc
  = (qsum2_upto ny nx f + qsum2_upto ny nx g)%Qc.
Proof.
  unfold qsum2_upto. rewrite !qsum_upto_over.
  rewrite <- qsum_over_add. apply qsum_over_ext. intros a _.
  rewrite !qsum_upto_over. apply qsum_over_add.
Qed.

Lemma qsum2_upto_zero ny nx (f : nat -> nat -> Qc) :
  (forall a b, a < ny -> b < nx -> f a b = q0) -> qsum2_upto ny nx f = q0.
Proof.
  intros H. unfold qsum2_upto. rewrite qsum_upto_over. apply qsum_over_zero.
  intros a Ha. apply in_seq in Ha. rewrite qsum_upto_over. apply qsum_over_zero.
  intros b Hb. apply in_seq in Hb. apply H; lia.
Qed.

Lemma qsum2_upto_single ny nx y0 x0 (f : nat -> nat -> Qc) :
  y0 < ny -> x0 < nx ->
  qsum2_upto ny nx (fun a b => if pos_eqb (a, b) (y0, x0) then f a b else q0) = f y0 x0.
Proof.
  intros Hy Hx. unfold qsum2_upto.
  rewrite (@qsum_upto_single _ y0); [|assumption|].
  - rewrite (@qsum_upto_single _ x0); [|assumption|].
    + now destruct (pos_eqb_spec (y0, x0) (y0, x0)).
    + intros b Hb Hne. destruct (pos_eqb_spec (y0, b) (y0, x0)) as [E|E]; congruence.
  - intros a Ha Hne. rewrite qsum_upto_over. apply qsum_over_zero. intros b _.
    destruct (pos_eqb_spec (a, b) (y0, x0)) as [E|E]; congruence.
Qed.

(** A sum over the lattice restricted to the sites of an index array is the
    sum over the array. *)
Lemma qsum2_upto_mem ny nx (idx : indices) (f : nat -> nat -> Qc) :
  NoDup idx -> Forall (fun p => fst p < ny /\ snd p < nx) idx ->
  qsum2_upto ny nx (fun a b => if mem_pos (a, b) idx then f a b else q0)
  = qsum_over idx (fun p => f (fst p) (snd p)).
Proof.
  induction idx as [|[y0 x0] idx IH]; intros Hnd Hin.
  - rewrite qsum_over_nil. apply qsum2_upto_zero. reflexivity.
  - inversion Hnd as [|? ? Hnotin Hnd']; subst.
    inversion Hin as [|? ? [Hy Hx] Hin']; subst. cbn [fst snd] in *.
    rewrite qsum_over_cons. cbn [fst snd].
    rewrite <- IH by assumption.
    rewrite <- (@qsum2_upto_single ny nx y0 x0 f) by assumption.
    rewrite <- qsum2_upto_add. apply qsum2_upto_ext. intros a b _ _.
    rewrite mem_pos_cons.
    destruct (pos_eqb_spec (a, b) (y0, x0)) as [E|E]; cbn [orb].
    + rewrite E. replace (mem_pos (y0, x0) idx) with false.
      * unfold q0. ring.
      * symmetry. apply not_true_is_false. rewrite mem_pos_spec. exact Hnotin.
    + unfold q0. ring.
Qed.

(** ** How the energies change when magnets switch *)

Section EnergySwitch.
Variable L : libm.
Variable mm : Magnets.t.
Hypothesis Hok : lattice_ok mm.
Hypothesis Hreg : regular mm.
Variable e : Qc.
Variable pref : Qc.
Variable idx : indices.
Hypothesis Hnd : NoDup idx.
Hypothesis Hin : in_lattice mm idx.

Local Abbreviation mm' := (with_m mm (switched (m mm) idx)).
Local Abbreviation cy := (Unitcell.y (unitcell mm)).
Local Abbreviation cx := (Unitcell.x (unitcell mm)).

Lemma q_conv_switch k y x i j :
  q_conv L mm' e k y x i j
  = (q_conv L mm e k y x i j
     + qsum_over idx
         (fun p => q_pair L mm e k y x i j (fst p) (snd p)
                   * (q2 * q_mm mm' (fst p) (snd p))))%Qc.
Proof.
  unfold q_conv.
  rewrite <- (@qsum2_upto_mem (ny mm) (nx mm) idx
                (fun a b => q_pair L mm e k y x i j a b * (q2 * q_mm mm' a b))%Qc)
    by assumption.
  rewrite <- qsum2_upto_add. cbn [ny nx with_m].
  apply qsum2_upto_ext. intros a b Ha Hb.
  rewrite (q_mm_switched Hok idx Ha Hb).
  change (q_pair L mm' e k y x i j a b) with (q_pair L mm e k y x i j a b).
  destruct (mem_pos (a, b) idx); qring.
Qed.

(** The energy of a site once the magnets of [idx] have switched: its old
    energy, with the sign changed if the site itself switched, plus twice
    its interaction with every switched magnet, read from the kernel of
    the switched magnet. *)
Lemma q_energy_switch k i j :
  i < ny mm -> j < nx mm ->
  q_energy L mm' e pref k i j
  = ((if mem_pos (i, j) idx then - q_energy L mm e pref k i j
      else q_energy L mm e pref k i j)
     + qsum_over idx
         (fun p =>
            if occupied_site mm p
            then q2 * (pref * (q_mm mm' i j
                               * (q_mm mm' (fst p) (snd p)
                                  * q_pair L mm e (mate k) (fst p mod cy) (snd p mod cx)
                                      (fst p) (snd p) i j)))
            else q0))%Qc.
Proof.
  intros Hi Hj. unfold q_energy. cbn [unitcell with_m moment m].
  change (occupied mm' (i mod cy) (j mod cx)) with (occupied mm (i mod cy) (j mod cx)).
  destruct (occupied mm (i mod cy) (j mod cx)) eqn:Ho.
  - rewrite q_conv_switch.
    rewrite (switched_get Hok idx Hi Hj).
    assert (Hsum :
              qsum_over idx
                (fun p => q_pair L mm e k (i mod cy) (j mod cx) i j (fst p) (snd p)
                          * (q2 * q_mm mm' (fst p) (snd p)))%Qc
              = qsum_over idx
                  (fun p =>
                     if occupied_site mm p
                     then (q2 * (q_mm mm' (fst p) (snd p)
                                 * q_pair L mm e (mate k) (fst p mod cy) (snd p mod cx)
                                     (fst p) (snd p) i j))%Qc
                     else q0)).
    { apply qsum_over_ext. intros [a b] Hp. cbn [fst snd].
      unfold in_lattice in Hin. rewrite Forall_forall in Hin.
      destruct (Hin _ Hp) as [Ha Hb]. cbn [fst snd] in Ha, Hb.
      unfold occupied_site. cbn [fst snd].
      destruct (occupied mm (a mod cy) (b mod cx)) eqn:Hop.
      - rewrite (q_pair_reciprocal L Hok Hreg e k Hi Hj Ha Hb) by (intros; now split).
        qring.
      - rewrite (q_pair_empty L Hok Hreg e k Hi Hj Ha Hb Hop). unfold q0. ring. }
    rewrite Hsum. clear Hsum.
    set (S := qsum_over idx _) at 1.
    assert (HS : qsum_over idx
              (fun p =>
                 if occupied_site mm p
                 then (q2 * (pref * (q_mm mm' i j
                                     * (q_mm mm' (fst p) (snd p)
                                        * q_pair L mm e (mate k) (fst p mod cy) (snd p mod cx)
                                            (fst p) (snd p) i j))))%Qc
                 else q0)
            = (pref * q_mm mm' i j * S)%Qc).
    { unfold S. rewrite <- qsum_over_scale. apply qsum_over_ext. intros p _.
      destruct (occupied_site mm p); qring. }
    rewrite HS. rewrite (q_mm_switched Hok idx Hi Hj). unfold q_mm.
    destruct (mem_pos (i, j) idx); qring.
  - rewrite qsum_over_zero.
    + destruct (mem_pos (i, j) idx); qring.
    + intros [a b] Hp. cbn [fst snd].
      unfold in_lattice in Hin. rewrite Forall_forall in Hin.
      destruct (Hin _ Hp) as [Ha Hb]. cbn [fst snd] in Ha, Hb.
      rewrite (q_pair_empty L Hok Hreg e (mate k) Ha Hb Hi Hj Ho).
      destruct (occupied_site mm (a, b)); qring.
Qed.
End EnergySwitch.

(** ** Dipolar contributions across a switch *)

Lemma dipolar_ok_with_E L s E' E_perp' :
  dipolar_ok L s -> dipolar_ok L (Dipolar.with_E s E' E_perp').
Proof. intros H. exact H. Qed.

Lemma dipolar_ok_switched L s idx :
  dipolar_ok L s ->
  dipolar_ok L (Dipolar.with_mm (with_m (Dipolar.mm s) (switched (m (Dipolar.mm s)) idx)) s).
Proof.
  intros (Hok & Hdec & Hpref & Hb).
  split; [apply (switched_lattice_ok Hok)|]. split; [exact Hdec|]. split; [exact Hpref|].
  exact Hb.
Qed.

Lemma update_with_E s E' E_perp' :
  USE_PERP_ENERGY (Dipolar.mm s) = true ->
  Dipolar.update (Dipolar.with_E s E' E_perp') = Dipolar.update s.
Proof. intros H. unfold Dipolar.update, Dipolar.with_E. cbn. now rewrite H. Qed.

Lemma update_E_with_E s E' E_perp' :
  Dipolar.E (Dipolar.update (Dipolar.with_E s E' E_perp')) = Dipolar.E (Dipolar.update s).
Proof. reflexivity. Qed.

Lemma item_ok ny nx (a : grid xnum) y x :
  shaped ny nx a -> 0 < ny -> y < ny -> x < nx -> item a y x = Ok (xget a y x).
Proof.
  intros Ha Hpos Hy Hx. unfold item, in_shape.
  rewrite (shaped_nrows Ha), (shaped_ncols Ha Hpos).
  replace (y <? ny) with true by (symmetry; now apply Nat.ltb_lt).
  replace (x <? nx) with true by (symmetry; now apply Nat.ltb_lt).
  reflexivity.
Qed.


Section SingleSwitch.
Variable L : libm.
(** the lattice before the switch, and the switched site *)
Variable mm : Magnets.t.
Hypothesis Hok : lattice_ok mm.
Hypothesis Hreg : regular mm.
Variable e : Qc.
Variable pref : Qc.
Variables y0 x0 : nat.
Hypothesis Hy0 : y0 < ny mm.
Hypothesis Hx0 : x0 < nx mm.

Local Abbreviation mm' := (with_m mm (switched (m mm) [(y0, x0)])).
Local Abbreviation cy := (Unitcell.y (unitcell mm)).
Local Abbreviation cx := (Unitcell.x (unitcell mm)).

Lemma window_at_get k y x i j :
  i < ny mm -> j < nx mm ->
  xget (Dipolar.window_at mm' (kernel_grid L mm e k y x) y0 x0) i j
  = Fin (q_pair L mm e k y x y0 x0 i j).
Proof.
  intros Hi Hj. pose proof (ok_ny Hok) as Hy.
  unfold Dipolar.window_at. cbn [ny nx with_m].
  rewrite (@slice_get (2 * ny mm - 1) (2 * nx mm - 1))
    by (try apply kernel_grid_shaped; cbn [slc_len]; lia).
  cbn [slc_ix]. unfold kernel_grid. rewrite xget_tabulate by lia.
  unfold q_pair. do 2 f_equal; lia.
Qed.

(** What [update_single] does to one of the two energy grids. *)
Lemma update_single_grid k (E_old : grid xnum) :
  occupied_site mm (y0, x0) = true ->
  E_old = tabulate (ny mm) (nx mm) (fun i j => Fin (q_energy L mm e pref k i j)) ->
  negate_item
    (add E_old
       (scale xtwo
          (scale (xmul (Fin pref) (xget (multiply (m mm') (moment mm')) y0 x0))
             (multiply (multiply (m mm') (moment mm'))
                (Dipolar.window_at mm'
                   (kernel_grid L mm e (mate k) (y0 mod cy) (x0 mod cx)) y0 x0)))))
    y0 x0
  = Ok (tabulate (ny mm) (nx mm) (fun i j => Fin (q_energy L mm' e pref k i j))).
Proof.
  intros Ho ->. pose proof (ok_ny Hok) as Hy.
  pose proof (switched_lattice_ok Hok [(y0, x0)]) as Hok'.
  rewrite (mmoment_closed Hok'). cbn [ny nx with_m].
  unfold negate_item, add, scale, multiply.
  rewrite (@negate_at_ok (ny mm) (nx mm)); [| shape | lia | ].
  2:{ repeat constructor; cbn; assumption. }
  f_equal. apply tabulate_ext. intros i j Hi Hj.
  rewrite (@map2_get _ (ny mm) (nx mm)) by (try lia; shape).
  rewrite !(@map1_get _ (ny mm) (nx mm)) by (try lia; shape).
  rewrite (@map2_get _ (ny mm) (nx mm)) by (try lia; shape).
  rewrite !xget_tabulate by assumption.
  rewrite window_at_get by assumption.
  assert (Hin : in_lattice mm [(y0, x0)]) by (repeat constructor; cbn; assumption).
  assert (Hnd : NoDup [(y0, x0)]) by (repeat constructor; intros []).
  rewrite (q_energy_switch L Hok Hreg e pref Hnd Hin k Hi Hj).
  rewrite qsum_over_cons, qsum_over_nil. cbn [fst snd]. rewrite Ho.
  destruct (mem_pos (i, j) [(y0, x0)]) eqn:Hm.
  - apply mem_pos_spec in Hm. destruct Hm as [Hm|[]]. injection Hm as <- <-.
    rewrite (q_pair_self L Hok e (mate k) _ _ Hy0 Hx0).
    cbn [xadd xmul xtwo xm1]. f_equal. qring.
  - cbn [xadd xmul xtwo]. f_equal. qring.
Qed.
End SingleSwitch.

(** ** A single switch of a dipolar contribution *)

Lemma dipolar_consistent_closed L (s : Dipolar.t) :
  dipolar_ok L s ->
  (consistent s <->
   Dipolar.E s
   = tabulate (ny (Dipolar.mm s)) (nx (Dipolar.mm s))
       (fun i j => Fin (q_energy L (Dipolar.mm s) (- Dipolar.decay_exponent s)
                          (fval (Dipolar.prefactor s)) Normal i j))
   /\ (USE_PERP_ENERGY (Dipolar.mm s) = true ->
       Dipolar.E_perp s
       = tabulate (ny (Dipolar.mm s)) (nx (Dipolar.mm s))
           (fun i j => Fin (q_energy L (Dipolar.mm s) (- Dipolar.decay_exponent s)
                              (fval (Dipolar.prefactor s)) PerpSelf i j)))).
Proof.
  intros Hs. destruct (update_closed Hs) as [HE HEp].
  unfold consistent. cbn [Energy.E Energy.E_perp Energy.update Dipolar_Energy].
  rewrite HE, HEp. split.
  - intros [A B]. split; [exact A|]. intros Hu. now rewrite Hu in B.
  - intros [A B]. split; [exact A|].
    destruct (USE_PERP_ENERGY (Dipolar.mm s)); [now apply B | reflexivity].
Qed.

Lemma dipolar_single_switch L (s : Dipolar.t) (p0 : nat * nat) (rest : indices) :
  dipolar_ok L s -> regular (Dipolar.mm s) -> consistent s ->
  fst p0 < ny (Dipolar.mm s) -> snd p0 < nx (Dipolar.mm s) ->
  exists s',
    follow (Single (p0 :: rest)) s = Ok s'
    /\ dipolar_ok L s'
    /\ consistent s'
    /\ Dipolar.mm s' = with_m (Dipolar.mm s) (switched (m (Dipolar.mm s)) [p0]).
Proof.
  intros Hs Hreg Hc Hy0 Hx0. destruct p0 as [y0 x0]. cbn [fst snd] in *.
  pose proof Hs as (Hok & Hdec & Hpref & Hb).
  pose proof (ok_ny Hok) as Hy. pose proof (ok_cy Hok) as Hcy. pose proof (ok_cx Hok) as Hcx.
  apply (dipolar_consistent_closed Hs) in Hc. destruct Hc as [HE HEp].
  set (mm := Dipolar.mm s) in *.
  set (mm' := with_m mm (switched (m mm) [(y0, x0)])).
  set (s1 := Dipolar.with_mm mm' s).
  assert (Hs1 : dipolar_ok L s1) by (apply dipolar_ok_switched; exact Hs).
  assert (Hin : in_lattice mm [(y0, x0)]) by (repeat constructor; cbn; assumption).
  assert (Hnd : NoDup [(y0, x0)]) by (repeat constructor; intros []).
  assert (Hu : Dipolar.unitcell s = unitcell mm) by (destruct Hb as [Hu _]; exact Hu).
  unfold follow. cbn [first_column bind Energy.mm Energy.with_mm Energy.update_single
                        Dipolar_Energy].
  fold mm. rewrite (switch_ok Hok Hin). cbn [bind]. fold mm' s1.
  unfold Dipolar.update_single. cbn [first_column bind fst snd].
  change (Dipolar.unitcell s1) with (Dipolar.unitcell s). rewrite Hu.
  pose proof (Nat.mod_upper_bound y0 (Unitcell.y (unitcell mm)) ltac:(lia)) as By.
  pose proof (Nat.mod_upper_bound x0 (Unitcell.x (unitcell mm)) ltac:(lia)) as Bx.
  destruct (occupied mm (y0 mod Unitcell.y (unitcell mm)) (x0 mod Unitcell.x (unitcell mm)))
    eqn:Ho.
  - (* a magnet switched *)
    destruct (kernel_of_occupied Hs1 By Bx Ho) as (n & -> & K1 & _ & K3).
    replace (Z.of_nat n <? 0)%Z with false by (symmetry; apply Z.ltb_ge; lia).
    rewrite Nat2Z.id, K1, K3.
    change (Dipolar.mm s1) with mm'.
    destruct (ok_m (switched_lattice_ok Hok [(y0, x0)])) as [Sm' _].
    rewrite (@item_ok (ny mm) (nx mm)) by (try assumption; shape). cbn [bind].
    change (Dipolar.prefactor s1) with (Dipolar.prefactor s).
    change (Dipolar.E s1) with (Dipolar.E s).
    change (Dipolar.E_perp s1) with (Dipolar.E_perp s).
    change (Dipolar.decay_exponent s1) with (Dipolar.decay_exponent s) in *.
    rewrite (is_fin_fval _ Hpref).
    change (kernel_grid L mm') with (kernel_grid L mm).
    pose proof (@update_single_grid L mm Hok Hreg _ (fval (Dipolar.prefactor s)) y0 x0
                  Hy0 Hx0 Normal (Dipolar.E s) Ho HE) as G.
    cbn [mate] in G. fold mm' in G. rewrite G. clear G.
    cbn [bind]. change (USE_PERP_ENERGY mm') with (USE_PERP_ENERGY mm).
    destruct (USE_PERP_ENERGY mm) eqn:Hperp.
    + pose proof (@update_single_grid L mm Hok Hreg _ (fval (Dipolar.prefactor s)) y0 x0
                    Hy0 Hx0 PerpSelf (Dipolar.E_perp s) Ho (HEp eq_refl)) as G.
      cbn [mate] in G. fold mm' in G. rewrite G. clear G.
      cbn [bind]. eexists. split; [reflexivity|].
      split; [apply dipolar_ok_with_E; exact Hs1|]. split; [|reflexivity].
      apply (@dipolar_consistent_closed L); [apply dipolar_ok_with_E; exact Hs1|].
      split; [reflexivity|]. intros _. reflexivity.
    + eexists. split; [reflexivity|].
      split; [apply dipolar_ok_with_E; exact Hs1|]. split; [|reflexivity].
      apply (@dipolar_consistent_closed L); [apply dipolar_ok_with_E; exact Hs1|].
      split; [reflexivity|].
      cbn [Dipolar.mm Dipolar.with_E Dipolar.with_mm s1 USE_PERP_ENERGY with_m mm'].
      fold mm. rewrite Hperp. discriminate.
  - (* an empty site: nothing to do *)
    rewrite (kernel_of_empty Hs1 By Bx Ho). cbn [Z.ltb Z.compare].
    exists s1. split; [reflexivity|]. split; [exact Hs1|]. split; [|reflexivity].
    apply (@dipolar_consistent_closed L _ Hs1).
    assert (Eq : forall k i j, i < ny mm -> j < nx mm ->
               q_energy L mm (- Dipolar.decay_exponent s) (fval (Dipolar.prefactor s)) k i j
               = q_energy L mm' (- Dipolar.decay_exponent s) (fval (Dipolar.prefactor s)) k i j).
    { intros k i j Hi Hj.
      rewrite (q_energy_switch L Hok Hreg _ _ Hnd Hin k Hi Hj).
      rewrite qsum_over_cons, qsum_over_nil. unfold occupied_site. cbn [fst snd].
      rewrite Ho.
      destruct (mem_pos (i, j) [(y0, x0)]) eqn:Hm; [|qring].
      apply mem_pos_spec in Hm. destruct Hm as [Hm|[]]. injection Hm as <- <-.
      unfold q_energy. rewrite Ho. qring. }
    split.
    + change (Dipolar.E s1) with (Dipolar.E s). rewrite HE.
      apply tabulate_ext. intros i j Hi Hj. f_equal. now apply Eq.
    + intros Hperp. change (Dipolar.E_perp s1) with (Dipolar.E_perp s).
      rewrite (HEp Hperp).
      apply tabulate_ext. intros i j Hi Hj. f_equal. now apply Eq.
Qed.

(** ** Grouping the switched sites by unit-cell position *)

Lemma qsum_over_filter {A} (l : list A) (P : A -> bool) (f : A -> Qc) :
  qsum_over (filter P l) f = qsum_over l (fun p => if P p then f p else q0).
Proof.
  induction l as [|a l IH]; cbn [filter]; [reflexivity|].
  rewrite qsum_over_cons. destruct (P a).
  - now rewrite qsum_over_cons, IH.
  - rewrite IH. qring.
Qed.

Lemma qsum_over_swap {A B} (l : list A) (l' : list B) (f : A -> B -> Qc) :
  qsum_over l (fun a => qsum_over l' (fun b => f a b))
  = qsum_over l' (fun b => qsum_over l (fun a => f a b)).
Proof.
  induction l as [|a l IH].
  - rewrite qsum_over_nil. symmetry. apply qsum_over_zero. reflexivity.
  - rewrite qsum_over_cons, IH, <- qsum_over_add.
    apply qsum_over_ext. intros b _. now rewrite qsum_over_cons.
Qed.

Lemma list_max_ge (a : list nat) i : In i a -> i <= list_max a.
Proof.
  intros H. pose proof (proj1 (list_max_le a (list_max a)) (Nat.le_refl _)) as F.
  rewrite Forall_forall in F. now apply F.
Qed.

Lemma present_spec (a : list nat) i : In i (Dipolar.present a) <-> In i a.
Proof.
  unfold Dipolar.present. rewrite filter_In, existsb_exists. split.
  - intros (_ & j & Hj & E). apply Nat.eqb_eq in E. now subst.
  - intros H. split.
    + apply in_seq. pose proof (list_max_ge _ _ H). lia.
    + exists i. split; [assumption | apply Nat.eqb_refl].
Qed.

(** Summing group by group is summing over all switched sites. *)
Lemma qsum_over_groups {A} (key : A -> nat) (l : list A) (f : A -> Qc) :
  qsum_over (Dipolar.present (map key l))
    (fun i => qsum_over (filter (fun p => key p =? i) l) f)
  = qsum_over l f.
Proof.
  unfold Dipolar.present. rewrite qsum_over_filter.
  set (n := S (list_max (map key l))).
  transitivity (qsum_over (seq 0 n)
                  (fun i => qsum_over l (fun p => if key p =? i then f p else q0))).
  - apply qsum_over_ext. intros i _. rewrite qsum_over_filter.
    destruct (existsb (Nat.eqb i) (map key l)) eqn:E; [reflexivity|].
    symmetry. apply qsum_over_zero. intros p Hp.
    destruct (Nat.eqb_spec (key p) i) as [<-|]; [|reflexivity].
    exfalso. apply not_true_iff_false in E. apply E.
    apply existsb_exists. exists (key p). split; [now apply in_map | apply Nat.eqb_refl].
  - rewrite qsum_over_swap. apply qsum_over_ext. intros p Hp.
    rewrite (@qsum_over_single _ (seq 0 n) (key p)).
    + now rewrite Nat.eqb_refl.
    + apply seq_NoDup.
    + apply in_seq. pose proof (list_max_ge _ _ (in_map key _ _ Hp)). unfold n. lia.
    + intros i _ Hne. destruct (Nat.eqb_spec (key p) i); congruence.
Qed.

Lemma ravel_unitcell_cell u p :
  0 < Unitcell.x u ->
  Dipolar.ravel_unitcell u p / Unitcell.x u = fst p mod Unitcell.y u
  /\ Dipolar.ravel_unitcell u p mod Unitcell.x u = snd p mod Unitcell.x u.
Proof.
  intros Hcx. unfold Dipolar.ravel_unitcell.
  pose proof (Nat.mod_upper_bound (snd p) (Unitcell.x u) ltac:(lia)) as B.
  split.
  - rewrite Nat.div_add by lia. rewrite Nat.div_small by assumption. lia.
  - rewrite Nat.Div0.mod_add. now apply Nat.mod_small.
Qed.

(** ** The branch that sums kernel windows *)

Section BySum.
Variable L : libm.
Variable mm : Magnets.t.
Hypothesis Hok : lattice_ok mm.
Variable e : Qc.

Lemma window_at_get' k y x p i j :
  fst p < ny mm -> snd p < nx mm -> i < ny mm -> j < nx mm ->
  xget (Dipolar.window_at mm (kernel_grid L mm e k y x) (fst p) (snd p)) i j
  = Fin (q_pair L mm e k y x (fst p) (snd p) i j).
Proof.
  intros Hpy Hpx Hi Hj. pose proof (ok_ny Hok) as Hy.
  unfold Dipolar.window_at.
  rewrite (@slice_get (2 * ny mm - 1) (2 * nx mm - 1))
    by (try apply kernel_grid_shaped; cbn [slc_len]; lia).
  cbn [slc_ix]. unfold kernel_grid. rewrite xget_tabulate by lia.
  unfold q_pair. do 2 f_equal; lia.
Qed.

Lemma window_at_shaped (K : grid xnum) y0 x0 :
  shaped (2 * ny mm - 1) (2 * nx mm - 1) K -> y0 < ny mm -> x0 < nx mm ->
  shaped (ny mm) (nx mm) (Dipolar.window_at mm K y0 x0).
Proof.
  intros SK Hy0 Hx0. pose proof (ok_ny Hok) as Hy.
  unfold Dipolar.window_at.
  pose proof (@slice_shape _ _ K
                (Fwd (ny mm - 1 - y0) (Some (2 * ny mm - 1 - y0)))
                (Fwd (nx mm - 1 - x0) (Some (2 * nx mm - 1 - x0)))
                SK ltac:(lia)) as H.
  cbn [slc_len] in H.
  replace (Nat.min (2 * ny mm - 1 - y0) (2 * ny mm - 1) - (ny mm - 1 - y0))
    with (ny mm) in H by lia.
  replace (Nat.min (2 * nx mm - 1 - x0) (2 * nx mm - 1) - (nx mm - 1 - x0))
    with (nx mm) in H by lia.
  exact H.
Qed.

Lemma convolved_by_sum_closed k y x (here : indices) :
  in_lattice mm here ->
  Dipolar.convolved_by_sum mm (kernel_grid L mm e k y x) here
  = tabulate (ny mm) (nx mm)
      (fun i j =>
         Fin (qsum_over here
                (fun p => q_mm mm (fst p) (snd p)
                          * q_pair L mm e k y x (fst p) (snd p) i j))%Qc).
Proof.
  intros Hin. pose proof (ok_ny Hok) as Hy. destruct (ok_m Hok) as [Sm Fm].
  unfold Dipolar.convolved_by_sum.
  rewrite (mmoment_closed Hok), (zeros_like_shaped Sm Hy).
  change (zeros (ny mm) (nx mm)) with (tabulate (ny mm) (nx mm) (fun _ _ => Fin q0)).
  assert (G : forall (T : nat -> nat -> Qc),
             fold_left
               (fun convolvedkernel p =>
                  add convolvedkernel
                    (scale (xget (tabulate (ny mm) (nx mm) (fun a b => Fin (q_mm mm a b)))
                              (fst p) (snd p))
                       (Dipolar.window_at mm (kernel_grid L mm e k y x) (fst p) (snd p))))
               here (tabulate (ny mm) (nx mm) (fun i j => Fin (T i j)))
             = tabulate (ny mm) (nx mm)
                 (fun i j =>
                    Fin (T i j
                         + qsum_over here
                             (fun p => q_mm mm (fst p) (snd p)
                                       * q_pair L mm e k y x (fst p) (snd p) i j))%Qc)).
  { induction here as [|p here IH]; intros T; cbn [fold_left].
    - apply tabulate_ext. intros i j _ _. rewrite qsum_over_nil. f_equal. qring.
    - inversion Hin as [|? ? [Hpy Hpx] Hin']; subst.
      assert (Step :
                add (tabulate (ny mm) (nx mm) (fun i j => Fin (T i j)))
                  (scale (xget (tabulate (ny mm) (nx mm) (fun a b => Fin (q_mm mm a b)))
                            (fst p) (snd p))
                     (Dipolar.window_at mm (kernel_grid L mm e k y x) (fst p) (snd p)))
                = tabulate (ny mm) (nx mm)
                    (fun i j => Fin (T i j + q_mm mm (fst p) (snd p)
                                             * q_pair L mm e k y x (fst p) (snd p) i j)%Qc)).
      { unfold add, scale. rewrite xget_tabulate by assumption.
        rewrite (@map2_shaped _ (ny mm) (nx mm)) by (try lia; shape).
        apply tabulate_ext. intros i j Hi Hj.
        rewrite xget_tabulate by assumption.
        rewrite (@map1_get _ (ny mm) (nx mm)).
        - now rewrite window_at_get'.
        - apply window_at_shaped; [apply kernel_grid_shaped | assumption ..].
        - lia.
        - assumption.
        - assumption. }
      rewrite Step, (IH Hin').
      apply tabulate_ext. intros i j _ _. rewrite qsum_over_cons. f_equal. qring. }
  rewrite G. apply tabulate_ext. intros i j _ _. f_equal. qring.
Qed.
End BySum.

(** ** A batch of switches of a dipolar contribution *)

Section BatchLoop.
Variable L : libm.
(** the contribution, its lattice already switched *)
Variable s : Dipolar.t.
Hypothesis Hs : dipolar_ok L s.
Variable idx : indices.
Hypothesis Hin : in_lattice (Dipolar.mm s) idx.

Local Abbreviation mm := (Dipolar.mm s).
Local Abbreviation e := (- Dipolar.decay_exponent s)%Qc.
Local Abbreviation pref := (fval (Dipolar.prefactor s)).
Local Abbreviation u := (unitcell (Dipolar.mm s)).
Local Abbreviation group :=
  (fun i => filter (fun p => Dipolar.ravel_unitcell (unitcell (Dipolar.mm s)) p =? i) idx).

(** Every group of the batch is convolved exactly: the branch taken gives
    what the sum of the kernel windows gives. *)
Hypothesis Hexact :
  forall i k y x,
    In i (Dipolar.present (map (Dipolar.ravel_unitcell u) idx)) ->
    Dipolar.convolved mm (kernel_grid L mm e k y x) (group i)
    = Dipolar.convolved_by_sum mm (kernel_grid L mm e k y x) (group i).

Lemma group_in_lattice i : in_lattice mm (group i).
Proof.
  unfold in_lattice in *. rewrite Forall_forall in *.
  intros p Hp. apply filter_In in Hp. now apply Hin.
Qed.

Lemma update_multiple_step_closed (T1 T2 : nat -> nat -> Qc) i :
  In i (Dipolar.present (map (Dipolar.ravel_unitcell u) idx)) ->
  Dipolar.update_multiple_step s idx
    (tabulate (ny mm) (nx mm) (fun i' j' => Fin (T1 i' j')),
     tabulate (ny mm) (nx mm) (fun i' j' => Fin (T2 i' j'))) i
  = (tabulate (ny mm) (nx mm)
       (fun i' j' => Fin (T1 i' j' + qsum_over (group i) (q_gain L s Normal i' j'))%Qc),
     tabulate (ny mm) (nx mm)
       (fun i' j' => Fin (T2 i' j'
                          + (if USE_PERP_ENERGY mm
                             then qsum_over (group i) (q_gain L s PerpOther i' j')
                             else q0))%Qc)).
Proof.
  intros Hi. pose proof Hs as (Hok & _ & Hpref & _).
  pose proof (ok_ny Hok) as Hy. pose proof (ok_cy Hok) as Hcy.
  pose proof (ok_cx Hok) as Hcx.
  apply present_spec, in_map_iff in Hi. destruct Hi as (p0 & Ep0 & Hp0).
  destruct (ravel_unitcell_cell u p0 Hcx) as [Cy Cx]. rewrite Ep0 in Cy, Cx.
  assert (Hcell : forall p, In p (group i) ->
            fst p mod Unitcell.y u = i / Unitcell.x u
            /\ snd p mod Unitcell.x u = i mod Unitcell.x u).
  { intros p Hp. apply filter_In in Hp. destruct Hp as [_ Hp].
    apply Nat.eqb_eq in Hp. destruct (ravel_unitcell_cell u p Hcx) as [A B].
    rewrite Hp in A, B. now split. }
  pose proof (Nat.mod_upper_bound (fst p0) (Unitcell.y u) ltac:(lia)) as By.
  pose proof (Nat.mod_upper_bound (snd p0) (Unitcell.x u) ltac:(lia)) as Bx.
  rewrite <- Cy in By. rewrite <- Cx in Bx.
  unfold Dipolar.update_multiple_step. rewrite (dipolar_unitcell Hs).
  assert (Hgain : forall k i' j',
             qsum_over (group i) (q_gain L s k i' j')
             = if occupied mm (i / Unitcell.x u) (i mod Unitcell.x u)
               then (q2 * (pref * (q_mm mm i' j'
                      * qsum_over (group i)
                          (fun p => q_mm mm (fst p) (snd p)
                                    * q_pair L mm e k (i / Unitcell.x u) (i mod Unitcell.x u)
                                        (fst p) (snd p) i' j'))))%Qc
               else q0).
  { intros k i' j'.
    destruct (occupied mm (i / Unitcell.x u) (i mod Unitcell.x u)) eqn:Ho.
    - rewrite <- !qsum_over_scale. apply qsum_over_ext. intros p Hp.
      destruct (Hcell p Hp) as [A B]. unfold q_gain, occupied_site.
      rewrite A, B, Ho. qring.
    - apply qsum_over_zero. intros p Hp.
      destruct (Hcell p Hp) as [A B]. unfold q_gain, occupied_site.
      now rewrite A, B, Ho. }
  destruct (occupied mm (i / Unitcell.x u) (i mod Unitcell.x u)) eqn:Ho.
  - destruct (kernel_of_occupied Hs By Bx Ho) as (n & -> & K1 & _ & K3).
    replace (Z.of_nat n <? 0)%Z with false by (symmetry; apply Z.ltb_ge; lia).
    rewrite Nat2Z.id, K1, K3. cbn [fst snd].
    rewrite !Hexact by (apply present_spec, in_map_iff; now exists p0).
    rewrite !(convolved_by_sum_closed L Hok) by apply group_in_lattice.
    rewrite (mmoment_closed Hok). rewrite (is_fin_fval _ Hpref).
    f_equal.
    + unfold add, scale, multiply.
      apply (@grid_ext _ xzero (ny mm) (nx mm)); [shape | shape |].
      intros i' j' Hi' Hj'. fold xget.
      rewrite (@map2_get _ (ny mm) (nx mm)) by (try lia; shape).
      rewrite !(@map1_get _ (ny mm) (nx mm)) by (try lia; shape).
      rewrite (@map2_get _ (ny mm) (nx mm)) by (try lia; shape).
      rewrite !xget_tabulate by assumption.
      rewrite Hgain. cbn [xadd xmul xtwo fval]. reflexivity.
    + destruct (USE_PERP_ENERGY mm).
      * unfold add, scale, multiply.
        apply (@grid_ext _ xzero (ny mm) (nx mm)); [shape | shape |].
        intros i' j' Hi' Hj'. fold xget.
        rewrite (@map2_get _ (ny mm) (nx mm)) by (try lia; shape).
        rewrite !(@map1_get _ (ny mm) (nx mm)) by (try lia; shape).
        rewrite (@map2_get _ (ny mm) (nx mm)) by (try lia; shape).
        rewrite !xget_tabulate by assumption.
        rewrite Hgain. cbn [xadd xmul xtwo fval]. reflexivity.
      * apply tabulate_ext. intros i' j' _ _. f_equal. qring.
  - rewrite (kernel_of_empty Hs By Bx Ho). cbn [Z.ltb Z.compare].
    f_equal; apply tabulate_ext; intros i' j' _ _; f_equal;
      rewrite ?Hgain; destruct (USE_PERP_ENERGY mm); qring.
Qed.

Lemma update_multiple_loop_closed l : forall (T1 T2 : nat -> nat -> Qc),
  (forall i, In i l -> In i (Dipolar.present (map (Dipolar.ravel_unitcell u) idx))) ->
  fold_left (Dipolar.update_multiple_step s idx) l
    (tabulate (ny mm) (nx mm) (fun i' j' => Fin (T1 i' j')),
     tabulate (ny mm) (nx mm) (fun i' j' => Fin (T2 i' j')))
  = (tabulate (ny mm) (nx mm)
       (fun i' j' =>
          Fin (T1 i' j'
               + qsum_over l (fun i => qsum_over (group i) (q_gain L s Normal i' j')))%Qc),
     tabulate (ny mm) (nx mm)
       (fun i' j' =>
          Fin (T2 i' j'
               + (if USE_PERP_ENERGY mm
                  then qsum_over l (fun i => qsum_over (group i) (q_gain L s PerpOther i' j'))
                  else q0))%Qc)).
Proof.
  induction l as [|i l IH]; intros T1 T2 Hl; cbn [fold_left].
  - f_equal; apply tabulate_ext; intros i' j' _ _; f_equal;
      rewrite ?qsum_over_nil; destruct (USE_PERP_ENERGY mm); qring.
  - rewrite update_multiple_step_closed by (apply Hl; now left).
    rewrite IH by (intros; apply Hl; now right).
    f_equal; apply tabulate_ext; intros i' j' _ _; f_equal;
      rewrite ?qsum_over_cons; destruct (USE_PERP_ENERGY mm); qring.
Qed.
End BatchLoop.

Lemma update_multiple_step_without_perp s idx A B B' i :
  USE_PERP_ENERGY (Dipolar.mm s) = false ->
  Dipolar.update_multiple_step s idx (A, B) i
  = (fst (Dipolar.update_multiple_step s idx (A, B') i), B).
Proof.
  intros Hp. unfold Dipolar.update_multiple_step. rewrite Hp.
  now destruct (Dipolar.kernel_index s (i / Unitcell.x (Dipolar.unitcell s))
                  (i mod Unitcell.x (Dipolar.unitcell s)) <? 0)%Z.
Qed.

Lemma update_multiple_loop_without_perp s idx l : forall A B B',
  USE_PERP_ENERGY (Dipolar.mm s) = false ->
  fold_left (Dipolar.update_multiple_step s idx) l (A, B)
  = (fst (fold_left (Dipolar.update_multiple_step s idx) l (A, B')), B).
Proof.
  induction l as [|i l IH]; intros A B B' Hp; cbn [fold_left]; [reflexivity|].
  rewrite (update_multiple_step_without_perp s idx A B B' i Hp).
  rewrite (IH _ B (snd (Dipolar.update_multiple_step s idx (A, B') i)) Hp).
  now rewrite <- surjective_pairing.
Qed.

Lemma dipolar_batch_switch L (s : Dipolar.t) (idx : indices) :
  dipolar_ok L s -> regular (Dipolar.mm s) -> consistent s ->
  NoDup idx -> in_lattice (Dipolar.mm s) idx ->
  (let mm' := with_m (Dipolar.mm s) (switched (m (Dipolar.mm s)) idx) in
   forall i k y x,
     In i (Dipolar.present (map (Dipolar.ravel_unitcell (unitcell mm')) idx)) ->
     Dipolar.convolved mm' (kernel_grid L mm' (- Dipolar.decay_exponent s) k y x)
       (filter (fun p => Dipolar.ravel_unitcell (unitcell mm') p =? i) idx)
     = Dipolar.convolved_by_sum mm' (kernel_grid L mm' (- Dipolar.decay_exponent s) k y x)
         (filter (fun p => Dipolar.ravel_unitcell (unitcell mm') p =? i) idx)) ->
  exists s',
    follow (Multiple idx) s = Ok s'
    /\ dipolar_ok L s'
    /\ consistent s'
    /\ Dipolar.mm s' = with_m (Dipolar.mm s) (switched (m (Dipolar.mm s)) idx).
Proof.
  intros Hs Hreg Hc Hnd Hin Hexact.
  pose proof Hs as (Hok & Hdec & Hpref & Hb).
  pose proof (ok_ny Hok) as Hy.
  apply (dipolar_consistent_closed Hs) in Hc. destruct Hc as [HE HEp].
  set (mm := Dipolar.mm s) in *.
  set (mm' := with_m mm (switched (m mm) idx)) in *.
  set (s1 := Dipolar.with_mm mm' s).
  assert (Hs1 : dipolar_ok L s1) by (apply dipolar_ok_switched; exact Hs).
  assert (Hu : Dipolar.unitcell s = unitcell mm) by (destruct Hb as [Hu _]; exact Hu).
  unfold follow. cbn [bind Energy.mm Energy.with_mm Energy.update_multiple Dipolar_Energy].
  fold mm. rewrite (switch_ok Hok Hin). cbn [bind]. fold mm' s1.
  unfold Dipolar.update_multiple.
  change (Dipolar.E s1) with (Dipolar.E s).
  change (Dipolar.E_perp s1) with (Dipolar.E_perp s).
  change (Dipolar.mm s1) with mm'.
  change (USE_PERP_ENERGY mm') with (USE_PERP_ENERGY mm).
  change (Dipolar.unitcell s1) with (Dipolar.unitcell s). rewrite Hu.
  rewrite HE.
  rewrite (@negate_at_ok (ny mm) (nx mm)) by (try assumption; shape).
  cbn [bind].
  assert (Hloop := @update_multiple_loop_closed L s1 Hs1 idx Hin Hexact).
  cbv beta in Hloop.
  change (Dipolar.mm s1) with mm' in Hloop.
  change (ny mm') with (ny mm) in Hloop. change (nx mm') with (nx mm) in Hloop.
  change (unitcell mm') with (unitcell mm) in Hloop.
  change (USE_PERP_ENERGY mm') with (USE_PERP_ENERGY mm) in Hloop.
  assert (Hfinal : forall k i j, i < ny mm -> j < nx mm ->
             ((if mem_pos (i, j) idx
               then - q_energy L mm (- Dipolar.decay_exponent s) (fval (Dipolar.prefactor s)) k i j
               else q_energy L mm (- Dipolar.decay_exponent s) (fval (Dipolar.prefactor s)) k i j)
              + qsum_over (Dipolar.present (map (Dipolar.ravel_unitcell (unitcell mm)) idx))
                  (fun i0 =>
                     qsum_over
                       (filter (fun p => Dipolar.ravel_unitcell (unitcell mm) p =? i0) idx)
                       (q_gain L s1 (mate k) i j)))%Qc
             = q_energy L mm' (- Dipolar.decay_exponent s) (fval (Dipolar.prefactor s)) k i j).
  { intros k i j Hi Hj.
    rewrite (q_energy_switch L Hok Hreg _ _ Hnd Hin k Hi Hj).
    f_equal.
    exact (qsum_over_groups (Dipolar.ravel_unitcell (unitcell mm)) idx
             (q_gain L s1 (mate k) i j)). }
  destruct (USE_PERP_ENERGY mm) eqn:Hperp.
  - rewrite (HEp eq_refl).
    rewrite (@negate_at_ok (ny mm) (nx mm)) by (try assumption; shape).
    cbn [bind].
    match goal with
    | |- context [fold_left _ _ (tabulate _ _ ?F1, tabulate _ _ ?F2)] =>
        assert (G1 : tabulate (ny mm) (nx mm) F1
                     = tabulate (ny mm) (nx mm)
                         (fun i j => Fin (if mem_pos (i, j) idx
                            then - q_energy L mm (- Dipolar.decay_exponent s)
                                     (fval (Dipolar.prefactor s)) Normal i j
                            else q_energy L mm (- Dipolar.decay_exponent s)
                                     (fval (Dipolar.prefactor s)) Normal i j)%Qc));
        [|assert (G2 : tabulate (ny mm) (nx mm) F2
                     = tabulate (ny mm) (nx mm)
                         (fun i j => Fin (if mem_pos (i, j) idx
                            then - q_energy L mm (- Dipolar.decay_exponent s)
                                     (fval (Dipolar.prefactor s)) PerpSelf i j
                            else q_energy L mm (- Dipolar.decay_exponent s)
                                     (fval (Dipolar.prefactor s)) PerpSelf i j)%Qc))]
    end.
    { apply tabulate_ext. intros i j Hi Hj. rewrite xget_tabulate by assumption.
      destruct (mem_pos (i, j) idx); cbn [xmul xm1]; f_equal; qring. }
    { apply tabulate_ext. intros i j Hi Hj. rewrite xget_tabulate by assumption.
      destruct (mem_pos (i, j) idx); cbn [xmul xm1]; f_equal; qring. }
    rewrite G1, G2, Hloop by (intros; assumption).
    cbn [fst snd].
    eexists. split; [reflexivity|].
    split; [apply dipolar_ok_with_E; exact Hs1|]. split; [|reflexivity].
    apply (@dipolar_consistent_closed L); [apply dipolar_ok_with_E; exact Hs1|].
    cbn [Dipolar.E Dipolar.E_perp Dipolar.with_E Dipolar.mm Dipolar.with_mm s1
         Dipolar.decay_exponent Dipolar.prefactor].
    change (ny mm') with (ny mm). change (nx mm') with (nx mm).
    split.
    + apply tabulate_ext. intros i j Hi Hj. f_equal. now apply (Hfinal Normal).
    + intros _. apply tabulate_ext. intros i j Hi Hj. f_equal. now apply (Hfinal PerpSelf).
  - cbn [bind].
    match goal with
    | |- context [fold_left _ _ (tabulate _ _ ?F1, ?Ep)] =>
        assert (G1 : tabulate (ny mm) (nx mm) F1
                     = tabulate (ny mm) (nx mm)
                         (fun i j => Fin (if mem_pos (i, j) idx
                            then - q_energy L mm (- Dipolar.decay_exponent s)
                                     (fval (Dipolar.prefactor s)) Normal i j
                            else q_energy L mm (- Dipolar.decay_exponent s)
                                     (fval (Dipolar.prefactor s)) Normal i j)%Qc))
    end.
    { apply tabulate_ext. intros i j Hi Hj. rewrite xget_tabulate by assumption.
      destruct (mem_pos (i, j) idx); cbn [xmul xm1]; f_equal; qring. }
    rewrite G1.
    rewrite (@update_multiple_loop_without_perp s1 idx _ _ (Dipolar.E_perp s)
               (tabulate (ny mm) (nx mm) (fun _ _ => Fin q0)) Hperp).
    rewrite Hloop by (intros; assumption). cbn [fst snd].
    eexists. split; [reflexivity|].
    split; [apply dipolar_ok_with_E; exact Hs1|]. split; [|reflexivity].
    apply (@dipolar_consistent_closed L); [apply dipolar_ok_with_E; exact Hs1|].
    cbn [Dipolar.E Dipolar.E_perp Dipolar.with_E Dipolar.mm Dipolar.with_mm s1
         Dipolar.decay_exponent Dipolar.prefactor].
    change (ny mm') with (ny mm). change (nx mm') with (nx mm).
    change (USE_PERP_ENERGY mm') with (USE_PERP_ENERGY mm). rewrite Hperp.
    split; [|discriminate].
    apply tabulate_ext. intros i j Hi Hj. f_equal. now apply (Hfinal Normal).
Qed.

(** ** The branch that convolves once *)

Lemma qsum_upto_S n (f : nat -> Qc) : qsum_upto (S n) f = (qsum_upto n f + f n)%Qc.
Proof.
  rewrite !qsum_upto_over, seq_S, qsum_over_app, qsum_over_cons, qsum_over_nil.
  cbn [Nat.add]. qring.
Qed.

Lemma qsum_upto_zero n (f : nat -> Qc) :
  (forall a, a < n -> f a = q0) -> qsum_upto n f = q0.
Proof.
  intros H. rewrite qsum_upto_over. apply qsum_over_zero.
  intros a Ha. apply in_seq in Ha. apply H. lia.
Qed.

Lemma qsum_upto_add n (f g : nat -> Qc) :
  qsum_upto n (fun a => f a + g a)%Qc = (qsum_upto n f + qsum_upto n g)%Qc.
Proof. rewrite !qsum_upto_over. apply qsum_over_add. Qed.

(** A sum whose terms vanish outside the [n] positions below [c], read
    downwards from [c]. *)
Lemma qsum_upto_reflect n : forall N c (F : nat -> Qc),
  c < N -> n <= c + 1 ->
  (forall a, a < N -> c < a \/ a + n <= c -> F a = q0) ->
  qsum_upto N F = qsum_upto n (fun u => F (c - u)).
Proof.
  induction n as [|n IH]; intros N c F Hc Hn Hz.
  - rewrite (@qsum_upto_zero N F); [reflexivity|].
    intros a Ha. apply Hz; [assumption | lia].
  - rewrite qsum_upto_S.
    set (F' := fun a => if a =? c - n then q0 else F a).
    assert (E1 : qsum_upto N F = (qsum_upto N F' + F (c - n)%nat)%Qc).
    { pose proof (@qsum_upto_single N (c - n)
                    (fun a => if a =? c - n then F a else q0)) as G.
      cbv beta in G. rewrite Nat.eqb_refl in G. rewrite <- G.
      - rewrite <- qsum_upto_add. apply qsum_upto_ext. intros a _.
        unfold F'. destruct (a =? c - n); qring.
      - lia.
      - intros a _ Hne. now replace (a =? c - n) with false
          by (symmetry; now apply Nat.eqb_neq). }
    rewrite E1. f_equal.
    rewrite (IH N c F'); try lia.
    + apply qsum_upto_ext. intros u' Hu'. unfold F'.
      now replace (c - u' =? c - n) with false by (symmetry; apply Nat.eqb_neq; lia).
    + intros a Ha Hout. unfold F'.
      destruct (Nat.eqb_spec a (c - n)); [reflexivity|].
      apply Hz; [assumption | lia].
Qed.

Lemma half_of_even n : (2 * n - 1 - 1) / 2 = n - 1.
Proof.
  destruct n as [|n]; [reflexivity|].
  replace (2 * S n - 1 - 1) with (n * 2) by lia.
  rewrite Nat.div_mul by lia. lia.
Qed.

Section ByConvolution.
Variable L : libm.
Variable mm : Magnets.t.
Hypothesis Hok : lattice_ok mm.
Variable e : Qc.
Hypothesis Hfull : REDUCED_KERNEL_SIZE mm = 0.
Hypothesis Hopen : PBC mm = false.

Lemma convolved_by_convolution_closed k y x (here : indices) :
  NoDup here -> in_lattice mm here ->
  Dipolar.convolved_by_convolution mm (kernel_grid L mm e k y x) here
  = tabulate (ny mm) (nx mm)
      (fun i j =>
         Fin (qsum_over here
                (fun p => qget (m mm) (fst p) (snd p)
                          * q_pair L mm e k y x (fst p) (snd p) i j))%Qc).
Proof.
  intros Hnd Hin. pose proof (ok_ny Hok) as Hy. pose proof (ok_nx Hok) as Hx.
  destruct (ok_m Hok) as [Sm Fm].
  unfold Dipolar.convolved_by_convolution. rewrite Hfull, Hopen. cbn [Nat.eqb].
  rewrite (zeros_like_shaped Sm Hy).
  set (sf := scatter (zeros (ny mm) (nx mm)) (m mm) here).
  assert (Ssf : shaped (ny mm) (nx mm) sf) by (unfold sf; shape).
  apply (@grid_ext _ xzero (ny mm) (nx mm)); [shape | shape |].
  intros i j Hi Hj. fold xget.
  rewrite (@convolve2d_same_get (ny mm) (nx mm) (2 * ny mm - 1) (2 * nx mm - 1));
    try assumption; try lia; try apply kernel_grid_shaped.
  rewrite xget_tabulate by assumption.
  rewrite !half_of_even.
  (* the switched field, as a function on the lattice *)
  set (g := fun u v => if mem_pos (u, v) here then qget (m mm) u v else q0).
  assert (Hsf : forall u v, u < ny mm -> v < nx mm -> xget sf u v = Fin (g u v)).
  { intros u v Hu Hv. unfold sf, g.
    rewrite (@scatter_get (ny mm) (nx mm)) by (try lia; shape).
    rewrite xget_zeros, (xget_fin u v Fm). now destruct (mem_pos (u, v) here). }
  set (F := fun a b =>
              if (a <=? i + (ny mm - 1)) && (i + (ny mm - 1) - a <? ny mm)
                 && (b <=? j + (nx mm - 1)) && (j + (nx mm - 1) - b <? nx mm)
              then Qcmult (g (i + (ny mm - 1) - a) (j + (nx mm - 1) - b))
                          (q_kernel L mm e k y x a b)
              else q0).
  rewrite (@sum2_upto_fin _ _ _ F).
  2:{ intros a b Ha Hb. unfold F, padded, kernel_grid.
      rewrite (shaped_nrows Ssf), (shaped_ncols Ssf Hy).
      rewrite xget_tabulate by assumption.
      destruct (Nat.leb_spec a (i + (ny mm - 1))) as [A1|A1];
        destruct (Nat.ltb_spec (i + (ny mm - 1) - a) (ny mm)) as [A2|A2];
        destruct (Nat.leb_spec b (j + (nx mm - 1))) as [B1|B1];
        destruct (Nat.ltb_spec (j + (nx mm - 1) - b) (nx mm)) as [B2|B2];
        cbn [andb];
        repeat match goal with
        | |- context [(?p <=? ?q)%Z] => destruct (Z.leb_spec p q); try lia
        | |- context [(?p <? ?q)%Z] => destruct (Z.ltb_spec p q); try lia
        end; cbn [andb xmul xzero]; try (f_equal; qring).
      rewrite <- !Nat2Z.inj_sub by lia. rewrite !Nat2Z.id.
      now rewrite Hsf by assumption. }
  f_equal.
  rewrite <- (@qsum2_upto_mem (ny mm) (nx mm) here
                (fun u v => qget (m mm) u v * q_pair L mm e k y x u v i j)%Qc)
    by assumption.
  unfold qsum2_upto.
  rewrite (@qsum_upto_reflect (ny mm) (2 * ny mm - 1) (i + (ny mm - 1))); try lia.
  - apply qsum_upto_ext. intros u' Hu'.
    rewrite (@qsum_upto_reflect (nx mm) (2 * nx mm - 1) (j + (nx mm - 1))); try lia.
    + apply qsum_upto_ext. intros v Hv. unfold F.
      replace (i + (ny mm - 1) - u' <=? i + (ny mm - 1)) with true
        by (symmetry; apply Nat.leb_le; lia).
      replace (i + (ny mm - 1) - (i + (ny mm - 1) - u') <? ny mm) with true
        by (symmetry; apply Nat.ltb_lt; lia).
      replace (j + (nx mm - 1) - v <=? j + (nx mm - 1)) with true
        by (symmetry; apply Nat.leb_le; lia).
      replace (j + (nx mm - 1) - (j + (nx mm - 1) - v) <? nx mm) with true
        by (symmetry; apply Nat.ltb_lt; lia).
      cbn [andb]. unfold g.
      replace (i + (ny mm - 1) - (i + (ny mm - 1) - u')) with u' by lia.
      replace (j + (nx mm - 1) - (j + (nx mm - 1) - v)) with v by lia.
      unfold q_pair.
      replace (ny mm - 1 + i - u') with (i + (ny mm - 1) - u') by lia.
      replace (nx mm - 1 + j - v) with (j + (nx mm - 1) - v) by lia.
      destruct (mem_pos (u', v) here); qring.
    + intros b Hb Hout. unfold F.
      destruct (Nat.leb_spec b (j + (nx mm - 1)));
        destruct (Nat.ltb_spec (j + (nx mm - 1) - b) (nx mm));
        rewrite ?andb_false_r; try reflexivity; lia.
  - intros a Ha Hout. apply qsum_upto_zero. intros b Hb. unfold F.
    destruct (Nat.leb_spec a (i + (ny mm - 1)));
      destruct (Nat.ltb_spec (i + (ny mm - 1) - a) (ny mm));
      cbn [andb]; try reflexivity; lia.
Qed.

(** With the whole kernel, open boundaries and unit moments at the
    switched sites, convolving once gives what summing the windows gives. *)
Lemma convolved_branches_agree k y x (here : indices) :
  NoDup here -> in_lattice mm here ->
  (forall p, In p here -> qget (moment mm) (fst p) (snd p) = q1) ->
  Dipolar.convolved_by_convolution mm (kernel_grid L mm e k y x) here
  = Dipolar.convolved_by_sum mm (kernel_grid L mm e k y x) here.
Proof.
  intros Hnd Hin Hone.
  rewrite convolved_by_convolution_closed, (convolved_by_sum_closed L Hok) by assumption.
  apply tabulate_ext. intros i j _ _. f_equal.
  apply qsum_over_ext. intros p Hp. unfold q_mm. rewrite (Hone p Hp). qring.
Qed.
End ByConvolution.

(** ** Histories of switches of a dipolar contribution *)

Lemma nodupb_ok idx : nodupb idx = true -> NoDup idx.
Proof.
  induction idx as [|p idx IH]; cbn [nodupb]; intros H; constructor.
  - apply andb_true_iff in H. destruct H as [H _].
    intros Hin. apply mem_pos_spec in Hin. now rewrite Hin in H.
  - apply IH. apply andb_true_iff in H. tauto.
Qed.

Lemma unit_moments_ok mm here p :
  unit_moments mm here = true -> In p here -> qget (moment mm) (fst p) (snd p) = q1.
Proof.
  unfold unit_moments. rewrite forallb_forall. intros H Hp.
  now apply Qc_eq_bool_iff, H.
Qed.

Lemma dipolar_update_consistent (s : Dipolar.t) : consistent (Dipolar.update s).
Proof.
  unfold consistent. cbn. unfold Dipolar.update, Dipolar.with_E. cbn.
  split; [reflexivity|]. now destruct (USE_PERP_ENERGY (Dipolar.mm s)).
Qed.

Lemma dipolar_initialize_ok L prefactor decay_exponent mm0 :
  lattice_ok mm0 -> (decay_exponent < q0)%Qc -> is_fin prefactor ->
  let s := Dipolar.initialize L prefactor decay_exponent mm0 in
  dipolar_ok L s /\ consistent s /\ Dipolar.mm s = mm0.
Proof.
  intros Hok Hdec Hpref s. unfold s, Dipolar.initialize.
  set (s0 := {| Dipolar.mm := mm0 |}).
  destruct (_initialize_static L s0) as (Emm & _ & _ & Epref & Edec & _).
  split; [|split].
  - unfold Dipolar.update. apply dipolar_ok_with_E.
    split; [now rewrite Emm|]. split; [now rewrite Edec|]. split; [now rewrite Epref|].
    now apply _initialize_builds.
  - apply dipolar_update_consistent.
  - exact Emm.
Qed.

(** A group that is summed exactly gives what the sum of its windows gives. *)
Lemma summed_exactly_ok L mm e k y x (here : indices) :
  lattice_ok mm -> NoDup here -> in_lattice mm here ->
  summed_exactly mm here = true ->
  Dipolar.convolved mm (kernel_grid L mm e k y x) here
  = Dipolar.convolved_by_sum mm (kernel_grid L mm e k y x) here.
Proof.
  intros Hok Hnd Hin H. unfold Dipolar.convolved.
  destruct (Nat.ltb_spec (SIMULTANEOUS_SWITCHES_CONVOLUTION_OR_SUM_CUTOFF mm) (length here))
    as [Hlong|]; [|reflexivity].
  unfold summed_exactly in H. apply orb_true_iff in H. destruct H as [H|H].
  - apply Nat.leb_le in H. lia.
  - apply andb_true_iff in H. destruct H as [H Hone].
    apply andb_true_iff in H. destruct H as [Hfull Hopen].
    apply Nat.eqb_eq in Hfull. apply negb_true_iff in Hopen.
    apply convolved_branches_agree; try assumption.
    intros p Hp. now apply (unit_moments_ok mm here).
Qed.

Lemma dipolar_follow L (s : Dipolar.t) (sw : switching) :
  dipolar_ok L s -> regular (Dipolar.mm s) -> consistent s ->
  admissible (Dipolar.mm s) sw = true ->
  exists s',
    follow sw s = Ok s'
    /\ dipolar_ok L s' /\ consistent s'
    /\ Dipolar.mm s' = with_m (Dipolar.mm s) (switched (m (Dipolar.mm s)) (sites sw)).
Proof.
  intros Hs Hreg Hc Hadm. unfold admissible in Hadm.
  apply andb_true_iff in Hadm. destruct Hadm as [Hd Hb].
  destruct sw as [[|p rest]|idx]; [discriminate| |].
  - cbn [dispatchable sites] in Hd. apply in_latticeb_ok in Hd.
    apply Forall_inv in Hd. destruct Hd as [Hy Hx].
    now apply dipolar_single_switch.
  - cbn [dispatchable sites] in Hd. apply in_latticeb_ok in Hd.
    apply andb_true_iff in Hb. destruct Hb as [Hnd Hex]. apply nodupb_ok in Hnd.
    apply dipolar_batch_switch; try assumption.
    intros mm' i k y x Hi.
    unfold exact_batch in Hex. rewrite forallb_forall in Hex.
    specialize (Hex i Hi).
    destruct Hs as (Hok & _).
    apply summed_exactly_ok.
    + apply (switched_lattice_ok Hok).
    + now apply NoDup_filter.
    + unfold in_lattice in *. rewrite Forall_forall in *.
      intros p Hp. apply filter_In in Hp. now apply Hd.
    + exact Hex.
Qed.

Lemma with_m_same mm : with_m mm (m mm) = mm.
Proof. now destruct mm. Qed.

Lemma admissible_with_m mm g sw : admissible (with_m mm g) sw = admissible mm sw.
Proof. reflexivity. Qed.

Lemma dipolar_follow_all L (history : list switching) : forall (s : Dipolar.t),
  dipolar_ok L s -> regular (Dipolar.mm s) -> consistent s ->
  forallb (admissible (Dipolar.mm s)) history = true ->
  exists s',
    follow_all history s = Ok s'
    /\ dipolar_ok L s' /\ consistent s'
    /\ Dipolar.mm s' = with_m (Dipolar.mm s) (after history (m (Dipolar.mm s))).
Proof.
  induction history as [|sw history IH]; intros s Hs Hreg Hc Hadm.
  - exists s. cbn [follow_all after].
    split; [reflexivity|]. split; [assumption|]. split; [assumption|].
    symmetry. apply with_m_same.
  - cbn [forallb] in Hadm. apply andb_true_iff in Hadm. destruct Hadm as [H1 H2].
    destruct (dipolar_follow sw Hs Hreg Hc H1) as (s1 & F1 & Hs1 & Hc1 & Emm).
    destruct (IH s1 Hs1) as (s' & F' & Hs' & Hc' & Emm').
    + rewrite Emm. destruct Hs as (Hok & _). now apply switched_regular.
    + exact Hc1.
    + now rewrite Emm.
    + exists s'. cbn [follow_all after]. rewrite F1. cbn [bind].
      split; [assumption|]. split; [assumption|]. split; [assumption|].
      now rewrite Emm', Emm.
Qed.

(** ** Histories of switches of the Zeeman and exchange contributions *)

Lemma Qcopp_lt (p q : Qc) : (p < q)%Qc -> (- q < - p)%Qc.
Proof.
  intros H. apply Qclt_minus_iff. apply Qclt_minus_iff in H.
  now replace (- p + - - q)%Qc with (q + - p)%Qc by ring.
Qed.

Lemma Qccompare_negated (q : Qc) :
  Qccompare (q * - q1)%Qc q0 = CompOpp (Qccompare q q0).
Proof.
  replace (q * - q1)%Qc with (- q)%Qc by qring.
  destruct (Qccompare q q0) eqn:E.
  - apply Qceq_alt in E. subst q. now apply Qceq_alt.
  - apply Qclt_alt in E. apply Qccompare_gt.
    apply Qcopp_lt in E. now replace (- q0)%Qc with q0 in E by qring.
  - apply Qcgt_alt in E. apply Qccompare_lt.
    apply Qcopp_lt in E. now replace (- q0)%Qc with q0 in E by qring.
Qed.

(** Negating a product is negating its finite first factor. *)
Lemma xmul_negate (q : Qc) (b : xnum) :
  xmul (xmul (Fin q) b) xm1 = xmul (xmul (Fin q) xm1) b.
Proof.
  unfold xm1. destruct b as [r| | |]; cbn [xmul].
  - f_equal. qring.
  - rewrite Qccompare_negated. now destruct (Qccompare q q0).
  - rewrite Qccompare_negated. now destruct (Qccompare q q0).
  - reflexivity.
Qed.

Lemma negate_multiply ny nx (g F : grid xnum) (idx : indices) :
  fin_shaped ny nx g -> 0 < ny ->
  Forall (fun p => fst p < ny /\ snd p < nx) idx ->
  negate_at (multiply g F) idx = Ok (multiply (switched g idx) F).
Proof.
  intros [Sg Fg] Hy Hin. unfold multiply.
  rewrite (@negate_at_ok ny nx) by (try assumption; shape). f_equal.
  assert (Ss : shaped ny nx (switched g idx)).
  { unfold switched. rewrite (shaped_nrows Sg), (shaped_ncols Sg Hy).
    apply shaped_tabulate. }
  rewrite (map2_shaped xmul F Ss Hy).
  apply tabulate_ext. intros i j Hi Hj.
  rewrite (@map2_get _ ny nx) by assumption.
  unfold switched. rewrite (shaped_nrows Sg), (shaped_ncols Sg Hy).
  rewrite xget_tabulate by assumption.
  destruct (mem_pos (i, j) idx); [|reflexivity].
  rewrite (xget_fin i j Fg). apply xmul_negate.
Qed.

Lemma zeeman_follow (z : Zeeman.t) (sw : switching) :
  lattice_ok (Zeeman.mm z) -> consistent z ->
  dispatchable (Zeeman.mm z) sw = true ->
  exists z',
    follow sw z = Ok z'
    /\ consistent z'
    /\ Zeeman.mm z' = with_m (Zeeman.mm z) (switched (m (Zeeman.mm z)) (sites sw)).
Proof.
  intros Hok [HE HEp] Hd. cbn in HE, HEp.
  pose proof (ok_ny Hok) as Hy. pose proof (ok_m Hok) as Hm.
  assert (Hin : in_lattice (Zeeman.mm z) (sites sw)).
  { destruct sw as [[|p rest]|idx]; [discriminate| |]; now apply in_latticeb_ok. }
  assert (Hgo : follow sw z
                = (mm' <- switch (sites sw) (Zeeman.mm z) ;;
                   Zeeman.update_multiple (sites sw) (Zeeman.with_mm mm' z))).
  { destruct sw as [[|[y x] rest]|idx]; [discriminate| |]; reflexivity. }
  rewrite Hgo, (switch_ok Hok Hin). cbn [bind].
  unfold Zeeman.update_multiple. cbn [Zeeman.with_mm Zeeman.E Zeeman.E_perp Zeeman.mm].
  rewrite HE. cbn [Zeeman.update Zeeman.E].
  rewrite (negate_multiply _ Hm Hy Hin). cbn [bind].
  cbn [with_m USE_PERP_ENERGY].
  destruct (USE_PERP_ENERGY (Zeeman.mm z)) eqn:Hperp.
  - rewrite HEp. cbn [Zeeman.update Zeeman.E_perp]. rewrite ?Hperp.
    rewrite (negate_multiply _ Hm Hy Hin). cbn [bind].
    eexists. split; [reflexivity|]. split; [|reflexivity].
    split; cbn; [reflexivity|]. now rewrite Hperp.
  - cbn [bind]. eexists. split; [reflexivity|]. split; [|reflexivity].
    split; cbn; [reflexivity|]. now rewrite Hperp.
Qed.

Lemma zeeman_update_consistent (z : Zeeman.t) : consistent (Zeeman.update z).
Proof.
  split; cbn; [reflexivity|]. now destruct (USE_PERP_ENERGY (Zeeman.mm z)).
Qed.

Lemma zeeman_initialize_mm L magnitude angle mm0 :
  Zeeman.mm (Zeeman.initialize L magnitude angle mm0) = mm0.
Proof.
  unfold Zeeman.initialize, Zeeman._initialize, Zeeman.set_field. cbn.
  now destruct (in_plane mm0).
Qed.

Lemma zeeman_follow_all (history : list switching) : forall (z : Zeeman.t),
  lattice_ok (Zeeman.mm z) -> consistent z ->
  forallb (dispatchable (Zeeman.mm z)) history = true ->
  exists z',
    follow_all history z = Ok z'
    /\ consistent z'
    /\ Zeeman.mm z' = with_m (Zeeman.mm z) (after history (m (Zeeman.mm z))).
Proof.
  induction history as [|sw history IH]; intros z Hok Hc Hd.
  - exists z. cbn [follow_all after].
    split; [reflexivity|]. split; [assumption|]. symmetry. apply with_m_same.
  - cbn [forallb] in Hd. apply andb_true_iff in Hd. destruct Hd as [H1 H2].
    destruct (zeeman_follow sw Hok Hc H1) as (z1 & F1 & Hc1 & Emm).
    destruct (IH z1) as (z' & F' & Hc' & Emm').
    + rewrite Emm. apply (switched_lattice_ok Hok).
    + exact Hc1.
    + now rewrite Emm.
    + exists z'. cbn [follow_all after]. rewrite F1. cbn [bind].
      split; [assumption|]. split; [assumption|]. now rewrite Emm', Emm.
Qed.

Lemma exchange_update_mm (e : Exchange.t) : Exchange.mm (Exchange.update e) = Exchange.mm e.
Proof. unfold Exchange.update. now destruct (in_plane (Exchange.mm e)). Qed.

Lemma exchange_update_consistent (e : Exchange.t) : consistent (Exchange.update e).
Proof.
  unfold consistent. cbn [Energy.E Energy.E_perp Energy.update Exchange_Energy].
  unfold Exchange.update.
  destruct (in_plane (Exchange.mm e)) eqn:Hip;
    cbn [Exchange.mm Exchange.E Exchange.E_perp Exchange.J Exchange.local_interaction];
    rewrite Hip;
    cbn [Exchange.mm Exchange.E Exchange.E_perp Exchange.J Exchange.local_interaction];
    (split; [reflexivity|]); now destruct (USE_PERP_ENERGY (Exchange.mm e)).
Qed.

Lemma exchange_follow (e : Exchange.t) (sw : switching) :
  lattice_ok (Exchange.mm e) ->
  dispatchable (Exchange.mm e) sw = true ->
  exists e',
    follow sw e = Ok e'
    /\ consistent e'
    /\ Exchange.mm e' = with_m (Exchange.mm e) (switched (m (Exchange.mm e)) (sites sw)).
Proof.
  intros Hok Hd.
  assert (Hin : in_lattice (Exchange.mm e) (sites sw)).
  { destruct sw as [[|p rest]|idx]; [discriminate| |]; now apply in_latticeb_ok. }
  assert (Hgo : follow sw e
                = (mm' <- switch (sites sw) (Exchange.mm e) ;;
                   Ok (Exchange.update (Exchange.with_mm mm' e)))).
  { destruct sw as [[|[y x] rest]|idx]; [discriminate| |]; reflexivity. }
  rewrite Hgo, (switch_ok Hok Hin). cbn [bind].
  eexists. split; [reflexivity|]. split; [apply exchange_update_consistent|].
  now rewrite exchange_update_mm.
Qed.

Lemma exchange_follow_all (history : list switching) : forall (e : Exchange.t),
  lattice_ok (Exchange.mm e) -> consistent e ->
  forallb (dispatchable (Exchange.mm e)) history = true ->
  exists e',
    follow_all history e = Ok e'
    /\ consistent e'
    /\ Exchange.mm e' = with_m (Exchange.mm e) (after history (m (Exchange.mm e))).
Proof.
  induction history as [|sw history IH]; intros e Hok Hc Hd.
  - exists e. cbn [follow_all after].
    split; [reflexivity|]. split; [assumption|]. symmetry. apply with_m_same.
  - cbn [forallb] in Hd. apply andb_true_iff in Hd. destruct Hd as [H1 H2].
    destruct (@exchange_follow e sw Hok H1) as (e1 & F1 & Hc1 & Emm).
    destruct (IH e1) as (e' & F' & Hc' & Emm').
    + rewrite Emm. apply (switched_lattice_ok Hok).
    + exact Hc1.
    + now rewrite Emm.
    + exists e'. cbn [follow_all after]. rewrite F1. cbn [bind].
      split; [assumption|]. split; [assumption|]. now rewrite Emm', Emm.
Qed.

(** ** Incremental updates against a full recomputation *)

Lemma row_eqb_refl (r : list xnum) : row_eqb r r = true.
Proof.
  unfold row_eqb. rewrite Nat.eqb_refl. cbn [andb].
  induction r as [|a r IH]; [reflexivity|].
  cbn [combine forallb fst snd]. rewrite IH, andb_true_r.
  now apply xnum_eqb_eq.
Qed.

Lemma grid_eqb_refl (g : grid xnum) : grid_eqb g g = true.
Proof.
  unfold grid_eqb. rewrite Nat.eqb_refl. cbn [andb].
  induction g as [|r g IH]; [reflexivity|].
  cbn [combine forallb fst snd]. now rewrite IH, row_eqb_refl.
Qed.

(** Two arrays that the comparison tells apart are different arrays. *)
Lemma grid_eqb_differ (a b : grid xnum) : grid_eqb a b = false -> a <> b.
Proof. intros H E. subst b. rewrite grid_eqb_refl in H. discriminate. Qed.

Lemma is_finb_ok (a : xnum) : is_finb a = true -> is_fin a.
Proof. now destruct a. Qed.

(** C1 (amended).  A contribution that was initialised on a well-formed
    lattice and then followed a history of switches, each flip applied to the
    lattice right before the call of [update_single] or [update_multiple] that
    reports it, holds the energies that a full [update] of the final lattice
    computes: [E] and [E_perp] are left unchanged by a recomputation.  This
    holds for the Zeeman and the exchange contribution on every history whose
    sites lie in the lattice, and for the dipolar contribution (finite
    prefactor, negative decay exponent, coordinates on a regular mesh) on the
    histories whose batches list no site twice and are summed exactly: every
    unit-cell group of a batch is either no larger than the cutoff, or is
    convolved with the whole kernel on open boundaries and has unit moments. *)
Theorem incremental_updates_match_recomputation (L : libm) :
  (forall magnitude angle mm0 history,
      lattice_okb mm0 = true ->
      forallb (dispatchable mm0) history = true ->
      exists z,
        follow_all history (Zeeman.initialize L magnitude angle mm0) = Ok z
        /\ Zeeman.mm z = with_m mm0 (after history (m mm0))
        /\ Zeeman.E z = Zeeman.E (Zeeman.update z)
        /\ Zeeman.E_perp z = Zeeman.E_perp (Zeeman.update z))
  /\ (forall prefactor decay_exponent mm0 history,
      lattice_okb mm0 = true -> regular_okb mm0 = true ->
      is_finb prefactor = true -> (decay_exponent < q0)%Qc ->
      forallb (admissible mm0) history = true ->
      exists d,
        follow_all history (Dipolar.initialize L prefactor decay_exponent mm0) = Ok d
        /\ Dipolar.mm d = with_m mm0 (after history (m mm0))
        /\ Dipolar.E d = Dipolar.E (Dipolar.update d)
        /\ Dipolar.E_perp d = Dipolar.E_perp (Dipolar.update d))
  /\ (forall J mm0 history,
      lattice_okb mm0 = true ->
      forallb (dispatchable mm0) history = true ->
      exists e,
        follow_all history (Exchange.initialize J mm0) = Ok e
        /\ Exchange.mm e = with_m mm0 (after history (m mm0))
        /\ Exchange.E e = Exchange.E (Exchange.update e)
        /\ Exchange.E_perp e = Exchange.E_perp (Exchange.update e)).
Proof.
  split; [|split].
  - intros magnitude angle mm0 history Hok Hd. apply lattice_okb_ok in Hok.
    set (z0 := Zeeman.initialize L magnitude angle mm0).
    assert (E0 : Zeeman.mm z0 = mm0) by apply zeeman_initialize_mm.
    destruct (@zeeman_follow_all history z0) as (z & F & [HE HEp] & Emm).
    + now rewrite E0.
    + apply zeeman_update_consistent.
    + now rewrite E0.
    + exists z. rewrite E0 in Emm. now repeat split.
  - intros prefactor decay_exponent mm0 history Hok Hreg Hpref Hdec Hadm.
    apply lattice_okb_ok in Hok. apply regular_okb_ok in Hreg.
    apply is_finb_ok in Hpref.
    destruct (@dipolar_initialize_ok L prefactor decay_exponent mm0 Hok Hdec Hpref)
      as (Hs & Hc & E0).
    set (d0 := Dipolar.initialize L prefactor decay_exponent mm0) in *.
    destruct (@dipolar_follow_all L history d0 Hs) as (d & F & _ & [HE HEp] & Emm).
    + now rewrite E0.
    + exact Hc.
    + now rewrite E0.
    + exists d. rewrite E0 in Emm. now repeat split.
  - intros J mm0 history Hok Hd. apply lattice_okb_ok in Hok.
    set (e0 := Exchange.initialize J mm0).
    assert (E0 : Exchange.mm e0 = mm0).
    { unfold e0, Exchange.initialize. now rewrite exchange_update_mm. }
    destruct (@exchange_follow_all history e0) as (e & F & [HE HEp] & Emm).
    + now rewrite E0.
    + apply exchange_update_consistent.
    + now rewrite E0.
    + exists e. rewrite E0 in Emm. now repeat split.
Qed.

Lemma incremental_updates_match_recomputation_witness :
  (exists z,
      follow_all [Single [(1, 2)]; Multiple [(0, 0); (1, 2)]]
        (Zeeman.initialize Sample.math (Sample.of_Zs [[2; 2; 2]; [2; 2; 2]]%Z)
           (zeros 2 3) Sample.oop_2x3) = Ok z
      /\ Zeeman.mm z
         = with_m Sample.oop_2x3
             (after [Single [(1, 2)]; Multiple [(0, 0); (1, 2)]] (m Sample.oop_2x3))
      /\ Zeeman.E z = Zeeman.E (Zeeman.update z)
      /\ Zeeman.E_perp z = Zeeman.E_perp (Zeeman.update z))
  /\ (exists d,
      follow_all [Single [(0, 1)]; Multiple [(0, 0); (1, 3); (1, 1)]; Single [(1, 3)]]
        (Dipolar.initialize Sample.math xone (Q2Qc (-3)) (Sample.ip_2x4 true)) = Ok d
      /\ Dipolar.mm d
         = with_m (Sample.ip_2x4 true)
             (after [Single [(0, 1)]; Multiple [(0, 0); (1, 3); (1, 1)]; Single [(1, 3)]]
                (m (Sample.ip_2x4 true)))
      /\ Dipolar.E d = Dipolar.E (Dipolar.update d)
      /\ Dipolar.E_perp d = Dipolar.E_perp (Dipolar.update d))
  /\ (exists e,
      follow_all [Multiple [(0, 0); (0, 1)]; Single [(1, 1)]]
        (Exchange.initialize xone Sample.oop_2x3) = Ok e
      /\ Exchange.mm e
         = with_m Sample.oop_2x3
             (after [Multiple [(0, 0); (0, 1)]; Single [(1, 1)]] (m Sample.oop_2x3))
      /\ Exchange.E e = Exchange.E (Exchange.update e)
      /\ Exchange.E_perp e = Exchange.E_perp (Exchange.update e)).
Proof.
  pose proof (incremental_updates_match_recomputation Sample.math) as (Hz & Hd & He).
  split; [|split].
  - apply Hz; reflexivity.
  - apply Hd; reflexivity.
  - apply He; reflexivity.
Defined.

(** C1, as stated, fails on a batch that takes the convolution branch with a
    reduced kernel.  A row of four magnets of unit moment, cutoff 1 and
    [REDUCED_KERNEL_SIZE] 1: after the batch switch of the first two magnets
    the incremental energy of the third is [+1.25e-8] where the recomputation
    gives [-1.25e-8]. *)
Lemma incremental_update_drifts_with_reduced_kernel :
  let mm0 := with_params (Sample.oop_1x4 false) 1 1 in
  let d0 := Dipolar.initialize Sample.math xone (Q2Qc (-3)) mm0 in
  exists d,
    follow_all [Multiple [(0, 0); (0, 1)]] d0 = Ok d
    /\ qget (Dipolar.E d) 0 2 = Q2Qc (1 # 80000000)
    /\ qget (Dipolar.E (Dipolar.update d)) 0 2 = Q2Qc (-1 # 80000000)
    /\ Dipolar.E d <> Dipolar.E (Dipolar.update d).
Proof.
  intros mm0 d0. eexists. split; [vm_compute; reflexivity|].
  split; [apply Qc_is_canon; vm_compute; reflexivity|].
  split; [apply Qc_is_canon; vm_compute; reflexivity|].
  apply grid_eqb_differ. vm_compute. reflexivity.
Qed.

(** ** The cached kernels *)

Lemma kernel_grid_sound L mm e k y x :
  lattice_ok mm -> kernel_sound mm (kernel_grid L mm e k y x).
Proof.
  intros Hok. pose proof (ok_ny Hok) as Hy. pose proof (ok_nx Hok) as Hx.
  split.
  - apply fin_shaped_tabulate. intros i j _ _. exact I.
  - unfold kernel_grid. rewrite xget_tabulate by lia.
    pose proof (@q_pair_self L mm Hok e k y x 0 0 Hy Hx) as H.
    unfold q_pair in H. rewrite !Nat.add_0_r, !Nat.sub_0_r in H.
    unfold xzero. now rewrite H.
Qed.

Lemma kernels_sound L mm e k (l : list (grid xnum)) :
  lattice_ok mm ->
  Forall (fun K => exists y x, K = kernel_grid L mm e k y x) l ->
  Forall (kernel_sound mm) l.
Proof.
  intros Hok H. eapply Forall_impl; [|exact H].
  intros K (y & x & ->). now apply kernel_grid_sound.
Qed.

(** C8 (amended).  With a negative decay exponent (the default is -3) on a
    well-formed lattice, with or without periodic boundaries, every kernel
    that [initialize] caches (normal, perpendicular-self and
    perpendicular-other) has the shape [(2*ny-1, 2*nx-1)], holds finite
    numbers only and is exactly zero at its centre; and every position of the
    unit cell that holds a magnet has such a kernel under its kernel index. *)
Theorem kernels_finite_with_zero_centre (L : libm) prefactor decay_exponent mm0 :
  lattice_okb mm0 = true -> (decay_exponent < q0)%Qc ->
  let s := Dipolar.initialize L prefactor decay_exponent mm0 in
  Forall (kernel_sound mm0) (Dipolar.kernel_unitcell s)
  /\ Forall (kernel_sound mm0) (Dipolar.kernel_perpself_unitcell s)
  /\ Forall (kernel_sound mm0) (Dipolar.kernel_perpother_unitcell s)
  /\ forall y x,
       y < Unitcell.y (unitcell mm0) -> x < Unitcell.x (unitcell mm0) ->
       occupied mm0 y x = true ->
       exists n,
         Dipolar.kernel_index s y x = Z.of_nat n
         /\ n < length (Dipolar.kernel_unitcell s)
         /\ n < length (Dipolar.kernel_perpself_unitcell s)
         /\ n < length (Dipolar.kernel_perpother_unitcell s).
Proof.
  intros Hok Hdec s. apply lattice_okb_ok in Hok.
  set (s0 := {| Dipolar.mm := mm0; Dipolar.E := zeros_like (m mm0);
                Dipolar.E_perp := zeros_like (m mm0);
                Dipolar.prefactor := prefactor;
                Dipolar.decay_exponent := decay_exponent;
                Dipolar.unitcell := unitcell mm0;
                Dipolar.kernel_unitcell_indices := [];
                Dipolar.kernel_unitcell := [];
                Dipolar.kernel_perpself_unitcell := [];
                Dipolar.kernel_perpother_unitcell := [] |}).
  assert (Hb : kernels_built L (Dipolar._initialize L s0))
    by now apply _initialize_builds.
  destruct (_initialize_static L s0) as (Emm & _ & _ & _ & Edec & Eu).
  cbn [Dipolar.mm s0] in Emm. cbn [Dipolar.decay_exponent s0] in Edec.
  unfold kernels_built, kernels_upto in Hb. rewrite Emm, Edec in Hb.
  destruct Hb as (_ & _ & Hl1 & Hl2 & K1 & K2 & K3 & Hall).
  change (Dipolar.kernel_unitcell s) with (Dipolar.kernel_unitcell (Dipolar._initialize L s0)).
  change (Dipolar.kernel_perpself_unitcell s)
    with (Dipolar.kernel_perpself_unitcell (Dipolar._initialize L s0)).
  change (Dipolar.kernel_perpother_unitcell s)
    with (Dipolar.kernel_perpother_unitcell (Dipolar._initialize L s0)).
  split; [exact (@kernels_sound L mm0 _ Normal _ Hok K1)|].
  split; [exact (@kernels_sound L mm0 _ PerpSelf _ Hok K2)|].
  split; [exact (@kernels_sound L mm0 _ PerpOther _ Hok K3)|].
  intros y x Hy Hx Ho.
  destruct (Hall y x Hy Hx) as [Hin _].
  destruct Hin as (n & Hn & Hidx & _); [|exact Ho|].
  - rewrite Eu. cbn [Dipolar.mm s0]. unfold Dipolar.unitcell_positions.
    apply in_prod; apply in_seq; lia.
  - exists n. split; [exact Hidx|]. rewrite Hl1, Hl2. now repeat split.
Qed.

Lemma kernels_finite_with_zero_centre_witness :
  let s := Dipolar.initialize Sample.math xone (Q2Qc (-3)) (Sample.ip_2x4 true) in
  Forall (kernel_sound (Sample.ip_2x4 true)) (Dipolar.kernel_unitcell s)
  /\ Forall (kernel_sound (Sample.ip_2x4 true)) (Dipolar.kernel_perpself_unitcell s)
  /\ Forall (kernel_sound (Sample.ip_2x4 true)) (Dipolar.kernel_perpother_unitcell s)
  /\ forall y x,
       y < Unitcell.y (unitcell (Sample.ip_2x4 true)) ->
       x < Unitcell.x (unitcell (Sample.ip_2x4 true)) ->
       occupied (Sample.ip_2x4 true) y x = true ->
       exists n,
         Dipolar.kernel_index s y x = Z.of_nat n
         /\ n < length (Dipolar.kernel_unitcell s)
         /\ n < length (Dipolar.kernel_perpself_unitcell s)
         /\ n < length (Dipolar.kernel_perpother_unitcell s).
Proof.
  apply (@kernels_finite_with_zero_centre Sample.math xone (Q2Qc (-3)) (Sample.ip_2x4 true));
    reflexivity.
Defined.

(** C8, as stated, fails when the decay exponent is not negative.  On a row
    of four magnets, the decay exponent 3 leaves [inf] at the centre of the
    kernel, and the decay exponent 0 leaves [1e-7] there. *)
Lemma kernel_centre_not_zero_for_other_exponents :
  (exists K,
      Dipolar.kernel_unitcell
        (Dipolar.initialize Sample.math xone (Q2Qc 3) (Sample.oop_1x4 false)) = [K]
      /\ xget K 0 3 = PInf)
  /\ (exists K,
      Dipolar.kernel_unitcell
        (Dipolar.initialize Sample.math xone (Q2Qc 0) (Sample.oop_1x4 false)) = [K]
      /\ xget K 0 3 = Fin q1e_7).
Proof.
  split; eexists; (split; [vm_compute; reflexivity|]).
  - reflexivity.
  - apply xnum_eqb_eq. vm_compute. reflexivity.
Qed.

(** ** Sites without a magnet *)

Lemma fold_left_skip {A B} (f : A -> B -> A) (l : list B) (a : A) :
  (forall b, In b l -> forall a', f a' b = a') -> fold_left f l a = a.
Proof.
  induction l as [|b l IH]; intros H; cbn [fold_left]; [reflexivity|].
  rewrite H by now left. apply IH. intros b' Hb'. apply H. now right.
Qed.

(** C4 (amended).  A dipolar update that is requested for a site whose
    position in the unit cell has kernel index -1 does not fail: it is
    skipped silently.  [update_single] returns the contribution as it was, and
    [update_multiple] on a batch of such sites does what its first two lines
    do and nothing else: it negates the listed entries of [E] (and of
    [E_perp] when enabled), and raises only if a site lies outside the
    arrays. *)
Theorem unoccupied_site_is_skipped (s : Dipolar.t) :
  0 < Unitcell.x (Dipolar.unitcell s) ->
  (forall p rest, unoccupied s p = true -> Dipolar.update_single (p :: rest) s = Ok s)
  /\ (forall idx,
        forallb (unoccupied s) idx = true ->
        Dipolar.update_multiple idx s
        = (E' <- negate_at (Dipolar.E s) idx ;;
           E_perp' <- (if USE_PERP_ENERGY (Dipolar.mm s)
                       then negate_at (Dipolar.E_perp s) idx
                       else Ok (Dipolar.E_perp s)) ;;
           Ok (Dipolar.with_E s E' E_perp'))).
Proof.
  intros Hcx. split.
  - intros p rest Hp. unfold unoccupied in Hp.
    unfold Dipolar.update_single. cbn [first_column bind]. now rewrite Hp.
  - intros idx Hall. unfold Dipolar.update_multiple.
    destruct (negate_at (Dipolar.E s) idx) as [E'|]; [|reflexivity]. cbn [bind].
    destruct (if USE_PERP_ENERGY (Dipolar.mm s)
              then negate_at (Dipolar.E_perp s) idx else Ok (Dipolar.E_perp s))
      as [E_perp'|]; [|reflexivity]. cbn [bind].
    rewrite fold_left_skip; [reflexivity|].
    intros i Hi acc. apply present_spec, in_map_iff in Hi.
    destruct Hi as (p & Ep & Hp).
    rewrite forallb_forall in Hall. specialize (Hall p Hp). unfold unoccupied in Hall.
    destruct (ravel_unitcell_cell (Dipolar.unitcell s) p Hcx) as [Cy Cx].
    rewrite Ep in Cy, Cx.
    unfold Dipolar.update_multiple_step. now rewrite Cy, Cx, Hall.
Qed.

Lemma unoccupied_site_is_skipped_witness :
  let d := Dipolar.initialize Sample.math xone (Q2Qc (-3)) Sample.oop_checker in
  (forall p rest, unoccupied d p = true -> Dipolar.update_single (p :: rest) d = Ok d)
  /\ (forall idx,
        forallb (unoccupied d) idx = true ->
        Dipolar.update_multiple idx d
        = (E' <- negate_at (Dipolar.E d) idx ;;
           E_perp' <- (if USE_PERP_ENERGY (Dipolar.mm d)
                       then negate_at (Dipolar.E_perp d) idx
                       else Ok (Dipolar.E_perp d)) ;;
           Ok (Dipolar.with_E d E' E_perp'))).
Proof.
  intros d. apply (@unoccupied_site_is_skipped d). vm_compute. lia.
Defined.

(** C4, as stated, fails: on the checkerboard, whose unit cell holds no
    magnet at [(0, 1)], an update for the site [(0, 1)] returns normally and
    leaves the contribution as it was, and a batch update for the empty sites
    [(0, 1)] and [(1, 2)] returns normally as well. *)
Lemma update_of_unoccupied_site_returns :
  let d := Dipolar.initialize Sample.math xone (Q2Qc (-3)) Sample.oop_checker in
  Dipolar.kernel_index d 0 1 = (-1)%Z
  /\ Dipolar.update_single [(0, 1)] d = Ok d
  /\ exists d', Dipolar.update_multiple [(0, 1); (1, 2)] d = Ok d'.
Proof.
  intros d. split; [vm_compute; reflexivity|]. split.
  - unfold Dipolar.update_single. cbn [first_column bind fst snd].
    replace (Dipolar.kernel_index d (0 mod Unitcell.y (Dipolar.unitcell d))
               (1 mod Unitcell.x (Dipolar.unitcell d)) <? 0)%Z with true
      by (vm_compute; reflexivity).
    reflexivity.
  - eexists. vm_compute. reflexivity.
Qed.

(** ** A batch against its switches one by one *)

Lemma kernels_built_transfer L (s s' : Dipolar.t) :
  Dipolar.mm s = Dipolar.mm s' ->
  Dipolar.decay_exponent s = Dipolar.decay_exponent s' ->
  Dipolar.unitcell s = Dipolar.unitcell s' ->
  Dipolar.kernel_unitcell_indices s = Dipolar.kernel_unitcell_indices s' ->
  Dipolar.kernel_unitcell s = Dipolar.kernel_unitcell s' ->
  Dipolar.kernel_perpself_unitcell s = Dipolar.kernel_perpself_unitcell s' ->
  Dipolar.kernel_perpother_unitcell s = Dipolar.kernel_perpother_unitcell s' ->
  kernels_built L s' -> kernels_built L s.
Proof.
  intros E1 E2 E3 E4 E5 E6 E7.
  unfold kernels_built, kernels_upto, Dipolar.kernel_index.
  now rewrite E1, E2, E3, E4, E5, E6, E7.
Qed.

Lemma initialized_ok L (s : Dipolar.t) :
  lattice_ok (Dipolar.mm s) -> (Dipolar.decay_exponent s < q0)%Qc ->
  is_fin (Dipolar.prefactor s) -> initialized L s -> dipolar_ok L s.
Proof.
  intros Hok Hdec Hpref (E3 & E4 & E5 & E6 & E7).
  split; [assumption|]. split; [assumption|]. split; [assumption|].
  destruct (_initialize_static L s) as (Emm & _ & _ & _ & Edec & _).
  apply (@kernels_built_transfer L s (Dipolar._initialize L s)); try congruence.
  now apply _initialize_builds.
Qed.

Lemma dipolar_update_single_static idx (s s' : Dipolar.t) :
  Dipolar.update_single idx s = Ok s' ->
  Dipolar.mm s' = Dipolar.mm s
  /\ Dipolar.prefactor s' = Dipolar.prefactor s
  /\ Dipolar.decay_exponent s' = Dipolar.decay_exponent s
  /\ (USE_PERP_ENERGY (Dipolar.mm s) = false -> Dipolar.E_perp s' = Dipolar.E_perp s).
Proof.
  unfold Dipolar.update_single.
  destruct (first_column idx) as [p|]; cbn [bind]; [|discriminate].
  destruct (Dipolar.kernel_index s _ _ <? 0)%Z.
  { intros [= <-]. now repeat split. }
  destruct (item _ _ _) as [c|]; cbn [bind]; [|discriminate].
  destruct (negate_item _ _ _) as [E'|]; cbn [bind]; [|discriminate].
  destruct (USE_PERP_ENERGY (Dipolar.mm s)).
  - destruct (negate_item _ _ _) as [E_perp'|]; cbn [bind]; [|discriminate].
    intros [= <-]. repeat split. discriminate.
  - intros [= <-]. now repeat split.
Qed.

Lemma dipolar_update_multiple_static idx (s s' : Dipolar.t) :
  Dipolar.update_multiple idx s = Ok s' ->
  Dipolar.mm s' = Dipolar.mm s
  /\ Dipolar.prefactor s' = Dipolar.prefactor s
  /\ Dipolar.decay_exponent s' = Dipolar.decay_exponent s
  /\ (USE_PERP_ENERGY (Dipolar.mm s) = false -> Dipolar.E_perp s' = Dipolar.E_perp s).
Proof.
  unfold Dipolar.update_multiple.
  destruct (negate_at (Dipolar.E s) idx) as [E'|]; cbn [bind]; [|discriminate].
  destruct (USE_PERP_ENERGY (Dipolar.mm s)) eqn:Hperp.
  - destruct (negate_at (Dipolar.E_perp s) idx) as [E_perp'|]; cbn [bind]; [|discriminate].
    intros [= <-]. repeat split. discriminate.
  - cbn [bind]. intros [= <-]. repeat split. intros _.
    cbn [Dipolar.with_E Dipolar.E_perp].
    now rewrite (@update_multiple_loop_without_perp s idx _ E' (Dipolar.E_perp s)
                   (Dipolar.E_perp s) Hperp).
Qed.

Lemma dipolar_follow_static sw (s s' : Dipolar.t) :
  follow sw s = Ok s' ->
  USE_PERP_ENERGY (Dipolar.mm s') = USE_PERP_ENERGY (Dipolar.mm s)
  /\ Dipolar.prefactor s' = Dipolar.prefactor s
  /\ Dipolar.decay_exponent s' = Dipolar.decay_exponent s
  /\ (USE_PERP_ENERGY (Dipolar.mm s) = false -> Dipolar.E_perp s' = Dipolar.E_perp s).
Proof.
  unfold follow. destruct sw as [idx|idx].
  - destruct (first_column idx) as [p|]; cbn [bind]; [|discriminate].
    destruct (switch [p] (Energy.mm s)) as [mm'|] eqn:Hsw; cbn [bind]; [|discriminate].
    intros H. apply dipolar_update_single_static in H.
    unfold switch in Hsw.
    destruct (negate_at _ _); cbn [bind] in Hsw; [|discriminate].
    injection Hsw as <-. destruct H as (-> & H). now split.
  - destruct (switch idx (Energy.mm s)) as [mm'|] eqn:Hsw; cbn [bind]; [|discriminate].
    intros H. apply dipolar_update_multiple_static in H.
    unfold switch in Hsw.
    destruct (negate_at _ _); cbn [bind] in Hsw; [|discriminate].
    injection Hsw as <-. destruct H as (-> & H). now split.
Qed.

Lemma dipolar_follow_all_static history : forall (s s' : Dipolar.t),
  follow_all history s = Ok s' ->
  USE_PERP_ENERGY (Dipolar.mm s') = USE_PERP_ENERGY (Dipolar.mm s)
  /\ Dipolar.prefactor s' = Dipolar.prefactor s
  /\ Dipolar.decay_exponent s' = Dipolar.decay_exponent s
  /\ (USE_PERP_ENERGY (Dipolar.mm s) = false -> Dipolar.E_perp s' = Dipolar.E_perp s).
Proof.
  induction history as [|sw history IH]; intros s s'; cbn [follow_all].
  - intros [= <-]. now repeat split.
  - destruct (follow sw s) as [s1|] eqn:F1; cbn [bind]; [|discriminate].
    intros F. apply IH in F. destruct F as (U & A & B & C).
    apply dipolar_follow_static in F1. destruct F1 as (U1 & A1 & B1 & C1).
    split; [congruence|]. split; [congruence|]. split; [congruence|].
    intros Hp. rewrite C, C1; congruence.
Qed.

Lemma switched_nil ny nx (g : grid xnum) :
  shaped ny nx g -> 0 < ny -> switched g [] = g.
Proof.
  intros Sg Hy. unfold switched. cbn [mem_pos existsb].
  rewrite (shaped_nrows Sg), (shaped_ncols Sg Hy).
  now apply tabulate_get.
Qed.

Lemma switched_cons ny nx (g : grid xnum) p idx :
  shaped ny nx g -> 0 < ny -> ~ In p idx ->
  switched (switched g [p]) idx = switched g (p :: idx).
Proof.
  intros Sg Hy Hp.
  assert (S1 : shaped ny nx (switched g [p])).
  { unfold switched. rewrite (shaped_nrows Sg), (shaped_ncols Sg Hy).
    apply shaped_tabulate. }
  unfold switched at 1 3.
  rewrite (shaped_nrows S1), (shaped_ncols S1 Hy), (shaped_nrows Sg), (shaped_ncols Sg Hy).
  apply tabulate_ext. intros i j Hi Hj.
  unfold switched. rewrite (shaped_nrows Sg), (shaped_ncols Sg Hy).
  rewrite xget_tabulate by assumption.
  rewrite mem_pos_cons. cbn [mem_pos existsb]. rewrite orb_false_r.
  destruct (pos_eqb_spec (i, j) p) as [<-|Hne].
  - replace (mem_pos (i, j) idx) with false; [reflexivity|].
    symmetry. apply not_true_is_false. now rewrite mem_pos_spec.
  - reflexivity.
Qed.

Lemma after_one_by_one ny nx idx : forall (g : grid xnum),
  shaped ny nx g -> 0 < ny -> NoDup idx ->
  after (one_by_one idx) g = switched g idx.
Proof.
  induction idx as [|p idx IH]; intros g Sg Hy Hnd; cbn [one_by_one map after sites].
  - symmetry. now apply (@switched_nil ny nx).
  - inversion Hnd as [|? ? Hp Hnd']; subst.
    fold (one_by_one idx). rewrite IH; try assumption.
    + now apply (@switched_cons ny nx).
    + unfold switched. rewrite (shaped_nrows Sg), (shaped_ncols Sg Hy).
      apply shaped_tabulate.
Qed.

Lemma one_by_one_admissible mm idx :
  in_latticeb mm idx = true -> forallb (admissible mm) (one_by_one idx) = true.
Proof.
  induction idx as [|p idx IH]; [reflexivity|].
  cbn [in_latticeb forallb one_by_one map]. intros H.
  apply andb_true_iff in H. destruct H as [H1 H2].
  fold (one_by_one idx). rewrite (IH H2), andb_true_r.
  unfold admissible, dispatchable. cbn [sites in_latticeb forallb].
  now rewrite H1.
Qed.

(** Two contributions in step with the same lattice hold the same energies,
    whatever the tunables of their lattices are. *)
Lemma consistent_agree L (s1 s2 : Dipolar.t) :
  dipolar_ok L s1 -> dipolar_ok L s2 -> consistent s1 -> consistent s2 ->
  with_params (Dipolar.mm s1) 0 0 = with_params (Dipolar.mm s2) 0 0 ->
  Dipolar.prefactor s1 = Dipolar.prefactor s2 ->
  Dipolar.decay_exponent s1 = Dipolar.decay_exponent s2 ->
  (USE_PERP_ENERGY (Dipolar.mm s1) = false -> Dipolar.E_perp s1 = Dipolar.E_perp s2) ->
  Dipolar.E s1 = Dipolar.E s2 /\ Dipolar.E_perp s1 = Dipolar.E_perp s2.
Proof.
  intros H1 H2 C1 C2 Emm Epref Edec Eperp.
  apply (dipolar_consistent_closed H1) in C1. destruct C1 as [A1 B1].
  apply (dipolar_consistent_closed H2) in C2. destruct C2 as [A2 B2].
  assert (Eq : forall k,
             tabulate (ny (Dipolar.mm s1)) (nx (Dipolar.mm s1))
               (fun i j => Fin (q_energy L (Dipolar.mm s1) (- Dipolar.decay_exponent s1)
                                  (fval (Dipolar.prefactor s1)) k i j))
             = tabulate (ny (Dipolar.mm s2)) (nx (Dipolar.mm s2))
                 (fun i j => Fin (q_energy L (Dipolar.mm s2) (- Dipolar.decay_exponent s2)
                                    (fval (Dipolar.prefactor s2)) k i j))).
  { intros k.
    change (tabulate (ny (with_params (Dipolar.mm s1) 0 0))
              (nx (with_params (Dipolar.mm s1) 0 0))
              (fun i j => Fin (q_energy L (with_params (Dipolar.mm s1) 0 0)
                                 (- Dipolar.decay_exponent s1)
                                 (fval (Dipolar.prefactor s1)) k i j))
            = tabulate (ny (with_params (Dipolar.mm s2) 0 0))
                (nx (with_params (Dipolar.mm s2) 0 0))
                (fun i j => Fin (q_energy L (with_params (Dipolar.mm s2) 0 0)
                                   (- Dipolar.decay_exponent s2)
                                   (fval (Dipolar.prefactor s2)) k i j))).
    now rewrite Emm, Epref, Edec. }
  split; [now rewrite A1, A2|].
  assert (Eu : USE_PERP_ENERGY (Dipolar.mm s1) = USE_PERP_ENERGY (Dipolar.mm s2)).
  { change (USE_PERP_ENERGY (with_params (Dipolar.mm s1) 0 0)
            = USE_PERP_ENERGY (with_params (Dipolar.mm s2) 0 0)).
    now rewrite Emm. }
  destruct (USE_PERP_ENERGY (Dipolar.mm s1)) eqn:Hu.
  - rewrite B1, B2 by congruence. apply Eq.
  - now apply Eperp.
Qed.

(** C3 (amended).  On a dipolar contribution that is in step with its
    lattice, a batch switch that lists no site twice and is summed exactly
    leaves the same lattice, [E] and [E_perp] as the switches of its sites one
    by one, each magnet flipped right before the [update_single] that reports
    it. *)
Theorem batch_matches_switches_one_by_one (L : libm) (s : Dipolar.t) (idx : indices) :
  lattice_okb (Dipolar.mm s) = true -> regular_okb (Dipolar.mm s) = true ->
  is_finb (Dipolar.prefactor s) = true -> (Dipolar.decay_exponent s < q0)%Qc ->
  initialized L s -> consistent s ->
  admissible (Dipolar.mm s) (Multiple idx) = true ->
  exists s1 s2,
    follow (Multiple idx) s = Ok s1
    /\ follow_all (one_by_one idx) s = Ok s2
    /\ Dipolar.mm s1 = Dipolar.mm s2
    /\ Dipolar.E s1 = Dipolar.E s2
    /\ Dipolar.E_perp s1 = Dipolar.E_perp s2.
Proof.
  intros Hok Hreg Hpref Hdec Hinit Hc Hadm.
  apply lattice_okb_ok in Hok. apply regular_okb_ok in Hreg. apply is_finb_ok in Hpref.
  pose proof (initialized_ok Hok Hdec Hpref Hinit) as Hs.
  destruct (dipolar_follow (Multiple idx) Hs Hreg Hc Hadm) as (s1 & F1 & Hs1 & Hc1 & E1).
  pose proof Hadm as Hadm'. unfold admissible in Hadm'.
  apply andb_true_iff in Hadm'. destruct Hadm' as [Hin Hb].
  cbn [dispatchable sites] in Hin.
  apply andb_true_iff in Hb. destruct Hb as [Hnd _]. apply nodupb_ok in Hnd.
  destruct (@dipolar_follow_all L (one_by_one idx) s Hs Hreg Hc
              (one_by_one_admissible _ _ Hin)) as (s2 & F2 & Hs2 & Hc2 & E2).
  destruct (ok_m Hok) as [Sm _].
  rewrite (after_one_by_one Sm (ok_ny Hok) Hnd) in E2. cbn [sites] in E1.
  exists s1, s2. split; [exact F1|]. split; [exact F2|].
  split; [congruence|].
  destruct (dipolar_follow_static _ _ F1) as (_ & P1 & D1 & Q1).
  destruct (dipolar_follow_all_static _ _ F2) as (_ & P2 & D2 & Q2).
  apply (consistent_agree Hs1 Hs2 Hc1 Hc2); try congruence.
  rewrite E1. cbn [with_m USE_PERP_ENERGY]. intros Hu. now rewrite Q1, Q2.
Qed.

Lemma batch_matches_switches_one_by_one_witness :
  let s := Dipolar.initialize Sample.math xone (Q2Qc (-3)) (Sample.ip_2x4 true) in
  exists s1 s2,
    follow (Multiple [(0, 0); (1, 3); (1, 1); (0, 2)]) s = Ok s1
    /\ follow_all (one_by_one [(0, 0); (1, 3); (1, 1); (0, 2)]) s = Ok s2
    /\ Dipolar.mm s1 = Dipolar.mm s2
    /\ Dipolar.E s1 = Dipolar.E s2
    /\ Dipolar.E_perp s1 = Dipolar.E_perp s2.
Proof.
  intros s.
  apply (@batch_matches_switches_one_by_one Sample.math s);
    try reflexivity; vm_compute; repeat split; reflexivity.
Defined.

(** C3, as stated, fails on the far side of the threshold when the kernel
    is reduced: on a row of four magnets of unit moment with cutoff 1 and
    [REDUCED_KERNEL_SIZE] 1, the batch switch of the first two magnets and
    their switches one by one leave different energies ([+1.25e-8] against
    [-1.25e-8] for the third magnet). *)
Lemma batch_differs_from_switches_one_by_one :
  let mm0 := with_params (Sample.oop_1x4 false) 1 1 in
  let s := Dipolar.initialize Sample.math xone (Q2Qc (-3)) mm0 in
  exists s1 s2,
    follow (Multiple [(0, 0); (0, 1)]) s = Ok s1
    /\ follow_all (one_by_one [(0, 0); (0, 1)]) s = Ok s2
    /\ qget (Dipolar.E s1) 0 2 = Q2Qc (1 # 80000000)
    /\ qget (Dipolar.E s2) 0 2 = Q2Qc (-1 # 80000000)
    /\ Dipolar.E s1 <> Dipolar.E s2.
Proof.
  intros mm0 s. eexists. eexists.
  split; [vm_compute; reflexivity|]. split; [vm_compute; reflexivity|].
  split; [apply Qc_is_canon; vm_compute; reflexivity|].
  split; [apply Qc_is_canon; vm_compute; reflexivity|].
  apply grid_eqb_differ. vm_compute. reflexivity.
Qed.

(** ** The two branches of a batch *)

Lemma lattice_ok_with_params mm c k : lattice_ok mm -> lattice_ok (with_params mm c k).
Proof. intros []. now constructor. Qed.

Lemma regular_with_params mm c k : regular mm -> regular (with_params mm c k).
Proof. intros []. now constructor. Qed.

Lemma dipolar_ok_with_cutoff L c (s : Dipolar.t) :
  dipolar_ok L s -> dipolar_ok L (with_cutoff c s).
Proof.
  intros (Hok & Hdec & Hpref & Hb).
  split; [now apply lattice_ok_with_params|]. split; [exact Hdec|].
  split; [exact Hpref|]. exact Hb.
Qed.

Lemma consistent_with_cutoff c (s : Dipolar.t) : consistent s -> consistent (with_cutoff c s).
Proof. intros H. exact H. Qed.

Lemma exact_whatever_the_cutoff mm c idx :
  REDUCED_KERNEL_SIZE mm = 0 -> PBC mm = false -> unit_moments mm idx = true ->
  exact_batch (with_params mm c 0) idx = true.
Proof.
  intros Hfull Hopen Hone. unfold exact_batch. apply forallb_forall. intros i _.
  unfold summed_exactly. cbn [REDUCED_KERNEL_SIZE PBC with_params Nat.eqb].
  rewrite Hopen. cbn [negb andb]. apply orb_true_iff. right.
  unfold unit_moments, group in *. rewrite forallb_forall in *.
  intros p Hp. apply filter_In in Hp. now apply Hone.
Qed.

(** C2 (amended).  On a dipolar contribution that is in step with its
    lattice, with the whole kernel ([REDUCED_KERNEL_SIZE] 0), open boundaries
    and unit moments at the switched sites, a batch switch that lists no site
    twice leaves the same [E] and [E_perp] for every two values of the
    cutoff: whichever branch each unit-cell group takes. *)
Theorem cutoff_does_not_change_exact_batches (L : libm) (s : Dipolar.t)
    (idx : indices) (cutoff1 cutoff2 : nat) :
  lattice_okb (Dipolar.mm s) = true -> regular_okb (Dipolar.mm s) = true ->
  is_finb (Dipolar.prefactor s) = true -> (Dipolar.decay_exponent s < q0)%Qc ->
  initialized L s -> consistent s ->
  REDUCED_KERNEL_SIZE (Dipolar.mm s) = 0 -> PBC (Dipolar.mm s) = false ->
  in_latticeb (Dipolar.mm s) idx = true -> nodupb idx = true ->
  unit_moments (Dipolar.mm s) idx = true ->
  exists s1 s2,
    follow (Multiple idx) (with_cutoff cutoff1 s) = Ok s1
    /\ follow (Multiple idx) (with_cutoff cutoff2 s) = Ok s2
    /\ Dipolar.E s1 = Dipolar.E s2
    /\ Dipolar.E_perp s1 = Dipolar.E_perp s2.
Proof.
  intros Hok Hreg Hpref Hdec Hinit Hc Hfull Hopen Hin Hnd Hone.
  apply lattice_okb_ok in Hok. apply regular_okb_ok in Hreg. apply is_finb_ok in Hpref.
  pose proof (initialized_ok Hok Hdec Hpref Hinit) as Hs.
  assert (Hadm : forall c, admissible (Dipolar.mm (with_cutoff c s)) (Multiple idx) = true).
  { intros c. unfold admissible, dispatchable. cbn [sites].
    change (in_latticeb (Dipolar.mm (with_cutoff c s)) idx)
      with (in_latticeb (Dipolar.mm s) idx).
    rewrite Hin, Hnd. cbn [andb].
    unfold with_cutoff. cbn [Dipolar.mm Dipolar.with_mm]. rewrite Hfull.
    now apply exact_whatever_the_cutoff. }
  destruct (@dipolar_follow L (with_cutoff cutoff1 s) (Multiple idx))
    as (s1 & F1 & Hs1 & Hc1 & E1);
    [now apply dipolar_ok_with_cutoff | now apply regular_with_params
     | now apply consistent_with_cutoff | apply Hadm |].
  destruct (@dipolar_follow L (with_cutoff cutoff2 s) (Multiple idx))
    as (s2 & F2 & Hs2 & Hc2 & E2);
    [now apply dipolar_ok_with_cutoff | now apply regular_with_params
     | now apply consistent_with_cutoff | apply Hadm |].
  exists s1, s2. split; [exact F1|]. split; [exact F2|].
  destruct (dipolar_follow_static _ _ F1) as (_ & P1 & D1 & Q1).
  destruct (dipolar_follow_static _ _ F2) as (_ & P2 & D2 & Q2).
  apply (consistent_agree Hs1 Hs2 Hc1 Hc2).
  - now rewrite E1, E2.
  - now rewrite P1, P2.
  - now rewrite D1, D2.
  - rewrite E1. cbn. intros Hu. now rewrite Q1, Q2.
Qed.

Lemma cutoff_does_not_change_exact_batches_witness :
  let s := Dipolar.initialize Sample.math xone (Q2Qc (-3)) (Sample.oop_1x4 false) in
  exists s1 s2,
    follow (Multiple [(0, 0); (0, 1); (0, 3)]) (with_cutoff 1 s) = Ok s1
    /\ follow (Multiple [(0, 0); (0, 1); (0, 3)]) (with_cutoff 20 s) = Ok s2
    /\ Dipolar.E s1 = Dipolar.E s2
    /\ Dipolar.E_perp s1 = Dipolar.E_perp s2.
Proof.
  intros s.
  apply (@cutoff_does_not_change_exact_batches Sample.math s);
    try reflexivity; vm_compute; repeat split; reflexivity.
Defined.

(** C2, as stated, fails: the cutoff changes the result.  Each time the
    same batch is followed with cutoff 1 (convolution) and with cutoff 20
    (direct sum), from the same contribution.  With [REDUCED_KERNEL_SIZE] 1
    on a row of four magnets, the third magnet gets [+1.25e-8] against
    [-1.25e-8].  With the whole kernel, the results still differ when a
    switched magnet has a moment other than 1 (the 2 x 3 lattice), because the
    convolved field holds the signs [m] where the sum uses [m * moment]; and
    they differ on periodic boundaries (the periodic row), where the wrapped
    convolution meets the folded kernel. *)
Lemma cutoff_changes_the_energies :
  (let s := Dipolar.initialize Sample.math xone (Q2Qc (-3))
              (with_params (Sample.oop_1x4 false) 20 1) in
   exists s1 s2,
     follow (Multiple [(0, 0); (0, 1)]) (with_cutoff 1 s) = Ok s1
     /\ follow (Multiple [(0, 0); (0, 1)]) (with_cutoff 20 s) = Ok s2
     /\ qget (Dipolar.E s1) 0 2 = Q2Qc (1 # 80000000)
     /\ qget (Dipolar.E s2) 0 2 = Q2Qc (-1 # 80000000))
  /\ (let s := Dipolar.initialize Sample.math xone (Q2Qc (-3)) Sample.oop_2x3 in
      exists s1 s2,
        follow (Multiple [(0, 0); (0, 1)]) (with_cutoff 1 s) = Ok s1
        /\ follow (Multiple [(0, 0); (0, 1)]) (with_cutoff 20 s) = Ok s2
        /\ Dipolar.E s1 <> Dipolar.E s2)
  /\ (let s := Dipolar.initialize Sample.math xone (Q2Qc (-3)) (Sample.oop_1x4 true) in
      exists s1 s2,
        follow (Multiple [(0, 0); (0, 1)]) (with_cutoff 1 s) = Ok s1
        /\ follow (Multiple [(0, 0); (0, 1)]) (with_cutoff 20 s) = Ok s2
        /\ Dipolar.E s1 <> Dipolar.E s2).
Proof.
  split; [|split]; intros s; eexists; eexists;
    (split; [vm_compute; reflexivity|]); (split; [vm_compute; reflexivity|]).
  - split; apply Qc_is_canon; vm_compute; reflexivity.
  - apply grid_eqb_differ. vm_compute. reflexivity.
  - apply grid_eqb_differ. vm_compute. reflexivity.
Qed.

(** ** The perpendicular energy of out-of-plane magnets *)

Lemma zeros_intro ny nx (g : grid xnum) :
  shaped ny nx g ->
  (forall i j, i < ny -> j < nx -> xget g i j = xzero) ->
  g = zeros ny nx.
Proof.
  intros Sg H. apply (@grid_ext _ xzero ny nx); [assumption | apply zeros_shaped |].
  intros i j Hi Hj. fold xget. now rewrite H, xget_zeros.
Qed.

Lemma xmul_zero_r (q : Qc) : xmul (Fin q) xzero = xzero.
Proof. unfold xzero. cbn [xmul]. f_equal. qring. Qed.

Lemma xmul_zero_l (q : Qc) : xmul xzero (Fin q) = xzero.
Proof. unfold xzero. cbn [xmul]. f_equal. qring. Qed.

Lemma multiply_zeros ny nx (g : grid xnum) :
  fin_shaped ny nx g -> 0 < ny -> multiply g (zeros ny nx) = zeros ny nx.
Proof.
  intros [Sg Fg] Hy. apply zeros_intro; [unfold multiply; shape|].
  intros i j Hi Hj. unfold multiply.
  rewrite (@map2_get _ ny nx) by assumption.
  rewrite xget_zeros, (xget_fin i j Fg). apply xmul_zero_r.
Qed.

Lemma negate_zeros ny nx (idx : indices) :
  0 < ny -> Forall (fun p => fst p < ny /\ snd p < nx) idx ->
  negate_at (zeros ny nx) idx = Ok (zeros ny nx).
Proof.
  intros Hy Hin. rewrite (@negate_at_ok ny nx) by (try assumption; apply zeros_shaped).
  f_equal. apply tabulate_ext. intros i j _ _. rewrite xget_zeros.
  destruct (mem_pos (i, j) idx); [|reflexivity].
  unfold xm1. apply xmul_zero_l.
Qed.

Lemma negate_shape ny nx (a a' : grid xnum) idx :
  shaped ny nx a -> 0 < ny ->
  Forall (fun p => fst p < ny /\ snd p < nx) idx ->
  exists a', negate_at a idx = Ok a' /\ shaped ny nx a'.
Proof.
  intros Sa Hy Hin. rewrite (negate_at_ok Sa Hy Hin).
  eexists. split; [reflexivity | apply shaped_tabulate].
Qed.

Lemma in_range_sites mm c :
  in_range mm c = true ->
  match c with
  | Update => True
  | UpdateSingle [] => False
  | UpdateSingle (p :: _) => fst p < ny mm /\ snd p < nx mm
  | UpdateMultiple idx | Switch idx => in_lattice mm idx
  end.
Proof.
  destruct c as [|[|p rest]|idx|idx]; cbn [in_range]; intros H;
    try exact I; try discriminate; try now apply in_latticeb_ok.
  apply in_latticeb_ok in H. now apply Forall_inv in H.
Qed.

(** *** Zeeman *)

Lemma zeeman_initialize_perp_zero L magnitude angle mm0 :
  lattice_ok mm0 -> in_plane mm0 = false ->
  zeeman_perp_zero (Zeeman.initialize L magnitude angle mm0).
Proof.
  intros Hok Hip. pose proof (ok_ny Hok) as Hy. pose proof (ok_m Hok) as Hm.
  destruct Hm as [Sm Fm].
  unfold zeeman_perp_zero, Zeeman.initialize, Zeeman._initialize, Zeeman.set_field.
  cbn [Zeeman.mm]. rewrite Hip. unfold Zeeman.update.
  cbn [Zeeman.mm Zeeman.E Zeeman.E_perp Zeeman.E_factor Zeeman.E_factor_perp].
  rewrite (zeros_like_shaped Sm Hy).
  split; [assumption|]. split; [assumption|].
  split; [unfold multiply; shape|]. split; [reflexivity|].
  destruct (USE_PERP_ENERGY mm0); [|reflexivity].
  now apply multiply_zeros.
Qed.

Lemma zeeman_perform_perp_zero (c : call) (z : Zeeman.t) :
  zeeman_perp_zero z -> in_range (Zeeman.mm z) c = true ->
  exists z', perform c z = Ok z' /\ zeeman_perp_zero z'
             /\ with_m (Zeeman.mm z') [] = with_m (Zeeman.mm z) [].
Proof.
  intros (Hok & Hip & SE & HF & HP) Hc. apply in_range_sites in Hc.
  pose proof (ok_ny Hok) as Hy. pose proof (ok_m Hok) as Hm.
  destruct c as [|[|p rest]|idx|idx]; cbn [perform]; try contradiction.
  - eexists. split; [reflexivity|]. split; [|reflexivity].
    unfold zeeman_perp_zero, Zeeman.update.
    cbn [Energy.update Zeeman_Energy Zeeman.mm Zeeman.E Zeeman.E_perp Zeeman.E_factor_perp].
    unfold Zeeman.update.
    cbn [Zeeman.mm Zeeman.E Zeeman.E_perp Zeeman.E_factor_perp].
    split; [assumption|]. split; [assumption|].
    split; [destruct Hm; unfold multiply; shape|]. split; [assumption|].
    destruct (USE_PERP_ENERGY (Zeeman.mm z)); [|assumption].
    rewrite HF. now apply multiply_zeros.
  - cbn [Energy.update_single Zeeman_Energy]. unfold Zeeman.update_single.
    cbn [first_column bind]. unfold negate_item.
    assert (Hin : Forall (fun q => fst q < ny (Zeeman.mm z) /\ snd q < nx (Zeeman.mm z))
                    [(fst p, snd p)]) by (constructor; [exact Hc | constructor]).
    rewrite (negate_at_ok SE Hy Hin). cbn [bind].
    rewrite HP, (negate_zeros Hy Hin).
    destruct (USE_PERP_ENERGY (Zeeman.mm z)); cbn [bind];
      (eexists; split; [reflexivity|]; split; [|reflexivity]);
      (split; [assumption|]; split; [assumption|];
       split; [apply shaped_tabulate|]; split; assumption || reflexivity).
  - cbn [Energy.update_multiple Zeeman_Energy]. unfold Zeeman.update_multiple.
    rewrite (negate_at_ok SE Hy Hc). cbn [bind].
    rewrite HP, (negate_zeros Hy Hc).
    destruct (USE_PERP_ENERGY (Zeeman.mm z)); cbn [bind];
      (eexists; split; [reflexivity|]; split; [|reflexivity]);
      (split; [assumption|]; split; [assumption|];
       split; [apply shaped_tabulate|]; split; assumption || reflexivity).
  - cbn [Energy.mm Zeeman_Energy]. rewrite (switch_ok Hok Hc). cbn [bind].
    eexists. split; [reflexivity|]. split; [|reflexivity].
    split; [apply (switched_lattice_ok Hok)|].
    split; [exact Hip|]. split; [exact SE|]. split; [exact HF | exact HP].
Qed.

(** *** Exchange *)

Lemma exchange_update_perp_zero (e : Exchange.t) :
  exchange_perp_zero e -> exchange_perp_zero (Exchange.update e).
Proof.
  intros (Hok & Hip & HP). destruct (ok_m Hok) as [Sm _]. pose proof (ok_ny Hok) as Hy.
  unfold exchange_perp_zero, Exchange.update. rewrite Hip.
  cbn [Exchange.mm Exchange.E_perp].
  split; [assumption|]. split; [assumption|].
  destruct (USE_PERP_ENERGY (Exchange.mm e)); [|assumption].
  now apply zeros_like_shaped.
Qed.

Lemma exchange_initialize_perp_zero J mm0 :
  lattice_ok mm0 -> in_plane mm0 = false ->
  exchange_perp_zero (Exchange.initialize J mm0).
Proof.
  intros Hok Hip. destruct (ok_m Hok) as [Sm _]. pose proof (ok_ny Hok) as Hy.
  unfold Exchange.initialize. apply exchange_update_perp_zero.
  unfold exchange_perp_zero, Exchange._initialize. cbn [Exchange.mm Exchange.E_perp].
  split; [assumption|]. split; [assumption|]. now apply zeros_like_shaped.
Qed.

Lemma exchange_perform_perp_zero (c : call) (e : Exchange.t) :
  exchange_perp_zero e -> in_range (Exchange.mm e) c = true ->
  exists e', perform c e = Ok e' /\ exchange_perp_zero e'
             /\ with_m (Exchange.mm e') [] = with_m (Exchange.mm e) [].
Proof.
  intros He Hc. apply in_range_sites in Hc.
  destruct c as [|[|p rest]|idx|idx]; cbn [perform]; try contradiction.
  1-3: (eexists; split; [reflexivity|]; split;
        [now apply exchange_update_perp_zero | now rewrite exchange_update_mm]).
  destruct He as (Hok & Hip & HP).
  cbn [Energy.mm Exchange_Energy]. rewrite (switch_ok Hok Hc). cbn [bind].
  eexists. split; [reflexivity|]. split; [|reflexivity].
  split; [apply (switched_lattice_ok Hok)|]. split; [exact Hip | exact HP].
Qed.

(** *** Dipolar *)

Section OutOfPlane.
Variable L : libm.
Variable mm : Magnets.t.
Hypothesis Hok : lattice_ok mm.
Hypothesis Hip : in_plane mm = false.
Variable e : Qc.
Variable k : kind.
Hypothesis Hk : k <> Normal.

Lemma q_kernel_perp_zero y x i j : q_kernel L mm e k y x i j = q0.
Proof.
  assert (K0 : forall a b, q_kernel0 L mm e k y x a b = q0).
  { intros a b. unfold q_kernel0. rewrite Hip. now destruct k. }
  unfold q_kernel. destruct (PBC mm).
  - unfold q_folded.
    change (qsum_list (map ?f ?l)) with (qsum_over l f).
    rewrite qsum_over_zero; [qring|].
    intros a _. change (qsum_list (map ?f ?l)) with (qsum_over l f).
    apply qsum_over_zero. intros b _. apply K0.
  - rewrite K0. qring.
Qed.

Lemma q_pair_perp_zero y x i j a b : q_pair L mm e k y x i j a b = q0.
Proof. unfold q_pair. apply q_kernel_perp_zero. Qed.

Lemma q_energy_perp_zero pref i j : q_energy L mm e pref k i j = q0.
Proof.
  unfold q_energy. destruct (occupied mm _ _); [|reflexivity].
  unfold q_conv. rewrite qsum2_upto_zero; [qring|].
  intros a b _ _. rewrite q_pair_perp_zero. qring.
Qed.

Lemma kernel_perp_null y x a b : xget (kernel_grid L mm e k y x) a b = xzero.
Proof.
  destruct (Nat.lt_ge_cases a (2 * ny mm - 1)) as [Ha|Ha];
    [destruct (Nat.lt_ge_cases b (2 * nx mm - 1)) as [Hb|Hb]|].
  - unfold kernel_grid. rewrite xget_tabulate by assumption.
    now rewrite q_kernel_perp_zero.
  - apply (@xget_outside (2 * ny mm - 1) (2 * nx mm - 1));
      [apply kernel_grid_shaped | now right].
  - apply (@xget_outside (2 * ny mm - 1) (2 * nx mm - 1));
      [apply kernel_grid_shaped | now left].
Qed.

Lemma window_perp_zero y x y0 x0 :
  y0 < ny mm -> x0 < nx mm ->
  Dipolar.window_at mm (kernel_grid L mm e k y x) y0 x0 = zeros (ny mm) (nx mm).
Proof.
  intros Hy0 Hx0. apply zeros_intro.
  - apply (window_at_shaped Hok); [apply kernel_grid_shaped | assumption..].
  - intros i j Hi Hj.
    pose proof (@window_at_get' L mm Hok e k y x (y0, x0) i j Hy0 Hx0 Hi Hj) as G.
    cbn [fst snd] in G. rewrite G. now rewrite q_pair_perp_zero.
Qed.
End OutOfPlane.

Lemma convolve2d_same_null ny nx wrap (in1 in2 : grid xnum) :
  fin_shaped ny nx in1 -> 0 < ny ->
  (forall a b, xget in2 a b = xzero) ->
  convolve2d_same wrap in1 in2 = zeros ny nx.
Proof.
  intros [S1 F1] Hy Hnull. unfold convolve2d_same, zeros.
  rewrite (shaped_nrows S1), (shaped_ncols S1 Hy).
  apply tabulate_ext. intros i j _ _.
  rewrite (@sum2_upto_fin _ _ _ (fun _ _ => q0)).
  - unfold xzero. f_equal. now apply qsum2_upto_zero.
  - intros a b _ _. rewrite Hnull.
    assert (Hp : forall zi zj, exists q, padded wrap in1 zi zj = Fin q).
    { intros zi zj. unfold padded. destruct wrap.
      - rewrite (xget_fin _ _ F1). now eexists.
      - destruct (_ && _)%bool; [rewrite (xget_fin _ _ F1)|]; now eexists. }
    destruct (Hp (Z.of_nat (i + (nrows in2 - 1) / 2) - Z.of_nat a)%Z
                 (Z.of_nat (j + (ncols in2 - 1) / 2) - Z.of_nat b)%Z) as [q ->].
    apply xmul_zero_r.
Qed.

Lemma slice_null (K : grid xnum) ny nx sy sx :
  shaped ny nx K -> 0 < ny ->
  (forall a b, xget K a b = xzero) ->
  forall a b, xget (slice K sy sx) a b = xzero.
Proof.
  intros SK Hy Hnull a b.
  pose proof (slice_shape sy sx SK Hy) as Ss.
  destruct (Nat.lt_ge_cases a (slc_len ny sy)) as [Ha|Ha];
    [destruct (Nat.lt_ge_cases b (slc_len nx sx)) as [Hb|Hb]|].
  - rewrite (slice_get _ _ SK Hy Ha Hb). apply Hnull.
  - apply (xget_outside Ss). now right.
  - apply (xget_outside Ss). now left.
Qed.

Section OutOfPlaneBatch.
Variable L : libm.
Variable mm : Magnets.t.
Hypothesis Hok : lattice_ok mm.
Hypothesis Hip : in_plane mm = false.
Variable e : Qc.
Variable k : kind.
Hypothesis Hk : k <> Normal.

Lemma convolved_perp_zero y x (here : indices) :
  in_lattice mm here ->
  Dipolar.convolved mm (kernel_grid L mm e k y x) here = zeros (ny mm) (nx mm).
Proof.
  intros Hin. pose proof (ok_ny Hok) as Hy. destruct (ok_m Hok) as [Sm Fm].
  unfold Dipolar.convolved.
  destruct (_ <? _).
  - unfold Dipolar.convolved_by_convolution.
    apply convolve2d_same_null; [|assumption|].
    + rewrite (zeros_like_shaped Sm Hy). split; [shape|].
      intros i j.
      destruct (Nat.lt_ge_cases i (ny mm)) as [Hi|Hi];
        [destruct (Nat.lt_ge_cases j (nx mm)) as [Hj|Hj]|].
      * rewrite (@scatter_get (ny mm) (nx mm)) by (try assumption; shape).
        rewrite xget_zeros, (xget_fin i j Fm). now destruct (mem_pos _ _).
      * rewrite (@xget_outside (ny mm) (nx mm)); [exact I | shape | now right].
      * rewrite (@xget_outside (ny mm) (nx mm)); [exact I | shape | now left].
    + destruct (REDUCED_KERNEL_SIZE mm =? 0).
      * now apply kernel_perp_null.
      * apply (@slice_null _ (2 * ny mm - 1) (2 * nx mm - 1));
          [apply kernel_grid_shaped | lia | now apply kernel_perp_null].
  - rewrite (convolved_by_sum_closed L Hok) by assumption.
    unfold zeros. apply tabulate_ext. intros i j _ _. unfold xzero. f_equal.
    apply qsum_over_zero. intros p _. rewrite q_pair_perp_zero by assumption. qring.
Qed.
End OutOfPlaneBatch.

Lemma scale_zeros ny nx (c : xnum) :
  is_fin c -> scale c (zeros ny nx) = zeros ny nx.
Proof.
  intros Hc. destruct (Nat.eq_dec ny 0) as [->|Hy]; [reflexivity|].
  apply zeros_intro; [unfold scale; apply map1_shape; [apply zeros_shaped | lia]|].
  intros i j Hi Hj. unfold scale.
  rewrite (@map1_get _ ny nx) by (try assumption; try lia; apply zeros_shaped).
  rewrite xget_zeros, (is_fin_fval _ Hc). apply xmul_zero_r.
Qed.

Lemma add_zeros ny nx : add (zeros ny nx) (zeros ny nx) = zeros ny nx.
Proof.
  destruct (Nat.eq_dec ny 0) as [->|Hy]; [reflexivity|].
  apply zeros_intro; [unfold add; apply map2_shape; [apply zeros_shaped | lia]|].
  intros i j Hi Hj. unfold add.
  rewrite (@map2_get _ ny nx) by (try assumption; try lia; apply zeros_shaped).
  rewrite xget_zeros. unfold xzero. cbn [xadd]. f_equal; try qring.
Qed.

Section PerpZero.
Variable L : libm.
Variable d : Dipolar.t.
Hypothesis Hs : dipolar_ok L d.
Hypothesis Hip : in_plane (Dipolar.mm d) = false.

Local Abbreviation mm := (Dipolar.mm d).
Local Abbreviation u := (unitcell (Dipolar.mm d)).

(** The perpendicular part of what a switch adds to the energies. *)
Lemma interaction_perp_zero (c : xnum) (W : grid xnum) :
  is_fin c -> W = zeros (ny mm) (nx mm) ->
  add (zeros (ny mm) (nx mm))
      (scale xtwo (scale c (multiply (multiply (m mm) (moment mm)) W)))
  = zeros (ny mm) (nx mm).
Proof.
  intros Hc ->. destruct Hs as (Hok & _).
  rewrite (mmoment_closed Hok).
  rewrite multiply_zeros;
    [|apply fin_shaped_tabulate; intros; exact I | apply (ok_ny Hok)].
  rewrite (@scale_zeros _ _ c Hc). rewrite (@scale_zeros _ _ xtwo I).
  apply add_zeros.
Qed.

Lemma dipolar_update_perp_zero :
  (USE_PERP_ENERGY mm = false -> Dipolar.E_perp d = zeros (ny mm) (nx mm)) ->
  dipolar_perp_zero L (Dipolar.update d).
Proof.
  intros HP. destruct (update_closed Hs) as [HE HEp].
  split; [exact Hs|]. split; [exact Hip|].
  change (Dipolar.mm (Dipolar.update d)) with mm.
  split; [rewrite HE; apply shaped_tabulate|].
  rewrite HEp. destruct (USE_PERP_ENERGY mm); [|now apply HP].
  unfold zeros. apply tabulate_ext. intros i j _ _. unfold xzero. f_equal.
  destruct Hs as (Hok & _). now apply q_energy_perp_zero.
Qed.

Hypothesis SE : shaped (ny mm) (nx mm) (Dipolar.E d).
Hypothesis HP : Dipolar.E_perp d = zeros (ny mm) (nx mm).

Lemma dipolar_update_single_perp_zero p rest :
  fst p < ny mm -> snd p < nx mm ->
  exists d', Dipolar.update_single (p :: rest) d = Ok d'
             /\ dipolar_perp_zero L d' /\ Dipolar.mm d' = mm.
Proof.
  intros Hpy Hpx. pose proof Hs as (Hok & _ & Hpref & _).
  pose proof (ok_ny Hok) as Hy. pose proof (ok_cy Hok) as Hcy.
  pose proof (ok_cx Hok) as Hcx.
  pose proof (Nat.mod_upper_bound (fst p) (Unitcell.y u) ltac:(lia)) as By.
  pose proof (Nat.mod_upper_bound (snd p) (Unitcell.x u) ltac:(lia)) as Bx.
  unfold Dipolar.update_single. cbn [first_column bind].
  rewrite (dipolar_unitcell Hs).
  destruct (occupied mm (fst p mod Unitcell.y u) (snd p mod Unitcell.x u)) eqn:Ho.
  - destruct (kernel_of_occupied Hs By Bx Ho) as (n & -> & K1 & _ & K3).
    replace (Z.of_nat n <? 0)%Z with false by (symmetry; apply Z.ltb_ge; lia).
    rewrite Nat2Z.id, K1, K3.
    rewrite (@item_ok (ny mm) (nx mm)) by (try assumption; unfold multiply; shape;
                                           apply (ok_m Hok)).
    cbn [bind]. unfold negate_item.
    assert (Hin : Forall (fun q => fst q < ny mm /\ snd q < nx mm) [(fst p, snd p)])
      by (constructor; [now split | constructor]).
    rewrite (@negate_at_ok (ny mm) (nx mm)) by (try assumption; unfold add; shape).
    cbn [bind].
    assert (Hc : is_fin (xmul (Dipolar.prefactor d)
                           (xget (multiply (m mm) (moment mm)) (fst p) (snd p)))).
    { rewrite (mmoment_closed Hok), xget_tabulate by assumption.
      rewrite (is_fin_fval _ Hpref). exact I. }
    destruct (USE_PERP_ENERGY mm).
    + rewrite HP. rewrite interaction_perp_zero;
        [|exact Hc | apply window_perp_zero; try assumption; discriminate].
      rewrite (negate_zeros Hy Hin). cbn [bind].
      eexists. split; [reflexivity|]. split; [|reflexivity].
      split; [exact Hs|]. split; [exact Hip|].
      split; [apply shaped_tabulate | reflexivity].
    + eexists. split; [reflexivity|]. split; [|reflexivity].
      split; [exact Hs|]. split; [exact Hip|].
      split; [apply shaped_tabulate | exact HP].
  - rewrite (kernel_of_empty Hs By Bx Ho). cbn [Z.ltb Z.compare].
    exists d. split; [reflexivity|]. split; [|reflexivity].
    split; [exact Hs|]. split; [exact Hip|]. split; assumption.
Qed.

Lemma update_multiple_step_perp_zero idx (acc : grid xnum * grid xnum) i :
  in_lattice mm idx ->
  In i (Dipolar.present (map (Dipolar.ravel_unitcell u) idx)) ->
  shaped (ny mm) (nx mm) (fst acc) -> snd acc = zeros (ny mm) (nx mm) ->
  shaped (ny mm) (nx mm) (fst (Dipolar.update_multiple_step d idx acc i))
  /\ snd (Dipolar.update_multiple_step d idx acc i) = zeros (ny mm) (nx mm).
Proof.
  intros Hin Hi Sacc Zacc. pose proof Hs as (Hok & _ & Hpref & _).
  pose proof (ok_ny Hok) as Hy. pose proof (ok_cy Hok) as Hcy.
  pose proof (ok_cx Hok) as Hcx.
  apply present_spec, in_map_iff in Hi. destruct Hi as (p0 & Ep0 & Hp0).
  destruct (ravel_unitcell_cell u p0 Hcx) as [Cy Cx]. rewrite Ep0 in Cy, Cx.
  pose proof (Nat.mod_upper_bound (fst p0) (Unitcell.y u) ltac:(lia)) as By.
  pose proof (Nat.mod_upper_bound (snd p0) (Unitcell.x u) ltac:(lia)) as Bx.
  rewrite <- Cy in By. rewrite <- Cx in Bx.
  unfold Dipolar.update_multiple_step. rewrite (dipolar_unitcell Hs).
  destruct (occupied mm (i / Unitcell.x u) (i mod Unitcell.x u)) eqn:Ho.
  - destruct (kernel_of_occupied Hs By Bx Ho) as (n & -> & K1 & _ & K3).
    replace (Z.of_nat n <? 0)%Z with false by (symmetry; apply Z.ltb_ge; lia).
    rewrite Nat2Z.id, K1, K3. cbn [fst snd].
    split; [unfold add; shape|].
    destruct (USE_PERP_ENERGY mm); [|exact Zacc].
    rewrite Zacc. apply interaction_perp_zero; [exact Hpref|].
    apply convolved_perp_zero; try assumption; try discriminate.
    unfold in_lattice in *. rewrite Forall_forall in *.
    intros p Hp. apply filter_In in Hp. now apply Hin.
  - rewrite (kernel_of_empty Hs By Bx Ho). cbn [Z.ltb Z.compare]. now split.
Qed.

Lemma update_multiple_loop_perp_zero idx l : forall (acc : grid xnum * grid xnum),
  in_lattice mm idx ->
  incl l (Dipolar.present (map (Dipolar.ravel_unitcell u) idx)) ->
  shaped (ny mm) (nx mm) (fst acc) -> snd acc = zeros (ny mm) (nx mm) ->
  shaped (ny mm) (nx mm) (fst (fold_left (Dipolar.update_multiple_step d idx) l acc))
  /\ snd (fold_left (Dipolar.update_multiple_step d idx) l acc) = zeros (ny mm) (nx mm).
Proof.
  induction l as [|i l IH]; intros acc Hin Hl Sacc Zacc; cbn [fold_left];
    [now split|].
  destruct (@update_multiple_step_perp_zero idx acc i Hin) as [S1 Z1];
    try assumption; [apply Hl; now left|].
  apply IH; try assumption. intros j Hj. apply Hl. now right.
Qed.

Lemma dipolar_update_multiple_perp_zero idx :
  in_lattice mm idx ->
  exists d', Dipolar.update_multiple idx d = Ok d'
             /\ dipolar_perp_zero L d' /\ Dipolar.mm d' = mm.
Proof.
  intros Hin. pose proof Hs as (Hok & _). pose proof (ok_ny Hok) as Hy.
  unfold Dipolar.update_multiple.
  rewrite (negate_at_ok SE Hy Hin). cbn [bind].
  assert (Hperp : (if USE_PERP_ENERGY mm
                   then negate_at (Dipolar.E_perp d) idx
                   else Ok (Dipolar.E_perp d)) = Ok (zeros (ny mm) (nx mm))).
  { rewrite HP. destruct (USE_PERP_ENERGY mm); [now apply negate_zeros | reflexivity]. }
  rewrite Hperp. cbn [bind]. rewrite (dipolar_unitcell Hs).
  match goal with
  | |- context [fold_left ?f ?l ?a] =>
      destruct (@update_multiple_loop_perp_zero idx l a Hin) as [S1 Z1]
  end.
  - apply incl_refl.
  - apply shaped_tabulate.
  - reflexivity.
  - eexists. split; [reflexivity|]. split; [|reflexivity].
    split; [exact Hs|]. split; [exact Hip|]. split; assumption.
Qed.
End PerpZero.

Lemma dipolar_initialize_perp_zero L prefactor decay_exponent mm0 :
  lattice_ok mm0 -> in_plane mm0 = false ->
  is_fin prefactor -> (decay_exponent < q0)%Qc ->
  dipolar_perp_zero L (Dipolar.initialize L prefactor decay_exponent mm0)
  /\ Dipolar.mm (Dipolar.initialize L prefactor decay_exponent mm0) = mm0.
Proof.
  intros Hok Hip Hpref Hdec.
  destruct (@dipolar_initialize_ok L prefactor decay_exponent mm0 Hok Hdec Hpref)
    as (Hs & _ & Emm).
  split; [|exact Emm].
  unfold Dipolar.initialize in *.
  set (s0 := {| Dipolar.mm := mm0 |}) in *.
  destruct (_initialize_static L s0) as (Emm' & _ & EP & _).
  destruct (ok_m Hok) as [Sm _].
  apply dipolar_update_perp_zero.
  - exact Hs.
  - now rewrite Emm'.
  - intros _. rewrite EP, Emm'. cbn [s0 Dipolar.E_perp Dipolar.mm].
    apply (zeros_like_shaped Sm (ok_ny Hok)).
Qed.

Lemma dipolar_perform_perp_zero L (c : call) (d : Dipolar.t) :
  dipolar_perp_zero L d -> in_range (Dipolar.mm d) c = true ->
  exists d', perform c d = Ok d' /\ dipolar_perp_zero L d'
             /\ with_m (Dipolar.mm d') [] = with_m (Dipolar.mm d) [].
Proof.
  intros (Hs & Hip & SE & HP) Hc. apply in_range_sites in Hc.
  destruct c as [|[|p rest]|idx|idx]; cbn [perform]; try contradiction.
  - eexists. split; [reflexivity|]. split; [|reflexivity].
    apply dipolar_update_perp_zero; try assumption. now intros _.
  - destruct Hc as [Hpy Hpx].
    destruct (@dipolar_update_single_perp_zero L d Hs Hip SE HP p rest Hpy Hpx)
      as (d' & F & Hd' & Emm).
    exists d'. split; [exact F|]. split; [exact Hd'|]. now rewrite Emm.
  - destruct (@dipolar_update_multiple_perp_zero L d Hs Hip SE HP idx Hc)
      as (d' & F & Hd' & Emm).
    exists d'. split; [exact F|]. split; [exact Hd'|]. now rewrite Emm.
  - destruct Hs as (Hok & Hrest).
    cbn [Energy.mm Dipolar_Energy]. rewrite (switch_ok Hok Hc). cbn [bind].
    eexists. split; [reflexivity|]. split; [|reflexivity].
    split; [apply dipolar_ok_switched; now split|].
    split; [exact Hip|]. split; [exact SE | exact HP].
Qed.

(** *** All calls, all contributions *)

Lemma in_range_same_shape mm mm' c :
  with_m mm' [] = with_m mm [] -> in_range mm' c = in_range mm c.
Proof.
  intros E. change (in_range (with_m mm' []) c = in_range (with_m mm []) c).
  now rewrite E.
Qed.

Lemma perform_all_invariant {S} `{Energy.t S} (I : S -> Prop) :
  (forall c s, I s -> in_range (Energy.mm s) c = true ->
     exists s', perform c s = Ok s' /\ I s'
                /\ with_m (Energy.mm s') [] = with_m (Energy.mm s) []) ->
  forall calls s, I s -> forallb (in_range (Energy.mm s)) calls = true ->
    exists s', perform_all calls s = Ok s' /\ I s'
               /\ with_m (Energy.mm s') [] = with_m (Energy.mm s) [].
Proof.
  intros Hstep calls. induction calls as [|c calls IH]; intros s Hs Hall.
  - exists s. now repeat split.
  - cbn [forallb] in Hall. apply andb_true_iff in Hall. destruct Hall as [H1 H2].
    destruct (Hstep c s Hs H1) as (s1 & F1 & Hs1 & E1).
    destruct (IH s1 Hs1) as (s' & F' & Hs' & E').
    + rewrite forallb_forall in *. intros c' Hc'.
      rewrite (in_range_same_shape _ E1). now apply H2.
    + exists s'. cbn [perform_all]. rewrite F1. cbn [bind].
      split; [exact F'|]. split; [exact Hs'|]. now rewrite E'.
Qed.

(** C7.  On an out-of-plane lattice (well formed; for the dipolar
    contribution with a finite prefactor and a negative decay exponent),
    [E_perp] is zero everywhere after [initialize], and stays zero everywhere
    after every sequence of calls of [update], [update_single] and
    [update_multiple], with any flips of magnets in between, as long as the
    calls name sites of the lattice; and every such call returns.  This holds
    for the Zeeman, the dipolar and the exchange contribution. *)
Theorem perpendicular_energy_zero_out_of_plane (L : libm) :
  (forall magnitude angle mm0 calls,
      lattice_okb mm0 = true -> in_plane mm0 = false ->
      forallb (in_range mm0) calls = true ->
      exists z,
        perform_all calls (Zeeman.initialize L magnitude angle mm0) = Ok z
        /\ Zeeman.E_perp z = zeros (ny mm0) (nx mm0))
  /\ (forall prefactor decay_exponent mm0 calls,
      lattice_okb mm0 = true -> in_plane mm0 = false ->
      is_finb prefactor = true -> (decay_exponent < q0)%Qc ->
      forallb (in_range mm0) calls = true ->
      exists d,
        perform_all calls (Dipolar.initialize L prefactor decay_exponent mm0) = Ok d
        /\ Dipolar.E_perp d = zeros (ny mm0) (nx mm0))
  /\ (forall J mm0 calls,
      lattice_okb mm0 = true -> in_plane mm0 = false ->
      forallb (in_range mm0) calls = true ->
      exists e,
        perform_all calls (Exchange.initialize J mm0) = Ok e
        /\ Exchange.E_perp e = zeros (ny mm0) (nx mm0)).
Proof.
  split; [|split].
  - intros magnitude angle mm0 calls Hok Hip Hall. apply lattice_okb_ok in Hok.
    pose proof (zeeman_initialize_perp_zero L magnitude angle Hok Hip) as H0.
    pose proof (zeeman_initialize_mm L magnitude angle mm0) as E0.
    destruct (@perform_all_invariant Zeeman.t Zeeman_Energy zeeman_perp_zero
                zeeman_perform_perp_zero calls _ H0)
      as (z & F & (_ & _ & _ & _ & HP) & E).
    + cbn [Energy.mm Zeeman_Energy]. now rewrite E0.
    + exists z. split; [exact F|]. rewrite HP.
      cbn [Energy.mm Zeeman_Energy] in E. rewrite E0 in E.
      change (zeros (ny (with_m (Zeeman.mm z) [])) (nx (with_m (Zeeman.mm z) []))
              = zeros (ny mm0) (nx mm0)).
      now rewrite E.
  - intros prefactor decay_exponent mm0 calls Hok Hip Hpref Hdec Hall.
    apply lattice_okb_ok in Hok. apply is_finb_ok in Hpref.
    destruct (@dipolar_initialize_perp_zero L prefactor decay_exponent mm0
                Hok Hip Hpref Hdec) as [H0 E0].
    destruct (@perform_all_invariant Dipolar.t Dipolar_Energy (dipolar_perp_zero L)
                (@dipolar_perform_perp_zero L) calls _ H0)
      as (d & F & (_ & _ & _ & HP) & E).
    + cbn [Energy.mm Dipolar_Energy]. now rewrite E0.
    + exists d. split; [exact F|]. rewrite HP.
      cbn [Energy.mm Dipolar_Energy] in E. rewrite E0 in E.
      change (zeros (ny (with_m (Dipolar.mm d) [])) (nx (with_m (Dipolar.mm d) []))
              = zeros (ny mm0) (nx mm0)).
      now rewrite E.
  - intros J mm0 calls Hok Hip Hall. apply lattice_okb_ok in Hok.
    pose proof (exchange_initialize_perp_zero J Hok Hip) as H0.
    assert (E0 : Exchange.mm (Exchange.initialize J mm0) = mm0).
    { unfold Exchange.initialize. now rewrite exchange_update_mm. }
    destruct (@perform_all_invariant Exchange.t Exchange_Energy exchange_perp_zero
                exchange_perform_perp_zero calls _ H0)
      as (e & F & (_ & _ & HP) & E).
    + cbn [Energy.mm Exchange_Energy]. now rewrite E0.
    + exists e. split; [exact F|]. rewrite HP.
      cbn [Energy.mm Exchange_Energy] in E. rewrite E0 in E.
      change (zeros (ny (with_m (Exchange.mm e) [])) (nx (with_m (Exchange.mm e) []))
              = zeros (ny mm0) (nx mm0)).
      now rewrite E.
Qed.

Lemma perpendicular_energy_zero_out_of_plane_witness :
  (exists z,
      perform_all [UpdateSingle [(0, 1)]; Switch [(1, 1)]; Update; UpdateMultiple [(1, 2)]]
        (Zeeman.initialize Sample.math (Sample.of_Zs [[2; 2; 2]; [2; 2; 2]]%Z)
           (zeros 2 3) Sample.oop_2x3) = Ok z
      /\ Zeeman.E_perp z = zeros 2 3)
  /\ (exists d,
      perform_all [Switch [(0, 1)]; UpdateSingle [(0, 1)]; UpdateMultiple [(0, 0); (1, 2)];
                   Update; Switch [(1, 1)]; UpdateMultiple [(1, 1)]]
        (Dipolar.initialize Sample.math xone (Q2Qc (-3))
           (with_params Sample.oop_2x3 0 1)) = Ok d
      /\ Dipolar.E_perp d = zeros 2 3)
  /\ (exists e,
      perform_all [Switch [(0, 0)]; UpdateSingle [(0, 0)]; UpdateMultiple [(1, 2)]]
        (Exchange.initialize xone Sample.oop_2x3) = Ok e
      /\ Exchange.E_perp e = zeros 2 3).
Proof.
  pose proof (perpendicular_energy_zero_out_of_plane Sample.math) as (Hz & Hd & He).
  split; [|split].
  - apply (Hz _ _ Sample.oop_2x3); reflexivity.
  - apply (Hd _ _ (with_params Sample.oop_2x3 0 1)); reflexivity.
  - apply (He _ Sample.oop_2x3); reflexivity.
Defined.

(** ** Periodic lattices seen from another origin *)

Lemma qsum_upto_shift1 n (f : nat -> Qc) :
  qsum_upto (S n) f = (f 0%nat + qsum_upto n (fun a => f (S a)))%Qc.
Proof.
  rewrite !qsum_upto_over. cbn [seq]. rewrite qsum_over_cons. f_equal.
  rewrite <- seq_shift. unfold qsum_over. now rewrite map_map.
Qed.

Lemma qsum_upto_rotate1 n (f : nat -> Qc) :
  qsum_upto n (fun a => f ((a + 1) mod n)) = qsum_upto n f.
Proof.
  destruct n as [|n]; [reflexivity|].
  rewrite qsum_upto_S, (qsum_upto_shift1 n f).
  replace ((n + 1) mod S n) with 0
    by (replace (n + 1) with (S n) by lia; now rewrite Nat.Div0.mod_same).
  rewrite (@qsum_upto_ext n _ (fun a => f (S a))); [qring|].
  intros a Ha. f_equal. rewrite Nat.mod_small by lia. lia.
Qed.

(** A sum over a whole axis does not depend on where the axis starts. *)
Lemma qsum_upto_rotate n d (f : nat -> Qc) :
  qsum_upto n (fun a => f ((a + d) mod n)) = qsum_upto n f.
Proof.
  induction d as [|d IH].
  - destruct n as [|n]; [reflexivity|].
    apply qsum_upto_ext. intros a Ha. f_equal.
    rewrite Nat.add_0_r. apply Nat.mod_small. lia.
  - rewrite <- IH.
    rewrite <- (qsum_upto_rotate1 n (fun b => f ((b + d) mod n))).
    apply qsum_upto_ext. intros a Ha. f_equal.
    rewrite Nat.Div0.add_mod_idemp_l. f_equal. lia.
Qed.

Lemma qsum2_upto_rotate ny nx dy dx (f : nat -> nat -> Qc) :
  qsum2_upto ny nx (fun a b => f ((a + dy) mod ny) ((b + dx) mod nx))
  = qsum2_upto ny nx f.
Proof.
  unfold qsum2_upto.
  rewrite (qsum_upto_rotate ny dy (fun a => qsum_upto nx (fun b => f a ((b + dx) mod nx)))).
  apply qsum_upto_ext. intros a _. apply (qsum_upto_rotate nx dx (f a)).
Qed.

(** Entries of a folded kernel one period apart are equal. *)
Lemma images_sum_periodic n (f : nat -> Qc) i1 i2 :
  0 < n -> i1 < 2 * n - 1 -> i2 < 2 * n - 1 -> i1 mod n = i2 mod n ->
  qsum_list (map f (images n i1)) = qsum_list (map f (images n i2)).
Proof.
  intros Hn H1 H2 Hmod.
  pose proof (Nat.div_mod_eq i1 n) as D1. pose proof (Nat.div_mod_eq i2 n) as D2.
  assert (Q1 : i1 / n < 2) by (apply Nat.Div0.div_lt_upper_bound; lia).
  assert (Q2 : i2 / n < 2) by (apply Nat.Div0.div_lt_upper_bound; lia).
  assert (Hcase : i1 = i2 \/ i1 = i2 + n \/ i2 = i1 + n).
  { destruct (i1 / n) as [|[|?]]; destruct (i2 / n) as [|[|?]]; lia. }
  destruct Hcase as [->|[->| ->]]; [reflexivity| |].
  - destruct (images_cases Hn H2) as [[C E]|[[C E]|[C E]]]; try lia.
    rewrite E. unfold images.
    replace (n <=? i2 + n) with true by (symmetry; apply Nat.leb_le; lia).
    replace (i2 + n - n) with i2 by lia. cbn [map qsum_list fold_right]. qring.
  - destruct (images_cases Hn H1) as [[C E]|[[C E]|[C E]]]; try lia.
    rewrite E. unfold images.
    replace (n <=? i1 + n) with true by (symmetry; apply Nat.leb_le; lia).
    replace (i1 + n - n) with i1 by lia. cbn [map qsum_list fold_right]. qring.
Qed.

Lemma shifted_offset n i a d :
  0 < n -> i < n -> a < n ->
  (n - 1 + (a + d) mod n - (i + d) mod n) mod n = (n - 1 + a - i) mod n
  /\ n - 1 + (a + d) mod n - (i + d) mod n < 2 * n - 1.
Proof.
  intros Hn Hi Ha.
  pose proof (Nat.div_mod_eq (a + d) n) as Da.
  pose proof (Nat.div_mod_eq (i + d) n) as Di.
  pose proof (Nat.mod_upper_bound (a + d) n ltac:(lia)) as Ua.
  pose proof (Nat.mod_upper_bound (i + d) n ltac:(lia)) as Ui.
  split; [|lia].
  apply (@mod_eq_of_multiple n _ _ ((a + d) / n) ((i + d) / n)).
  set (qa := (a + d) / n) in *. set (qi := (i + d) / n) in *.
  set (ra := (a + d) mod n) in *. set (ri := (i + d) mod n) in *. nia.
Qed.

Lemma mod_mod_multiple c n x :
  0 < c -> n mod c = 0 -> (x mod n) mod c = x mod c.
Proof.
  intros Hc Hn. apply Nat.Div0.div_exact in Hn.
  pose proof (Nat.div_mod_eq x n) as D.
  apply (@mod_eq_of_multiple c _ _ ((n / c) * (x / n)) 0).
  set (r := x mod n) in *. set (q := x / n) in *. set (k := n / c) in *.
  rewrite Hn in D. nia.
Qed.

Lemma shift_shaped ny nx dy dx (g : grid xnum) :
  fin_shaped ny nx g -> 0 < ny ->
  fin_shaped ny nx (shift dy dx g)
  /\ forall i j, i < ny -> j < nx ->
       qget (shift dy dx g) i j = qget g ((i + dy) mod ny) ((j + dx) mod nx).
Proof.
  intros [Sg Fg] Hy. unfold shift.
  rewrite (shaped_nrows Sg), (shaped_ncols Sg Hy). split.
  - apply fin_shaped_tabulate. intros i j _ _. apply Fg.
  - intros i j Hi Hj. unfold qget. now rewrite xget_tabulate.
Qed.

Section Shifted.
Variable L : libm.
Variable mm : Magnets.t.
Hypothesis Hok : lattice_ok mm.
Hypothesis Hreg : regular mm.
Hypothesis Hpbc : PBC mm = true.
Variable e : Qc.
Variables dy dx : nat.
Hypothesis Hdy : dy mod Unitcell.y (unitcell mm) = 0.
Hypothesis Hdx : dx mod Unitcell.x (unitcell mm) = 0.

Local Abbreviation cy := (Unitcell.y (unitcell mm)).
Local Abbreviation cx := (Unitcell.x (unitcell mm)).
Local Abbreviation mm' := (shifted mm dy dx).

Lemma q_folded_periodic (K : nat -> nat -> Qc) i1 i2 j1 j2 :
  i1 < 2 * ny mm - 1 -> i2 < 2 * ny mm - 1 -> i1 mod ny mm = i2 mod ny mm ->
  j1 < 2 * nx mm - 1 -> j2 < 2 * nx mm - 1 -> j1 mod nx mm = j2 mod nx mm ->
  q_folded mm K i1 j1 = q_folded mm K i2 j2.
Proof.
  intros A1 A2 A B1 B2 B. unfold q_folded.
  rewrite (@images_sum_periodic (ny mm) _ i1 i2) by (try assumption; apply (ok_ny Hok)).
  f_equal. apply map_ext. intros a.
  apply images_sum_periodic; try assumption. apply (ok_nx Hok).
Qed.

(** The kernel entry of a pair of sites is the one of the pair seen from
    the other origin. *)
Lemma q_pair_shifted k y x i j a b :
  i < ny mm -> j < nx mm -> a < ny mm -> b < nx mm ->
  q_pair L mm e k y x ((i + dy) mod ny mm) ((j + dx) mod nx mm)
                      ((a + dy) mod ny mm) ((b + dx) mod nx mm)
  = q_pair L mm e k y x i j a b.
Proof.
  intros Hi Hj Ha Hb. pose proof (ok_ny Hok) as Hy. pose proof (ok_nx Hok) as Hx.
  destruct (@shifted_offset (ny mm) i a dy Hy Hi Ha) as [My By].
  destruct (@shifted_offset (nx mm) j b dx Hx Hj Hb) as [Mx Bx].
  unfold q_pair, q_kernel. rewrite Hpbc. f_equal.
  apply q_folded_periodic; try assumption; lia.
Qed.

Lemma shifted_lattice_ok : lattice_ok mm'.
Proof.
  pose proof (ok_ny Hok) as Hy.
  destruct (shift_shaped dy dx (ok_m Hok) Hy) as [Hm _].
  destruct (shift_shaped dy dx (ok_moment Hok) Hy) as [Ho _].
  destruct Hok. now constructor.
Qed.

Lemma shifted_regular : regular mm'.
Proof. destruct Hreg. now constructor. Qed.

Lemma q_mm_shifted a b :
  a < ny mm -> b < nx mm ->
  q_mm mm' a b = q_mm mm ((a + dy) mod ny mm) ((b + dx) mod nx mm).
Proof.
  intros Ha Hb. pose proof (ok_ny Hok) as Hy.
  destruct (shift_shaped dy dx (ok_m Hok) Hy) as [_ Gm].
  destruct (shift_shaped dy dx (ok_moment Hok) Hy) as [_ Go].
  unfold q_mm. cbn [m moment shifted]. now rewrite Gm, Go.
Qed.

Lemma shifted_cell i :
  ((i + dy) mod ny mm) mod cy = i mod cy.
Proof.
  pose proof (ok_cy Hok) as Hcy.
  destruct (reg_pbc Hreg Hpbc) as [Ny _].
  rewrite (@mod_mod_multiple cy (ny mm) _ Hcy Ny).
  rewrite Nat.Div0.add_mod, Hdy, Nat.add_0_r. apply Nat.Div0.mod_mod.
Qed.

Lemma shifted_cell_x j :
  ((j + dx) mod nx mm) mod cx = j mod cx.
Proof.
  pose proof (ok_cx Hok) as Hcx.
  destruct (reg_pbc Hreg Hpbc) as [_ Nx].
  rewrite (@mod_mod_multiple cx (nx mm) _ Hcx Nx).
  rewrite Nat.Div0.add_mod, Hdx, Nat.add_0_r. apply Nat.Div0.mod_mod.
Qed.

(** The energy of a site of the shifted lattice is the energy of the site
    it came from. *)
Lemma q_energy_shifted pref k i j :
  i < ny mm -> j < nx mm ->
  q_energy L mm' e pref k i j
  = q_energy L mm e pref k ((i + dy) mod ny mm) ((j + dx) mod nx mm).
Proof.
  intros Hi Hj. pose proof (ok_ny Hok) as Hy. pose proof (ok_nx Hok) as Hx.
  destruct (shift_shaped dy dx (ok_m Hok) Hy) as [_ Gm].
  destruct (shift_shaped dy dx (ok_moment Hok) Hy) as [_ Go].
  unfold q_energy. cbn [unitcell shifted m moment].
  rewrite shifted_cell, shifted_cell_x.
  change (occupied mm' (i mod cy) (j mod cx)) with (occupied mm (i mod cy) (j mod cx)).
  destruct (occupied mm (i mod cy) (j mod cx)); [|reflexivity].
  rewrite Gm, Go by assumption. do 2 f_equal.
  unfold q_conv. cbn [ny nx shifted].
  rewrite <- (qsum2_upto_rotate (ny mm) (nx mm) dy dx
                (fun a b => q_pair L mm e k (i mod cy) (j mod cx)
                              ((i + dy) mod ny mm) ((j + dx) mod nx mm) a b
                            * q_mm mm a b)%Qc).
  apply qsum2_upto_ext. intros a b Ha Hb.
  rewrite q_pair_shifted, q_mm_shifted by assumption. reflexivity.
Qed.
End Shifted.

(** What [initialize] leaves in [E] and [E_perp], in closed form. *)
Lemma dipolar_initialize_closed L prefactor decay_exponent mm0 :
  lattice_ok mm0 -> (decay_exponent < q0)%Qc -> is_fin prefactor ->
  let d := Dipolar.initialize L prefactor decay_exponent mm0 in
  Dipolar.E d
  = tabulate (ny mm0) (nx mm0)
      (fun i j => Fin (q_energy L mm0 (- decay_exponent) (fval prefactor) Normal i j))
  /\ Dipolar.E_perp d
     = (if USE_PERP_ENERGY mm0
        then tabulate (ny mm0) (nx mm0)
               (fun i j => Fin (q_energy L mm0 (- decay_exponent) (fval prefactor)
                                  PerpSelf i j))
        else zeros (ny mm0) (nx mm0)).
Proof.
  intros Hok Hdec Hpref d.
  destruct (@dipolar_initialize_ok L prefactor decay_exponent mm0 Hok Hdec Hpref)
    as (Hs & _ & _).
  unfold d, Dipolar.initialize in *.
  set (s0 := {| Dipolar.mm := mm0 |}) in *.
  destruct (_initialize_static L s0) as (Emm & _ & EP & Epref & Edec & _).
  change (dipolar_ok L (Dipolar._initialize L s0)) in Hs.
  destruct (update_closed Hs) as [HE HEp].
  rewrite Emm, Epref, Edec in HE, HEp.
  change (Dipolar.mm s0) with mm0 in HE, HEp.
  change (Dipolar.prefactor s0) with prefactor in HE, HEp.
  change (Dipolar.decay_exponent s0) with decay_exponent in HE, HEp.
  split; [exact HE|]. rewrite HEp.
  destruct (USE_PERP_ENERGY mm0); [reflexivity|].
  rewrite EP. cbn [Dipolar.E_perp]. destruct (ok_m Hok) as [Sm _].
  apply (zeros_like_shaped Sm (ok_ny Hok)).
Qed.

Lemma shift_tabulate ny nx dy dx (f : nat -> nat -> xnum) :
  0 < ny -> 0 < nx ->
  shift dy dx (tabulate ny nx f)
  = tabulate ny nx (fun i j => f ((i + dy) mod ny) ((j + dx) mod nx)).
Proof.
  intros Hy Hx. unfold shift. rewrite nrows_tabulate, ncols_tabulate by assumption.
  apply tabulate_ext. intros i j _ _.
  apply xget_tabulate; apply Nat.mod_upper_bound; lia.
Qed.

(** C6.  On a well-formed periodic lattice whose sides are whole numbers of
    unit cells, seen from an origin that is a whole number of unit cells away
    (so that every magnet meets a magnet of its own kind), the dipolar
    contribution that is initialised on the shifted signs and moments holds
    the shifted energies: [E] and [E_perp] of a site are those of the site it
    came from, and the total energy is the same.  The kernel itself is
    invariant: the window centred on the shifted site, read at the shifted
    partner, holds what the window on the site holds for the partner. *)
Theorem periodic_energy_is_translation_invariant (L : libm)
    prefactor decay_exponent mm0 dy dx :
  lattice_okb mm0 = true -> regular_okb mm0 = true -> PBC mm0 = true ->
  is_finb prefactor = true -> (decay_exponent < q0)%Qc ->
  dy mod Unitcell.y (unitcell mm0) = 0 -> dx mod Unitcell.x (unitcell mm0) = 0 ->
  let d := Dipolar.initialize L prefactor decay_exponent mm0 in
  let d' := Dipolar.initialize L prefactor decay_exponent (shifted mm0 dy dx) in
  Dipolar.E d' = shift dy dx (Dipolar.E d)
  /\ Dipolar.E_perp d' = shift dy dx (Dipolar.E_perp d)
  /\ Dipolar.E_tot d' = Dipolar.E_tot d
  /\ forall i j a b,
       i < ny mm0 -> j < nx mm0 -> a < ny mm0 -> b < nx mm0 ->
       occupied_site mm0 (i, j) = true ->
       let K := nth (Z.to_nat (Dipolar.kernel_index d
                                 (i mod Unitcell.y (unitcell mm0))
                                 (j mod Unitcell.x (unitcell mm0))))
                    (Dipolar.kernel_unitcell d) [] in
       xget (Dipolar.window_at mm0 K ((i + dy) mod ny mm0) ((j + dx) mod nx mm0))
            ((a + dy) mod ny mm0) ((b + dx) mod nx mm0)
       = xget (Dipolar.window_at mm0 K i j) a b.
Proof.
  intros Hok Hreg Hpbc Hpref Hdec Hdy Hdx d d'.
  apply lattice_okb_ok in Hok. apply regular_okb_ok in Hreg. apply is_finb_ok in Hpref.
  pose proof (ok_ny Hok) as Hy. pose proof (ok_nx Hok) as Hx.
  pose proof (shifted_lattice_ok Hok dy dx) as Hok'.
  destruct (@dipolar_initialize_closed L prefactor decay_exponent mm0 Hok Hdec Hpref)
    as [HE HEp].
  destruct (@dipolar_initialize_closed L prefactor decay_exponent (shifted mm0 dy dx)
              Hok' Hdec Hpref) as [HE' HEp'].
  fold d in HE, HEp. fold d' in HE', HEp'. cbn [ny nx shifted USE_PERP_ENERGY] in HE', HEp'.
  assert (Hshift : forall k,
             tabulate (ny mm0) (nx mm0)
               (fun i j => Fin (q_energy L (shifted mm0 dy dx) (- decay_exponent)
                                  (fval prefactor) k i j))
             = shift dy dx
                 (tabulate (ny mm0) (nx mm0)
                    (fun i j => Fin (q_energy L mm0 (- decay_exponent)
                                       (fval prefactor) k i j)))).
  { intros k. rewrite shift_tabulate by assumption.
    apply tabulate_ext. intros i j Hi Hj. f_equal.
    now apply q_energy_shifted. }
  split; [now rewrite HE', HE, Hshift|].
  split.
  { rewrite HEp', HEp. destruct (USE_PERP_ENERGY mm0); [apply Hshift|].
    unfold zeros. now rewrite shift_tabulate. }
  split.
  { unfold Dipolar.E_tot. f_equal. rewrite HE', HE.
    rewrite !(@sum_entries (ny mm0) (nx mm0)) by apply shaped_tabulate.
    rewrite (@sum2_upto_fin _ _ _
               (fun i j => q_energy L (shifted mm0 dy dx) (- decay_exponent)
                             (fval prefactor) Normal i j))
      by (intros; now rewrite xget_tabulate).
    rewrite (@sum2_upto_fin _ _ _
               (fun i j => q_energy L mm0 (- decay_exponent) (fval prefactor) Normal i j))
      by (intros; now rewrite xget_tabulate).
    f_equal.
    rewrite <- (qsum2_upto_rotate (ny mm0) (nx mm0) dy dx
                  (fun i j => q_energy L mm0 (- decay_exponent) (fval prefactor) Normal i j)).
    apply qsum2_upto_ext. intros i j Hi Hj. now apply q_energy_shifted. }
  intros i j a b Hi Hj Ha Hb Ho K.
  destruct (@dipolar_initialize_ok L prefactor decay_exponent mm0 Hok Hdec Hpref)
    as (Hs & _ & Emm).
  fold d in Hs, Emm.
  pose proof (ok_cy Hok) as Hcy. pose proof (ok_cx Hok) as Hcx.
  unfold occupied_site in Ho. cbn [fst snd] in Ho.
  assert (By : i mod Unitcell.y (unitcell (Dipolar.mm d)) < Unitcell.y (unitcell (Dipolar.mm d)))
    by (rewrite Emm; apply Nat.mod_upper_bound; lia).
  assert (Bx : j mod Unitcell.x (unitcell (Dipolar.mm d)) < Unitcell.x (unitcell (Dipolar.mm d)))
    by (rewrite Emm; apply Nat.mod_upper_bound; lia).
  assert (Ho' : occupied (Dipolar.mm d) (i mod Unitcell.y (unitcell (Dipolar.mm d)))
                  (j mod Unitcell.x (unitcell (Dipolar.mm d))) = true)
    by now rewrite Emm.
  destruct (kernel_of_occupied Hs By Bx Ho') as (n & Hn & K1 & _).
  rewrite Emm in Hn, K1.
  assert (Edec : Dipolar.decay_exponent d = decay_exponent).
  { unfold d, Dipolar.initialize.
    set (s0 := {| Dipolar.mm := mm0 |}).
    destruct (_initialize_static L s0) as (_ & _ & _ & _ & Edec & _). exact Edec. }
  rewrite Edec in K1.
  unfold K. rewrite Hn, Nat2Z.id, K1.
  pose proof (Nat.mod_upper_bound (i + dy) (ny mm0) ltac:(lia)) as Ui.
  pose proof (Nat.mod_upper_bound (j + dx) (nx mm0) ltac:(lia)) as Uj.
  pose proof (Nat.mod_upper_bound (a + dy) (ny mm0) ltac:(lia)) as Ua.
  pose proof (Nat.mod_upper_bound (b + dx) (nx mm0) ltac:(lia)) as Ub.
  pose proof (@window_at_get' L mm0 Hok (- decay_exponent) Normal
                (i mod Unitcell.y (unitcell mm0)) (j mod Unitcell.x (unitcell mm0))
                ((i + dy) mod ny mm0, (j + dx) mod nx mm0) _ _ Ui Uj Ua Ub) as G1.
  pose proof (@window_at_get' L mm0 Hok (- decay_exponent) Normal
                (i mod Unitcell.y (unitcell mm0)) (j mod Unitcell.x (unitcell mm0))
                (i, j) a b Hi Hj Ha Hb) as G2.
  cbn [fst snd] in G1, G2. rewrite G1, G2. f_equal.
  now apply q_pair_shifted.
Qed.

Lemma periodic_energy_is_translation_invariant_witness :
  let mm0 := Sample.ip_2x4 true in
  let d := Dipolar.initialize Sample.math xone (Q2Qc (-3)) mm0 in
  let d' := Dipolar.initialize Sample.math xone (Q2Qc (-3)) (shifted mm0 0 2) in
  Dipolar.E d' = shift 0 2 (Dipolar.E d)
  /\ Dipolar.E_perp d' = shift 0 2 (Dipolar.E_perp d)
  /\ Dipolar.E_tot d' = Dipolar.E_tot d
  /\ forall i j a b,
       i < ny mm0 -> j < nx mm0 -> a < ny mm0 -> b < nx mm0 ->
       occupied_site mm0 (i, j) = true ->
       let K := nth (Z.to_nat (Dipolar.kernel_index d
                                 (i mod Unitcell.y (unitcell mm0))
                                 (j mod Unitcell.x (unitcell mm0))))
                    (Dipolar.kernel_unitcell d) [] in
       xget (Dipolar.window_at mm0 K ((i + 0) mod ny mm0) ((j + 2) mod nx mm0))
            ((a + 0) mod ny mm0) ((b + 2) mod nx mm0)
       = xget (Dipolar.window_at mm0 K i j) a b.
Proof.
  intros mm0.
  apply (@periodic_energy_is_translation_invariant Sample.math xone (Q2Qc (-3)) mm0 0 2);
    reflexivity.
Defined.

(** * Further properties of the code *)

(** ** A periodic lattice seen from any origin *)

Lemma cell_periodicb_ok mm : cell_periodicb mm = true -> cell_periodic mm.
Proof.
  unfold cell_periodicb. intros H.
  assert (G : forall i j, i < ny mm -> j < nx mm ->
            (Qc_eq_bool (qget (orientation_x mm) i j)
               (qget (orientation_x mm) (i mod Unitcell.y (unitcell mm))
                  (j mod Unitcell.x (unitcell mm)))
             && Qc_eq_bool (qget (orientation_y mm) i j)
                  (qget (orientation_y mm) (i mod Unitcell.y (unitcell mm))
                     (j mod Unitcell.x (unitcell mm)))
             && Qc_eq_bool (qget (occupation mm) i j)
                  (qget (occupation mm) (i mod Unitcell.y (unitcell mm))
                     (j mod Unitcell.x (unitcell mm))))%bool = true).
  { intros i j Hi Hj. rewrite all_below_spec in H. specialize (H i Hi).
    rewrite all_below_spec in H. exact (H j Hj). }
  constructor; intros i j Hi Hj; specialize (G i j Hi Hj);
    apply andb_true_iff in G; destruct G as [G G3];
    apply andb_true_iff in G; destruct G as [G1 G2];
    now apply Qc_eq_bool_correct.
Qed.

Lemma cell_seen_shifted c n y i d :
  0 < c -> cell_seen c n ((y + d) mod c) i = (cell_seen c n y i + d) mod c.
Proof.
  intros Hc. rewrite !cell_seen_flat by assumption.
  rewrite Nat.Div0.add_mod_idemp_l.
  replace (c - (n - 1) mod c + (y + d) mod c + i)
    with ((y + d) mod c + (c - (n - 1) mod c + i)) by lia.
  rewrite Nat.Div0.add_mod_idemp_l. f_equal. lia.
Qed.

Lemma cell_seen_bound c n y i : 0 < c -> cell_seen c n y i < c.
Proof. intros Hc. unfold cell_seen. apply Nat.mod_upper_bound. lia. Qed.

Section Translated.
Variable L : libm.
Variable mm : Magnets.t.
Hypothesis Hok : lattice_ok mm.
Hypothesis Hreg : regular mm.
Hypothesis Hpbc : PBC mm = true.
Hypothesis Hper : cell_periodic mm.
Variable e : Qc.
Variables dy dx : nat.

Local Abbreviation cy := (Unitcell.y (unitcell mm)).
Local Abbreviation cx := (Unitcell.x (unitcell mm)).
Local Abbreviation mm' := (translated mm dy dx).

Lemma translated_cell g y x :
  fin_shaped (ny mm) (nx mm) g -> repeats mm g -> y < cy -> x < cx ->
  qget (shift dy dx g) y x = qget g ((y + dy) mod cy) ((x + dx) mod cx).
Proof.
  intros Hg Hrep Hy Hx.
  pose proof (ok_ny Hok) as Ny. pose proof (ok_nx Hok) as Nx.
  pose proof (ok_cy Hok) as Hcy. pose proof (ok_cx Hok) as Hcx.
  pose proof (ok_cy_le Hok). pose proof (ok_cx_le Hok).
  destruct (reg_pbc Hreg Hpbc) as [My Mx].
  destruct (shift_shaped dy dx Hg Ny) as [_ G].
  rewrite G by lia.
  rewrite Hrep by (apply Nat.mod_upper_bound; lia).
  now rewrite (@mod_mod_multiple cy (ny mm) _ Hcy My),
              (@mod_mod_multiple cx (nx mm) _ Hcx Mx).
Qed.

Lemma translated_lattice_ok : lattice_ok mm'.
Proof.
  pose proof (ok_ny Hok) as Hy.
  destruct (shift_shaped dy dx (ok_m Hok) Hy) as [Hm _].
  destruct (shift_shaped dy dx (ok_moment Hok) Hy) as [Ho _].
  destruct (shift_shaped dy dx (ok_ox Hok) Hy) as [Hox _].
  destruct (shift_shaped dy dx (ok_oy Hok) Hy) as [Hoy _].
  destruct (shift_shaped dy dx (ok_occ Hok) Hy) as [Hocc _].
  destruct Hok. now constructor.
Qed.

Lemma translated_regular : regular mm'.
Proof.
  pose proof (ok_cy Hok) as Hcy. pose proof (ok_cx Hok) as Hcx.
  constructor.
  - apply (reg_xx Hreg).
  - apply (reg_yy Hreg).
  - intros Hip y x Hy Hx. cbn [occupation translated unitcell] in *.
    rewrite (translated_cell (ok_occ Hok) (per_occ Hper) Hy Hx).
    apply (reg_occ Hreg Hip); apply Nat.mod_upper_bound; lia.
  - apply (reg_pbc Hreg).
Qed.

Lemma q_kernel0_translated k y x i j :
  y < cy -> x < cx ->
  q_kernel0 L mm' e k y x i j
  = q_kernel0 L mm e k ((y + dy) mod cy) ((x + dx) mod cx) i j.
Proof.
  intros Hy Hx.
  pose proof (ok_cy Hok) as Hcy. pose proof (ok_cx Hok) as Hcx.
  pose proof (@cell_seen_bound cy (ny mm) y i Hcy) as By.
  pose proof (@cell_seen_bound cx (nx mm) x j Hcx) as Bx.
  unfold q_kernel0.
  change (q_ux L mm') with (q_ux L mm). change (q_uy L mm') with (q_uy L mm).
  change (q_rinv3 L mm' e) with (q_rinv3 L mm e).
  cbn [in_plane unitcell ny nx orientation_x orientation_y occupation translated].
  rewrite !(cell_seen_shifted _ _ _ _ Hcy), !(cell_seen_shifted _ _ _ _ Hcx).
  rewrite !(translated_cell (ok_ox Hok) (per_ox Hper)) by assumption.
  rewrite !(translated_cell (ok_oy Hok) (per_oy Hper)) by assumption.
  rewrite !(translated_cell (ok_occ Hok) (per_occ Hper)) by assumption.
  reflexivity.
Qed.

Lemma q_folded_ext (K K' : nat -> nat -> Qc) i j :
  i < 2 * ny mm - 1 -> j < 2 * nx mm - 1 ->
  (forall a b, a < 2 * ny mm - 1 -> b < 2 * nx mm - 1 -> K a b = K' a b) ->
  q_folded mm K i j = q_folded mm K' i j.
Proof.
  intros Hi Hj H. unfold q_folded. f_equal. apply map_ext_in. intros a Ha.
  f_equal. apply map_ext_in. intros b Hb.
  apply H; [apply (@images_in_range (ny mm) i a (ok_ny Hok) Hi Ha)
           | apply (@images_in_range (nx mm) j b (ok_nx Hok) Hj Hb)].
Qed.

Lemma q_pair_translated k y x i j a b :
  y < cy -> x < cx -> i < ny mm -> j < nx mm -> a < ny mm -> b < nx mm ->
  q_pair L mm' e k y x i j a b
  = q_pair L mm e k ((y + dy) mod cy) ((x + dx) mod cx) i j a b.
Proof.
  intros Hy Hx Hi Hj Ha Hb. unfold q_pair, q_kernel.
  cbn [PBC ny nx translated]. rewrite Hpbc. f_equal.
  change (q_folded mm' ?K) with (q_folded mm K).
  apply q_folded_ext; try lia.
  intros a' b' _ _. now apply q_kernel0_translated.
Qed.

(** The kernel entry of a pair of sites is the one of the pair seen from
    any other origin. *)
Lemma q_pair_periodic k y x i j a b :
  i < ny mm -> j < nx mm -> a < ny mm -> b < nx mm ->
  q_pair L mm e k y x ((i + dy) mod ny mm) ((j + dx) mod nx mm)
                      ((a + dy) mod ny mm) ((b + dx) mod nx mm)
  = q_pair L mm e k y x i j a b.
Proof.
  intros Hi Hj Ha Hb. pose proof (ok_ny Hok) as Hy. pose proof (ok_nx Hok) as Hx.
  destruct (@shifted_offset (ny mm) i a dy Hy Hi Ha) as [My By].
  destruct (@shifted_offset (nx mm) j b dx Hx Hj Hb) as [Mx Bx].
  unfold q_pair, q_kernel. rewrite Hpbc. f_equal.
  apply (q_folded_periodic Hok); try assumption; lia.
Qed.

Lemma occupied_translated y x :
  y < cy -> x < cx ->
  occupied mm' y x = occupied mm ((y + dy) mod cy) ((x + dx) mod cx).
Proof.
  intros Hy Hx. pose proof (ok_ny Hok) as Ny.
  destruct (shift_shaped dy dx (ok_ox Hok) Ny) as [[_ Fx] _].
  destruct (shift_shaped dy dx (ok_oy Hok) Ny) as [[_ Fy] _].
  destruct (shift_shaped dy dx (ok_occ Hok) Ny) as [[_ Fo] _].
  destruct (ok_ox Hok) as [_ Fx0]. destruct (ok_oy Hok) as [_ Fy0].
  destruct (ok_occ Hok) as [_ Fo0].
  unfold occupied. cbn [in_plane orientation_x orientation_y occupation translated].
  rewrite !(xget_fin _ _ Fx), !(xget_fin _ _ Fy), !(xget_fin _ _ Fo).
  rewrite !(xget_fin _ _ Fx0), !(xget_fin _ _ Fy0), !(xget_fin _ _ Fo0).
  rewrite !(translated_cell (ok_ox Hok) (per_ox Hper)) by assumption.
  rewrite !(translated_cell (ok_oy Hok) (per_oy Hper)) by assumption.
  rewrite !(translated_cell (ok_occ Hok) (per_occ Hper)) by assumption.
  reflexivity.
Qed.

Lemma q_mm_translated a b :
  a < ny mm -> b < nx mm ->
  q_mm mm' a b = q_mm mm ((a + dy) mod ny mm) ((b + dx) mod nx mm).
Proof.
  intros Ha Hb. pose proof (ok_ny Hok) as Hy.
  destruct (shift_shaped dy dx (ok_m Hok) Hy) as [_ Gm].
  destruct (shift_shaped dy dx (ok_moment Hok) Hy) as [_ Go].
  unfold q_mm. cbn [m moment translated]. now rewrite Gm, Go.
Qed.

(** The unit-cell position of the site that a site of the shifted lattice
    came from. *)
Lemma translated_site_cell c n i d :
  0 < c -> n mod c = 0 -> (i mod c + d) mod c = ((i + d) mod n) mod c.
Proof.
  intros Hc Hn. rewrite (@mod_mod_multiple c n _ Hc Hn).
  now rewrite Nat.Div0.add_mod_idemp_l.
Qed.

(** The energy of a site of the shifted lattice is the energy of the site
    it came from. *)
Lemma q_energy_translated pref k i j :
  i < ny mm -> j < nx mm ->
  q_energy L mm' e pref k i j
  = q_energy L mm e pref k ((i + dy) mod ny mm) ((j + dx) mod nx mm).
Proof.
  intros Hi Hj. pose proof (ok_ny Hok) as Hy. pose proof (ok_nx Hok) as Hx.
  pose proof (ok_cy Hok) as Hcy. pose proof (ok_cx Hok) as Hcx.
  destruct (reg_pbc Hreg Hpbc) as [My Mx].
  destruct (shift_shaped dy dx (ok_m Hok) Hy) as [_ Gm].
  destruct (shift_shaped dy dx (ok_moment Hok) Hy) as [_ Go].
  pose proof (Nat.mod_upper_bound i cy ltac:(lia)) as Bi.
  pose proof (Nat.mod_upper_bound j cx ltac:(lia)) as Bj.
  unfold q_energy. cbn [unitcell translated m moment].
  rewrite (occupied_translated Bi Bj).
  rewrite (@translated_site_cell cy (ny mm) i dy Hcy My).
  rewrite (@translated_site_cell cx (nx mm) j dx Hcx Mx).
  destruct (occupied mm _ _); [|reflexivity].
  rewrite Gm, Go by assumption. do 2 f_equal.
  unfold q_conv. cbn [ny nx translated].
  set (y' := ((i + dy) mod ny mm) mod cy). set (x' := ((j + dx) mod nx mm) mod cx).
  rewrite <- (qsum2_upto_rotate (ny mm) (nx mm) dy dx
                (fun a b => q_pair L mm e k y' x'
                              ((i + dy) mod ny mm) ((j + dx) mod nx mm) a b
                            * q_mm mm a b)%Qc).
  apply qsum2_upto_ext. intros a b Ha Hb.
  rewrite (q_pair_translated k Bi Bj Hi Hj Ha Hb).
  rewrite (@translated_site_cell cy (ny mm) i dy Hcy My).
  rewrite (@translated_site_cell cx (nx mm) j dx Hcx Mx).
  fold y' x'. rewrite q_pair_periodic by assumption.
  now rewrite q_mm_translated.
Qed.
End Translated.

(** On a periodic lattice whose orientations and occupation repeat with the
    unit cell, the dipolar energies do not depend on the site that is taken
    as the origin: the contribution initialised on the lattice seen from the
    origin [(dy, dx)], for any [dy] and [dx], holds the shifted [E] and
    [E_perp] and the same total energy. *)
Theorem energy_seen_from_any_origin (L : libm) prefactor decay_exponent mm0 dy dx :
  lattice_okb mm0 = true -> regular_okb mm0 = true -> cell_periodicb mm0 = true ->
  PBC mm0 = true -> is_finb prefactor = true -> (decay_exponent < q0)%Qc ->
  let d := Dipolar.initialize L prefactor decay_exponent mm0 in
  let d' := Dipolar.initialize L prefactor decay_exponent (translated mm0 dy dx) in
  Dipolar.E d' = shift dy dx (Dipolar.E d)
  /\ Dipolar.E_perp d' = shift dy dx (Dipolar.E_perp d)
  /\ Dipolar.E_tot d' = Dipolar.E_tot d.
Proof.
  intros Hok Hreg Hper Hpbc Hpref Hdec d d'.
  apply lattice_okb_ok in Hok. apply regular_okb_ok in Hreg.
  apply cell_periodicb_ok in Hper. apply is_finb_ok in Hpref.
  pose proof (ok_ny Hok) as Hy. pose proof (ok_nx Hok) as Hx.
  pose proof (translated_lattice_ok Hok dy dx) as Hok'.
  destruct (@dipolar_initialize_closed L prefactor decay_exponent mm0 Hok Hdec Hpref)
    as [HE HEp].
  destruct (@dipolar_initialize_closed L prefactor decay_exponent (translated mm0 dy dx)
              Hok' Hdec Hpref) as [HE' HEp'].
  fold d in HE, HEp. fold d' in HE', HEp'.
  cbn [ny nx translated USE_PERP_ENERGY] in HE', HEp'.
  assert (Hshift : forall k,
             tabulate (ny mm0) (nx mm0)
               (fun i j => Fin (q_energy L (translated mm0 dy dx) (- decay_exponent)
                                  (fval prefactor) k i j))
             = shift dy dx
                 (tabulate (ny mm0) (nx mm0)
                    (fun i j => Fin (q_energy L mm0 (- decay_exponent)
                                       (fval prefactor) k i j)))).
  { intros k. rewrite shift_tabulate by assumption.
    apply tabulate_ext. intros i j Hi Hj. f_equal.
    now apply q_energy_translated. }
  split; [now rewrite HE', HE, Hshift|].
  split.
  { rewrite HEp', HEp. destruct (USE_PERP_ENERGY mm0); [apply Hshift|].
    unfold zeros. now rewrite shift_tabulate. }
  unfold Dipolar.E_tot. f_equal. rewrite HE', HE.
  rewrite !(@sum_entries (ny mm0) (nx mm0)) by apply shaped_tabulate.
  rewrite (@sum2_upto_fin _ _ _
             (fun i j => q_energy L (translated mm0 dy dx) (- decay_exponent)
                           (fval prefactor) Normal i j))
    by (intros; now rewrite xget_tabulate).
  rewrite (@sum2_upto_fin _ _ _
             (fun i j => q_energy L mm0 (- decay_exponent) (fval prefactor) Normal i j))
    by (intros; now rewrite xget_tabulate).
  f_equal.
  rewrite <- (qsum2_upto_rotate (ny mm0) (nx mm0) dy dx
                (fun i j => q_energy L mm0 (- decay_exponent) (fval prefactor) Normal i j)).
  apply qsum2_upto_ext. intros i j Hi Hj. now apply q_energy_translated.
Qed.

Lemma energy_seen_from_any_origin_witness :
  let mm0 := Sample.ip_2x4 true in
  let d := Dipolar.initialize Sample.math xone (Q2Qc (-3)) mm0 in
  let d' := Dipolar.initialize Sample.math xone (Q2Qc (-3)) (translated mm0 1 3) in
  Dipolar.E d' = shift 1 3 (Dipolar.E d)
  /\ Dipolar.E_perp d' = shift 1 3 (Dipolar.E_perp d)
  /\ Dipolar.E_tot d' = Dipolar.E_tot d.
Proof.
  intros mm0.
  apply (@energy_seen_from_any_origin Sample.math xone (Q2Qc (-3)) mm0 1 3);
    reflexivity.
Defined.

(** ** utils.mirror4 *)

(** [mirror4] of a finite array of shape [(ny, nx)] has the shape
    [(2*ny-1, 2*nx-1)]; its entry [(i, j)] is the entry of [arr] at the
    distances of [i] and [j] from the middle, so that [arr[0,0]] sits in the
    middle; with [negativex] the columns up to and including the middle one
    change sign, with [negativey] the rows up to and including the middle
    one. *)
Theorem mirror4_entries ny nx (arr : grid xnum) (negativex negativey : bool) :
  fin_shapedb ny nx arr = true -> 0 < ny -> 0 < nx ->
  shaped (2 * ny - 1) (2 * nx - 1) (mirror4 arr negativex negativey)
  /\ (forall i j, i < 2 * ny - 1 -> j < 2 * nx - 1 ->
        xget (mirror4 arr negativex negativey) i j
        = Fin (qsgn negativex nx j * qsgn negativey ny i
               * qget arr (dist ny i) (dist nx j))%Qc)
  /\ xget (mirror4 arr negativex negativey) (ny - 1) (nx - 1)
     = Fin (qsgn negativex nx (nx - 1) * qsgn negativey ny (ny - 1) * qget arr 0 0)%Qc.
Proof.
  intros Ha Hy Hx. apply fin_shapedb_ok in Ha.
  split; [apply mirror4_shaped; try assumption; apply Ha|].
  split; [intros i j Hi Hj; now apply mirror4_get|].
  rewrite (@mirror4_get ny nx) by (try assumption; lia).
  now rewrite !dist_centre.
Qed.

Lemma mirror4_entries_witness :
  let arr := Sample.of_Zs [[1; 2; 3]; [4; 5; 6]]%Z in
  shaped 3 5 (mirror4 arr true false)
  /\ (forall i j, i < 3 -> j < 5 ->
        xget (mirror4 arr true false) i j
        = Fin (qsgn true 3 j * qsgn false 2 i * qget arr (dist 2 i) (dist 3 j))%Qc)
  /\ xget (mirror4 arr true false) 1 2
     = Fin (qsgn true 3 2 * qsgn false 2 1 * qget arr 0 0)%Qc.
Proof.
  intros arr.
  apply (@mirror4_entries 2 3 arr true false); [reflexivity | lia | lia].
Defined.

(** ** DipolarEnergy._initialize: apply_PBC *)

Lemma finite_as_tabulate ny nx (k : grid xnum) :
  fin_shaped ny nx k -> k = tabulate ny nx (fun i j => Fin (qget k i j)).
Proof.
  intros [Sk Fk]. rewrite <- (tabulate_get xzero Sk) at 1.
  apply tabulate_ext. intros i j _ _. apply (xget_fin i j Fk).
Qed.

(** [apply_PBC] makes a finite kernel periodic with the lattice: entries one
    lattice period apart, along either axis, are equal afterwards.  It keeps
    the shape, brings in no [inf] or [nan], and leaves the centre entry, where
    a magnet meets itself, as it was. *)
Theorem apply_PBC_periodic (mm : Magnets.t) (k : grid xnum) :
  fin_shapedb (2 * ny mm - 1) (2 * nx mm - 1) k = true -> 0 < ny mm -> 0 < nx mm ->
  fin_shaped (2 * ny mm - 1) (2 * nx mm - 1) (Dipolar.apply_PBC mm k)
  /\ (forall i j, i + ny mm < 2 * ny mm - 1 -> j < 2 * nx mm - 1 ->
        xget (Dipolar.apply_PBC mm k) (i + ny mm) j = xget (Dipolar.apply_PBC mm k) i j)
  /\ (forall i j, i < 2 * ny mm - 1 -> j + nx mm < 2 * nx mm - 1 ->
        xget (Dipolar.apply_PBC mm k) i (j + nx mm) = xget (Dipolar.apply_PBC mm k) i j)
  /\ xget (Dipolar.apply_PBC mm k) (ny mm - 1) (nx mm - 1) = xget k (ny mm - 1) (nx mm - 1).
Proof.
  intros Hk Hy Hx. apply fin_shapedb_ok in Hk.
  assert (Ek : Dipolar.apply_PBC mm k
               = tabulate (2 * ny mm - 1) (2 * nx mm - 1)
                   (fun i j => Fin (q_folded mm (qget k) i j))).
  { rewrite (finite_as_tabulate Hk) at 1. now apply apply_PBC_closed. }
  rewrite Ek.
  split; [apply fin_shaped_tabulate; intros; exact I|].
  split; [|split].
  - intros i j Hi Hj. rewrite !xget_tabulate by lia. f_equal.
    unfold q_folded. apply images_sum_periodic; try lia.
    replace (i + ny mm) with (i + 1 * ny mm) by lia. apply Nat.Div0.mod_add.
  - intros i j Hi Hj. rewrite !xget_tabulate by lia. f_equal.
    unfold q_folded. f_equal. apply map_ext. intros a.
    apply images_sum_periodic; try lia.
    replace (j + nx mm) with (j + 1 * nx mm) by lia. apply Nat.Div0.mod_add.
  - rewrite xget_tabulate by lia. destruct Hk as [_ Fk].
    rewrite (xget_fin _ _ Fk). f_equal. unfold q_folded, images.
    replace (ny mm <=? ny mm - 1) with false by (symmetry; apply Nat.leb_gt; lia).
    replace (ny mm - 1 + 1 <? ny mm) with false by (symmetry; apply Nat.ltb_ge; lia).
    replace (nx mm <=? nx mm - 1) with false by (symmetry; apply Nat.leb_gt; lia).
    replace (nx mm - 1 + 1 <? nx mm) with false by (symmetry; apply Nat.ltb_ge; lia).
    cbn [map qsum_list fold_right]. qring.
Qed.

Lemma apply_PBC_periodic_witness :
  let mm := Sample.oop_2x3 in
  let k := Sample.of_Zs [[1; 2; 3; 4; 5]; [6; 7; 8; 9; 10]; [11; 12; 13; 14; 15]]%Z in
  fin_shaped 3 5 (Dipolar.apply_PBC mm k)
  /\ (forall i j, i + 2 < 3 -> j < 5 ->
        xget (Dipolar.apply_PBC mm k) (i + 2) j = xget (Dipolar.apply_PBC mm k) i j)
  /\ (forall i j, i < 3 -> j + 3 < 5 ->
        xget (Dipolar.apply_PBC mm k) i (j + 3) = xget (Dipolar.apply_PBC mm k) i j)
  /\ xget (Dipolar.apply_PBC mm k) 1 2 = xget k 1 2.
Proof.
  intros mm k.
  apply (@apply_PBC_periodic mm k); [reflexivity | vm_compute; lia | vm_compute; lia].
Defined.

(** ** DipolarEnergy._initialize: the cached kernels *)

(** A contribution whose kernels [_initialize] built is well formed whatever
    its prefactor is, once the prefactor is set aside. *)
Lemma initialized_kernels L (d : Dipolar.t) :
  lattice_ok (Dipolar.mm d) -> (Dipolar.decay_exponent d < q0)%Qc -> initialized L d ->
  dipolar_ok L (with_prefactor d xone (Dipolar.E d) (Dipolar.E_perp d)).
Proof.
  intros Hok Hdec (E3 & E4 & E5 & E6 & E7).
  split; [exact Hok|]. split; [exact Hdec|]. split; [exact I|].
  destruct (_initialize_static L d) as (Emm & _ & _ & _ & Edec & _).
  apply (@kernels_built_transfer L _ (Dipolar._initialize L d));
    cbn [with_prefactor Dipolar.mm Dipolar.decay_exponent Dipolar.unitcell
         Dipolar.kernel_unitcell_indices Dipolar.kernel_unitcell
         Dipolar.kernel_perpself_unitcell Dipolar.kernel_perpother_unitcell];
    try congruence.
  now apply _initialize_builds.
Qed.

Lemma kernel_of_site L (d : Dipolar.t) (p : nat * nat) :
  lattice_ok (Dipolar.mm d) -> (Dipolar.decay_exponent d < q0)%Qc -> initialized L d ->
  occupied_site (Dipolar.mm d) p = true ->
  let y := fst p mod Unitcell.y (unitcell (Dipolar.mm d)) in
  let x := snd p mod Unitcell.x (unitcell (Dipolar.mm d)) in
  let e := (- Dipolar.decay_exponent d)%Qc in
  kernel_of d (Dipolar.kernel_unitcell d) p = kernel_grid L (Dipolar.mm d) e Normal y x
  /\ kernel_of d (Dipolar.kernel_perpself_unitcell d) p
     = kernel_grid L (Dipolar.mm d) e PerpSelf y x
  /\ kernel_of d (Dipolar.kernel_perpother_unitcell d) p
     = kernel_grid L (Dipolar.mm d) e PerpOther y x.
Proof.
  intros Hok Hdec Hinit Ho y x e.
  pose proof (initialized_kernels Hok Hdec Hinit) as Hs.
  pose proof (ok_cy Hok) as Hcy. pose proof (ok_cx Hok) as Hcx.
  assert (By : y < Unitcell.y (unitcell (Dipolar.mm d)))
    by (apply Nat.mod_upper_bound; lia).
  assert (Bx : x < Unitcell.x (unitcell (Dipolar.mm d)))
    by (apply Nat.mod_upper_bound; lia).
  destruct (kernel_of_occupied Hs By Bx Ho) as (n & Hn & K1 & K2 & K3).
  pose proof (dipolar_unitcell Hs) as Eu.
  cbn [with_prefactor Dipolar.mm Dipolar.unitcell Dipolar.kernel_unitcell
       Dipolar.kernel_perpself_unitcell Dipolar.kernel_perpother_unitcell
       Dipolar.decay_exponent] in K1, K2, K3, Eu.
  change (Dipolar.kernel_index (with_prefactor d xone (Dipolar.E d) (Dipolar.E_perp d)) y x)
    with (Dipolar.kernel_index d y x) in Hn.
  unfold kernel_of. rewrite Eu. fold y x. rewrite Hn, Nat2Z.id. now repeat split.
Qed.

(** The cached kernels are reciprocal: what the kernel of a magnet holds for
    another magnet is what the kernel of the other holds for the first, and
    the perpendicular-self kernel of one is the perpendicular-other kernel of
    the other.  This holds on every well-formed lattice on a regular mesh,
    with or without periodic boundaries, for every prefactor. *)
Theorem kernels_are_reciprocal (L : libm) (d : Dipolar.t) (i j a b : nat) :
  lattice_okb (Dipolar.mm d) = true -> regular_okb (Dipolar.mm d) = true ->
  (Dipolar.decay_exponent d < q0)%Qc -> initialized L d ->
  i < ny (Dipolar.mm d) -> j < nx (Dipolar.mm d) ->
  a < ny (Dipolar.mm d) -> b < nx (Dipolar.mm d) ->
  occupied_site (Dipolar.mm d) (i, j) = true ->
  occupied_site (Dipolar.mm d) (a, b) = true ->
  let mm := Dipolar.mm d in
  xget (Dipolar.window_at mm (kernel_of d (Dipolar.kernel_unitcell d) (i, j)) i j) a b
  = xget (Dipolar.window_at mm (kernel_of d (Dipolar.kernel_unitcell d) (a, b)) a b) i j
  /\ xget (Dipolar.window_at mm
             (kernel_of d (Dipolar.kernel_perpself_unitcell d) (i, j)) i j) a b
     = xget (Dipolar.window_at mm
               (kernel_of d (Dipolar.kernel_perpother_unitcell d) (a, b)) a b) i j.
Proof.
  intros Hok Hreg Hdec Hinit Hi Hj Ha Hb Ho1 Ho2 mm.
  apply lattice_okb_ok in Hok. apply regular_okb_ok in Hreg.
  destruct (kernel_of_site (i, j) Hok Hdec Hinit Ho1) as (K1 & K2 & _).
  destruct (kernel_of_site (a, b) Hok Hdec Hinit Ho2) as (K1' & _ & K3').
  cbn [fst snd] in *. fold mm in K1, K2, K1', K3'.
  rewrite K1, K2, K1', K3'.
  set (e := (- Dipolar.decay_exponent d)%Qc).
  assert (G : forall k y x p q, fst p < ny mm -> snd p < nx mm ->
            fst q < ny mm -> snd q < nx mm ->
            xget (Dipolar.window_at mm (kernel_grid L mm e k y x) (fst p) (snd p))
                 (fst q) (snd q)
            = Fin (q_pair L mm e k y x (fst p) (snd p) (fst q) (snd q))).
  { intros k y x p q H1 H2 H3 H4. now apply window_at_get'. }
  rewrite (G Normal _ _ (i, j) (a, b)), (G Normal _ _ (a, b) (i, j)) by assumption.
  rewrite (G PerpSelf _ _ (i, j) (a, b)), (G PerpOther _ _ (a, b) (i, j)) by assumption.
  cbn [fst snd].
  assert (Hocc : in_plane mm = false ->
            occupied mm (i mod Unitcell.y (unitcell mm)) (j mod Unitcell.x (unitcell mm))
            = true
            /\ occupied mm (a mod Unitcell.y (unitcell mm)) (b mod Unitcell.x (unitcell mm))
               = true) by (intros _; split; assumption).
  split; f_equal.
  - exact (@q_pair_reciprocal L mm Hok Hreg e Normal i j a b Hi Hj Ha Hb Hocc).
  - exact (@q_pair_reciprocal L mm Hok Hreg e PerpSelf i j a b Hi Hj Ha Hb Hocc).
Qed.

Lemma kernels_are_reciprocal_witness :
  let d := Dipolar.initialize Sample.math xone (Q2Qc (-3)) (Sample.ip_2x4 true) in
  let mm := Dipolar.mm d in
  xget (Dipolar.window_at mm (kernel_of d (Dipolar.kernel_unitcell d) (0, 1)) 0 1) 1 3
  = xget (Dipolar.window_at mm (kernel_of d (Dipolar.kernel_unitcell d) (1, 3)) 1 3) 0 1
  /\ xget (Dipolar.window_at mm
             (kernel_of d (Dipolar.kernel_perpself_unitcell d) (0, 1)) 0 1) 1 3
     = xget (Dipolar.window_at mm
               (kernel_of d (Dipolar.kernel_perpother_unitcell d) (1, 3)) 1 3) 0 1.
Proof.
  intros d.
  apply (@kernels_are_reciprocal Sample.math d 0 1 1 3);
    try reflexivity; try (vm_compute; lia); vm_compute; repeat split; reflexivity.
Defined.

(** ** DipolarEnergy.update *)

(** What [update] computes, site by site: where the unit cell holds a magnet,
    [E[i,j]] is [prefactor * moment[i,j]] times [m[i,j]] times the sum, over
    all sites, of the window of the kernel of [(i, j)] centred on [(i, j)]
    times [m * moment]; where it holds none, [E[i,j]] is zero.  [E_perp] is
    the same with the perpendicular-self kernel when it is enabled and is
    left alone otherwise.  So the strided convolutions of [update] give what
    the windows of [update_single] describe. *)
Theorem update_sums_windows (L : libm) (d : Dipolar.t) (i j : nat) :
  lattice_okb (Dipolar.mm d) = true -> is_finb (Dipolar.prefactor d) = true ->
  (Dipolar.decay_exponent d < q0)%Qc -> initialized L d ->
  i < ny (Dipolar.mm d) -> j < nx (Dipolar.mm d) ->
  let mm := Dipolar.mm d in
  let mmoment := multiply (m mm) (moment mm) in
  let site (kernels : list (grid xnum)) :=
    if occupied_site mm (i, j)
    then xmul (xmul (Dipolar.prefactor d) (xget (moment mm) i j))
              (xmul (xget (m mm) i j)
                    (sum2_upto (ny mm) (nx mm)
                       (fun a b =>
                          xmul (xget (Dipolar.window_at mm (kernel_of d kernels (i, j)) i j)
                                     a b)
                               (xget mmoment a b))))
    else xzero in
  xget (Dipolar.E (Dipolar.update d)) i j = site (Dipolar.kernel_unitcell d)
  /\ (USE_PERP_ENERGY mm = false ->
      Dipolar.E_perp (Dipolar.update d) = Dipolar.E_perp d)
  /\ (USE_PERP_ENERGY mm = true ->
      xget (Dipolar.E_perp (Dipolar.update d)) i j
      = site (Dipolar.kernel_perpself_unitcell d)).
Proof.
  intros Hok Hpref Hdec Hinit Hi Hj mm mmoment site.
  apply lattice_okb_ok in Hok. apply is_finb_ok in Hpref.
  pose proof (initialized_ok Hok Hdec Hpref Hinit) as Hs.
  destruct (update_closed Hs) as [HE HEp]. fold mm in HE, HEp.
  change (lattice_ok mm) in Hok.
  set (e := (- Dipolar.decay_exponent d)%Qc) in *.
  destruct (ok_m Hok) as [_ Fm]. destruct (ok_moment Hok) as [_ Fo].
  fold mm in Fm, Fo.
  assert (Hsite : forall k kernels,
             (occupied_site mm (i, j) = true ->
              kernel_of d kernels (i, j)
              = kernel_grid L mm e k (i mod Unitcell.y (unitcell mm))
                  (j mod Unitcell.x (unitcell mm))) ->
             site kernels = Fin (q_energy L mm e (fval (Dipolar.prefactor d)) k i j)).
  { intros k kernels HK. unfold site, q_energy.
    change (occupied_site mm (i, j))
      with (occupied mm (i mod Unitcell.y (unitcell mm)) (j mod Unitcell.x (unitcell mm)))
      in *.
    destruct (occupied mm _ _); [|reflexivity].
    rewrite HK by reflexivity.
    rewrite (@sum2_upto_fin _ _ _
               (fun a b => q_pair L mm e k (i mod Unitcell.y (unitcell mm))
                             (j mod Unitcell.x (unitcell mm)) i j a b * q_mm mm a b)%Qc).
    - rewrite (is_fin_fval _ Hpref), (xget_fin i j Fm), (xget_fin i j Fo). reflexivity.
    - intros a b Ha Hb. unfold mmoment.
      rewrite (mmoment_closed Hok), xget_tabulate by assumption.
      pose proof (@window_at_get' L mm Hok e k (i mod Unitcell.y (unitcell mm))
                    (j mod Unitcell.x (unitcell mm)) (i, j) a b Hi Hj Ha Hb) as G.
      cbn [fst snd] in G. now rewrite G. }
  split; [|split].
  - rewrite HE, xget_tabulate by assumption. symmetry. apply Hsite.
    intros Ho. now destruct (kernel_of_site (i, j) Hok Hdec Hinit Ho) as (K1 & _).
  - intros Hu. now rewrite HEp, Hu.
  - intros Hu. rewrite HEp, Hu, xget_tabulate by assumption. symmetry. apply Hsite.
    intros Ho. now destruct (kernel_of_site (i, j) Hok Hdec Hinit Ho) as (_ & K2 & _).
Qed.

Lemma update_sums_windows_witness :
  let d := Dipolar.initialize Sample.math xtwo (Q2Qc (-3)) Sample.oop_checker in
  let mm := Dipolar.mm d in
  let mmoment := multiply (m mm) (moment mm) in
  let site (kernels : list (grid xnum)) :=
    if occupied_site mm (1, 3)
    then xmul (xmul (Dipolar.prefactor d) (xget (moment mm) 1 3))
              (xmul (xget (m mm) 1 3)
                    (sum2_upto (ny mm) (nx mm)
                       (fun a b =>
                          xmul (xget (Dipolar.window_at mm (kernel_of d kernels (1, 3)) 1 3)
                                     a b)
                               (xget mmoment a b))))
    else xzero in
  xget (Dipolar.E (Dipolar.update d)) 1 3 = site (Dipolar.kernel_unitcell d)
  /\ (USE_PERP_ENERGY mm = false ->
      Dipolar.E_perp (Dipolar.update d) = Dipolar.E_perp d)
  /\ (USE_PERP_ENERGY mm = true ->
      xget (Dipolar.E_perp (Dipolar.update d)) 1 3
      = site (Dipolar.kernel_perpself_unitcell d)).
Proof.
  intros d.
  apply (@update_sums_windows Sample.math d 1 3);
    try reflexivity; try (vm_compute; lia); vm_compute; repeat split; reflexivity.
Defined.

(** ** Energy.energy_switch against the total energy *)

Lemma qsum2_upto_scale ny nx (c : Qc) (f : nat -> nat -> Qc) :
  qsum2_upto ny nx (fun a b => c * f a b)%Qc = (c * qsum2_upto ny nx f)%Qc.
Proof.
  unfold qsum2_upto. rewrite !qsum_upto_over.
  rewrite <- qsum_over_scale. apply qsum_over_ext. intros a _.
  rewrite !qsum_upto_over. apply qsum_over_scale.
Qed.

Section OneSwitch.
Variable L : libm.
Variable mm : Magnets.t.
Hypothesis Hok : lattice_ok mm.
Hypothesis Hreg : regular mm.
Variable e : Qc.
Variable pref : Qc.
Variable p : nat * nat.
Hypothesis Hpy : fst p < ny mm.
Hypothesis Hpx : snd p < nx mm.

Local Abbreviation mm' := (with_m mm (switched (m mm) [p])).

Lemma one_site_in_lattice : NoDup [p] /\ in_lattice mm [p].
Proof.
  split; [constructor; [intros [] | constructor]|].
  constructor; [now split | constructor].
Qed.

(** The energy of the switched magnet changes sign. *)
Lemma q_energy_of_switched k :
  q_energy L mm' e pref k (fst p) (snd p) = (- q_energy L mm e pref k (fst p) (snd p))%Qc.
Proof.
  destruct one_site_in_lattice as [Hnd Hin].
  rewrite (q_energy_switch L Hok Hreg e pref Hnd Hin k Hpy Hpx).
  replace (mem_pos (fst p, snd p) [p]) with true
    by (symmetry; apply mem_pos_spec; left; now destruct p).
  rewrite qsum_over_cons, qsum_over_nil.
  rewrite (q_pair_self L Hok) by assumption.
  destruct (occupied_site mm p); qring.
Qed.

(** The sum of all energies falls by four times the energy of the
    switched magnet. *)
Lemma q_energy_total_switched :
  qsum2_upto (ny mm) (nx mm) (q_energy L mm' e pref Normal)
  = (qsum2_upto (ny mm) (nx mm) (q_energy L mm e pref Normal)
     - (q2 + q2) * q_energy L mm e pref Normal (fst p) (snd p))%Qc.
Proof.
  destruct one_site_in_lattice as [Hnd Hin].
  set (E0 := q_energy L mm e pref Normal).
  set (G := fun i j : nat =>
              if occupied_site mm p
              then (q2 * (pref * (q_mm mm' i j
                                  * (q_mm mm' (fst p) (snd p)
                                     * q_pair L mm e Normal
                                         (fst p mod Unitcell.y (unitcell mm))
                                         (snd p mod Unitcell.x (unitcell mm))
                                         (fst p) (snd p) i j))))%Qc
              else q0).
  rewrite (@qsum2_upto_ext _ _ _
             (fun i j => (E0 i j
                          + (if mem_pos (i, j) [p] then - (q2 * E0 i j) else q0))
                         + G i j)%Qc).
  2:{ intros i j Hi Hj.
      rewrite (q_energy_switch L Hok Hreg e pref Hnd Hin Normal Hi Hj).
      rewrite qsum_over_cons, qsum_over_nil. cbn [mate]. fold E0. unfold G.
      destruct (mem_pos (i, j) [p]); destruct (occupied_site mm p); qring. }
  rewrite !qsum2_upto_add.
  rewrite (@qsum2_upto_mem (ny mm) (nx mm) [p] (fun i j => - (q2 * E0 i j))%Qc Hnd Hin).
  rewrite qsum_over_cons, qsum_over_nil.
  assert (HG : qsum2_upto (ny mm) (nx mm) G
               = (q2 * q_energy L mm' e pref Normal (fst p) (snd p))%Qc).
  { unfold G, q_energy. cbn [unitcell with_m moment m].
    change (occupied mm' ?y ?x) with (occupied mm y x).
    change (occupied_site mm p)
      with (occupied mm (fst p mod Unitcell.y (unitcell mm))
              (snd p mod Unitcell.x (unitcell mm))).
    destruct (occupied mm _ _); [|rewrite qsum2_upto_zero by reflexivity; qring].
    unfold q_conv. cbn [ny nx with_m].
    change (q_pair L mm' e) with (q_pair L mm e).
    rewrite <- !qsum2_upto_scale. apply qsum2_upto_ext. intros i j _ _.
    unfold q_mm. cbn [m moment with_m]. qring. }
  rewrite HG, q_energy_of_switched. fold E0. qring.
Qed.
End OneSwitch.

(** What [energy_switch] returns for a magnet is the change of the total
    dipolar energy when that magnet switches: on a contribution in step with
    a well-formed lattice, after the switch of the magnet at [p], [E_tot] is
    the old [E_tot] plus the value that [energy_switch] gave for [p]
    beforehand.  For a site without a magnet both are unchanged. *)
Theorem energy_switch_is_the_change_of_E_tot (L : libm) (d : Dipolar.t) (p : nat * nat) :
  lattice_okb (Dipolar.mm d) = true -> regular_okb (Dipolar.mm d) = true ->
  is_finb (Dipolar.prefactor d) = true -> (Dipolar.decay_exponent d < q0)%Qc ->
  initialized L d -> consistent d ->
  in_latticeb (Dipolar.mm d) [p] = true ->
  exists dE d',
    Energy.energy_switch (Some [p]) d = Ok (Energy.Arr1 [dE], d)
    /\ follow (Single [p]) d = Ok d'
    /\ Dipolar.E_tot d' = xadd (Dipolar.E_tot d) dE.
Proof.
  intros Hok Hreg Hpref Hdec Hinit Hc Hin.
  apply lattice_okb_ok in Hok. apply regular_okb_ok in Hreg. apply is_finb_ok in Hpref.
  apply in_latticeb_ok in Hin. apply Forall_inv in Hin. destruct Hin as [Hpy Hpx].
  pose proof (initialized_ok Hok Hdec Hpref Hinit) as Hs.
  destruct (@dipolar_single_switch L d p [] Hs Hreg Hc Hpy Hpx)
    as (d' & F & Hs' & Hc' & Emm).
  destruct (dipolar_follow_static _ _ F) as (_ & P & D & _).
  apply (dipolar_consistent_closed Hs) in Hc. destruct Hc as [HE _].
  apply (dipolar_consistent_closed Hs') in Hc'. destruct Hc' as [HE' _].
  rewrite Emm, P, D in HE'. cbn [ny nx with_m] in HE'.
  set (e := (- Dipolar.decay_exponent d)%Qc) in *.
  set (pref := fval (Dipolar.prefactor d)) in *.
  set (mm := Dipolar.mm d) in *.
  exists (xmul xm2 (xget (Dipolar.E d) (fst p) (snd p))), d'.
  split; [|split; [exact F|]].
  - unfold Energy.energy_switch. cbn [Energy.E Dipolar_Energy].
    rewrite take_at_in_shape; [reflexivity|].
    rewrite HE, nrows_tabulate, ncols_tabulate by apply (ok_ny Hok).
    constructor; [now split | constructor].
  - unfold Dipolar.E_tot. rewrite HE', HE.
    rewrite !(@sum_entries (ny mm) (nx mm)) by apply shaped_tabulate.
    rewrite (@sum2_upto_fin _ _ _
               (q_energy L (with_m mm (switched (m mm) [p])) e pref Normal))
      by (intros; now rewrite xget_tabulate).
    rewrite (@sum2_upto_fin _ _ _ (q_energy L mm e pref Normal))
      by (intros; now rewrite xget_tabulate).
    rewrite xget_tabulate by assumption.
    rewrite !xdiv_two. unfold xm2. cbn [xmul xadd]. f_equal.
    rewrite (q_energy_total_switched L Hok Hreg e pref p Hpy Hpx).
    rewrite q2_eq. unfold q1. field. discriminate.
Qed.

Lemma energy_switch_is_the_change_of_E_tot_witness :
  let d := Dipolar.initialize Sample.math xtwo (Q2Qc (-3)) Sample.oop_checker in
  exists dE d',
    Energy.energy_switch (Some [(1, 3)]) d = Ok (Energy.Arr1 [dE], d)
    /\ follow (Single [(1, 3)]) d = Ok d'
    /\ Dipolar.E_tot d' = xadd (Dipolar.E_tot d) dE.
Proof.
  intros d.
  apply (@energy_switch_is_the_change_of_E_tot Sample.math d (1, 3));
    try reflexivity; vm_compute; repeat split; reflexivity.
Defined.

Lemma sum_list_map_fin {A} (l : list A) (F : A -> xnum) (f : A -> Qc) :
  (forall a, In a l -> F a = Fin (f a)) ->
  sum_list (map F l) = Fin (qsum_over l f).
Proof.
  induction l as [|a l IH]; intros H.
  - now rewrite qsum_over_nil.
  - cbn [map sum_list fold_right]. fold (sum_list (map F l)).
    rewrite IH by (intros; apply H; now right).
    rewrite (H a) by now left. now rewrite qsum_over_cons.
Qed.

(** For the Zeeman energy the changes that [energy_switch] reports add up
    over a batch: after the switch of the magnets at distinct sites [idx] of
    the lattice, [E_tot] is the old [E_tot] plus the sum of the values that
    [energy_switch] gave for [idx] beforehand. *)
Theorem zeeman_changes_add_up (z : Zeeman.t) (idx : indices) :
  lattice_okb (Zeeman.mm z) = true ->
  fin_shapedb (ny (Zeeman.mm z)) (nx (Zeeman.mm z)) (Zeeman.E z) = true ->
  consistent z ->
  nodupb idx = true -> in_latticeb (Zeeman.mm z) idx = true ->
  exists dE z',
    Energy.energy_switch (Some idx) z = Ok (Energy.Arr1 dE, z)
    /\ follow (Multiple idx) z = Ok z'
    /\ Zeeman.E_tot z' = xadd (Zeeman.E_tot z) (sum_list dE).
Proof.
  intros Hok HE [_ HEp] Hnd Hin. cbn in HEp.
  apply lattice_okb_ok in Hok. apply fin_shapedb_ok in HE. destruct HE as [SE FE].
  apply nodupb_ok in Hnd. apply in_latticeb_ok in Hin.
  pose proof (ok_ny Hok) as Hy. pose proof (ok_m Hok) as Hm.
  set (mm := Zeeman.mm z) in *.
  set (E' := tabulate (ny mm) (nx mm)
               (fun i j => if mem_pos (i, j) idx
                           then xmul (xget (Zeeman.E z) i j) xm1
                           else xget (Zeeman.E z) i j)).
  assert (F : exists Ep', follow (Multiple idx) z
                          = Ok (Zeeman.with_E (Zeeman.with_mm
                                                 (with_m mm (switched (m mm) idx)) z)
                                  E' Ep')).
  { cbn [follow Energy.mm Energy.with_mm Energy.update_multiple Zeeman_Energy].
    fold mm. rewrite (switch_ok Hok Hin). cbn [bind].
    unfold Zeeman.update_multiple.
    cbn [Zeeman.with_mm Zeeman.E Zeeman.E_perp Zeeman.mm].
    rewrite (negate_at_ok SE Hy Hin). cbn [bind]. fold E'.
    cbn [with_m USE_PERP_ENERGY].
    destruct (USE_PERP_ENERGY mm) eqn:Hperp.
    - rewrite HEp. cbn [Zeeman.update Zeeman.E_perp]. fold mm. rewrite ?Hperp.
      rewrite (negate_multiply _ Hm Hy Hin). cbn [bind]. eexists. reflexivity.
    - cbn [bind]. eexists. reflexivity. }
  destruct F as [Ep' F].
  eexists. eexists. split; [|split; [exact F|]].
  - unfold Energy.energy_switch. cbn [Energy.E Zeeman_Energy].
    rewrite take_at_in_shape; [reflexivity|].
    now rewrite (shaped_nrows SE), (shaped_ncols SE Hy).
  - unfold Zeeman.E_tot. cbn [Zeeman.with_E Zeeman.E]. rewrite map_map.
    rewrite (sum_list_map_fin idx _
               (fun p => - q2 * qget (Zeeman.E z) (fst p) (snd p))%Qc)
      by (intros p _; now rewrite (xget_fin (fst p) (snd p) FE)).
    rewrite (sum_entries SE), (@sum_entries (ny mm) (nx mm) E')
      by apply shaped_tabulate.
    rewrite (@sum2_upto_fin _ _ (xget E')
               (fun i j => qget (Zeeman.E z) i j
                           + (if mem_pos (i, j) idx
                              then - q2 * qget (Zeeman.E z) i j else q0))%Qc).
    2:{ intros i j Hi Hj. unfold E'. rewrite xget_tabulate by assumption.
        rewrite (xget_fin i j FE).
        destruct (mem_pos (i, j) idx); cbn [xmul xm1]; f_equal; qring. }
    rewrite (@sum2_upto_fin _ _ (xget (Zeeman.E z)) (qget (Zeeman.E z)))
      by (intros; apply (xget_fin _ _ FE)).
    rewrite qsum2_upto_add.
    rewrite (@qsum2_upto_mem (ny mm) (nx mm) idx
               (fun i j => - q2 * qget (Zeeman.E z) i j)%Qc Hnd Hin).
    reflexivity.
Qed.

Lemma zeeman_changes_add_up_witness :
  let z := Zeeman.initialize Sample.math (Sample.of_Zs [[1; 2; 3]; [4; 5; 6]]%Z)
             (zeros 2 3) Sample.oop_2x3 in
  let idx := [(0, 1); (1, 2); (1, 0)] in
  exists dE z',
    Energy.energy_switch (Some idx) z = Ok (Energy.Arr1 dE, z)
    /\ follow (Multiple idx) z = Ok z'
    /\ Zeeman.E_tot z' = xadd (Zeeman.E_tot z) (sum_list dE).
Proof.
  intros z idx.
  apply (@zeeman_changes_add_up z idx);
    try reflexivity; vm_compute; repeat split; reflexivity.
Defined.

(** ** Switching back *)

Lemma switched_twice ny nx (g : grid xnum) idx :
  fin_shaped ny nx g -> 0 < ny -> switched (switched g idx) idx = g.
Proof.
  intros [Sg Fg] Hy.
  assert (S1 : shaped ny nx (switched g idx)).
  { unfold switched. rewrite (shaped_nrows Sg), (shaped_ncols Sg Hy).
    apply shaped_tabulate. }
  unfold switched at 1.
  rewrite (shaped_nrows S1), (shaped_ncols S1 Hy).
  transitivity (tabulate ny nx (get xzero g)); [|now apply tabulate_get].
  apply tabulate_ext. intros i j Hi Hj.
  unfold switched. rewrite (shaped_nrows Sg), (shaped_ncols Sg Hy).
  rewrite xget_tabulate by assumption.
  destruct (mem_pos (i, j) idx); [|reflexivity].
  fold (xget g i j). rewrite (xget_fin i j Fg). cbn [xmul xm1]. f_equal.
  unfold q1. ring.
Qed.

(** A switch that is followed by the same switch leaves the dipolar
    contribution where it was: the lattice, [E] and [E_perp] are those from
    before the two switches, for a single magnet and for an admissible
    batch. *)
Theorem switching_twice_restores (L : libm) (d : Dipolar.t) (sw : switching) :
  lattice_okb (Dipolar.mm d) = true -> regular_okb (Dipolar.mm d) = true ->
  is_finb (Dipolar.prefactor d) = true -> (Dipolar.decay_exponent d < q0)%Qc ->
  initialized L d -> consistent d ->
  admissible (Dipolar.mm d) sw = true ->
  exists d',
    follow_all [sw; sw] d = Ok d'
    /\ Dipolar.mm d' = Dipolar.mm d
    /\ Dipolar.E d' = Dipolar.E d
    /\ Dipolar.E_perp d' = Dipolar.E_perp d.
Proof.
  intros Hok Hreg Hpref Hdec Hinit Hc Hadm.
  apply lattice_okb_ok in Hok. apply regular_okb_ok in Hreg. apply is_finb_ok in Hpref.
  pose proof (initialized_ok Hok Hdec Hpref Hinit) as Hs.
  destruct (dipolar_follow sw Hs Hreg Hc Hadm) as (d1 & F1 & Hs1 & Hc1 & Emm1).
  assert (Hreg1 : regular (Dipolar.mm d1))
    by (rewrite Emm1; now apply switched_regular).
  assert (Hadm1 : admissible (Dipolar.mm d1) sw = true)
    by (now rewrite Emm1, admissible_with_m).
  destruct (dipolar_follow sw Hs1 Hreg1 Hc1 Hadm1) as (d2 & F2 & Hs2 & Hc2 & Emm2).
  destruct (dipolar_follow_static _ _ F1) as (U1 & P1 & D1 & Q1).
  destruct (dipolar_follow_static _ _ F2) as (U2 & P2 & D2 & Q2).
  assert (Emm : Dipolar.mm d2 = Dipolar.mm d).
  { rewrite Emm2, Emm1. cbn [with_m m].
    rewrite (switched_twice (sites sw) (ok_m Hok) (ok_ny Hok)).
    destruct (Dipolar.mm d). reflexivity. }
  exists d2. split; [|split; [exact Emm|]].
  - cbn [follow_all]. rewrite F1. cbn [bind]. rewrite F2. reflexivity.
  - apply (@consistent_agree L d2 d Hs2 Hs Hc2 Hc).
    + now rewrite Emm.
    + now rewrite P2, P1.
    + now rewrite D2, D1.
    + intros Hu. rewrite Emm in Hu.
      rewrite Q2 by (now rewrite U1). now apply Q1.
Qed.

Lemma switching_twice_restores_witness :
  let d := Dipolar.initialize Sample.math xtwo (Q2Qc (-3)) (Sample.ip_2x4 true) in
  let sw := Multiple [(0, 0); (1, 3); (0, 2)] in
  exists d',
    follow_all [sw; sw] d = Ok d'
    /\ Dipolar.mm d' = Dipolar.mm d
    /\ Dipolar.E d' = Dipolar.E d
    /\ Dipolar.E_perp d' = Dipolar.E_perp d.
Proof.
  intros d sw.
  apply (@switching_twice_restores Sample.math d sw);
    try reflexivity; vm_compute; repeat split; reflexivity.
Defined.

(** ** The prefactor setter *)







(** ** Sites outside the lattice *)





(** ** Reversing every magnet *)

Lemma xneg_involutive (a : xnum) : xneg (xneg a) = a.
Proof. destruct a; cbn [xneg]; try reflexivity. f_equal. ring. Qed.

Lemma xneg_zero : xneg xzero = xzero.
Proof. unfold xzero. cbn [xneg]. f_equal; try qring. Qed.

Lemma Qccompare_opp (q : Qc) : Qccompare (- q)%Qc q0 = CompOpp (Qccompare q q0).
Proof. rewrite <- Qccompare_negated. f_equal. qring. Qed.

Lemma xneg_inf_times s c : xneg (inf_times s c) = inf_times s (CompOpp c).
Proof. now destruct s, c. Qed.

Lemma xmul_xneg_l (a b : xnum) : xmul (xneg a) b = xneg (xmul a b).
Proof.
  destruct a as [p| | |], b as [q| | |]; cbn [xneg xmul]; try reflexivity;
    rewrite ?xneg_inf_times, ?Qccompare_opp; try reflexivity;
    try (f_equal; ring);
    now destruct (Qccompare _ q0).
Qed.

Lemma xmul_xneg_r (a b : xnum) : xmul a (xneg b) = xneg (xmul a b).
Proof. now rewrite xmul_comm, xmul_xneg_l, xmul_comm. Qed.

Lemma xadd_xneg (a b : xnum) : xadd (xneg a) (xneg b) = xneg (xadd a b).
Proof.
  destruct a as [p| | |], b as [q| | |]; cbn [xneg xadd]; try reflexivity.
  f_equal. ring.
Qed.

Lemma sum_list_xneg (l : list xnum) : sum_list (map xneg l) = xneg (sum_list l).
Proof.
  unfold sum_list. induction l as [|a l IH]; cbn [map fold_right].
  - symmetry. apply xneg_zero.
  - now rewrite IH, xadd_xneg.
Qed.

Lemma sum_upto_xneg n (f : nat -> xnum) :
  sum_upto n (fun a => xneg (f a)) = xneg (sum_upto n f).
Proof. unfold sum_upto. now rewrite <- sum_list_xneg, map_map. Qed.

Lemma sum2_upto_xneg ny nx (f : nat -> nat -> xnum) :
  sum2_upto ny nx (fun a b => xneg (f a b)) = xneg (sum2_upto ny nx f).
Proof.
  unfold sum2_upto. rewrite <- sum_upto_xneg. apply sum_upto_ext.
  intros a _. apply sum_upto_xneg.
Qed.

Section Reversed.
Variables ny nx : nat.
Hypothesis Hy : 0 < ny.
Hypothesis Hx : 0 < nx.
Variable g : grid xnum.
Hypothesis Sg : shaped ny nx g.

Lemma neg_shaped : shaped ny nx (neg g).
Proof. unfold neg. now apply map1_shape. Qed.

Lemma neg_get i j : i < ny -> j < nx -> xget (neg g) i j = xneg (xget g i j).
Proof. intros Hi Hj. unfold neg. now rewrite (map1_get _ Sg Hy Hi Hj). Qed.

Lemma multiply_neg_l (F : grid xnum) : multiply (neg g) F = neg (multiply g F).
Proof.
  unfold multiply. rewrite (map2_shaped _ _ neg_shaped Hy).
  unfold neg at 2. rewrite (@map1_shaped _ ny nx) by (try assumption; now apply map2_shape).
  apply tabulate_ext. intros i j Hi Hj.
  rewrite (map2_get _ _ Sg Hy Hi Hj), neg_get by assumption. apply xmul_xneg_l.
Qed.

Lemma multiply_neg_r (F : grid xnum) :
  shaped ny nx F -> multiply F (neg g) = neg (multiply F g).
Proof.
  intros SF. unfold multiply. rewrite (map2_shaped _ _ SF Hy).
  unfold neg at 2. rewrite (@map1_shaped _ ny nx) by (try assumption; now apply map2_shape).
  apply tabulate_ext. intros i j Hi Hj.
  rewrite (map2_get _ _ SF Hy Hi Hj), neg_get by assumption. apply xmul_xneg_r.
Qed.

Lemma padded_neg wrap (i j : Z) : padded wrap (neg g) i j = xneg (padded wrap g i j).
Proof.
  unfold padded.
  rewrite (shaped_nrows neg_shaped), (shaped_ncols neg_shaped Hy),
    (shaped_nrows Sg), (shaped_ncols Sg Hy).
  destruct wrap.
  - apply neg_get.
    + pose proof (Z.mod_pos_bound i (Z.of_nat ny)). lia.
    + pose proof (Z.mod_pos_bound j (Z.of_nat nx)). lia.
  - destruct ((0 <=? i) && (i <? Z.of_nat ny) && (0 <=? j) && (j <? Z.of_nat nx))%Z eqn:B.
    + apply neg_get; lia.
    + symmetry. apply xneg_zero.
Qed.

Lemma convolve2d_same_neg wrap (k : grid xnum) :
  convolve2d_same wrap (neg g) k = neg (convolve2d_same wrap g k).
Proof.
  unfold convolve2d_same.
  rewrite (shaped_nrows neg_shaped), (shaped_ncols neg_shaped Hy),
    (shaped_nrows Sg), (shaped_ncols Sg Hy).
  unfold neg at 2. rewrite (@map1_shaped _ ny nx) by (try assumption; apply shaped_tabulate).
  apply tabulate_ext. intros i j Hi Hj.
  rewrite xget_tabulate by assumption. rewrite <- sum2_upto_xneg.
  unfold sum2_upto. apply sum_upto_ext. intros a _. apply sum_upto_ext. intros b _.
  now rewrite padded_neg, xmul_xneg_l.
Qed.
End Reversed.

Lemma neg_involutive ny nx (g : grid xnum) :
  shaped ny nx g -> 0 < ny -> neg (neg g) = g.
Proof.
  intros Sg Hy. unfold neg at 1.
  rewrite (@map1_shaped _ ny nx) by (try assumption; now apply neg_shaped).
  transitivity (tabulate ny nx (get xzero g)); [|now apply tabulate_get].
  apply tabulate_ext. intros i j Hi Hj.
  rewrite (neg_get Hy Sg Hi Hj). apply xneg_involutive.
Qed.

Lemma multiply_neg_neg ny nx (a b : grid xnum) :
  shaped ny nx a -> shaped ny nx b -> 0 < ny ->
  multiply (neg a) (neg b) = multiply a b.
Proof.
  intros Sa Sb Hy.
  rewrite (multiply_neg_l Hy Sa), (multiply_neg_r Hy Sb Sa).
  apply (@neg_involutive ny nx); [|assumption]. unfold multiply. now apply map2_shape.
Qed.

Lemma neg_zeros ny nx : neg (zeros ny nx) = zeros ny nx.
Proof.
  unfold neg, map1, zeros. 
  destruct ny as [|ny]; [reflexivity|].
  rewrite nrows_tabulate, ncols_tabulate by lia.
  apply tabulate_ext. intros i j Hi Hj. rewrite xget_tabulate by assumption.
  apply xneg_zero.
Qed.

Lemma all_switched_lattice_ok mm : lattice_ok mm -> lattice_ok (all_switched mm).
Proof.
  intros Hok. pose proof (ok_m Hok) as [Sm Fm]. pose proof (ok_ny Hok) as Hy.
  destruct Hok. constructor; try assumption.
  cbn [all_switched with_m m ny nx]. split; [now apply neg_shaped|].
  unfold neg. rewrite (map1_shaped _ Sm Hy). apply finite_tabulate.
  intros i j _ _. now rewrite (xget_fin i j Fm).
Qed.

Lemma q_mm_all_switched mm a b :
  lattice_ok mm -> a < ny mm -> b < nx mm ->
  q_mm (all_switched mm) a b = (- q_mm mm a b)%Qc.
Proof.
  intros Hok Ha Hb. destruct (ok_m Hok) as [Sm Fm].
  unfold q_mm, qget. cbn [all_switched with_m m moment].
  rewrite (neg_get (ok_ny Hok) Sm Ha Hb), (xget_fin a b Fm). cbn [xneg fval]. ring.
Qed.

Lemma q_energy_all_switched L mm e pref k i j :
  lattice_ok mm -> i < ny mm -> j < nx mm ->
  q_energy L (all_switched mm) e pref k i j = q_energy L mm e pref k i j.
Proof.
  intros Hok Hi Hj. destruct (ok_m Hok) as [Sm Fm].
  unfold q_energy, all_switched. cbn [unitcell with_m moment m].
  change (occupied (with_m mm (neg (m mm))) ?y ?x) with (occupied mm y x).
  destruct (occupied mm _ _); [|reflexivity].
  unfold q_conv. cbn [ny nx with_m].
  change (q_pair L (with_m mm (neg (m mm))) e) with (q_pair L mm e).
  rewrite (@qsum2_upto_ext _ _ _
             (fun a b => (- q1) * (q_pair L mm e k (i mod Unitcell.y (unitcell mm))
                                     (j mod Unitcell.x (unitcell mm)) i j a b
                                   * q_mm mm a b))%Qc).
  2:{ intros a b Ha Hb. fold (all_switched mm).
      rewrite (q_mm_all_switched Hok Ha Hb). qring. }
  rewrite qsum2_upto_scale. unfold qget.
  rewrite (neg_get (ok_ny Hok) Sm Hi Hj), (xget_fin i j Fm). cbn [xneg fval]. qring.
Qed.

(** Reversing every magnet of the lattice leaves the dipolar and the exchange
    energies as they are and reverses the sign of the Zeeman energies: the
    contributions initialised on the lattice with [m] replaced by [-m] hold
    the same [E] and [E_perp] for the two pairwise energies, and the negated
    [E] and [E_perp] for the Zeeman energy, whatever the field, the exchange
    constant and the neighbour mask are. *)
Theorem reversing_every_magnet (L : libm) (magnitude angle : grid xnum)
    (prefactor J : xnum) (decay_exponent : Qc) (mm0 : Magnets.t) :
  lattice_okb mm0 = true -> is_finb prefactor = true -> (decay_exponent < q0)%Qc ->
  let mm1 := all_switched mm0 in
  (Zeeman.E (Zeeman.initialize L magnitude angle mm1)
   = neg (Zeeman.E (Zeeman.initialize L magnitude angle mm0))
   /\ Zeeman.E_perp (Zeeman.initialize L magnitude angle mm1)
      = neg (Zeeman.E_perp (Zeeman.initialize L magnitude angle mm0)))
  /\ (Dipolar.E (Dipolar.initialize L prefactor decay_exponent mm1)
      = Dipolar.E (Dipolar.initialize L prefactor decay_exponent mm0)
      /\ Dipolar.E_perp (Dipolar.initialize L prefactor decay_exponent mm1)
         = Dipolar.E_perp (Dipolar.initialize L prefactor decay_exponent mm0))
  /\ (Exchange.E (Exchange.initialize J mm1) = Exchange.E (Exchange.initialize J mm0)
      /\ Exchange.E_perp (Exchange.initialize J mm1)
         = Exchange.E_perp (Exchange.initialize J mm0)).
Proof.
  intros Hok Hpref Hdec mm1.
  apply lattice_okb_ok in Hok. apply is_finb_ok in Hpref.
  pose proof (all_switched_lattice_ok Hok) as Hok1. fold mm1 in Hok1.
  pose proof (ok_ny Hok) as Hy. pose proof (ok_nx Hok) as Hx.
  destruct (ok_m Hok) as [Sm Fm].
  destruct (ok_ox Hok) as [Sox _]. destruct (ok_oy Hok) as [Soy _].
  assert (Sm1 : shaped (ny mm0) (nx mm0) (neg (m mm0))) by now apply neg_shaped.
  split; [|split].
  - unfold Zeeman.initialize, Zeeman._initialize, Zeeman.set_field.
    cbn [Zeeman.mm]. unfold mm1, all_switched. cbn [with_m in_plane].
    destruct (in_plane mm0); unfold Zeeman.update;
      cbn [Zeeman.mm Zeeman.E Zeeman.E_perp Zeeman.E_factor Zeeman.E_factor_perp
           Zeeman.magnitude Zeeman.angle
           with_m m moment orientation_x orientation_y USE_PERP_ENERGY].
    all: split; [now apply (@multiply_neg_l (ny mm0) (nx mm0))|].
    all: destruct (USE_PERP_ENERGY mm0).
    all: rewrite ?(zeros_like_shaped Sm1 Hy), ?(zeros_like_shaped Sm Hy).
    all: try (now apply (@multiply_neg_l (ny mm0) (nx mm0))).
    all: symmetry; apply neg_zeros.
  - destruct (@dipolar_initialize_closed L prefactor decay_exponent mm0 Hok Hdec Hpref)
      as [E0 P0].
    destruct (@dipolar_initialize_closed L prefactor decay_exponent mm1 Hok1 Hdec Hpref)
      as [E1 P1].
    rewrite E1, E0, P1, P0. unfold mm1, all_switched. cbn [with_m ny nx USE_PERP_ENERGY].
    fold (all_switched mm0).
    split.
    + apply tabulate_ext. intros i j Hi Hj. f_equal.
      now apply q_energy_all_switched.
    + destruct (USE_PERP_ENERGY mm0); [|reflexivity].
      apply tabulate_ext. intros i j Hi Hj. f_equal.
      now apply q_energy_all_switched.
  - unfold Exchange.initialize, Exchange._initialize, Exchange.update.
    cbn [Exchange.mm Exchange.J Exchange.local_interaction Exchange.E Exchange.E_perp].
    unfold mm1, all_switched. cbn [with_m in_plane PBC nearest_neighbors m
                                   orientation_x orientation_y USE_PERP_ENERGY].
    set (nn := nearest_neighbors mm0).
    destruct (in_plane mm0);
      cbn [Exchange.mm Exchange.J Exchange.local_interaction Exchange.E Exchange.E_perp].
    + set (mx := multiply (orientation_x mm0) (m mm0)).
      set (my := multiply (orientation_y mm0) (m mm0)).
      assert (Smx : shaped (ny mm0) (nx mm0) mx) by (unfold mx, multiply; now apply map2_shape).
      assert (Smy : shaped (ny mm0) (nx mm0) my) by (unfold my, multiply; now apply map2_shape).
      rewrite (multiply_neg_r Hy Sm Sox), (multiply_neg_r Hy Sm Soy). fold mx my.
      rewrite (convolve2d_same_neg Hy Hx Smx), (convolve2d_same_neg Hy Hx Smy).
      assert (SC : forall a, shaped (ny mm0) (nx mm0) a ->
                             shaped (ny mm0) (nx mm0) (convolve2d_same (PBC mm0) a nn)).
      { intros a Sa. now apply convolve2d_same_shape. }
      rewrite !(@multiply_neg_neg (ny mm0) (nx mm0)) by (try assumption; now apply SC).
      split; [reflexivity|].
      destruct (USE_PERP_ENERGY mm0);
        rewrite ?(zeros_like_shaped Sm1 Hy), ?(zeros_like_shaped Sm Hy); reflexivity.
    + rewrite (convolve2d_same_neg Hy Hx Sm).
      rewrite (@multiply_neg_neg (ny mm0) (nx mm0))
        by (try assumption; now apply convolve2d_same_shape).
      split; [reflexivity|].
      destruct (USE_PERP_ENERGY mm0);
        rewrite ?(zeros_like_shaped Sm1 Hy), ?(zeros_like_shaped Sm Hy); reflexivity.
Qed.

Lemma reversing_every_magnet_witness :
  let mm0 := Sample.ip_2x4 true in
  let mm1 := all_switched mm0 in
  let magnitude := Sample.of_Zs [[1; 2; 3; 4]; [4; 5; 6; 7]]%Z in
  let angle := zeros 2 4 in
  let J := xtwo in
  let prefactor := xtwo in
  let decay_exponent := Q2Qc (-3) in
  let L := Sample.math in
  (Zeeman.E (Zeeman.initialize L magnitude angle mm1)
   = neg (Zeeman.E (Zeeman.initialize L magnitude angle mm0))
   /\ Zeeman.E_perp (Zeeman.initialize L magnitude angle mm1)
      = neg (Zeeman.E_perp (Zeeman.initialize L magnitude angle mm0)))
  /\ (Dipolar.E (Dipolar.initialize L prefactor decay_exponent mm1)
      = Dipolar.E (Dipolar.initialize L prefactor decay_exponent mm0)
      /\ Dipolar.E_perp (Dipolar.initialize L prefactor decay_exponent mm1)
         = Dipolar.E_perp (Dipolar.initialize L prefactor decay_exponent mm0))
  /\ (Exchange.E (Exchange.initialize J mm1) = Exchange.E (Exchange.initialize J mm0)
      /\ Exchange.E_perp (Exchange.initialize J mm1)
         = Exchange.E_perp (Exchange.initialize J mm0)).
Proof.
  intros mm0 mm1 magnitude angle J prefactor decay_exponent L.
  apply (@reversing_every_magnet L magnitude angle prefactor J decay_exponent mm0);
    reflexivity.
Defined.

(** ** Histories that end in the same configuration *)

Lemma row_eqb_eq (r s : list xnum) : row_eqb r s = true -> r = s.
Proof.
  unfold row_eqb. revert s. induction r as [|a r IH]; intros [|b s] H;
    try reflexivity; try discriminate.
  cbn [length combine forallb fst snd] in H.
  apply andb_true_iff in H. destruct H as [Hl H].
  apply andb_true_iff in H. destruct H as [Hab H].
  apply xnum_eqb_eq in Hab. subst b. f_equal. apply IH.
  cbn [Nat.eqb] in Hl. now rewrite Hl, H.
Qed.

Lemma grid_eqb_eq (a b : grid xnum) : grid_eqb a b = true -> a = b.
Proof.
  unfold grid_eqb. revert b. induction a as [|r a IH]; intros [|s b] H;
    try reflexivity; try discriminate.
  cbn [length combine forallb fst snd] in H.
  apply andb_true_iff in H. destruct H as [Hl H].
  apply andb_true_iff in H. destruct H as [Hrs H].
  apply row_eqb_eq in Hrs. subst s. f_equal. apply IH.
  cbn [Nat.eqb] in Hl. now rewrite Hl, H.
Qed.

(** The dipolar energies depend on the configuration that the magnets are
    in, not on the way there: two admissible histories of switches that leave
    the lattice in the same configuration leave the contribution with the
    same [E] and the same [E_perp], whatever the order and the grouping of
    the switches were. *)
Theorem energies_do_not_depend_on_the_path (L : libm) (d : Dipolar.t)
    (h1 h2 : list switching) :
  lattice_okb (Dipolar.mm d) = true -> regular_okb (Dipolar.mm d) = true ->
  is_finb (Dipolar.prefactor d) = true -> (Dipolar.decay_exponent d < q0)%Qc ->
  initialized L d -> consistent d ->
  forallb (admissible (Dipolar.mm d)) h1 = true ->
  forallb (admissible (Dipolar.mm d)) h2 = true ->
  grid_eqb (after h1 (m (Dipolar.mm d))) (after h2 (m (Dipolar.mm d))) = true ->
  exists d1 d2,
    follow_all h1 d = Ok d1 /\ follow_all h2 d = Ok d2
    /\ Dipolar.mm d1 = Dipolar.mm d2
    /\ Dipolar.E d1 = Dipolar.E d2
    /\ Dipolar.E_perp d1 = Dipolar.E_perp d2.
Proof.
  intros Hok Hreg Hpref Hdec Hinit Hc H1 H2 Hsame.
  apply lattice_okb_ok in Hok. apply regular_okb_ok in Hreg. apply is_finb_ok in Hpref.
  apply grid_eqb_eq in Hsame.
  pose proof (initialized_ok Hok Hdec Hpref Hinit) as Hs.
  destruct (dipolar_follow_all h1 Hs Hreg Hc H1) as (d1 & F1 & Hs1 & Hc1 & E1).
  destruct (dipolar_follow_all h2 Hs Hreg Hc H2) as (d2 & F2 & Hs2 & Hc2 & E2).
  destruct (dipolar_follow_all_static _ _ F1) as (_ & P1 & D1 & Q1).
  destruct (dipolar_follow_all_static _ _ F2) as (_ & P2 & D2 & Q2).
  assert (Emm : Dipolar.mm d1 = Dipolar.mm d2) by (now rewrite E1, E2, Hsame).
  exists d1, d2. split; [exact F1|]. split; [exact F2|]. split; [exact Emm|].
  apply (consistent_agree Hs1 Hs2 Hc1 Hc2); try congruence.
  rewrite E1. cbn [with_m USE_PERP_ENERGY]. intros Hu. now rewrite Q1, Q2.
Qed.

Lemma energies_do_not_depend_on_the_path_witness :
  let d := Dipolar.initialize Sample.math xtwo (Q2Qc (-3)) (Sample.ip_2x4 true) in
  let h1 := [Single [(0, 1)]; Multiple [(1, 3); (0, 0)]; Single [(0, 1)];
             Single [(1, 2)]] in
  let h2 := [Multiple [(0, 0); (1, 2); (1, 3)]] in
  exists d1 d2,
    follow_all h1 d = Ok d1 /\ follow_all h2 d = Ok d2
    /\ Dipolar.mm d1 = Dipolar.mm d2
    /\ Dipolar.E d1 = Dipolar.E d2
    /\ Dipolar.E_perp d1 = Dipolar.E_perp d2.
Proof.
  intros d h1 h2.
  apply (@energies_do_not_depend_on_the_path Sample.math d h1 h2);
    try reflexivity; vm_compute; repeat split; reflexivity.
Defined.

(** ** Contributions that are switched off *)

Lemma is_fin_xmul (a b : xnum) : is_fin a -> is_fin b -> is_fin (xmul a b).
Proof. now destruct a, b. Qed.

Lemma is_fin_xadd (a b : xnum) : is_fin a -> is_fin b -> is_fin (xadd a b).
Proof. now destruct a, b. Qed.

Lemma is_fin_xsub (a b : xnum) : is_fin a -> is_fin b -> is_fin (xsub a b).
Proof. now destruct a, b. Qed.

Lemma is_fin_sum2_upto ny nx (F : nat -> nat -> xnum) :
  (forall a b, is_fin (F a b)) -> is_fin (sum2_upto ny nx F).
Proof.
  intros H. rewrite (@sum2_upto_fin ny nx F (fun a b => fval (F a b))); [exact I|].
  intros a b _ _. apply is_fin_fval, H.
Qed.

Lemma is_fin_padded wrap (g : grid xnum) (i j : Z) :
  finite g -> is_fin (padded wrap g i j).
Proof.
  intros Fg. unfold padded. destruct wrap; [apply Fg|].
  destruct (_ && _)%bool; [apply Fg | exact I].
Qed.

Section FiniteArrays.
Variables ny nx : nat.
Hypothesis Hy : 0 < ny.

Lemma fin_shaped_map2 f (a b : grid xnum) :
  (forall u v, is_fin u -> is_fin v -> is_fin (f u v)) ->
  fin_shaped ny nx a -> finite b -> fin_shaped ny nx (map2 f a b).
Proof.
  intros Hf [Sa Fa] Fb. rewrite (map2_shaped _ _ Sa Hy).
  apply fin_shaped_tabulate. intros i j _ _. now apply Hf.
Qed.

Lemma fin_shaped_convolve2d_same wrap (a k : grid xnum) :
  fin_shaped ny nx a -> finite k -> fin_shaped ny nx (convolve2d_same wrap a k).
Proof.
  intros [Sa Fa] Fk. unfold convolve2d_same.
  rewrite (shaped_nrows Sa), (shaped_ncols Sa Hy).
  apply fin_shaped_tabulate. intros i j _ _. apply is_fin_sum2_upto.
  intros u v. apply is_fin_xmul; [now apply is_fin_padded | apply Fk].
Qed.

Lemma multiply_zeros_l (g : grid xnum) :
  finite g -> multiply (zeros ny nx) g = zeros ny nx.
Proof.
  intros Fg. apply zeros_intro; [unfold multiply; apply map2_shape; [apply zeros_shaped | exact Hy]|].
  intros i j Hi Hj. unfold multiply.
  rewrite (@map2_get _ ny nx) by (try assumption; apply zeros_shaped).
  rewrite xget_zeros, (xget_fin i j Fg). apply xmul_zero_l.
Qed.

Lemma sub_zeros : sub (zeros ny nx) (zeros ny nx) = zeros ny nx.
Proof.
  apply zeros_intro; [unfold sub; apply map2_shape; [apply zeros_shaped | exact Hy]|].
  intros i j Hi Hj. unfold sub.
  rewrite (@map2_get _ ny nx) by (try assumption; apply zeros_shaped).
  rewrite xget_zeros. unfold xsub. rewrite xneg_zero. unfold xzero. cbn [xadd].
  f_equal; try qring.
Qed.

Lemma scale_by_zero (g : grid xnum) :
  fin_shaped ny nx g -> scale (xneg xzero) g = zeros ny nx.
Proof.
  intros [Sg Fg]. rewrite xneg_zero.
  apply zeros_intro; [unfold scale; now apply map1_shape|].
  intros i j Hi Hj. unfold scale.
  rewrite (@map1_get _ ny nx) by assumption.
  rewrite (xget_fin i j Fg). apply xmul_zero_l.
Qed.

Lemma sum_zeros : sum (zeros ny nx) = xzero.
Proof.
  rewrite (@sum_entries ny nx) by apply zeros_shaped.
  rewrite (@sum2_upto_fin _ _ _ (fun _ _ => q0))
    by (intros; apply xget_zeros).
  unfold xzero. f_equal. now apply qsum2_upto_zero.
Qed.
End FiniteArrays.

Lemma finite_map1 f (g : grid xnum) :
  (forall u, is_fin u -> is_fin (f u)) -> finite g -> finite (map1 f g).
Proof.
  intros Hf Fg. unfold map1. apply finite_tabulate. intros i j _ _. apply Hf, Fg.
Qed.

Lemma half_of_zero : xdiv xzero xtwo = xzero.
Proof. unfold xzero. rewrite xdiv_two. f_equal. unfold Qcdiv. qring. Qed.

(** A contribution that is switched off holds no energy: the Zeeman energy of
    a field of magnitude zero (the default of its constructor) at any finite
    angle, the dipolar energy with prefactor zero and the exchange energy
    with [J = 0] all have [E] and [E_perp] zero at every site and [E_tot]
    zero, on every well-formed lattice whose neighbour mask is finite. *)
Theorem contributions_switched_off (L : libm) (angle : grid xnum)
    (decay_exponent : Qc) (mm0 : Magnets.t) (a b : nat) :
  lattice_okb mm0 = true ->
  fin_shapedb (ny mm0) (nx mm0) angle = true ->
  fin_shapedb a b (nearest_neighbors mm0) = true ->
  (decay_exponent < q0)%Qc ->
  let zero := zeros (ny mm0) (nx mm0) in
  let z := Zeeman.initialize L zero angle mm0 in
  let d := Dipolar.initialize L xzero decay_exponent mm0 in
  let e := Exchange.initialize xzero mm0 in
  (Zeeman.E z = zero /\ Zeeman.E_perp z = zero /\ Zeeman.E_tot z = xzero)
  /\ (Dipolar.E d = zero /\ Dipolar.E_perp d = zero /\ Dipolar.E_tot d = xzero)
  /\ (Exchange.E e = zero /\ Exchange.E_perp e = zero /\ Exchange.E_tot e = xzero).
Proof.
  intros Hok Hang Hnn Hdec zero z d e.
  apply lattice_okb_ok in Hok. apply fin_shapedb_ok in Hang, Hnn.
  destruct Hang as [Sang Fang]. destruct Hnn as [_ Fnn].
  pose proof (ok_ny Hok) as Hy.
  pose proof (ok_m Hok) as Hm. destruct (Hm) as [Sm Fm].
  pose proof (ok_moment Hok) as Hmo.
  pose proof (ok_ox Hok) as Hox. pose proof (ok_oy Hok) as Hoy.
  assert (Hneg : fin_shaped (ny mm0) (nx mm0) (neg (moment mm0))).
  { split; [apply (neg_shaped Hy), Hmo|].
    apply finite_map1; [now intros [] | apply Hmo]. }
  assert (Etot : forall E, E = zero -> sum E = xzero)
    by (intros E ->; now apply sum_zeros).
  assert (Etot2 : forall E, E = zero -> xdiv (sum E) xtwo = xzero)
    by (intros E HE; rewrite (Etot E HE); apply half_of_zero).
  split; [|split].
  - assert (HE : Zeeman.E z = zero /\ Zeeman.E_perp z = zero).
    { unfold z, Zeeman.initialize, Zeeman._initialize, Zeeman.set_field.
      cbn [Zeeman.mm Zeeman.magnitude Zeeman.angle].
      destruct (in_plane mm0); unfold Zeeman.update;
        cbn [Zeeman.mm Zeeman.E Zeeman.E_perp Zeeman.E_factor Zeeman.E_factor_perp].
      all: rewrite ?(zeros_like_shaped Sm Hy).
      all: fold zero.
      all: unfold zero.
      all: rewrite ?(@multiply_zeros_l (ny mm0) (nx mm0) Hy (map1 _ angle))
             by (apply finite_map1; [now intros [] | exact Fang]).
      all: rewrite ?(@multiply_zeros_l (ny mm0) (nx mm0) Hy (orientation_x mm0))
             by apply Hox.
      all: rewrite ?(@multiply_zeros_l (ny mm0) (nx mm0) Hy (orientation_y mm0))
             by apply Hoy.
      all: rewrite ?add_zeros, ?(sub_zeros (nx mm0) Hy).
      all: rewrite ?(multiply_zeros Hneg Hy).
      all: rewrite ?(multiply_zeros Hm Hy).
      all: destruct (USE_PERP_ENERGY mm0); rewrite ?(multiply_zeros Hm Hy);
        now split. }
    destruct HE as [HE HEp]. split; [exact HE|]. split; [exact HEp|].
    apply Etot, HE.
  - destruct (@dipolar_initialize_closed L xzero decay_exponent mm0 Hok Hdec I)
      as [HE HEp]. fold d in HE, HEp.
    assert (Hq : forall k i j,
               Fin (q_energy L mm0 (- decay_exponent) (fval xzero) k i j) = xzero).
    { intros k i j. unfold q_energy, xzero. cbn [fval]. f_equal.
      destruct (occupied mm0 _ _); [qring | reflexivity]. }
    assert (HE0 : Dipolar.E d = zero).
    { rewrite HE. apply tabulate_ext. intros i j _ _. apply Hq. }
    split; [exact HE0|]. split.
    + rewrite HEp. destruct (USE_PERP_ENERGY mm0); [|reflexivity].
      apply tabulate_ext. intros i j _ _. apply Hq.
    + apply Etot2, HE0.
  - assert (SC : forall g, fin_shaped (ny mm0) (nx mm0) g ->
                           fin_shaped (ny mm0) (nx mm0)
                             (convolve2d_same (PBC mm0) g (nearest_neighbors mm0))).
    { intros g Hg. now apply fin_shaped_convolve2d_same. }
    assert (SM : forall g h, fin_shaped (ny mm0) (nx mm0) g ->
                             fin_shaped (ny mm0) (nx mm0) h ->
                             fin_shaped (ny mm0) (nx mm0) (multiply g h)).
    { intros g h Hg [_ Fh]. apply (fin_shaped_map2 Hy); try assumption.
      apply is_fin_xmul. }
    assert (HE : Exchange.E e = zero /\ Exchange.E_perp e = zero).
    { unfold e, Exchange.initialize, Exchange._initialize, Exchange.update.
      cbn [Exchange.mm Exchange.J Exchange.local_interaction Exchange.E Exchange.E_perp].
      destruct (in_plane mm0);
        cbn [Exchange.mm Exchange.J Exchange.local_interaction Exchange.E Exchange.E_perp].
      - split.
        + apply (scale_by_zero Hy). apply (fin_shaped_map2 Hy).
          * apply is_fin_xadd.
          * apply SM; [apply SC|]; now apply SM.
          * apply SM; [apply SC|]; now apply SM.
        + destruct (USE_PERP_ENERGY mm0); [|now apply zeros_like_shaped].
          apply (scale_by_zero Hy). apply (fin_shaped_map2 Hy).
          * apply is_fin_xsub.
          * apply SM; [apply SC|]; now apply SM.
          * apply SM; [apply SC|]; now apply SM.
      - split.
        + apply (scale_by_zero Hy). apply SM; [now apply SC | exact Hm].
        + destruct (USE_PERP_ENERGY mm0); now apply zeros_like_shaped. }
    destruct HE as [HE HEp]. split; [exact HE|]. split; [exact HEp|].
    apply Etot2, HE.
Qed.

Lemma contributions_switched_off_witness :
  let mm0 := Sample.ip_2x4 true in
  let angle := Sample.of_Zs [[1; 2; 3; 4]; [4; 5; 6; 7]]%Z in
  let zero := zeros (ny mm0) (nx mm0) in
  let z := Zeeman.initialize Sample.math zero angle mm0 in
  let d := Dipolar.initialize Sample.math xzero (Q2Qc (-3)) mm0 in
  let e := Exchange.initialize xzero mm0 in
  (Zeeman.E z = zero /\ Zeeman.E_perp z = zero /\ Zeeman.E_tot z = xzero)
  /\ (Dipolar.E d = zero /\ Dipolar.E_perp d = zero /\ Dipolar.E_tot d = xzero)
  /\ (Exchange.E e = zero /\ Exchange.E_perp e = zero /\ Exchange.E_tot e = xzero).
Proof.
  intros mm0 angle zero z d e.
  apply (@contributions_switched_off Sample.math angle (Q2Qc (-3)) mm0 3 3);
    reflexivity.
Defined.

